(** * simplefeatures: a shallow embedding of the intersection predicates,
      the R-tree bulk loader, the DCEL construction, the GeoJSON ingress and
      the distance engine, with the properties checked against them.

    Conventions.
    - A Go function that can panic returns an [option]; [None] is the panic.
    - A Go loop whose termination is not structural takes a [fuel] argument and
      returns [None] when the fuel runs out; every theorem that states a result
      proves that the fuel handed over is enough.
    - Go's [float64] is the kernel's binary64 [float], NaN and the infinities
      with it; the exact [Scalar] of [XY.Cross] and [orientation] is a
      rational number [Q].
    - Pointers into the DCEL are indices into an explicit store. *)

From Stdlib Require Import ZArith QArith Qminmax Lqa Lia List Bool String Floats.
From Stdlib Require Import Permutation Sorted.
From stdpp Require Import base option list gmap.

Set Default Proof Using "Type".
Set Warnings "-register-all".
Open Scope Z_scope.

(* ===================================================================== *)
(** * GeoJSON ingress ([UnmarshalGeoJSON] and the coordinate converters) *)
(* ===================================================================== *)

Module GeoJSON.

Definition float64 : Set := PrimFloat.float.

(** [math.IsNaN(f)]. *)
Definition math_IsNaN (f : float64) : bool := PrimFloat.is_nan f.

(** [math.IsInf(f, 0)]: either infinity. *)
Definition math_IsInf (f : float64) : bool := PrimFloat.is_infinity f.

Record XY : Set := mkXY { X : float64; Y : float64 }.

Record Coordinates : Set := mkCoordinates { coords_XY : XY }.

(** Modelled from the spec: the stable error codes of section 6; a typed
    validation error carries one of them. The type itself is not in the
    sources. *)
Inductive ErrorCode : Set :=
| InvalidCoordinate | RingNotClosed | RingNotSimple | RingsCross
| HolesNotInsideShell | InsufficientPoints | UnsupportedDimensionality
| MismatchedVariant | ImplementationBug.

(** Go [error] values, by the way they are made: [errors.New], [fmt.Errorf]
    with its one argument, an error of the JSON decoder, and a typed
    validation error. *)
Inductive error : Set :=
| errors_New (msg : string)
| fmt_Errorf_d (format : string) (arg : Z)
| fmt_Errorf_s (format : string) (arg : string)
| json_error (msg : string)
| validation_error (code : ErrorCode).

(** The claim's "typed error InvalidCoordinate". *)
Definition isInvalidCoordinate (e : error) : Prop :=
  e = validation_error InvalidCoordinate.

(** A decoded JSON document. A number is held as the [float64] the decoder
    would store, so that a document can hold NaN and the infinities. *)
Inductive JSON : Set :=
| JNull
| JBool (b : bool)
| JNumber (f : float64)
| JString (s : string)
| JArray (elems : list JSON)
| JObject (fields : list (string * JSON)).

Fixpoint json_depth (j : JSON) : nat :=
  match j with
  | JArray elems => S (list_max (map json_depth elems))
  | JObject fields =>
      S (list_max (map (fun kv : string * JSON => json_depth (snd kv)) fields))
  | _ => O
  end.

(** The member of an object with the given name. *)
Fixpoint member (key : string) (fields : list (string * JSON)) : option JSON :=
  match fields with
  | [] => None
  | (k, v) :: rest => if String.eqb k key then Some v else member key rest
  end.

Definition object_member (key : string) (input : JSON) : option JSON :=
  match input with
  | JObject fields => member key fields
  | _ => None
  end.

(** [encoding/json] decoding into the second-pass structs: [null] leaves the
    zero value, a value of another shape is a type error. *)
Definition type_error (want : string) : error :=
  json_error ("json: cannot unmarshal value into Go value of type " ++ want).

Definition decode_float64 (j : JSON) : error + float64 :=
  match j with
  | JNumber f => inr f
  | JNull => inr 0%float
  | _ => inl (type_error "float64")
  end.

Fixpoint decode_elems {A : Type} (dec : JSON -> error + A) (l : list JSON)
  : error + list A :=
  match l with
  | [] => inr []
  | j :: rest =>
      match dec j with
      | inl e => inl e
      | inr a =>
          match decode_elems dec rest with
          | inl e => inl e
          | inr r => inr (a :: r)
          end
      end
  end.

Definition decode_slice {A : Type} (dec : JSON -> error + A) (j : JSON)
  : error + list A :=
  match j with
  | JNull => inr []
  | JArray elems => decode_elems dec elems
  | _ => inl (type_error "slice")
  end.

(** Decoding an object into a struct with one tagged field: a missing member
    leaves the zero value. *)
Definition decode_field {A : Type} (key : string) (zero : A)
    (dec : JSON -> error + A) (input : JSON) : error + A :=
  match input with
  | JNull => inr zero
  | JObject fields =>
      match member key fields with
      | None => inr zero
      | Some v => dec v
      end
  | _ => inl (type_error "struct")
  end.

Definition decode_string (j : JSON) : error + string :=
  match j with
  | JString s => inr s
  | JNull => inr EmptyString
  | _ => inl (type_error "string")
  end.

(** [firstPass]: [struct { Type string `json:"type"` }]. *)
Definition decode_firstPass (input : JSON) : error + string :=
  decode_field "type" EmptyString decode_string input.

Definition decode_Coords1 (input : JSON) : error + list float64 :=
  decode_field "coordinates" [] (decode_slice decode_float64) input.

Definition decode_Coords2 (input : JSON) : error + list (list float64) :=
  decode_field "coordinates" []
    (decode_slice (decode_slice decode_float64)) input.

Definition decode_Coords3 (input : JSON)
  : error + list (list (list float64)) :=
  decode_field "coordinates" []
    (decode_slice (decode_slice (decode_slice decode_float64))) input.

Definition decode_Coords4 (input : JSON)
  : error + list (list (list (list float64))) :=
  decode_field "coordinates" []
    (decode_slice (decode_slice (decode_slice (decode_slice decode_float64))))
    input.

(** [oneDimFloat64sToCoordinates]. *)
Definition oneDimFloat64sToCoordinates (fs : list float64)
  : error + Coordinates :=
  if (length fs <? 2)%nat || (4 <? length fs)%nat then
    inl (fmt_Errorf_d "coordinates have incorrect dimension: %d"
           (Z.of_nat (length fs)))
  else if existsb (fun f => math_IsNaN f || math_IsInf f) fs then
    inl (errors_New "coordinate is NaN or inf")
  else inr (mkCoordinates (mkXY (nth 0 fs 0%float) (nth 1 fs 0%float))).

(** The three nested converters share one loop: convert each inner value,
    stop at the first error. *)
Fixpoint convert_each {A B : Type} (conv : A -> error + B) (outer : list A)
  : error + list B :=
  match outer with
  | [] => inr []
  | inner :: rest =>
      match conv inner with
      | inl e => inl e
      | inr cs =>
          match convert_each conv rest with
          | inl e => inl e
          | inr r => inr (cs :: r)
          end
      end
  end.

Definition twoDimFloat64sToCoordinates (outer : list (list float64))
  : error + list Coordinates :=
  convert_each oneDimFloat64sToCoordinates outer.

Definition threeDimFloat64sToCoordinates (outer : list (list (list float64)))
  : error + list (list Coordinates) :=
  convert_each twoDimFloat64sToCoordinates outer.

Definition fourDimFloat64sToCoordinates
    (outer : list (list (list (list float64))))
  : error + list (list (list Coordinates)) :=
  convert_each threeDimFloat64sToCoordinates outer.

(** What a Go function declared [(GeometryX, error)] returns. *)
Definition result (G : Type) : Type := (option G * option error)%type.

Section Unmarshal.

(** The geometry constructors are not in the sources: they are parameters of
    the decoder. Those that validate return a geometry and an error. *)
Variable GeometryX : Type.
Variable ConstructorOption : Type.
Variable NewEmptyPoint : list ConstructorOption -> GeometryX.
Variable NewPointC : Coordinates -> list ConstructorOption -> GeometryX.
Variable NewEmptyLineString : list ConstructorOption -> GeometryX.
Variable NewLineC :
  Coordinates -> Coordinates -> list ConstructorOption -> result GeometryX.
Variable NewLineStringC :
  list Coordinates -> list ConstructorOption -> result GeometryX.
Variable NewMultiPointC :
  list Coordinates -> list ConstructorOption -> GeometryX.
Variable NewEmptyPolygon : list ConstructorOption -> GeometryX.
Variable NewPolygonC :
  list (list Coordinates) -> list ConstructorOption -> result GeometryX.
Variable NewMultiLineStringC :
  list (list Coordinates) -> list ConstructorOption -> result GeometryX.
Variable NewMultiPolygonC :
  list (list (list Coordinates)) -> list ConstructorOption -> result GeometryX.
Variable NewGeometryCollection :
  list GeometryX -> list ConstructorOption -> GeometryX.

(** Decoding [Geometries []AnyGeometry]: each element is handed to the
    geometry decoder [dec] (no options); its error fails the whole decode.
    The outer [option] is the fuel of [dec]. *)
Fixpoint decode_AnyGeometries (dec : JSON -> option (result GeometryX))
    (elems : list JSON) : option (error + list GeometryX) :=
  match elems with
  | [] => Some (inr [])
  | j :: rest =>
      match dec j with
      | None => None
      | Some (_, Some e) => Some (inl e)
      | Some (None, None) => Some (inl (errors_New "nil geometry"))
      | Some (Some g, None) =>
          match decode_AnyGeometries dec rest with
          | None => None
          | Some (inl e) => Some (inl e)
          | Some (inr gs) => Some (inr (g :: gs))
          end
      end
  end.

Definition decode_Geometries (dec : JSON -> option (result GeometryX))
    (input : JSON) : option (error + list GeometryX) :=
  match input with
  | JNull => Some (inr [])
  | JObject fields =>
      match member "geometries" fields with
      | None | Some JNull => Some (inr [])
      | Some (JArray elems) => decode_AnyGeometries dec elems
      | Some _ => Some (inl (type_error "slice"))
      end
  | _ => Some (inl (type_error "struct"))
  end.

Definition fail {G : Type} (e : error) : result G := (None, Some e).
Definition ok {G : Type} (g : G) : result G := (Some g, None).

(** [UnmarshalGeoJSON]; the fuel bounds the nesting of geometry
    collections. *)
Fixpoint UnmarshalGeoJSON_fuel (fuel : nat) (input : JSON)
    (opts : list ConstructorOption) : option (result GeometryX) :=
  match fuel with
  | O => None
  | S fuel' =>
      match decode_firstPass input with
      | inl err => Some (fail err)
      | inr ty =>
          if String.eqb ty "Point" then
            match decode_Coords1 input with
            | inl err => Some (fail err)
            | inr fs =>
                if (length fs =? 0)%nat then Some (ok (NewEmptyPoint opts))
                else
                  match oneDimFloat64sToCoordinates fs with
                  | inl err => Some (fail err)
                  | inr coords => Some (ok (NewPointC coords opts))
                  end
            end
          else if String.eqb ty "LineString" || String.eqb ty "MultiPoint" then
            match decode_Coords2 input with
            | inl err => Some (fail err)
            | inr fss =>
                match twoDimFloat64sToCoordinates fss with
                | inl err => Some (fail err)
                | inr coords =>
                    if String.eqb ty "LineString" then
                      match coords with
                      | [] => Some (ok (NewEmptyLineString opts))
                      | [c0; c1] => Some (NewLineC c0 c1 opts)
                      | _ => Some (NewLineStringC coords opts)
                      end
                    else Some (ok (NewMultiPointC coords opts))
                end
            end
          else if String.eqb ty "Polygon" || String.eqb ty "MultiLineString" then
            match decode_Coords3 input with
            | inl err => Some (fail err)
            | inr fsss =>
                match threeDimFloat64sToCoordinates fsss with
                | inl err => Some (fail err)
                | inr coords =>
                    if String.eqb ty "Polygon" then
                      match coords with
                      | [] => Some (ok (NewEmptyPolygon opts))
                      | _ => Some (NewPolygonC coords opts)
                      end
                    else Some (NewMultiLineStringC coords opts)
                end
            end
          else if String.eqb ty "MultiPolygon" then
            match decode_Coords4 input with
            | inl err => Some (fail err)
            | inr fssss =>
                match fourDimFloat64sToCoordinates fssss with
                | inl err => Some (fail err)
                | inr coords => Some (NewMultiPolygonC coords opts)
                end
            end
          else if String.eqb ty "GeometryCollection" then
            match
              decode_Geometries
                (fun j => UnmarshalGeoJSON_fuel fuel' j []) input
            with
            | None => None
            | Some (inl err) => Some (fail err)
            | Some (inr geoms) => Some (ok (NewGeometryCollection geoms opts))
            end
          else if String.eqb ty "" then
            Some (fail (errors_New "type field missing or empty"))
          else Some (fail (fmt_Errorf_s "unknown geojson type: %s" ty))
      end
  end.

(** The decoder on a document: the nesting depth of the document is fuel
    enough (see [UnmarshalGeoJSON_fuel_enough]). *)
Definition UnmarshalGeoJSON (input : JSON) (opts : list ConstructorOption)
  : option (result GeometryX) :=
  UnmarshalGeoJSON_fuel (S (json_depth input)) input opts.

End Unmarshal.

(** An instance of the constructors for running the decoder: geometries that
    keep their coordinates as handed over and validate nothing. *)
Inductive RawGeometry : Set :=
| RawEmpty (kind : string)
| RawPoint (c : Coordinates)
| RawLine (c0 c1 : Coordinates)
| RawLineString (cs : list Coordinates)
| RawMultiPoint (cs : list Coordinates)
| RawPolygon (rings : list (list Coordinates))
| RawMultiLineString (lss : list (list Coordinates))
| RawMultiPolygon (polys : list (list (list Coordinates)))
| RawCollection (geoms : list RawGeometry).

Definition UnmarshalGeoJSON_raw (input : JSON) (opts : list unit)
  : option (result RawGeometry) :=
  UnmarshalGeoJSON RawGeometry unit
    (fun _ => RawEmpty "Point")
    (fun c _ => RawPoint c)
    (fun _ => RawEmpty "LineString")
    (fun c0 c1 _ => ok (RawLine c0 c1))
    (fun cs _ => ok (RawLineString cs))
    (fun cs _ => RawMultiPoint cs)
    (fun _ => RawEmpty "Polygon")
    (fun rings _ => ok (RawPolygon rings))
    (fun lss _ => ok (RawMultiLineString lss))
    (fun polys _ => ok (RawMultiPolygon polys))
    (fun geoms _ => RawCollection geoms)
    input opts.

(** A number that the coordinate check refuses, anywhere below [j]. *)
Fixpoint has_bad_number (j : JSON) : bool :=
  match j with
  | JNumber f => math_IsNaN f || math_IsInf f
  | JArray elems => existsb has_bad_number elems
  | _ => false
  end.

(** "Some coordinate value of the input is NaN or an infinity": in the
    [coordinates] member of a geometry that is not a collection, or in a
    member geometry of a collection. *)
Inductive BadCoordinate : JSON -> Prop :=
| bad_here (input c : JSON) :
    decode_firstPass input <> inr "GeometryCollection"%string ->
    object_member "coordinates" input = Some c ->
    has_bad_number c = true ->
    BadCoordinate input
| bad_child (input : JSON) (elems : list JSON) (child : JSON) :
    decode_firstPass input = inr "GeometryCollection"%string ->
    object_member "geometries" input = Some (JArray elems) ->
    In child elems ->
    BadCoordinate child ->
    BadCoordinate input.

(** [{"type":"Point","coordinates":[NaN,0]}]. *)
Definition nan_point : JSON :=
  JObject [("type"%string, JString "Point");
           ("coordinates"%string, JArray [JNumber PrimFloat.nan; JNumber 0%float])].

(** [{"type":"GeometryCollection","geometries":[{"type":"LineString",
     "coordinates":[[0,0],[1,+Inf]]}]}]. *)
Definition inf_collection : JSON :=
  JObject [("type"%string, JString "GeometryCollection");
           ("geometries"%string,
            JArray [JObject [("type"%string, JString "LineString");
                             ("coordinates"%string,
                              JArray [JArray [JNumber 0%float; JNumber 0%float];
                                      JArray [JNumber 1%float;
                                              JNumber PrimFloat.infinity]])]])].

(** ** Properties of the decoder *)

Lemma decode_float64_bad (j : JSON) (f : float64) :
  has_bad_number j = true -> decode_float64 j = inr f ->
  math_IsNaN f || math_IsInf f = true.
Proof.
  destruct j; simpl; intros Hbad Hdec; try discriminate.
  now inversion Hdec; subst.
Qed.

(** A converter [conv] refuses whatever a decoder [dec] makes of a document
    with a bad number. *)
Definition refuses {A B : Type} (dec : JSON -> error + A)
    (conv : A -> error + B) : Prop :=
  forall (j : JSON) (a : A),
    has_bad_number j = true -> dec j = inr a -> exists e, conv a = inl e.

Lemma decode_elems_bad_float (elems : list JSON) (fs : list float64) :
  existsb has_bad_number elems = true ->
  decode_elems decode_float64 elems = inr fs ->
  existsb (fun f => math_IsNaN f || math_IsInf f) fs = true.
Proof.
  revert fs. induction elems as [|j rest IH]; simpl; intros fs Hbad Hdec.
  - discriminate.
  - destruct (decode_float64 j) as [e|f] eqn:Hj; [discriminate|].
    destruct (decode_elems decode_float64 rest) as [e|r] eqn:Hr; [discriminate|].
    inversion Hdec; subst fs; simpl.
    apply orb_true_iff in Hbad as [Hbad|Hbad].
    + rewrite (decode_float64_bad j f Hbad Hj). reflexivity.
    + rewrite (IH r Hbad eq_refl). apply orb_true_r.
Qed.

Lemma oneDim_refuses : refuses (decode_slice decode_float64) oneDimFloat64sToCoordinates.
Proof.
  intros j fs Hbad Hdec. destruct j; simpl in *; try discriminate.
  pose proof (decode_elems_bad_float _ _ Hbad Hdec) as Hfs.
  unfold oneDimFloat64sToCoordinates. rewrite Hfs.
  destruct ((length fs <? 2)%nat || (4 <? length fs)%nat); eauto.
Qed.

Lemma convert_each_refuses {A B : Type} (dec : JSON -> error + A)
    (conv : A -> error + B) :
  refuses dec conv -> refuses (decode_slice dec) (convert_each conv).
Proof.
  intros Href j outer Hbad Hdec. destruct j; simpl in *; try discriminate.
  revert outer Hdec. induction elems as [|j rest IH]; simpl in *; intros outer Hdec.
  - discriminate.
  - destruct (dec j) as [e|a] eqn:Hj; [discriminate|].
    destruct (decode_elems dec rest) as [e|r] eqn:Hr; [discriminate|].
    inversion Hdec; subst outer; simpl.
    destruct (conv a) as [e|b] eqn:Ha; [eauto|].
    apply orb_true_iff in Hbad as [Hbad|Hbad].
    + destruct (Href j a Hbad Hj) as [e He]. congruence.
    + destruct (IH Hbad r eq_refl) as [e He]. rewrite He. eauto.
Qed.

Lemma decode_slice_bad_nonempty {A : Type} (dec : JSON -> error + A)
    (j : JSON) (l : list A) :
  has_bad_number j = true -> decode_slice dec j = inr l -> l <> [].
Proof.
  destruct j; simpl; try discriminate.
  destruct elems as [|j rest]; simpl; [discriminate|].
  intros _. destruct (dec j); [discriminate|].
  destruct (decode_elems dec rest); [discriminate|].
  intros H; inversion H. discriminate.
Qed.

Lemma json_depth_elem (child : JSON) (elems : list JSON) :
  In child elems -> (json_depth child <= list_max (map json_depth elems))%nat.
Proof.
  induction elems as [|j rest IH]; simpl; [tauto|].
  intros [->|Hin]; [lia|]. specialize (IH Hin). lia.
Qed.

Lemma json_depth_member (key : string) (fields : list (string * JSON)) (v : JSON) :
  member key fields = Some v ->
  (json_depth v <=
   list_max (map (fun kv : string * JSON => json_depth (snd kv)) fields))%nat.
Proof.
  induction fields as [|[k w] rest IH]; simpl; [discriminate|].
  destruct (String.eqb k key).
  - intros H; inversion H; subst. lia.
  - intros H. specialize (IH H). lia.
Qed.

Section UnmarshalFacts.

Variable GeometryX : Type.
Variable ConstructorOption : Type.
Variable NewEmptyPoint : list ConstructorOption -> GeometryX.
Variable NewPointC : Coordinates -> list ConstructorOption -> GeometryX.
Variable NewEmptyLineString : list ConstructorOption -> GeometryX.
Variable NewLineC :
  Coordinates -> Coordinates -> list ConstructorOption -> result GeometryX.
Variable NewLineStringC :
  list Coordinates -> list ConstructorOption -> result GeometryX.
Variable NewMultiPointC :
  list Coordinates -> list ConstructorOption -> GeometryX.
Variable NewEmptyPolygon : list ConstructorOption -> GeometryX.
Variable NewPolygonC :
  list (list Coordinates) -> list ConstructorOption -> result GeometryX.
Variable NewMultiLineStringC :
  list (list Coordinates) -> list ConstructorOption -> result GeometryX.
Variable NewMultiPolygonC :
  list (list (list Coordinates)) -> list ConstructorOption -> result GeometryX.
Variable NewGeometryCollection :
  list GeometryX -> list ConstructorOption -> GeometryX.

Abbreviation unmarshal_fuel :=
  (UnmarshalGeoJSON_fuel GeometryX ConstructorOption NewEmptyPoint NewPointC
     NewEmptyLineString NewLineC NewLineStringC NewMultiPointC NewEmptyPolygon
     NewPolygonC NewMultiLineStringC NewMultiPolygonC NewGeometryCollection).
Abbreviation unmarshal :=
  (UnmarshalGeoJSON GeometryX ConstructorOption NewEmptyPoint NewPointC
     NewEmptyLineString NewLineC NewLineStringC NewMultiPointC NewEmptyPolygon
     NewPolygonC NewMultiLineStringC NewMultiPolygonC NewGeometryCollection).

Lemma decode_AnyGeometries_total (dec : JSON -> option (result GeometryX))
    (elems : list JSON) :
  (forall j, In j elems -> exists r, dec j = Some r) ->
  exists r, decode_AnyGeometries GeometryX dec elems = Some r.
Proof.
  induction elems as [|j rest IH]; simpl; intros Hdec; [eauto|].
  destruct (Hdec j (or_introl eq_refl)) as [[[g|] [e|]] ->]; eauto.
  destruct IH as [[e|gs] ->]; eauto.
Qed.

Lemma decode_AnyGeometries_fails (dec : JSON -> option (result GeometryX))
    (elems : list JSON) (child : JSON) (e : error) :
  (forall j, In j elems -> exists r, dec j = Some r) ->
  In child elems -> dec child = Some (None, Some e) ->
  exists e', decode_AnyGeometries GeometryX dec elems = Some (inl e').
Proof.
  induction elems as [|j rest IH]; simpl; intros Hdec Hin Hchild; [tauto|].
  destruct Hin as [->|Hin].
  - rewrite Hchild. eauto.
  - destruct (Hdec j (or_introl eq_refl)) as [[[g|] [e0|]] ->]; eauto.
    destruct IH as [e' ->]; eauto.
Qed.

(** The decoder returns on every document once the fuel exceeds its depth. *)
Lemma UnmarshalGeoJSON_fuel_enough (fuel : nat) :
  forall (input : JSON) (opts : list ConstructorOption),
    (json_depth input < fuel)%nat ->
    exists r, unmarshal_fuel fuel input opts = Some r.
Proof.
  induction fuel as [|fuel IH]; intros input opts Hfuel; [lia|].
  simpl. destruct (decode_firstPass input) as [e|ty]; [eauto|].
  repeat match goal with
         | |- context [if ?b then _ else _] => destruct b
         | |- context [match ?x with inl _ => _ | inr _ => _ end] => destruct x
         | |- context [match ?x with [] => _ | _ :: _ => _ end] => destruct x
         end; eauto.
  enough (exists r, decode_Geometries GeometryX
            (fun j => unmarshal_fuel fuel j []) input = Some r) as [[e|gs] ->]
    by eauto.
  destruct input; simpl; eauto.
  destruct (member "geometries" fields) as [[| | | |elems|]|] eqn:Hm; eauto.
  apply decode_AnyGeometries_total. intros j Hj. apply IH.
  pose proof (json_depth_member _ _ _ Hm) as H1. simpl in H1, Hfuel.
  pose proof (json_depth_elem _ _ Hj) as H2. lia.
Qed.

Lemma UnmarshalGeoJSON_fuel_rejects (input : JSON) :
  BadCoordinate input ->
  forall (fuel : nat) (opts : list ConstructorOption),
    (json_depth input < fuel)%nat ->
    exists e, unmarshal_fuel fuel input opts = Some (None, Some e).
Proof.
  induction 1 as [input c Hty Hc Hbad|input elems child Hty Hg Hin Hchild IH];
    intros fuel opts Hfuel; (destruct fuel as [|fuel]; [lia|]);
    cbn [UnmarshalGeoJSON_fuel].
  - destruct input; simpl in Hc; try discriminate.
    destruct (decode_firstPass (JObject fields)) as [e|ty] eqn:Hfirst;
      [unfold fail; eauto|].
    unfold decode_Coords1, decode_Coords2, decode_Coords3, decode_Coords4,
      decode_field. rewrite Hc.
    destruct (String.eqb ty "Point").
    { destruct (decode_slice decode_float64 c) as [e|fs] eqn:Hdec;
        [unfold fail; eauto|].
      pose proof (decode_slice_bad_nonempty _ _ _ Hbad Hdec) as Hne.
      destruct fs as [|f fs]; [congruence|]. simpl (length _ =? 0)%nat.
      destruct (oneDim_refuses c _ Hbad Hdec) as [e ->]. unfold fail; eauto. }
    destruct (String.eqb ty "LineString" || String.eqb ty "MultiPoint").
    { destruct (decode_slice (decode_slice decode_float64) c) as [e|fss] eqn:Hdec;
        [unfold fail; eauto|].
      destruct (convert_each_refuses _ _ oneDim_refuses c _ Hbad Hdec) as [e He].
      change (twoDimFloat64sToCoordinates fss = inl e) in He.
      rewrite He. unfold fail; eauto. }
    destruct (String.eqb ty "Polygon" || String.eqb ty "MultiLineString").
    { destruct (decode_slice (decode_slice (decode_slice decode_float64)) c)
        as [e|fsss] eqn:Hdec; [unfold fail; eauto|].
      destruct (convert_each_refuses _ _
                  (convert_each_refuses _ _ oneDim_refuses) c _ Hbad Hdec)
        as [e He].
      change (threeDimFloat64sToCoordinates fsss = inl e) in He.
      rewrite He. unfold fail; eauto. }
    destruct (String.eqb ty "MultiPolygon").
    { destruct (decode_slice
                  (decode_slice (decode_slice (decode_slice decode_float64))) c)
        as [e|fssss] eqn:Hdec; [unfold fail; eauto|].
      destruct (convert_each_refuses _ _
                  (convert_each_refuses _ _
                     (convert_each_refuses _ _ oneDim_refuses)) c _ Hbad Hdec)
        as [e He].
      change (fourDimFloat64sToCoordinates fssss = inl e) in He.
      rewrite He. unfold fail; eauto. }
    destruct (String.eqb ty "GeometryCollection") eqn:Hgc.
    { apply String.eqb_eq in Hgc. congruence. }
    destruct (String.eqb ty ""); unfold fail; eauto.
  - rewrite Hty. simpl.
    destruct input; simpl in Hg; try discriminate. cbn [decode_Geometries].
    rewrite Hg.
    assert (Hdepth : forall j, In j elems -> (json_depth j < fuel)%nat).
    { intros j Hj. pose proof (json_depth_member _ _ _ Hg) as H1.
      pose proof (json_depth_elem _ _ Hj) as H2. simpl in H1, Hfuel. lia. }
    destruct (IH fuel [] (Hdepth _ Hin)) as [e He].
    destruct (decode_AnyGeometries_fails
                (fun j => unmarshal_fuel fuel j []) elems child e) as [e' ->];
      auto.
    + intros j Hj. apply UnmarshalGeoJSON_fuel_enough. auto.
    + unfold fail; eauto.
Qed.


(** ** Documents without coordinates *)

Lemma decode_no_coordinates {A : Type} (dec : JSON -> error + A)
    (fields : list (string * JSON)) :
  member "coordinates" fields = None \/
  member "coordinates" fields = Some JNull \/
  member "coordinates" fields = Some (JArray []) ->
  decode_field "coordinates" [] (decode_slice dec) (JObject fields) = inr [].
Proof.
  unfold decode_field. intros [-> | [-> | ->]]; reflexivity.
Qed.


End UnmarshalFacts.

Lemma nan_point_bad : BadCoordinate nan_point.
Proof.
  apply bad_here with (c := JArray [JNumber PrimFloat.nan; JNumber 0%float]).
  - vm_compute. discriminate.
  - reflexivity.
  - vm_compute. reflexivity.
Qed.

Lemma inf_collection_bad : BadCoordinate inf_collection.
Proof.
  eapply bad_child; [reflexivity | reflexivity | left; reflexivity |].
  eapply bad_here; [vm_compute; discriminate | reflexivity | vm_compute; reflexivity].
Qed.



(** ** What the converters accept and what they return *)

(** [fs] is what a coordinate is made of, and [c] the coordinate made of it:
    two to four numbers, none NaN or infinite, of which the first two are
    kept. *)
Definition Converts (fs : list float64) (c : Coordinates) : Prop :=
  (2 <= length fs <= 4)%nat /\
  Forall (fun f => math_IsNaN f = false /\ math_IsInf f = false) fs /\
  c = mkCoordinates (mkXY (nth 0 fs 0%float) (nth 1 fs 0%float)).

Lemma oneDimFloat64sToCoordinates_iff (fs : list float64) (c : Coordinates) :
  oneDimFloat64sToCoordinates fs = inr c <-> Converts fs c.
Proof.
  unfold oneDimFloat64sToCoordinates, Converts.
  destruct (Nat.ltb_spec (length fs) 2) as [H2|H2]; cbn [orb].
  { split; [discriminate|]. intros [Hlen _]. lia. }
  destruct (Nat.ltb_spec 4 (length fs)) as [H4|H4].
  { split; [discriminate|]. intros [Hlen _]. lia. }
  destruct (existsb (fun f => math_IsNaN f || math_IsInf f) fs) eqn:Hbad.
  - split; [discriminate|]. intros (_ & Hall & _).
    apply existsb_exists in Hbad as (f & Hin & Hf).
    rewrite List.Forall_forall in Hall. destruct (Hall f Hin) as [H1 H3].
    rewrite H1, H3 in Hf. discriminate Hf.
  - split.
    + intros Heq. inversion Heq; subst c. split; [lia|]. split; [|reflexivity].
      apply List.Forall_forall. intros f Hin.
      apply orb_false_iff.
      destruct (math_IsNaN f || math_IsInf f) eqn:Hf; [|reflexivity].
      assert (existsb (fun f => math_IsNaN f || math_IsInf f) fs = true)
        by (apply existsb_exists; eauto).
      congruence.
    + intros (_ & _ & ->). reflexivity.
Qed.

Lemma convert_each_iff {A B : Type} (conv : A -> error + B) (R : A -> B -> Prop) :
  (forall a b, conv a = inr b <-> R a b) ->
  forall (outer : list A) (r : list B),
    convert_each conv outer = inr r <-> Forall2 R outer r.
Proof.
  intros Hconv. induction outer as [|inner rest IH]; intros r.
  - cbn [convert_each]. split.
    + intros Heq. inversion Heq. constructor.
    + intros Hall. inversion Hall. reflexivity.
  - cbn [convert_each]. destruct (conv inner) as [e|b] eqn:Hinner.
    + split; [discriminate|]. intros Hall. inversion Hall as [|? b ? ? Hb]; subst.
      apply Hconv in Hb. congruence.
    + destruct (convert_each conv rest) as [e|r'] eqn:Hrest.
      * split; [discriminate|]. intros Hall.
        inversion Hall as [|? ? ? r'' _ Hr]; subst.
        apply IH in Hr. congruence.
      * split.
        -- intros Heq. inversion Heq; subst r. constructor.
           ++ apply Hconv. exact Hinner.
           ++ apply IH. reflexivity.
        -- intros Hall. inversion Hall as [|? b' ? r'' Hb Hr]; subst.
           apply Hconv in Hb. apply IH in Hr. congruence.
Qed.

(** X21. The nested converters convert element by element and keep the
    shape: a slice of slices is accepted exactly when every innermost slice
    has two to four numbers, none of them NaN or infinite, and the result
    holds, at the same place, the coordinate of its first two numbers. It
    holds at each of the three depths. *)
Theorem nested_converters_elementwise :
  (forall (outer : list (list float64)) (coords : list Coordinates),
      twoDimFloat64sToCoordinates outer = inr coords <->
      Forall2 Converts outer coords) /\
  (forall (outer : list (list (list float64)))
          (coords : list (list Coordinates)),
      threeDimFloat64sToCoordinates outer = inr coords <->
      Forall2 (Forall2 Converts) outer coords) /\
  (forall (outer : list (list (list (list float64))))
          (coords : list (list (list Coordinates))),
      fourDimFloat64sToCoordinates outer = inr coords <->
      Forall2 (Forall2 (Forall2 Converts)) outer coords).
Proof.
  assert (H2 : forall outer coords,
             twoDimFloat64sToCoordinates outer = inr coords <->
             Forall2 Converts outer coords)
    by (apply convert_each_iff; exact oneDimFloat64sToCoordinates_iff).
  assert (H3 : forall outer coords,
             threeDimFloat64sToCoordinates outer = inr coords <->
             Forall2 (Forall2 Converts) outer coords)
    by (apply convert_each_iff; exact H2).
  split; [exact H2|]. split; [exact H3|].
  apply convert_each_iff. exact H3.
Qed.

Lemma convert_each_first_error {A B : Type} (conv : A -> error + B) :
  forall (outer : list A) (e : error),
    convert_each conv outer = inl e <->
    exists (i : nat) (a : A),
      outer !! i = Some a /\ conv a = inl e /\
      forall (j : nat) (a' : A),
        (j < i)%nat -> outer !! j = Some a' -> exists b, conv a' = inr b.
Proof.
  induction outer as [|inner rest IH]; intros e.
  - cbn [convert_each]. split; [discriminate|].
    intros (i & a & Hi & _). rewrite lookup_nil in Hi. discriminate Hi.
  - cbn [convert_each]. destruct (conv inner) as [e0|b] eqn:Hinner.
    + split.
      * intros Heq. inversion Heq; subst e0. exists 0%nat, inner.
        split; [reflexivity|]. split; [exact Hinner|]. intros j a' Hj. lia.
      * intros (i & a & Hi & Ha & Hbefore). destruct i as [|i].
        -- cbn in Hi. inversion Hi; subst a. congruence.
        -- destruct (Hbefore 0%nat inner ltac:(lia) eq_refl) as [b Hb].
           congruence.
    + pose proof (IH e) as IHe. clear IH.
      destruct (convert_each conv rest) as [e1|r].
      * split.
        -- intros Heq.
           destruct (proj1 IHe Heq) as (i & a & Hi & Ha & Hbefore).
           exists (S i), a. split; [exact Hi|]. split; [exact Ha|].
           intros [|j] a' Hj Hlook.
           ++ cbn in Hlook. inversion Hlook; subst a'. eauto.
           ++ apply (Hbefore j a'); [lia|exact Hlook].
        -- intros (i & a & Hi & Ha & Hbefore). destruct i as [|i].
           ++ cbn in Hi. inversion Hi; subst a. congruence.
           ++ apply IHe. exists i, a. split; [exact Hi|]. split; [exact Ha|].
              intros j a' Hj Hlook. apply (Hbefore (S j) a'); [lia|exact Hlook].
      * split; [discriminate|].
        intros (i & a & Hi & Ha & Hbefore). destruct i as [|i].
        -- cbn in Hi. inversion Hi; subst a. congruence.
        -- assert (inr r = (inl e : error + list B)) as Hbad.
           { apply IHe. exists i, a. split; [exact Hi|]. split; [exact Ha|].
             intros j a' Hj Hlook. apply (Hbefore (S j) a'); [lia|exact Hlook]. }
           discriminate Hbad.
Qed.

(** X22. When a nested converter fails, its error is the error of the
    first innermost slice, in reading order, that is refused: for a slice
    of coordinates, [twoDimFloat64sToCoordinates] returns the error [e]
    exactly when some slice is refused with [e] and every slice before it
    is accepted; and that error is one of two: a wrong number of values,
    which is tested first, or a value that is NaN or infinite. *)
Theorem twoDimFloat64sToCoordinates_first_error (outer : list (list float64))
    (e : error) :
  twoDimFloat64sToCoordinates outer = inl e <->
  exists (i : nat) (fs : list float64),
    outer !! i = Some fs /\
    (forall (j : nat) (fs' : list float64),
        (j < i)%nat -> outer !! j = Some fs' -> exists c, Converts fs' c) /\
    (((length fs < 2)%nat \/ (4 < length fs)%nat) /\
     e = fmt_Errorf_d "coordinates have incorrect dimension: %d"
           (Z.of_nat (length fs)) \/
     (2 <= length fs <= 4)%nat /\
     Exists (fun f => math_IsNaN f = true \/ math_IsInf f = true) fs /\
     e = errors_New "coordinate is NaN or inf").
Proof.
  unfold twoDimFloat64sToCoordinates. rewrite convert_each_first_error.
  assert (Herr : forall fs,
             oneDimFloat64sToCoordinates fs = inl e <->
             (((length fs < 2)%nat \/ (4 < length fs)%nat) /\
              e = fmt_Errorf_d "coordinates have incorrect dimension: %d"
                    (Z.of_nat (length fs)) \/
              (2 <= length fs <= 4)%nat /\
              Exists (fun f => math_IsNaN f = true \/ math_IsInf f = true) fs /\
              e = errors_New "coordinate is NaN or inf")).
  { intros fs. unfold oneDimFloat64sToCoordinates.
    destruct (Nat.ltb_spec (length fs) 2) as [H2|H2]; cbn [orb].
    { split.
      - intros Heq. inversion Heq. left. split; [lia|reflexivity].
      - intros [[_ ->]|[Hlen _]]; [reflexivity|lia]. }
    destruct (Nat.ltb_spec 4 (length fs)) as [H4|H4].
    { split.
      - intros Heq. inversion Heq. left. split; [lia|reflexivity].
      - intros [[_ ->]|[Hlen _]]; [reflexivity|lia]. }
    destruct (existsb (fun f => math_IsNaN f || math_IsInf f) fs) eqn:Hbad.
    - split.
      + intros Heq. inversion Heq. right. split; [lia|]. split; [|reflexivity].
        apply existsb_exists in Hbad as (f & Hin & Hf).
        apply List.Exists_exists. exists f. split; [exact Hin|].
        apply orb_true_iff. exact Hf.
      + intros [[Hlen _]|(_ & _ & ->)]; [lia|reflexivity].
    - split; [discriminate|].
      intros [[Hlen _]|(_ & Hex & _)]; [lia|].
      apply List.Exists_exists in Hex as (f & Hin & Hf).
      assert (existsb (fun f => math_IsNaN f || math_IsInf f) fs = true).
      { apply existsb_exists. exists f. split; [exact Hin|].
        apply orb_true_iff. exact Hf. }
      congruence. }
  split.
  - intros (i & fs & Hi & Hfs & Hbefore). exists i, fs.
    split; [exact Hi|]. split; [|apply Herr; exact Hfs].
    intros j fs' Hj Hlook. destruct (Hbefore j fs' Hj Hlook) as [c Hc].
    exists c. apply oneDimFloat64sToCoordinates_iff. exact Hc.
  - intros (i & fs & Hi & Hbefore & Hfs). exists i, fs.
    split; [exact Hi|]. split; [apply Herr; exact Hfs|].
    intros j fs' Hj Hlook. destruct (Hbefore j fs' Hj Hlook) as [c Hc].
    exists c. apply oneDimFloat64sToCoordinates_iff. exact Hc.
Qed.

(** [{"type":"Polygon"}]. *)
Definition bare_polygon : JSON := JObject [("type"%string, JString "Polygon")].


End GeoJSON.

(* ===================================================================== *)
(** * Planar primitives and the intersection predicates *)
(* ===================================================================== *)

Module Geom.

Open Scope Q_scope.

(** [Scalar]: an exact number; its methods [Sub], [Mul], [GT], [LT] and
    [Equals] are the rational operations and comparisons. *)
Definition Scalar : Set := Q.

Definition Scalar_LT (x y : Scalar) : bool := negb (Qle_bool y x).
Definition Scalar_GT (x y : Scalar) : bool := Scalar_LT y x.
Definition Scalar_LE (x y : Scalar) : bool := Qle_bool x y.
Definition Scalar_Equals (x y : Scalar) : bool := Qeq_bool x y.
Definition zero : Scalar := 0.

Record XY : Set := mkXY { X : Scalar; Y : Scalar }.

(** [XY.Equals]. *)
Definition XY_Equals (w o : XY) : bool :=
  Scalar_Equals (X w) (X o) && Scalar_Equals (Y w) (Y o).

(** [XY.Sub]. *)
Definition XY_Sub (w o : XY) : XY := mkXY (X w - X o) (Y w - Y o).

(** [XY.Cross]. *)
Definition XY_Cross (w o : XY) : Scalar := X w * Y o - Y w * X o.

Inductive threePointOrientation : Set := rightTurn | collinear | leftTurn.

Definition orientation_eqb (o1 o2 : threePointOrientation) : bool :=
  match o1, o2 with
  | rightTurn, rightTurn | collinear, collinear | leftTurn, leftTurn => true
  | _, _ => false
  end.

(** [orientation]: the side of the line through [p] and [q] that [s] is on. *)
Definition orientation (p q s : XY) : threePointOrientation :=
  let cp := XY_Cross (XY_Sub q p) (XY_Sub s q) in
  if Scalar_GT cp zero then leftTurn
  else if Scalar_LT cp zero then rightTurn
  else collinear.

(** A [Line] is a segment between two coordinates; of a coordinate only the
    embedded [XY] is read by the predicates. *)
Record Line : Set := mkLine { a : XY; b : XY }.

(** Modelled from the spec: [onSegment p q r] (absent from the sources) is
    "r lies on the segment pq": bounding-box envelope check, then exact
    collinearity test via cross product equal to zero. *)
Definition inEnvelope (p q r : XY) : bool :=
  Scalar_LE (Qmin (X p) (X q)) (X r) && Scalar_LE (X r) (Qmax (X p) (X q)) &&
  Scalar_LE (Qmin (Y p) (Y q)) (Y r) && Scalar_LE (Y r) (Qmax (Y p) (Y q)).

Definition onSegment (p q r : XY) : bool :=
  inEnvelope p q r &&
  Scalar_Equals ((X r - X p) * (Y q - Y p)) ((Y r - Y p) * (X q - X p)).

(** [rightmostThenHighestIndex] and [leftmostThenLowestIndex] are absent from
    the sources; they are read off their names. *)
Definition righterThenHigher (p q : XY) : bool :=
  Scalar_GT (X p) (X q) || (Scalar_Equals (X p) (X q) && Scalar_GT (Y p) (Y q)).

Definition lefterThenLower (p q : XY) : bool :=
  Scalar_LT (X p) (X q) || (Scalar_Equals (X p) (X q) && Scalar_LT (Y p) (Y q)).

Fixpoint bestIndex (better : XY -> XY -> bool) (best : XY) (besti i : nat)
    (ps : list XY) : nat :=
  match ps with
  | [] => besti
  | p :: rest =>
      if better p best then bestIndex better p i (S i) rest
      else bestIndex better best besti (S i) rest
  end.

Definition rightmostThenHighestIndex (ps : list XY) : nat :=
  match ps with
  | [] => O
  | p :: rest => bestIndex righterThenHigher p O 1%nat rest
  end.

Definition leftmostThenLowestIndex (ps : list XY) : nat :=
  match ps with
  | [] => O
  | p :: rest => bestIndex lefterThenLower p O 1%nat rest
  end.

(** [append(pts[:i], pts[i+1:]...)]. *)
Definition removeAt (i : nat) (ps : list XY) : list XY :=
  firstn i ps ++ skipn (S i) ps.

(** [hasIntersectionLineWithLine]. *)
Definition hasIntersectionLineWithLine (n1 n2 : Line) : bool :=
  let a := a n1 in
  let b := b n1 in
  let c := Geom.a n2 in
  let d := Geom.b n2 in
  let o1 := orientation a b c in
  let o2 := orientation a b d in
  let o3 := orientation c d a in
  let o4 := orientation c d b in
  if negb (orientation_eqb o1 o2) && negb (orientation_eqb o3 o4) then true
  else if orientation_eqb o1 collinear && orientation_eqb o2 collinear then
    if (negb (onSegment a b c) && negb (onSegment a b d)) &&
       (negb (onSegment c d a) && negb (onSegment c d b))
    then false
    else
      let pts := [a; b; c; d] in
      let rth := rightmostThenHighestIndex pts in
      let pts := removeAt rth pts in
      let ltl := leftmostThenLowestIndex pts in
      let pts := removeAt ltl pts in
      if XY_Equals (nth 0 pts a) (nth 1 pts a) then true else true
  else false.

(** The four-orientation algorithm in the words of the spec (section 4.1),
    to compare the code with. *)
Definition fourOrientationAlgorithm (n1 n2 : Line) : bool :=
  let A := a n1 in
  let B := b n1 in
  let C := a n2 in
  let D := b n2 in
  let o1 := orientation A B C in
  let o2 := orientation A B D in
  let o3 := orientation C D A in
  let o4 := orientation C D B in
  if negb (orientation_eqb o1 o2) && negb (orientation_eqb o3 o4) then true
  else if orientation_eqb o1 collinear && orientation_eqb o2 collinear &&
          orientation_eqb o3 collinear && orientation_eqb o4 collinear then
    onSegment A B C || onSegment A B D || onSegment C D A || onSegment C D B
  else false.

(** The points of the closed segment [n]. *)
Definition OnLine (p : XY) (n : Line) : Prop :=
  exists t : Q,
    0 <= t /\ t <= 1 /\
    X p == X (a n) + t * (X (b n) - X (a n)) /\
    Y p == Y (a n) + t * (Y (b n) - Y (a n)).

(** The two closed segments share at least one point. *)
Definition SharePoint (n1 n2 : Line) : Prop :=
  exists p : XY, OnLine p n1 /\ OnLine p n2.

(** The endpoints of [n] are distinct. *)
Definition NonDegenerate (n : Line) : Prop :=
  ~ (X (a n) == X (b n) /\ Y (a n) == Y (b n)).

(** ** Geometries *)

Record Point : Set := mkPoint { coords : XY }.

(** A [LineString] holds its segments ([ls.lines]); a valid one has at least
    one, each between two distinct points. *)
Record LineString : Set := mkLineString { lines : list Line }.

Record Polygon : Set := mkPolygon { outer : LineString; holes : list LineString }.

Record MultiPoint : Set := mkMultiPoint { pts : list Point }.

Record MultiLineString : Set := mkMultiLineString { mls_lines : list LineString }.

Record MultiPolygon : Set := mkMultiPolygon { polys : list Polygon }.

Inductive Geometry : Set :=
| GPoint (p : Point)
| GLine (n : Line)
| GLineString (ls : LineString)
| GPolygon (p : Polygon)
| GMultiPoint (mp : MultiPoint)
| GMultiLineString (mls : MultiLineString)
| GMultiPolygon (mp : MultiPolygon)
| GGeometryCollection (geoms : list Geometry).

(** [Point.IsEmpty] and [MultiPoint.IsEmpty] are in the sources; the others
    are modelled from the spec (section 3): a multi-geometry is empty when it
    has no element, a collection when every element is empty. *)
Definition Point_IsEmpty (p : Point) : bool := false.

Definition MultiPoint_IsEmpty (m : MultiPoint) : bool :=
  (length (pts m) =? 0)%nat.

Fixpoint IsEmpty (g : Geometry) : bool :=
  match g with
  | GPoint p => Point_IsEmpty p
  | GLine _ => false
  | GLineString _ => false
  | GPolygon _ => false
  | GMultiPoint mp => MultiPoint_IsEmpty mp
  | GMultiLineString mls => (length (mls_lines mls) =? 0)%nat
  | GMultiPolygon mp => (length (polys mp) =? 0)%nat
  | GGeometryCollection geoms => forallb IsEmpty geoms
  end.

(** Modelled from the spec (section 4.2): the fixed rank that orders the
    operands, Point < Line < LineString < Polygon < MultiPoint <
    MultiLineString < MultiPolygon, with the collection last. *)
Definition rank (g : Geometry) : nat :=
  match g with
  | GPoint _ => 1
  | GLine _ => 2
  | GLineString _ => 3
  | GPolygon _ => 4
  | GMultiPoint _ => 5
  | GMultiLineString _ => 6
  | GMultiPolygon _ => 7
  | GGeometryCollection _ => 8
  end%nat.

(** [NewGeometryCollection(nil)]. *)
Definition NewGeometryCollection (geoms : list Geometry) : Geometry :=
  GGeometryCollection geoms.

(** [MultiPoint.Boundary]. *)
Definition MultiPoint_Boundary (m : MultiPoint) : Geometry :=
  if MultiPoint_IsEmpty m then GMultiPoint m else NewGeometryCollection [].

(** Modelled from the spec: the conversions and accessors the predicates
    use (absent from the sources, read off their names). *)
Definition Line_AsLineString (n : Line) : LineString := mkLineString [n].

Definition LineString_AsMultiLineString (ls : LineString) : MultiLineString :=
  mkMultiLineString [ls].

Definition Polygon_AsMultiPolygon (p : Polygon) : MultiPolygon :=
  mkMultiPolygon [p].

Definition LineString_NumPoints (ls : LineString) : nat := S (length (lines ls)).

(** [ls.PointN(k)]: the start of segment [k], or the end of the last one;
    out of range it panics. *)
Definition LineString_PointN (ls : LineString) (k : nat) : option Point :=
  if (S k =? LineString_NumPoints ls)%nat then
    match last (lines ls) with
    | Some n => Some (mkPoint (b n))
    | None => None
    end
  else
    match nth_error (lines ls) k with
    | Some n => Some (mkPoint (a n))
    | None => None
    end.

Definition LineString_StartPoint (ls : LineString) : option Point :=
  LineString_PointN ls 0.

(** [NewLineC]: refuses two equal points. *)
Definition NewLineC (c1 c2 : XY) : option Line :=
  if XY_Equals c1 c2 then None else Some (mkLine c1 c2).

(** Modelled from the spec: the boundary of a polygon is its rings, as one
    line string when there is no hole and as a multi line string otherwise;
    the boundary of a multi polygon is the rings of all its polygons. *)
Definition Polygon_rings (p : Polygon) : list LineString := outer p :: holes p.

Definition Polygon_Boundary (p : Polygon) : Geometry :=
  match holes p with
  | [] => GLineString (outer p)
  | _ => GMultiLineString (mkMultiLineString (Polygon_rings p))
  end.

Definition MultiPolygon_Boundary (mp : MultiPolygon) : Geometry :=
  GMultiLineString (mkMultiLineString (flat_map Polygon_rings (polys mp))).

(** ** The active set of the sweep *)

(** Modelled from the spec (section 4.2): [lineHeap] (absent from the
    sources) is a sorted active set keyed by [less]; [peek] is its least
    element, [pop] removes it, [data] lists what it holds. *)
Record lineHeap : Set := mkLineHeap { data : list Line }.

Fixpoint insertSorted (less : Line -> Line -> bool) (ln : Line)
    (l : list Line) : list Line :=
  match l with
  | [] => [ln]
  | x :: rest =>
      if less ln x then ln :: l else x :: insertSorted less ln rest
  end.

Definition lineHeap_push (less : Line -> Line -> bool) (h : lineHeap)
    (ln : Line) : lineHeap :=
  mkLineHeap (insertSorted less ln (data h)).

Definition lineHeap_empty (h : lineHeap) : bool :=
  match data h with [] => true | _ => false end.

Definition lineHeap_peek (h : lineHeap) : option Line := head (data h).

Definition lineHeap_pop (h : lineHeap) : lineHeap := mkLineHeap (tail (data h)).

(** The sweep coordinate: a coordinate, or [math.Inf(+1)]. *)
Inductive sweepCoord : Set := Finite (x : Scalar) | PosInf.

(** [math.Min(sweepX, x)]. *)
Definition math_Min (sweepX : sweepCoord) (x : Scalar) : sweepCoord :=
  match sweepX with
  | PosInf => Finite x
  | Finite y => if Scalar_LT x y then Finite x else Finite y
  end.

(** [x < sweepX] and [x == sweepX]. *)
Definition ltSweep (x : Scalar) (sweepX : sweepCoord) : bool :=
  match sweepX with PosInf => true | Finite y => Scalar_LT x y end.

Definition eqSweep (x : Scalar) (sweepX : sweepCoord) : bool :=
  match sweepX with PosInf => false | Finite y => Scalar_Equals x y end.

Record side : Set := mkSide {
  unprocessed : list Line;
  active : lineHeap;
  newSegments : list Line
}.

(** The heap order of the sweep: by the X of the end point. *)
Definition lessEndX (p q : Line) : bool := Scalar_LT (X (b p)) (X (b q)).

(** The order of the unprocessed segments: by the X of the start point. *)
Definition lessStartX (p q : Line) : bool := Scalar_LT (X (a p)) (X (a q)).

(** A segment is stored with its start point to the left. *)
Definition leftToRight (ln : Line) : Line :=
  if Scalar_GT (X (a ln)) (X (b ln)) then mkLine (b ln) (a ln) else ln.

Definition segments (mls : MultiLineString) : list Line :=
  flat_map (fun ls => map leftToRight (lines ls)) (mls_lines mls).

(** [for !active.empty() && active.peek().EndPoint().X < sweepX { active.pop() }];
    the loop runs at most once per element held. *)
Fixpoint popExpired (n : nat) (sweepX : sweepCoord) (h : lineHeap) : lineHeap :=
  match n with
  | O => h
  | S n' =>
      match lineHeap_peek h with
      | Some ln =>
          if negb (lineHeap_empty h) && ltSweep (X (b ln)) sweepX
          then popExpired n' sweepX (lineHeap_pop h)
          else h
      | None => h
      end
  end.

(** [for len(unprocessed) > 0 && unprocessed[0].StartPoint().X == sweepX]:
    move the segment to the active set and record it as new. *)
Fixpoint takeNew (sweepX : sweepCoord) (unproc : list Line) (h : lineHeap)
    (new : list Line) : side :=
  match unproc with
  | ln :: rest =>
      if eqSweep (X (a ln)) sweepX
      then takeNew sweepX rest (lineHeap_push lessEndX h ln) (new ++ [ln])
      else mkSide unproc h new
  | [] => mkSide unproc h new
  end.

(** One side's update at a sweep position. *)
Definition advance (sweepX : sweepCoord) (s : side) : side :=
  let h := popExpired (length (data (active s))) sweepX (active s) in
  takeNew sweepX (unprocessed s) h [].

(** The X of the next segment(s) to process. *)
Definition nextSweepX (s0 s1 : side) : sweepCoord :=
  let sweepX := PosInf in
  let sweepX :=
    match unprocessed s0 with
    | ln :: _ => math_Min sweepX (X (a ln))
    | [] => sweepX
    end in
  match unprocessed s1 with
  | ln :: _ => math_Min sweepX (X (a ln))
  | [] => sweepX
  end.

(** New segments of one side against the active set of the other. *)
Definition checkNew (s other : side) : bool :=
  existsb
    (fun checkLine =>
       existsb (fun ln => hasIntersectionLineWithLine ln checkLine)
         (data (active other)))
    (newSegments s).

(** The main loop of the sweep. *)
Fixpoint sweepLoop (fuel : nat) (s0 s1 : side) : option bool :=
  if (0 <? length (unprocessed s0) + length (unprocessed s1))%nat then
    match fuel with
    | O => None
    | S fuel' =>
        let sweepX := nextSweepX s0 s1 in
        let s0' := advance sweepX s0 in
        let s1' := advance sweepX s1 in
        if checkNew s0' s1' then Some true
        else if checkNew s1' s0' then Some true
        else sweepLoop fuel' s0' s1'
    end
  else Some false.

(** The naive all-pairs test, in the words of the claim, to compare the sweep
    with. *)
Definition allLines (mls : MultiLineString) : list Line :=
  flat_map lines (mls_lines mls).

Definition naiveIntersection (mls1 mls2 : MultiLineString) : bool :=
  existsb
    (fun n1 => existsb (fun n2 => hasIntersectionLineWithLine n1 n2)
                 (allLines mls2))
    (allLines mls1).

(** The three answers of [pointRingSide]. *)
Inductive ringSide : Set := interior | boundary | exterior.

Definition ringSide_eqb (s1 s2 : ringSide) : bool :=
  match s1, s2 with
  | interior, interior | boundary, boundary | exterior, exterior => true
  | _, _ => false
  end.

(** An early-returning loop: [true] at the first element that answers
    [true]; a panic or the end of the fuel inside it ends the loop. *)
Fixpoint anyM {A : Type} (f : A -> option bool) (l : list A) : option bool :=
  match l with
  | [] => Some false
  | x :: rest =>
      match f x with
      | None => None
      | Some true => Some true
      | Some false => anyM f rest
      end
  end.

(** [hasIntersectionPointWithLine]: bounding box, then point on line. *)
Definition hasIntersectionPointWithLine (point : Point) (line : Line) : bool :=
  if negb (inEnvelope (a line) (b line) (coords point)) then false
  else
    let lhs := (X (coords point) - X (a line)) * (Y (b line) - Y (a line)) in
    let rhs := (Y (coords point) - Y (a line)) * (X (b line) - X (a line)) in
    if Scalar_Equals lhs rhs then true else false.

Definition Point_EqualsExact (p q : Point) : bool :=
  XY_Equals (coords p) (coords q).

Definition hasIntersectionPointWithPoint (pt1 pt2 : Point) : bool :=
  if Point_EqualsExact pt1 pt2 then true else false.

Definition hasIntersectionPointWithLineString (pt : Point) (ls : LineString)
  : bool :=
  existsb (fun ln => hasIntersectionPointWithLine pt ln) (lines ls).

Definition hasIntersectionPointWithMultiPoint (point : Point) (mp : MultiPoint)
  : bool :=
  existsb (fun pt => Point_EqualsExact pt point) (pts mp).

Definition hasIntersectionMultiPointWithMultiPoint (mp1 mp2 : MultiPoint)
  : bool :=
  existsb (fun pt => hasIntersectionPointWithMultiPoint pt mp2) (pts mp1).

Definition hasIntersectionPointWithMultiLineString (point : Point)
    (mls : MultiLineString) : bool :=
  existsb (fun ls => hasIntersectionPointWithLineString point ls) (mls_lines mls).

Definition hasIntersectionLineWithMultiPoint (ln : Line) (mp : MultiPoint)
  : bool :=
  existsb (fun pt => hasIntersectionPointWithLine pt ln) (pts mp).

(** [hasIntersectionMultiPointWithMultiLineString]: every segment is rebuilt
    from two consecutive points, and a refusal of [NewLineC] panics. *)
Definition hasIntersectionMultiPointWithMultiLineString (mp : MultiPoint)
    (mls : MultiLineString) : option bool :=
  anyM (fun pt =>
    anyM (fun ls =>
      anyM (fun k =>
        match LineString_PointN ls k, LineString_PointN ls (S k) with
        | Some p1, Some p2 =>
            match NewLineC (coords p1) (coords p2) with
            | Some ln => Some (hasIntersectionPointWithLine pt ln)
            | None => None
            end
        | _, _ => None
        end)
        (seq 0 (LineString_NumPoints ls - 1)))
      (mls_lines mls))
    (pts mp).

Section Intersects.

(** [sort.Slice] is Go's library sort: it returns some permutation of the
    slice that is in order for the comparison it is given. *)
Variable sort_Slice : (Line -> Line -> bool) -> list Line -> list Line.
Hypothesis sort_Slice_Permutation :
  forall (less : Line -> Line -> bool) (l : list Line),
    Permutation l (sort_Slice less l).
Hypothesis sort_Slice_Sorted :
  forall (key : Line -> Scalar) (l : list Line),
    StronglySorted (fun p q => key p <= key q)
      (sort_Slice (fun p q => Scalar_LT (key p) (key q)) l).

(** [pointRingSide] is absent from the sources. *)
Variable pointRingSide : XY -> LineString -> ringSide.

(** The side of one operand when the sweep starts. *)
Definition newSide (mls : MultiLineString) : side :=
  mkSide (sort_Slice lessStartX (segments mls)) (mkLineHeap []) [].

(** [hasIntersectionMultiLineStringWithMultiLineString]; every turn of the
    loop takes a segment off an unprocessed list, so their lengths are fuel
    enough. *)
Definition hasIntersectionMultiLineStringWithMultiLineString
    (mls1 mls2 : MultiLineString) : option bool :=
  let s0 := newSide mls1 in
  let s1 := newSide mls2 in
  sweepLoop (length (unprocessed s0) + length (unprocessed s1)) s0 s1.

(** [hasIntersectionPointWithPolygon]. *)
Definition hasIntersectionPointWithPolygon (pt : Point) (p : Polygon) : bool :=
  if ringSide_eqb (pointRingSide (coords pt) (outer p)) exterior then false
  else if existsb (fun ring => ringSide_eqb (pointRingSide (coords pt) ring) interior)
            (holes p)
  then false
  else true.

Definition hasIntersectionPointWithMultiPolygon (pt : Point) (mp : MultiPolygon)
  : bool :=
  existsb (fun p => hasIntersectionPointWithPolygon pt p) (polys mp).

Definition hasIntersectionMultiPointWithPolygon (mp : MultiPoint) (p : Polygon)
  : bool :=
  existsb (fun pt => hasIntersectionPointWithPolygon pt p) (pts mp).

Definition hasIntersectionMultiPointWithMultiPolygon (mp : MultiPoint)
    (polys : MultiPolygon) : bool :=
  existsb (fun pt => hasIntersectionPointWithMultiPolygon pt polys) (pts mp).

(** The handlers that call back into the dispatch take it as [intersects]. *)
Definition hasIntersectionMultiLineStringWithMultiPolygon
    (intersects : Geometry -> Geometry -> option bool)
    (mls : MultiLineString) (mp : MultiPolygon) : option bool :=
  match intersects (GMultiLineString mls) (MultiPolygon_Boundary mp) with
  | None => None
  | Some true => Some true
  | Some false =>
      (* the loops return at the first control point they reach *)
      match mls_lines mls with
      | [] => Some false
      | ls :: _ =>
          match LineString_PointN ls 0 with
          | Some pt => Some (hasIntersectionPointWithMultiPolygon pt mp)
          | None => None
          end
      end
  end.

Definition hasIntersectionPolygonWithPolygon
    (intersects : Geometry -> Geometry -> option bool)
    (p1 p2 : Polygon) : option bool :=
  let b1 := Polygon_Boundary p1 in
  let b2 := Polygon_Boundary p2 in
  match intersects b1 b2 with
  | None => None
  | Some true => Some true
  | Some false =>
      match LineString_StartPoint (outer p1) with
      | None => None
      | Some sp1 =>
          match intersects (GPoint sp1) (GPolygon p2) with
          | None => None
          | Some true => Some true
          | Some false =>
              match LineString_StartPoint (outer p2) with
              | None => None
              | Some sp2 => intersects (GPoint sp2) (GPolygon p1)
              end
          end
      end
  end.

Definition hasIntersectionMultiPolygonWithMultiPolygon
    (intersects : Geometry -> Geometry -> option bool)
    (mp1 mp2 : MultiPolygon) : option bool :=
  anyM (fun p1 =>
    anyM (fun p2 => intersects (GPolygon p1) (GPolygon p2)) (polys mp2))
    (polys mp1).

Definition asMLS (ls : LineString) : MultiLineString :=
  LineString_AsMultiLineString ls.

(** [hasIntersection]. The fuel bounds the depth of the calls back into the
    dispatch ([g.Intersects(h)] is [hasIntersection(g, h)]); the last case is
    the panic on an unhandled pair. *)
Fixpoint hasIntersection (fuel : nat) (g1 g2 : Geometry) : option bool :=
  match fuel with
  | O => None
  | S fuel' =>
      let intersects := hasIntersection fuel' in
      if IsEmpty g2 then Some false
      else if IsEmpty g1 then Some false
      else
        let (g1, g2) := if (rank g2 <? rank g1)%nat then (g2, g1) else (g1, g2) in
        match g2 with
        | GGeometryCollection gc => anyM (fun g => intersects g1 g) gc
        | _ =>
            match g1, g2 with
            | GPoint g1, GPoint g2 => Some (hasIntersectionPointWithPoint g1 g2)
            | GPoint g1, GLine g2 => Some (hasIntersectionPointWithLine g1 g2)
            | GPoint g1, GLineString g2 =>
                Some (hasIntersectionPointWithLineString g1 g2)
            | GPoint g1, GPolygon g2 => Some (hasIntersectionPointWithPolygon g1 g2)
            | GPoint g1, GMultiPoint g2 =>
                Some (hasIntersectionPointWithMultiPoint g1 g2)
            | GPoint g1, GMultiLineString g2 =>
                Some (hasIntersectionPointWithMultiLineString g1 g2)
            | GPoint g1, GMultiPolygon g2 =>
                Some (hasIntersectionPointWithMultiPolygon g1 g2)
            | GLine g1, GLine g2 => Some (hasIntersectionLineWithLine g1 g2)
            | GLine g1, GLineString g2 =>
                hasIntersectionMultiLineStringWithMultiLineString
                  (asMLS (Line_AsLineString g1)) (asMLS g2)
            | GLine g1, GPolygon g2 =>
                hasIntersectionMultiLineStringWithMultiPolygon intersects
                  (asMLS (Line_AsLineString g1)) (Polygon_AsMultiPolygon g2)
            | GLine g1, GMultiPoint g2 =>
                Some (hasIntersectionLineWithMultiPoint g1 g2)
            | GLine g1, GMultiLineString g2 =>
                hasIntersectionMultiLineStringWithMultiLineString
                  (asMLS (Line_AsLineString g1)) g2
            | GLine g1, GMultiPolygon g2 =>
                hasIntersectionMultiLineStringWithMultiPolygon intersects
                  (asMLS (Line_AsLineString g1)) g2
            | GLineString g1, GLineString g2 =>
                hasIntersectionMultiLineStringWithMultiLineString
                  (asMLS g1) (asMLS g2)
            | GLineString g1, GPolygon g2 =>
                hasIntersectionMultiLineStringWithMultiPolygon intersects
                  (asMLS g1) (Polygon_AsMultiPolygon g2)
            | GLineString g1, GMultiPoint g2 =>
                hasIntersectionMultiPointWithMultiLineString g2 (asMLS g1)
            | GLineString g1, GMultiLineString g2 =>
                hasIntersectionMultiLineStringWithMultiLineString (asMLS g1) g2
            | GLineString g1, GMultiPolygon g2 =>
                hasIntersectionMultiLineStringWithMultiPolygon intersects
                  (asMLS g1) g2
            | GPolygon g1, GPolygon g2 =>
                hasIntersectionPolygonWithPolygon intersects g1 g2
            | GPolygon g1, GMultiPoint g2 =>
                Some (hasIntersectionMultiPointWithPolygon g2 g1)
            | GPolygon g1, GMultiLineString g2 =>
                hasIntersectionMultiLineStringWithMultiPolygon intersects
                  g2 (Polygon_AsMultiPolygon g1)
            | GPolygon g1, GMultiPolygon g2 =>
                hasIntersectionMultiPolygonWithMultiPolygon intersects
                  (Polygon_AsMultiPolygon g1) g2
            | GMultiPoint g1, GMultiPoint g2 =>
                Some (hasIntersectionMultiPointWithMultiPoint g1 g2)
            | GMultiPoint g1, GMultiLineString g2 =>
                hasIntersectionMultiPointWithMultiLineString g1 g2
            | GMultiPoint g1, GMultiPolygon g2 =>
                Some (hasIntersectionMultiPointWithMultiPolygon g1 g2)
            | GMultiLineString g1, GMultiLineString g2 =>
                hasIntersectionMultiLineStringWithMultiLineString g1 g2
            | GMultiLineString g1, GMultiPolygon g2 =>
                hasIntersectionMultiLineStringWithMultiPolygon intersects g1 g2
            | GMultiPolygon g1, GMultiPolygon g2 =>
                hasIntersectionMultiPolygonWithMultiPolygon intersects g1 g2
            | _, _ => None
            end
        end
  end.

(** The nesting of collections in a geometry. *)
Fixpoint depth (g : Geometry) : nat :=
  match g with
  | GGeometryCollection geoms => S (list_max (map depth geoms))
  | _ => O
  end.

(** [g1.Intersects(g2)]: a call outside a collection goes at most three
    deep (multi polygon, polygon, boundary), and each nesting of either
    operand adds one. *)
Definition Intersects (g1 g2 : Geometry) : option bool :=
  hasIntersection (4 + depth g1 + depth g2) g1 g2.

End Intersects.

(** A line string as the spec has it: at least one segment, each between two
    distinct points, each starting where the one before it ends. *)
Fixpoint Chained (l : list Line) : Prop :=
  match l with
  | n1 :: (n2 :: _) as rest => b n1 = a n2 /\ Chained rest
  | _ => True
  end.

Definition ValidLineString (ls : LineString) : Prop :=
  lines ls <> [] /\ Forall NonDegenerate (lines ls) /\ Chained (lines ls).

Definition ValidPolygon (p : Polygon) : Prop :=
  ValidLineString (outer p) /\ Forall ValidLineString (holes p).

Definition ValidMultiLineString (mls : MultiLineString) : Prop :=
  Forall ValidLineString (mls_lines mls).

Fixpoint Valid (g : Geometry) : Prop :=
  match g with
  | GPoint _ => True
  | GLine n => NonDegenerate n
  | GLineString ls => ValidLineString ls
  | GPolygon p => ValidPolygon p
  | GMultiPoint _ => True
  | GMultiLineString mls => ValidMultiLineString mls
  | GMultiPolygon mp => Forall ValidPolygon (polys mp)
  | GGeometryCollection geoms =>
      (fix all (l : list Geometry) : Prop :=
         match l with
         | [] => True
         | g :: rest => Valid g /\ all rest
         end) geoms
  end.

(** An instance of [sort.Slice] for running the predicates: insertion sort. *)
Definition insertionSort (less : Line -> Line -> bool) (l : list Line)
  : list Line :=
  fold_right (insertSorted less) [] l.

(** ** Notions the proofs use *)

(** The cross product that [orientation] takes the sign of. *)
Definition cross3 (p q s : XY) : Q := XY_Cross (XY_Sub q p) (XY_Sub s q).

Inductive orientation_spec (p q s : XY) : threePointOrientation -> Prop :=
| os_left : 0 < cross3 p q s -> orientation_spec p q s leftTurn
| os_right : cross3 p q s < 0 -> orientation_spec p q s rightTurn
| os_col : cross3 p q s == 0 -> orientation_spec p q s collinear.

(** A segment stored left to right. *)
Definition LeftToRight (n : Line) : Prop := X (a n) <= X (b n).

Definition SortedByStart (l : list Line) : Prop :=
  StronglySorted (fun p q => X (a p) <= X (a q)) l.

(** A pair of the two sides that meets and that the sweep has yet to test:
    at least one of the two segments is unprocessed. *)
Definition Hit (A0 U0 A1 U1 : list Line) : Prop :=
  exists p q,
    hasIntersectionLineWithLine p q = true /\
    ((In p (A0 ++ U0) /\ In q U1) \/ (In p U0 /\ In q (A1 ++ U1))).

(** A geometry made of segments only: what a boundary is. *)
Definition Linear (g : Geometry) : Prop :=
  match g with
  | GLineString _ | GMultiLineString _ => True
  | _ => False
  end.

Definition isCollection (g : Geometry) : bool :=
  match g with GGeometryCollection _ => true | _ => false end.

(** [Part c g]: [c] is [g] or a member, at any depth, of the collection [g]. *)
Inductive Part (c : Geometry) : Geometry -> Prop :=
| part_self : Part c c
| part_child (geoms : list Geometry) (d : Geometry) :
    In d geoms -> Part c d -> Part c (GGeometryCollection geoms).

(** ** The convex hull helpers and [MultiPoint.IsSimple] *)

(** The test of [ltl]: [p] is lower than [q], or as low and further left. *)
Definition lowerThenLefter (p q : XY) : bool :=
  Scalar_LT (Y p) (Y q) || (Scalar_Equals (Y p) (Y q) && Scalar_LT (X p) (X q)).

(** One turn of the loop of [ltl]; [i] and [rpi] are below [len(ps)] at
    every turn, so the default of [nth] is never read. *)
Definition ltlStep (ps : list XY) (rpi i : nat) : nat :=
  if lowerThenLefter (nth i ps (mkXY 0 0)) (nth rpi ps (mkXY 0 0)) then i
  else rpi.

(** [ltl]: [for i := 1; i < len(ps); i++]. *)
Definition ltl (ps : list XY) : nat :=
  fold_left (ltlStep ps) (seq 1 (length ps - 1)) O.

(** The turn the other way. *)
Definition opposite (o : threePointOrientation) : threePointOrientation :=
  match o with
  | rightTurn => leftTurn
  | collinear => collinear
  | leftTurn => rightTurn
  end.

(** [seen[xy]] for the map [seen] of [IsSimple], which holds [true] at the
    keys it has: the keys are kept in a list and compared as numbers. *)
Definition seenXY (seen : list XY) (xy : XY) : bool :=
  existsb (fun key => XY_Equals key xy) seen.

(** The loop of [MultiPoint.IsSimple]. *)
Fixpoint IsSimpleLoop (seen : list XY) (points : list Point) : bool :=
  match points with
  | [] => true
  | p :: rest =>
      if seenXY seen (coords p) then false
      else IsSimpleLoop (coords p :: seen) rest
  end.

Definition MultiPoint_IsSimple (m : MultiPoint) : bool :=
  IsSimpleLoop [] (pts m).

(** Four points, two of them lowest and leftmost. *)
Definition hull_example : list XY :=
  [mkXY 2 1; mkXY 3 0; mkXY 1 0; mkXY 1 0].

(** ** The segment primitive *)

Lemma Scalar_LT_iff x y : Scalar_LT x y = true <-> x < y.
Proof.
  unfold Scalar_LT. rewrite negb_true_iff.
  destruct (Qle_bool y x) eqn:E.
  - apply Qle_bool_iff in E. split; [discriminate|]. intros H. exfalso. lra.
  - split; [intros _|reflexivity]. apply Qnot_le_lt. intros H.
    apply Qle_bool_iff in H. congruence.
Qed.

Lemma Scalar_GT_iff x y : Scalar_GT x y = true <-> y < x.
Proof. apply Scalar_LT_iff. Qed.

Lemma Scalar_LE_iff x y : Scalar_LE x y = true <-> x <= y.
Proof. apply Qle_bool_iff. Qed.

Lemma Scalar_Equals_iff x y : Scalar_Equals x y = true <-> x == y.
Proof. apply Qeq_bool_iff. Qed.

Lemma orientation_case p q s : orientation_spec p q s (orientation p q s).
Proof.
  unfold orientation. fold (cross3 p q s). unfold zero.
  destruct (Scalar_GT (cross3 p q s) 0) eqn:E1.
  - constructor. now apply Scalar_GT_iff.
  - destruct (Scalar_LT (cross3 p q s) 0) eqn:E2.
    + constructor. now apply Scalar_LT_iff.
    + constructor.
      assert (~ 0 < cross3 p q s) by (rewrite <- Scalar_GT_iff; congruence).
      assert (~ cross3 p q s < 0) by (rewrite <- Scalar_LT_iff; congruence).
      lra.
Qed.

Lemma between_param (d1 d2 : Q) :
  (d1 <= 0 /\ 0 <= d2) \/ (d2 <= 0 /\ 0 <= d1) -> ~ d1 == d2 ->
  exists t, 0 <= t /\ t <= 1 /\ t * (d2 - d1) == - d1.
Proof.
  intros Hs Hne. exists (- d1 / (d2 - d1)).
  assert (Hw : ~ d2 - d1 == 0) by lra.
  assert (Heq : - d1 / (d2 - d1) * (d2 - d1) == - d1) by (field; exact Hw).
  split; [|split]; [| |exact Heq].
  - destruct Hs as [[H1 H2]|[H1 H2]].
    + apply Qle_shift_div_l; lra.
    + assert (E : - d1 / (d2 - d1) == d1 / (d1 - d2)) by (field; lra).
      rewrite E. apply Qle_shift_div_l; lra.
  - destruct Hs as [[H1 H2]|[H1 H2]].
    + apply Qle_shift_div_r; lra.
    + assert (E : - d1 / (d2 - d1) == d1 / (d1 - d2)) by (field; lra).
      rewrite E. apply Qle_shift_div_r; lra.
Qed.

Lemma inEnvelope_iff p q r :
  inEnvelope p q r = true <->
  ((X p <= X r \/ X q <= X r) /\ (X r <= X p \/ X r <= X q)) /\
  ((Y p <= Y r \/ Y q <= Y r) /\ (Y r <= Y p \/ Y r <= Y q)).
Proof.
  unfold inEnvelope. rewrite !andb_true_iff, !Scalar_LE_iff.
  rewrite !Q.min_le_iff, !Q.max_le_iff. tauto.
Qed.

Lemma onSegment_iff p q r :
  onSegment p q r = true <->
  inEnvelope p q r = true /\
  (X r - X p) * (Y q - Y p) == (Y r - Y p) * (X q - X p).
Proof. unfold onSegment. now rewrite andb_true_iff, Scalar_Equals_iff. Qed.

Lemma ratio_param (n w : Q) :
  ~ w == 0 -> (0 <= n /\ n <= w) \/ (w <= n /\ n <= 0) ->
  exists t, 0 <= t /\ t <= 1 /\ t * w == n.
Proof.
  intros Hw Hn.
  destruct (between_param (- n) (w - n)) as [t [H0 [H1 Ht]]]; [lra|lra|].
  exists t. repeat split; auto. lra.
Qed.

Lemma Qmult_cancel (w x : Q) : ~ w == 0 -> w * x == 0 -> x == 0.
Proof.
  intros Hw H. destruct (Qmult_integral _ _ H); [contradiction|assumption].
Qed.

Lemma onSegment_OnLine p q r : onSegment p q r = true -> OnLine r (mkLine p q).
Proof.
  rewrite onSegment_iff, inEnvelope_iff. intros [[Hx Hy] Hc].
  unfold OnLine; simpl.
  destruct (Qeq_dec (X q - X p) 0) as [Ex|Ex].
  - destruct (Qeq_dec (Y q - Y p) 0) as [Ey|Ey].
    + exists 0. repeat split; lra.
    + destruct (ratio_param (Y r - Y p) (Y q - Y p)) as [t [H0 [H1 Ht]]];
        [assumption|lra|].
      exists t. repeat split; try lra.
      assert (X r - X p == 0); [|nra].
      apply (Qmult_cancel (Y q - Y p)); [assumption|]. nra.
  - destruct (ratio_param (X r - X p) (X q - X p)) as [t [H0 [H1 Ht]]];
      [assumption|lra|].
    exists t. repeat split; try lra.
    assert (Y p + t * (Y q - Y p) - Y r == 0); [|lra].
    apply (Qmult_cancel (X q - X p)); [assumption|]. nra.
Qed.

Lemma OnLine_inEnvelope p q r : OnLine r (mkLine p q) -> inEnvelope p q r = true.
Proof.
  intros [t [H0 [H1 [Hx Hy]]]]. simpl in *. apply inEnvelope_iff.
  repeat split.
  - destruct (Qlt_le_dec (X p) (X q)); [left|right]; nra.
  - destruct (Qlt_le_dec (X p) (X q)); [right|left]; nra.
  - destruct (Qlt_le_dec (Y p) (Y q)); [left|right]; nra.
  - destruct (Qlt_le_dec (Y p) (Y q)); [right|left]; nra.
Qed.

Lemma OnLine_onSegment p q r : OnLine r (mkLine p q) -> onSegment p q r = true.
Proof.
  intros H. apply onSegment_iff. split; [now apply OnLine_inEnvelope|].
  destruct H as [t [H0 [H1 [Hx Hy]]]]. simpl in *. nra.
Qed.

Lemma OnLine_a n : OnLine (a n) n.
Proof. exists 0. repeat split; lra. Qed.

Lemma OnLine_b n : OnLine (b n) n.
Proof. exists 1. repeat split; lra. Qed.

Lemma orientation_eqb_eq o1 o2 : orientation_eqb o1 o2 = true <-> o1 = o2.
Proof. destruct o1, o2; simpl; split; congruence. Qed.

Lemma orientation_collinear_iff p q s :
  orientation p q s = collinear <-> cross3 p q s == 0.
Proof.
  destruct (orientation_case p q s) as [H|H|H]; split; intros H'; try congruence; lra.
Qed.

Lemma orientation_differ p q s s' :
  orientation p q s <> orientation p q s' ->
  ((cross3 p q s <= 0 /\ 0 <= cross3 p q s') \/
   (cross3 p q s' <= 0 /\ 0 <= cross3 p q s)) /\
  ~ cross3 p q s == cross3 p q s'.
Proof.
  destruct (orientation_case p q s), (orientation_case p q s');
    intros Hne; try congruence; split; lra.
Qed.

Lemma orientation_same p q s s' :
  orientation p q s = orientation p q s' ->
  (0 < cross3 p q s /\ 0 < cross3 p q s') \/
  (cross3 p q s < 0 /\ cross3 p q s' < 0) \/
  (cross3 p q s == 0 /\ cross3 p q s' == 0).
Proof.
  destruct (orientation_case p q s), (orientation_case p q s');
    intros He; try congruence; lra.
Qed.

(** The code, with its dead block folded away. *)
Lemma hasIntersectionLineWithLine_unfold n1 n2 :
  hasIntersectionLineWithLine n1 n2 =
  (negb (orientation_eqb (orientation (a n1) (b n1) (a n2))
                         (orientation (a n1) (b n1) (b n2))) &&
   negb (orientation_eqb (orientation (a n2) (b n2) (a n1))
                         (orientation (a n2) (b n2) (b n1)))) ||
  (orientation_eqb (orientation (a n1) (b n1) (a n2)) collinear &&
   orientation_eqb (orientation (a n1) (b n1) (b n2)) collinear &&
   (onSegment (a n1) (b n1) (a n2) || onSegment (a n1) (b n1) (b n2) ||
    onSegment (a n2) (b n2) (a n1) || onSegment (a n2) (b n2) (b n1))).
Proof.
  unfold hasIntersectionLineWithLine. cbv zeta.
  destruct (negb _ && negb _); [reflexivity|]. rewrite orb_false_l.
  destruct (orientation_eqb _ collinear && orientation_eqb _ collinear);
    [|reflexivity].
  rewrite andb_true_l.
  destruct (onSegment (a n1) (b n1) (a n2)), (onSegment (a n1) (b n1) (b n2)),
    (onSegment (a n2) (b n2) (a n1)), (onSegment (a n2) (b n2) (b n1)); simpl;
    try reflexivity; match goal with |- (if ?c then _ else _) = _ => destruct c end;
    reflexivity.
Qed.

Lemma crossing_SharePoint n1 n2 :
  orientation (a n1) (b n1) (a n2) <> orientation (a n1) (b n1) (b n2) ->
  orientation (a n2) (b n2) (a n1) <> orientation (a n2) (b n2) (b n1) ->
  SharePoint n1 n2.
Proof.
  intros H12 H34.
  apply orientation_differ in H12 as [S12 N12].
  apply orientation_differ in H34 as [S34 N34].
  destruct (between_param _ _ S12 N12) as [t [Ht0 [Ht1 Ht]]].
  destruct (between_param _ _ S34 N34) as [s [Hs0 [Hs1 Hs]]].
  destruct n1 as [[ax ay] [bx by_]], n2 as [[cx cy] [dx dy]].
  unfold cross3, XY_Cross, XY_Sub in *; simpl in *.
  exists (mkXY (cx + t * (dx - cx)) (cy + t * (dy - cy))).
  split; [exists s | exists t]; simpl; repeat split; try assumption; try lra.
  - set (w := (bx - ax) * (dy - cy) - (by_ - ay) * (dx - cx)).
    assert (Hw : ~ w == 0) by (unfold w; lra).
    assert (Htw : t * w == - ((bx - ax) * (cy - by_) - (by_ - ay) * (cx - bx)))
      by (unfold w; lra).
    assert (Hsw : s * w == ((dx - cx) * (ay - dy) - (dy - cy) * (ax - dx)))
      by (unfold w; lra).
    assert (E : cx + t * (dx - cx) - (ax + s * (bx - ax)) == 0); [|lra].
    apply (Qmult_cancel w); [assumption|].
    assert (E1 : w * (cx + t * (dx - cx) - (ax + s * (bx - ax))) ==
                 w * (cx - ax) + (t * w) * (dx - cx) - (s * w) * (bx - ax)) by ring.
    rewrite E1, Htw, Hsw. unfold w. ring.
  - set (w := (bx - ax) * (dy - cy) - (by_ - ay) * (dx - cx)).
    assert (Hw : ~ w == 0) by (unfold w; lra).
    assert (Htw : t * w == - ((bx - ax) * (cy - by_) - (by_ - ay) * (cx - bx)))
      by (unfold w; lra).
    assert (Hsw : s * w == ((dx - cx) * (ay - dy) - (dy - cy) * (ax - dx)))
      by (unfold w; lra).
    assert (E : cy + t * (dy - cy) - (ay + s * (by_ - ay)) == 0); [|lra].
    apply (Qmult_cancel w); [assumption|].
    assert (E1 : w * (cy + t * (dy - cy) - (ay + s * (by_ - ay))) ==
                 w * (cy - ay) + (t * w) * (dy - cy) - (s * w) * (by_ - ay)) by ring.
    rewrite E1, Htw, Hsw. unfold w. ring.
Qed.

Lemma hasIntersectionLineWithLine_sound n1 n2 :
  hasIntersectionLineWithLine n1 n2 = true -> SharePoint n1 n2.
Proof.
  rewrite hasIntersectionLineWithLine_unfold.
  rewrite orb_true_iff, !andb_true_iff, !negb_true_iff, !orb_true_iff.
  intros [[H12 H34]|[_ [[[H|H]|H]|H]]].
  - apply crossing_SharePoint.
    + intros E. apply orientation_eqb_eq in E. congruence.
    + intros E. apply orientation_eqb_eq in E. congruence.
  - exists (a n2). split; [|apply OnLine_a].
    apply onSegment_OnLine in H. destruct n1; exact H.
  - exists (b n2). split; [|apply OnLine_b].
    apply onSegment_OnLine in H. destruct n1; exact H.
  - exists (a n1). split; [apply OnLine_a|].
    apply onSegment_OnLine in H. destruct n2; exact H.
  - exists (b n1). split; [apply OnLine_b|].
    apply onSegment_OnLine in H. destruct n2; exact H.
Qed.

(** A point collinear with a non-degenerate segment has a parameter on its
    line. *)
Lemma collinear_param (n : Line) (z : XY) :
  NonDegenerate n -> cross3 (a n) (b n) z == 0 ->
  exists l : Q,
    X z == X (a n) + l * (X (b n) - X (a n)) /\
    Y z == Y (a n) + l * (Y (b n) - Y (a n)).
Proof.
  destruct n as [[ax ay] [bx by_]], z as [zx zy].
  unfold NonDegenerate, cross3, XY_Cross, XY_Sub; simpl. intros Hnd Hc.
  destruct (Qeq_dec (bx - ax) 0) as [Ex|Ex].
  - assert (Ey : ~ by_ - ay == 0) by (intros E; apply Hnd; split; lra).
    exists ((zy - ay) / (by_ - ay)).
    assert (E : (zy - ay) / (by_ - ay) * (by_ - ay) == zy - ay) by (field; exact Ey).
    split; [|lra].
    assert (zx - (ax + (zy - ay) / (by_ - ay) * (bx - ax)) == 0); [|lra].
    apply (Qmult_cancel (by_ - ay)); [assumption|].
    rewrite Ex. nra.
  - exists ((zx - ax) / (bx - ax)).
    assert (E : (zx - ax) / (bx - ax) * (bx - ax) == zx - ax) by (field; exact Ex).
    split; [lra|].
    assert (zy - (ay + (zx - ax) / (bx - ax) * (by_ - ay)) == 0); [|lra].
    apply (Qmult_cancel (bx - ax)); [assumption|].
    assert (E1 : (bx - ax) * (zy - (ay + (zx - ax) / (bx - ax) * (by_ - ay))) ==
            (bx - ax) * (zy - ay) - ((zx - ax) / (bx - ax) * (bx - ax)) * (by_ - ay))
      by (field; exact Ex).
    rewrite E1, E. lra.
Qed.

Lemma param_compose (xa U xc xd lc ld u : Q) :
  xc == xa + lc * U -> xd == xa + ld * U -> u * (ld - lc) == - lc ->
  xa == xc + u * (xd - xc).
Proof.
  intros Hc Hd Hu. rewrite Hc, Hd.
  assert (E : xa + lc * U + u * (xa + ld * U - (xa + lc * U)) ==
              xa + (lc + u * (ld - lc)) * U) by ring.
  rewrite E, Hu. ring.
Qed.

Lemma convex_gt (t lc ld s : Q) :
  0 <= t -> t <= 1 -> s == lc + t * (ld - lc) -> 1 < lc -> 1 < ld -> 1 < s.
Proof.
  intros H0 H1 Hs Hc Hd.
  assert (E : s - 1 == (1 - t) * (lc - 1) + t * (ld - 1)) by (rewrite Hs; ring).
  assert (0 <= t * (ld - 1)) by (apply Qmult_le_0_compat; lra).
  assert (0 <= (1 - t) * (lc - 1)) by (apply Qmult_le_0_compat; lra).
  destruct (Qlt_le_dec 0 t) as [Ht|Ht].
  - assert (0 < t * (ld - 1)) by (apply Qmult_lt_0_compat; lra). lra.
  - assert (Ht0 : t == 0) by lra.
    assert (E2 : (1 - t) * (lc - 1) == lc - 1) by (rewrite Ht0; ring). lra.
Qed.

Lemma convex_lt (t lc ld s : Q) :
  0 <= t -> t <= 1 -> s == lc + t * (ld - lc) -> lc < 0 -> ld < 0 -> s < 0.
Proof.
  intros H0 H1 Hs Hc Hd.
  assert (E : - s == (1 - t) * (- lc) + t * (- ld)) by (rewrite Hs; ring).
  assert (0 <= t * (- ld)) by (apply Qmult_le_0_compat; lra).
  assert (0 <= (1 - t) * (- lc)) by (apply Qmult_le_0_compat; lra).
  destruct (Qlt_le_dec 0 t) as [Ht|Ht].
  - assert (0 < t * (- ld)) by (apply Qmult_lt_0_compat; lra). lra.
  - assert (Ht0 : t == 0) by lra.
    assert (E2 : (1 - t) * (- lc) == - lc) by (rewrite Ht0; ring). lra.
Qed.

(** Collinear overlapping segments: an endpoint of one lies on the other. *)
Lemma collinear_overlap n1 n2 :
  cross3 (a n1) (b n1) (a n2) == 0 -> cross3 (a n1) (b n1) (b n2) == 0 ->
  SharePoint n1 n2 ->
  OnLine (a n2) n1 \/ OnLine (b n2) n1 \/ OnLine (a n1) n2 \/ OnLine (b n1) n2.
Proof.
  intros Hc Hd [p [[s [Hs0 [Hs1 [Hsx Hsy]]]] [t [Ht0 [Ht1 [Htx Hty]]]]]].
  destruct (Qeq_dec (X (a n1)) (X (b n1))) as [Ex|Ex];
    [destruct (Qeq_dec (Y (a n1)) (Y (b n1))) as [Ey|Ey]|].
  - (* n1 is a single point, which is p *)
    right; right; left. exists t. repeat split; try assumption; nra.
  - destruct (collinear_param n1 (a n2)) as [lc [Hcx Hcy]];
      [intros [? ?]; contradiction|assumption|].
    destruct (collinear_param n1 (b n2)) as [ld [Hdx Hdy]];
      [intros [? ?]; contradiction|assumption|].
    assert (Hs : s == lc + t * (ld - lc)).
    { assert (s - (lc + t * (ld - lc)) == 0); [|lra].
      apply (Qmult_cancel (Y (b n1) - Y (a n1))); [lra|]. nra. }
    destruct (Qlt_le_dec lc 0) as [Hlc|Hlc].
    + destruct (Qlt_le_dec 1 ld) as [Hld|Hld].
      * destruct (between_param lc ld) as [u [Hu0 [Hu1 Hu]]]; [lra|lra|].
        right; right; left. exists u. repeat split; try assumption;
          eapply param_compose; eassumption.
      * destruct (Qlt_le_dec ld 0) as [Hld'|Hld'];
          [pose proof (convex_lt t lc ld s Ht0 Ht1 Hs Hlc Hld'); lra|].
        right; left. exists ld. repeat split; assumption.
    + destruct (Qlt_le_dec 1 lc) as [Hlc'|Hlc'].
      * destruct (Qlt_le_dec ld 0) as [Hld|Hld].
        -- destruct (between_param lc ld) as [u [Hu0 [Hu1 Hu]]]; [lra|lra|].
           right; right; left. exists u. repeat split; try assumption;
          eapply param_compose; eassumption.
        -- destruct (Qlt_le_dec 1 ld) as [Hld'|Hld'];
             [pose proof (convex_gt t lc ld s Ht0 Ht1 Hs Hlc' Hld'); lra|].
           right; left. exists ld. repeat split; assumption.
      * left. exists lc. repeat split; assumption.
  - destruct (collinear_param n1 (a n2)) as [lc [Hcx Hcy]];
      [intros [? ?]; contradiction|assumption|].
    destruct (collinear_param n1 (b n2)) as [ld [Hdx Hdy]];
      [intros [? ?]; contradiction|assumption|].
    assert (Hs : s == lc + t * (ld - lc)).
    { assert (s - (lc + t * (ld - lc)) == 0); [|lra].
      apply (Qmult_cancel (X (b n1) - X (a n1))); [lra|]. nra. }
    destruct (Qlt_le_dec lc 0) as [Hlc|Hlc].
    + destruct (Qlt_le_dec 1 ld) as [Hld|Hld].
      * destruct (between_param lc ld) as [u [Hu0 [Hu1 Hu]]]; [lra|lra|].
        right; right; left. exists u. repeat split; try assumption;
          eapply param_compose; eassumption.
      * destruct (Qlt_le_dec ld 0) as [Hld'|Hld'];
          [pose proof (convex_lt t lc ld s Ht0 Ht1 Hs Hlc Hld'); lra|].
        right; left. exists ld. repeat split; assumption.
    + destruct (Qlt_le_dec 1 lc) as [Hlc'|Hlc'].
      * destruct (Qlt_le_dec ld 0) as [Hld|Hld].
        -- destruct (between_param lc ld) as [u [Hu0 [Hu1 Hu]]]; [lra|lra|].
           right; right; left. exists u. repeat split; try assumption;
          eapply param_compose; eassumption.
        -- destruct (Qlt_le_dec 1 ld) as [Hld'|Hld'];
             [pose proof (convex_gt t lc ld s Ht0 Ht1 Hs Hlc' Hld'); lra|].
           right; left. exists ld. repeat split; assumption.
      * left. exists lc. repeat split; assumption.
Qed.

Lemma convex_pos (t d1 d2 : Q) :
  0 <= t -> t <= 1 -> 0 < d1 -> 0 < d2 -> 0 < (1 - t) * d1 + t * d2.
Proof.
  intros H0 H1 Hc Hd.
  pose proof (convex_gt t (d1 + 1) (d2 + 1) ((1 - t) * d1 + t * d2 + 1) H0 H1) as H.
  assert (E : (1 - t) * d1 + t * d2 + 1 == d1 + 1 + t * (d2 + 1 - (d1 + 1))) by ring.
  specialize (H E). lra.
Qed.

Lemma convex_neg (t d1 d2 : Q) :
  0 <= t -> t <= 1 -> d1 < 0 -> d2 < 0 -> (1 - t) * d1 + t * d2 < 0.
Proof.
  intros H0 H1 Hc Hd.
  pose proof (convex_pos t (- d1) (- d2) H0 H1) as H.
  assert (E : (1 - t) * - d1 + t * - d2 == - ((1 - t) * d1 + t * d2)) by ring.
  rewrite E in H. lra.
Qed.

(** The cross products of a shared point: it is on both lines. *)
Lemma SharePoint_cross n1 n2 :
  SharePoint n1 n2 ->
  exists s t : Q,
    (0 <= s /\ s <= 1) /\ (0 <= t /\ t <= 1) /\
    (1 - t) * cross3 (a n1) (b n1) (a n2) + t * cross3 (a n1) (b n1) (b n2) == 0 /\
    (1 - s) * cross3 (a n2) (b n2) (a n1) + s * cross3 (a n2) (b n2) (b n1) == 0.
Proof.
  intros [p [[s [Hs0 [Hs1 [Hsx Hsy]]]] [t [Ht0 [Ht1 [Htx Hty]]]]]].
  exists s, t. repeat split; try assumption.
  - destruct n1 as [[ax ay] [bx by_]], n2 as [[cx cy] [dx dy]].
    unfold cross3, XY_Cross, XY_Sub in *; simpl in *.
    assert (Ex : cx + t * (dx - cx) == ax + s * (bx - ax)) by lra.
    assert (Ey : cy + t * (dy - cy) == ay + s * (by_ - ay)) by lra.
    assert (E : (1 - t) * ((bx - ax) * (cy - by_) - (by_ - ay) * (cx - bx)) +
                t * ((bx - ax) * (dy - by_) - (by_ - ay) * (dx - bx)) ==
                (bx - ax) * (cy + t * (dy - cy) - by_) -
                (by_ - ay) * (cx + t * (dx - cx) - bx)) by ring.
    rewrite E, Ex, Ey. ring.
  - destruct n1 as [[ax ay] [bx by_]], n2 as [[cx cy] [dx dy]].
    unfold cross3, XY_Cross, XY_Sub in *; simpl in *.
    assert (Ex : ax + s * (bx - ax) == cx + t * (dx - cx)) by lra.
    assert (Ey : ay + s * (by_ - ay) == cy + t * (dy - cy)) by lra.
    assert (E : (1 - s) * ((dx - cx) * (ay - dy) - (dy - cy) * (ax - dx)) +
                s * ((dx - cx) * (by_ - dy) - (dy - cy) * (bx - dx)) ==
                (dx - cx) * (ay + s * (by_ - ay) - dy) -
                (dy - cy) * (ax + s * (bx - ax) - dx)) by ring.
    rewrite E, Ex, Ey. ring.
Qed.

Lemma cross_difference n1 n2 :
  cross3 (a n1) (b n1) (b n2) - cross3 (a n1) (b n1) (a n2) ==
  - (cross3 (a n2) (b n2) (b n1) - cross3 (a n2) (b n2) (a n1)).
Proof.
  destruct n1 as [[ax ay] [bx by_]], n2 as [[cx cy] [dx dy]].
  unfold cross3, XY_Cross, XY_Sub; simpl. ring.
Qed.

Lemma same_side_zero (t d1 d2 : Q) (p q s s' : XY) :
  0 <= t -> t <= 1 ->
  orientation p q s = orientation p q s' ->
  (1 - t) * cross3 p q s + t * cross3 p q s' == 0 ->
  cross3 p q s == 0 /\ cross3 p q s' == 0.
Proof.
  intros H0 H1 Ho K.
  destruct (orientation_same _ _ _ _ Ho) as [[Hc Hd]|[[Hc Hd]|Hz]].
  - pose proof (convex_pos t _ _ H0 H1 Hc Hd). lra.
  - pose proof (convex_neg t _ _ H0 H1 Hc Hd). lra.
  - exact Hz.
Qed.

Lemma hasIntersectionLineWithLine_complete n1 n2 :
  SharePoint n1 n2 -> hasIntersectionLineWithLine n1 n2 = true.
Proof.
  intros HS.
  destruct (SharePoint_cross n1 n2 HS) as [s [t [[Hs0 Hs1] [[Ht0 Ht1] [K1 K2]]]]].
  pose proof (cross_difference n1 n2) as K3.
  rewrite hasIntersectionLineWithLine_unfold.
  destruct (orientation_eqb (orientation (a n1) (b n1) (a n2))
              (orientation (a n1) (b n1) (b n2))) eqn:E12.
  - apply orientation_eqb_eq in E12.
    destruct (same_side_zero t 0 0 _ _ _ _ Ht0 Ht1 E12 K1) as [Z1 Z2].
    rewrite (proj2 (orientation_collinear_iff _ _ _) Z1).
    rewrite (proj2 (orientation_collinear_iff _ _ _) Z2). simpl.
    destruct (collinear_overlap n1 n2 Z1 Z2 HS) as [H|[H|[H|H]]].
    + destruct n1; apply OnLine_onSegment in H. simpl in *. rewrite H. reflexivity.
    + destruct n1; apply OnLine_onSegment in H. simpl in *. rewrite H.
      apply orb_true_iff; left. apply orb_true_iff; left. apply orb_true_r.
    + destruct n2; apply OnLine_onSegment in H. simpl in *. rewrite H.
      apply orb_true_iff; left. apply orb_true_r.
    + destruct n2; apply OnLine_onSegment in H. simpl in *. rewrite H.
      apply orb_true_r.
  - destruct (orientation_eqb (orientation (a n2) (b n2) (a n1))
                (orientation (a n2) (b n2) (b n1))) eqn:E34; [|reflexivity].
    exfalso.
    apply orientation_eqb_eq in E34.
    destruct (same_side_zero s 0 0 _ _ _ _ Hs0 Hs1 E34 K2) as [Z1 Z2].
    assert (Hne : orientation (a n1) (b n1) (a n2) <>
                  orientation (a n1) (b n1) (b n2)).
    { intros E. apply orientation_eqb_eq in E. congruence. }
    apply orientation_differ in Hne as [_ Hne]. apply Hne. lra.
Qed.

Lemma hasIntersectionLineWithLine_SharePoint n1 n2 :
  hasIntersectionLineWithLine n1 n2 = true <-> SharePoint n1 n2.
Proof.
  split;
    [apply hasIntersectionLineWithLine_sound
    |apply hasIntersectionLineWithLine_complete].
Qed.

Lemma bool_eq_of_iff (b1 b2 : bool) : (b1 = true <-> b2 = true) -> b1 = b2.
Proof.
  destruct b1, b2; intros [H1 H2]; try reflexivity.
  - symmetry. apply H1. reflexivity.
  - apply H2. reflexivity.
Qed.

Lemma SharePoint_sym n1 n2 : SharePoint n1 n2 -> SharePoint n2 n1.
Proof. intros [p [H1 H2]]. exists p. split; assumption. Qed.

Lemma hasIntersectionLineWithLine_sym n1 n2 :
  hasIntersectionLineWithLine n1 n2 = hasIntersectionLineWithLine n2 n1.
Proof.
  apply bool_eq_of_iff. rewrite !hasIntersectionLineWithLine_SharePoint.
  split; apply SharePoint_sym.
Qed.

Lemma OnLine_reverse p n : OnLine p n -> OnLine p (mkLine (b n) (a n)).
Proof.
  intros [t [H0 [H1 [Hx Hy]]]]. exists (1 - t). simpl.
  split; [lra|]. split; [lra|]. split; [rewrite Hx|rewrite Hy]; ring.
Qed.

Lemma OnLine_leftToRight p n : OnLine p (leftToRight n) <-> OnLine p n.
Proof.
  unfold leftToRight. destruct (Scalar_GT (X (a n)) (X (b n))); [|tauto].
  split; intros H.
  - apply OnLine_reverse in H. destruct n; exact H.
  - apply OnLine_reverse in H. exact H.
Qed.

Lemma hasIntersectionLineWithLine_leftToRight n1 n2 :
  hasIntersectionLineWithLine (leftToRight n1) (leftToRight n2) =
  hasIntersectionLineWithLine n1 n2.
Proof.
  apply bool_eq_of_iff. rewrite !hasIntersectionLineWithLine_SharePoint.
  unfold SharePoint. split; intros [p [H1 H2]]; exists p;
    rewrite ?OnLine_leftToRight in *; auto.
Qed.

Lemma leftToRight_LeftToRight n : LeftToRight (leftToRight n).
Proof.
  unfold leftToRight, LeftToRight.
  destruct (Scalar_GT (X (a n)) (X (b n))) eqn:E; simpl.
  - apply Scalar_GT_iff in E. lra.
  - assert (~ X (b n) < X (a n)) by (rewrite <- Scalar_GT_iff; congruence). lra.
Qed.

(** Two segments that meet overlap in X. *)
Lemma hasIntersectionLineWithLine_overlap n1 n2 :
  LeftToRight n1 -> LeftToRight n2 ->
  hasIntersectionLineWithLine n1 n2 = true ->
  X (a n1) <= X (b n2) /\ X (a n2) <= X (b n1).
Proof.
  unfold LeftToRight. intros L1 L2 H.
  apply hasIntersectionLineWithLine_SharePoint in H.
  destruct H as [p [[s [Hs0 [Hs1 [Hsx _]]]] [t [Ht0 [Ht1 [Htx _]]]]]].
  split; nra.
Qed.

Lemma insertSorted_Permutation less ln l :
  Permutation (insertSorted less ln l) (ln :: l).
Proof.
  induction l as [|x rest IH]; simpl; [reflexivity|].
  destruct (less ln x); [reflexivity|].
  rewrite IH. apply perm_swap.
Qed.

Lemma popExpired_spec n sweepX h :
  exists dropped,
    data h = dropped ++ data (popExpired n sweepX h) /\
    Forall (fun l => ltSweep (X (b l)) sweepX = true) dropped.
Proof.
  revert h. induction n as [|n IH]; intros h; simpl.
  - exists []. split; [reflexivity|constructor].
  - destruct h as [[|ln rest]]; simpl.
    + exists []. split; [reflexivity|constructor].
    + destruct (ltSweep (X (b ln)) sweepX) eqn:E.
      * destruct (IH (mkLineHeap rest)) as [dropped [Hd Hf]]. simpl in Hd.
        exists (ln :: dropped). unfold lineHeap_pop. simpl.
        split; [f_equal; exact Hd|constructor; assumption].
      * exists []. split; [reflexivity|constructor].
Qed.

Lemma takeNew_spec sweepX unproc h new :
  exists taken,
    unproc = taken ++ unprocessed (takeNew sweepX unproc h new) /\
    newSegments (takeNew sweepX unproc h new) = new ++ taken /\
    Permutation (data (active (takeNew sweepX unproc h new))) (taken ++ data h) /\
    Forall (fun l => eqSweep (X (a l)) sweepX = true) taken /\
    (forall ln rest, unproc = ln :: rest -> eqSweep (X (a ln)) sweepX = true ->
                     taken <> []).
Proof.
  revert h new. induction unproc as [|ln rest IH]; intros h new; simpl.
  - exists []. simpl.
    split; [reflexivity|]. split; [now rewrite app_nil_r|]. split; [reflexivity|].
    split; [constructor|]. intros ln rest Heq. discriminate Heq.
  - destruct (eqSweep (X (a ln)) sweepX) eqn:E.
    + destruct (IH (lineHeap_push lessEndX h ln) (new ++ [ln]))
        as [taken [Hu [Hn [Hp [Hf _]]]]].
      exists (ln :: taken).
      split; [simpl; congruence|].
      split; [rewrite Hn, <- app_assoc; reflexivity|].
      split.
      { rewrite Hp. simpl. rewrite insertSorted_Permutation.
        symmetry. apply Permutation_middle. }
      split; [constructor; assumption|].
      intros ln' rest' _ _ Habs. discriminate Habs.
    + exists []. simpl.
      split; [reflexivity|]. split; [now rewrite app_nil_r|]. split; [reflexivity|].
      split; [constructor|].
      intros ln' rest' Heq He. inversion Heq; subst. congruence.
Qed.

Lemma SortedByStart_app_r l1 l2 : SortedByStart (l1 ++ l2) -> SortedByStart l2.
Proof.
  unfold SortedByStart. induction l1 as [|x l1 IH]; simpl; [auto|].
  intros H. inversion H; subst. auto.
Qed.

Lemma SortedByStart_head ln rest l :
  SortedByStart (ln :: rest) -> In l (ln :: rest) -> X (a ln) <= X (a l).
Proof.
  intros H Hin. inversion H as [|? ? _ Hf]; subst.
  destruct Hin as [->|Hin]; [lra|].
  rewrite List.Forall_forall in Hf. auto.
Qed.

Lemma nextSweepX_spec s0 s1 :
  (0 < length (unprocessed s0) + length (unprocessed s1))%nat ->
  SortedByStart (unprocessed s0) -> SortedByStart (unprocessed s1) ->
  exists x,
    nextSweepX s0 s1 = Finite x /\
    (forall l, In l (unprocessed s0) \/ In l (unprocessed s1) -> x <= X (a l)) /\
    ((exists ln rest, unprocessed s0 = ln :: rest /\ X (a ln) == x) \/
     (exists ln rest, unprocessed s1 = ln :: rest /\ X (a ln) == x)).
Proof.
  unfold nextSweepX. intros Hlen S0 S1.
  destruct (unprocessed s0) as [|l0 r0], (unprocessed s1) as [|l1 r1];
    simpl in *.
  - lia.
  - exists (X (a l1)). split; [reflexivity|]. split.
    + intros l [[]|Hl]. eapply SortedByStart_head; eauto.
    + right. exists l1, r1. split; [reflexivity|lra].
  - exists (X (a l0)). split; [reflexivity|]. split.
    + intros l [Hl|[]]. eapply SortedByStart_head; eauto.
    + left. exists l0, r0. split; [reflexivity|lra].
  - destruct (Scalar_LT (X (a l1)) (X (a l0))) eqn:E.
    + apply Scalar_LT_iff in E.
      exists (X (a l1)). split; [reflexivity|]. split.
      * intros l [Hl|Hl].
        -- pose proof (SortedByStart_head _ _ _ S0 Hl). lra.
        -- eapply SortedByStart_head; eauto.
      * right. exists l1, r1. split; [reflexivity|lra].
    + assert (~ X (a l1) < X (a l0)) by (rewrite <- Scalar_LT_iff; congruence).
      exists (X (a l0)). split; [reflexivity|]. split.
      * intros l [Hl|Hl].
        -- eapply SortedByStart_head; eauto.
        -- pose proof (SortedByStart_head _ _ _ S1 Hl). lra.
      * left. exists l0, r0. split; [reflexivity|lra].
Qed.

(** What one side's update does, at a sweep position [x]. *)
Lemma advance_spec (x : Scalar) (s : side) :
  exists dropped kept taken rest,
    data (active s) = dropped ++ kept /\
    unprocessed s = taken ++ rest /\
    unprocessed (advance (Finite x) s) = rest /\
    newSegments (advance (Finite x) s) = taken /\
    Permutation (data (active (advance (Finite x) s))) (taken ++ kept) /\
    Forall (fun l => X (b l) < x) dropped /\
    Forall (fun l => X (a l) == x) taken /\
    (forall ln rest', unprocessed s = ln :: rest' -> X (a ln) == x -> taken <> []).
Proof.
  unfold advance.
  destruct (popExpired_spec (length (data (active s))) (Finite x) (active s))
    as [dropped [Hd Hf]].
  set (h := popExpired (length (data (active s))) (Finite x) (active s)) in *.
  destruct (takeNew_spec (Finite x) (unprocessed s) h []) as
    [taken [Hu [Hn [Hp [Ht Hne]]]]].
  exists dropped, (data h), taken, (unprocessed (takeNew (Finite x) (unprocessed s) h [])).
  repeat split; auto.
  - eapply List.Forall_impl; [|exact Hf]. intros l Hl. simpl in Hl.
    now apply Scalar_LT_iff.
  - eapply List.Forall_impl; [|exact Ht]. intros l Hl. simpl in Hl.
    now apply Scalar_Equals_iff.
  - intros ln rest' Heq Hx. eapply Hne; eauto. simpl.
    now apply Scalar_Equals_iff.
Qed.

Lemma checkNew_false s other :
  checkNew s other = false ->
  forall check ln, In check (newSegments s) -> In ln (data (active other)) ->
                   hasIntersectionLineWithLine ln check = false.
Proof.
  unfold checkNew. intros H check ln Hc Hl.
  destruct (hasIntersectionLineWithLine ln check) eqn:E; [|reflexivity].
  assert (existsb (fun checkLine => existsb
            (fun ln => hasIntersectionLineWithLine ln checkLine)
            (data (active other))) (newSegments s) = true); [|congruence].
  apply existsb_exists. exists check. split; [assumption|].
  apply existsb_exists. exists ln. split; assumption.
Qed.

Lemma checkNew_true s other :
  checkNew s other = true ->
  exists check ln, In check (newSegments s) /\ In ln (data (active other)) /\
                   hasIntersectionLineWithLine ln check = true.
Proof.
  unfold checkNew. intros H. apply existsb_exists in H as [check [Hc H]].
  apply existsb_exists in H as [ln [Hl H]]. eauto.
Qed.

Lemma expired_no_hit (x : Scalar) (p q : Line) :
  LeftToRight p -> LeftToRight q -> X (b p) < x -> x <= X (a q) ->
  hasIntersectionLineWithLine p q = false.
Proof.
  intros Lp Lq Hp Hq.
  destruct (hasIntersectionLineWithLine p q) eqn:E; [|reflexivity].
  destruct (hasIntersectionLineWithLine_overlap p q Lp Lq E). lra.
Qed.

Lemma sweepLoop_correct (fuel : nat) :
  forall s0 s1 : side,
    (length (unprocessed s0) + length (unprocessed s1) <= fuel)%nat ->
    SortedByStart (unprocessed s0) -> SortedByStart (unprocessed s1) ->
    Forall LeftToRight (data (active s0) ++ unprocessed s0) ->
    Forall LeftToRight (data (active s1) ++ unprocessed s1) ->
    exists r : bool,
      sweepLoop fuel s0 s1 = Some r /\
      (r = true <->
       Hit (data (active s0)) (unprocessed s0) (data (active s1)) (unprocessed s1)).
Proof.
  induction fuel as [|fuel IH]; intros s0 s1 Hfuel S0 S1 L0 L1.
  - assert (E0 : unprocessed s0 = []) by (destruct (unprocessed s0); simpl in *; [auto|lia]).
    assert (E1 : unprocessed s1 = []) by (destruct (unprocessed s1); simpl in *; [auto|lia]).
    simpl. rewrite E0, E1. simpl. exists false. split; [reflexivity|].
    split; [discriminate|]. intros [p [q [_ [[_ []]|[[] _]]]]].
  - simpl. destruct (0 <? length (unprocessed s0) + length (unprocessed s1))%nat eqn:Hpos.
    2:{ apply Nat.ltb_ge in Hpos.
        assert (E0 : unprocessed s0 = []) by (destruct (unprocessed s0); simpl in *; [auto|lia]).
        assert (E1 : unprocessed s1 = []) by (destruct (unprocessed s1); simpl in *; [auto|lia]).
        rewrite E0, E1. exists false. split; [reflexivity|].
        split; [discriminate|]. intros [p [q [_ [[_ []]|[[] _]]]]]. }
    apply Nat.ltb_lt in Hpos.
    destruct (nextSweepX_spec s0 s1 Hpos S0 S1) as [x [Hx [Hmin Hhead]]].
    rewrite Hx.
    destruct (advance_spec x s0) as
      [dropped0 [kept0 [taken0 [rest0 [HA0 [HU0 [HU0' [HN0 [HP0 [HD0 [HT0 HNE0]]]]]]]]]]].
    destruct (advance_spec x s1) as
      [dropped1 [kept1 [taken1 [rest1 [HA1 [HU1 [HU1' [HN1 [HP1 [HD1 [HT1 HNE1]]]]]]]]]]].
    set (s0' := advance (Finite x) s0) in *.
    set (s1' := advance (Finite x) s1) in *.
    rewrite List.Forall_forall in L0, L1, HD0, HD1.
    assert (IA0 : forall p, In p (data (active s0')) <-> In p taken0 \/ In p kept0).
    { intros p. rewrite <- in_app_iff. split; apply Permutation_in;
        [exact HP0|symmetry; exact HP0]. }
    assert (IA1 : forall p, In p (data (active s1')) <-> In p taken1 \/ In p kept1).
    { intros p. rewrite <- in_app_iff. split; apply Permutation_in;
        [exact HP1|symmetry; exact HP1]. }
    destruct (checkNew s0' s1') eqn:C01.
    { exists true. split; [reflexivity|]. split; [intros _|reflexivity].
      apply checkNew_true in C01 as [check [ln [Hc [Hl Hhit]]]].
      exists check, ln. split; [rewrite hasIntersectionLineWithLine_sym; exact Hhit|].
      right. rewrite HN0 in Hc. apply IA1 in Hl.
      rewrite HU0, HA1, HU1, !in_app_iff. tauto. }
    destruct (checkNew s1' s0') eqn:C10.
    { exists true. split; [reflexivity|]. split; [intros _|reflexivity].
      apply checkNew_true in C10 as [check [ln [Hc [Hl Hhit]]]].
      exists ln, check. split; [exact Hhit|].
      left. rewrite HN1 in Hc. apply IA0 in Hl.
      rewrite HU1, HA0, HU0, !in_app_iff. tauto. }
    pose proof (checkNew_false _ _ C01) as F01.
    pose proof (checkNew_false _ _ C10) as F10.
    rewrite HN0 in F01. rewrite HN1 in F10.
    destruct (IH s0' s1') as [r [Hr Hiff]].
    + assert (taken0 <> [] \/ taken1 <> []) as Hne.
      { destruct Hhead as [[ln [rest [E Hq]]]|[ln [rest [E Hq]]]]; eauto. }
      rewrite HU0', HU1'. rewrite HU0, HU1, !length_app in Hfuel.
      destruct Hne as [Hne|Hne];
        [destruct taken0|destruct taken1]; try congruence; simpl in Hfuel; lia.
    + rewrite HU0'. rewrite HU0 in S0. eapply SortedByStart_app_r; eauto.
    + rewrite HU1'. rewrite HU1 in S1. eapply SortedByStart_app_r; eauto.
    + apply List.Forall_forall. intros p Hp. apply L0.
      rewrite in_app_iff in Hp. rewrite IA0, HU0' in Hp.
      rewrite HA0, HU0, !in_app_iff. tauto.
    + apply List.Forall_forall. intros p Hp. apply L1.
      rewrite in_app_iff in Hp. rewrite IA1, HU1' in Hp.
      rewrite HA1, HU1, !in_app_iff. tauto.
    + exists r. split; [exact Hr|]. rewrite Hiff. rewrite HU0', HU1'.
      unfold Hit. split; intros [p [q [Hhit Hin]]].
      * exists p, q. split; [exact Hhit|].
        rewrite !in_app_iff, IA0, IA1 in Hin.
        rewrite HA0, HU0, HA1, HU1, !in_app_iff. tauto.
      * rewrite HA0, HU0, HA1, HU1, !in_app_iff in Hin.
        assert (Lp : LeftToRight p).
        { apply L0. rewrite HA0, HU0, !in_app_iff.
          destruct Hin as [[Hp _]|[Hp _]]; tauto. }
        assert (Lq : LeftToRight q).
        { apply L1. rewrite HA1, HU1, !in_app_iff.
          destruct Hin as [[_ Hq]|[_ Hq]]; tauto. }
        assert (Dp : ~ In p dropped0 \/ ~ (In q taken1 \/ In q rest1)).
        { destruct (hasIntersectionLineWithLine_overlap p q Lp Lq Hhit) as [_ Ho].
          destruct (Qlt_le_dec (X (b p)) x) as [Hlt|Hle].
          - right. intros Hq. assert (x <= X (a q)); [|lra].
            apply Hmin. right. rewrite HU1, in_app_iff. exact Hq.
          - left. intros Hp. specialize (HD0 p Hp). simpl in HD0. lra. }
        assert (Dq : ~ In q dropped1 \/ ~ (In p taken0 \/ In p rest0)).
        { destruct (hasIntersectionLineWithLine_overlap p q Lp Lq Hhit) as [Ho _].
          destruct (Qlt_le_dec (X (b q)) x) as [Hlt|Hle].
          - right. intros Hp. assert (x <= X (a p)); [|lra].
            apply Hmin. left. rewrite HU0, in_app_iff. exact Hp.
          - left. intros Hq. specialize (HD1 q Hq). simpl in HD1. lra. }
        assert (T1 : ~ ((In p taken0 \/ In p kept0) /\ In q taken1)).
        { intros [Hp Hq]. apply IA0 in Hp.
          rewrite (F10 q p Hq Hp) in Hhit. discriminate. }
        assert (T0 : ~ (In p taken0 /\ (In q taken1 \/ In q kept1))).
        { intros [Hp Hq]. apply IA1 in Hq.
          rewrite hasIntersectionLineWithLine_sym in Hhit.
          rewrite (F01 p q Hp Hq) in Hhit. discriminate. }
        exists p, q. split; [exact Hhit|].
        rewrite !in_app_iff, IA0, IA1. tauto.
Qed.

Lemma In_segments p mls :
  In p (segments mls) <-> exists n, In n (allLines mls) /\ p = leftToRight n.
Proof.
  unfold segments, allLines. rewrite in_flat_map. split.
  - intros [ls [Hls Hp]]. apply in_map_iff in Hp as [n [<- Hn]].
    exists n. split; [|reflexivity]. apply in_flat_map. eauto.
  - intros [n [Hn ->]]. apply in_flat_map in Hn as [ls [Hls Hn]].
    exists ls. split; [assumption|]. now apply in_map.
Qed.

Lemma naiveIntersection_true mls1 mls2 :
  naiveIntersection mls1 mls2 = true <->
  exists n1 n2, In n1 (allLines mls1) /\ In n2 (allLines mls2) /\
                hasIntersectionLineWithLine n1 n2 = true.
Proof.
  unfold naiveIntersection. rewrite existsb_exists. split.
  - intros [n1 [H1 H]]. apply existsb_exists in H as [n2 [H2 H]]. eauto.
  - intros [n1 [n2 [H1 [H2 H]]]]. exists n1. split; [assumption|].
    apply existsb_exists. eauto.
Qed.

Section SweepFacts.

Variable sort_Slice : (Line -> Line -> bool) -> list Line -> list Line.
Hypothesis sort_Slice_Permutation :
  forall (less : Line -> Line -> bool) (l : list Line),
    Permutation l (sort_Slice less l).
Hypothesis sort_Slice_Sorted :
  forall (key : Line -> Scalar) (l : list Line),
    StronglySorted (fun p q => key p <= key q)
      (sort_Slice (fun p q => Scalar_LT (key p) (key q)) l).

Lemma newSide_In p mls :
  In p (unprocessed (newSide sort_Slice mls)) <->
  exists n, In n (allLines mls) /\ p = leftToRight n.
Proof using sort_Slice_Permutation.
  simpl. rewrite <- In_segments. split; apply Permutation_in;
    [symmetry|]; apply sort_Slice_Permutation.
Qed.

Lemma sweep_naive mls1 mls2 :
  hasIntersectionMultiLineStringWithMultiLineString sort_Slice mls1 mls2 =
  Some (naiveIntersection mls1 mls2).
Proof using sort_Slice_Permutation sort_Slice_Sorted.
  unfold hasIntersectionMultiLineStringWithMultiLineString. cbv zeta.
  destruct (sweepLoop_correct
              (length (unprocessed (newSide sort_Slice mls1)) +
               length (unprocessed (newSide sort_Slice mls2)))
              (newSide sort_Slice mls1) (newSide sort_Slice mls2))
    as [r [Hr Hiff]].
  - lia.
  - apply (sort_Slice_Sorted (fun l => X (a l))).
  - apply (sort_Slice_Sorted (fun l => X (a l))).
  - apply List.Forall_forall. intros p Hp. simpl in Hp.
    apply newSide_In in Hp as [n [_ ->]]. apply leftToRight_LeftToRight.
  - apply List.Forall_forall. intros p Hp. simpl in Hp.
    apply newSide_In in Hp as [n [_ ->]]. apply leftToRight_LeftToRight.
  - rewrite Hr. f_equal. apply bool_eq_of_iff. rewrite Hiff.
    rewrite naiveIntersection_true. unfold Hit.
    change (data (active (newSide sort_Slice mls1))) with (@nil Line).
    change (data (active (newSide sort_Slice mls2))) with (@nil Line).
    split.
    + intros [p [q [Hhit Hin]]].
      assert (Hp : In p (unprocessed (newSide sort_Slice mls1))) by (simpl in *; tauto).
      assert (Hq : In q (unprocessed (newSide sort_Slice mls2))) by (simpl in *; tauto).
      apply newSide_In in Hp as [n1 [H1 ->]]. apply newSide_In in Hq as [n2 [H2 ->]].
      rewrite hasIntersectionLineWithLine_leftToRight in Hhit. eauto.
    + intros [n1 [n2 [H1 [H2 Hhit]]]].
      exists (leftToRight n1), (leftToRight n2).
      rewrite hasIntersectionLineWithLine_leftToRight. split; [assumption|].
      left. split; apply newSide_In; eauto.
Qed.

End SweepFacts.

(** Two points on the line of a non-degenerate segment are collinear with
    each of its endpoints. *)
Lemma collinear_both n1 n2 :
  NonDegenerate n1 ->
  cross3 (a n1) (b n1) (a n2) == 0 -> cross3 (a n1) (b n1) (b n2) == 0 ->
  cross3 (a n2) (b n2) (a n1) == 0 /\ cross3 (a n2) (b n2) (b n1) == 0.
Proof.
  intros Hnd Hc Hd.
  destruct (collinear_param n1 (a n2) Hnd Hc) as [lc [Hcx Hcy]].
  destruct (collinear_param n1 (b n2) Hnd Hd) as [ld [Hdx Hdy]].
  destruct n1 as [[ax ay] [bx by_]], n2 as [[cx cy] [dx dy]].
  unfold cross3, XY_Cross, XY_Sub in *; simpl in *.
  split; rewrite Hcx, Hcy, Hdx, Hdy; ring.
Qed.

Lemma hasIntersectionLineWithLine_fourOrientation n1 n2 :
  NonDegenerate n1 ->
  hasIntersectionLineWithLine n1 n2 = fourOrientationAlgorithm n1 n2.
Proof.
  intros Hnd. rewrite hasIntersectionLineWithLine_unfold.
  unfold fourOrientationAlgorithm. cbv zeta.
  destruct (negb _ && negb _); [reflexivity|]. rewrite orb_false_l.
  destruct (orientation_eqb (orientation (a n1) (b n1) (a n2)) collinear) eqn:E1;
    [|reflexivity].
  destruct (orientation_eqb (orientation (a n1) (b n1) (b n2)) collinear) eqn:E2;
    [|reflexivity].
  apply orientation_eqb_eq in E1, E2.
  apply orientation_collinear_iff in E1, E2.
  destruct (collinear_both n1 n2 Hnd E1 E2) as [E3 E4].
  apply orientation_collinear_iff in E3, E4. rewrite E3, E4. reflexivity.
Qed.

(** ** Insertion sort is an instance of [sort.Slice] *)

Lemma insertionSort_Permutation (less : Line -> Line -> bool) (l : list Line) :
  Permutation l (insertionSort less l).
Proof.
  induction l as [|x l IH]; simpl; [constructor|].
  rewrite insertSorted_Permutation. now constructor.
Qed.

Lemma insertSorted_Sorted (key : Line -> Scalar) (ln : Line) (l : list Line) :
  StronglySorted (fun p q => key p <= key q) l ->
  StronglySorted (fun p q => key p <= key q)
    (insertSorted (fun p q => Scalar_LT (key p) (key q)) ln l).
Proof.
  induction 1 as [|x l Hs IH Hf]; simpl.
  - repeat constructor.
  - destruct (Scalar_LT (key ln) (key x)) eqn:E.
    + apply Scalar_LT_iff in E. constructor; [constructor; assumption|].
      constructor; [lra|]. eapply List.Forall_impl; [|exact Hf].
      intros y Hy. simpl in Hy. lra.
    + assert (~ key ln < key x) by (rewrite <- Scalar_LT_iff; congruence).
      constructor; [assumption|].
      eapply Permutation_Forall;
        [symmetry; apply insertSorted_Permutation|].
      constructor; [lra|assumption].
Qed.

Lemma insertionSort_Sorted (key : Line -> Scalar) (l : list Line) :
  StronglySorted (fun p q => key p <= key q)
    (insertionSort (fun p q => Scalar_LT (key p) (key q)) l).
Proof.
  induction l as [|x l IH]; simpl; [constructor|].
  now apply insertSorted_Sorted.
Qed.

(** ** The claims on the segment primitive and on the sweep *)


Lemma NonDegenerate_by_X (n : Line) : ~ X (a n) == X (b n) -> NonDegenerate n.
Proof. intros H [Hx _]. contradiction. Qed.

Lemma NonDegenerate_by_Y (n : Line) : ~ Y (a n) == Y (b n) -> NonDegenerate n.
Proof. intros H [_ Hy]. contradiction. Qed.


Section SweepClaim.

Variable sort_Slice : (Line -> Line -> bool) -> list Line -> list Line.
Hypothesis sort_Slice_Permutation :
  forall (less : Line -> Line -> bool) (l : list Line),
    Permutation l (sort_Slice less l).
Hypothesis sort_Slice_Sorted :
  forall (key : Line -> Scalar) (l : list Line),
    StronglySorted (fun p q => key p <= key q)
      (sort_Slice (fun p q => Scalar_LT (key p) (key q)) l).


End SweepClaim.

(** [MULTILINESTRING((0 0,2 2),(5 5,6 5))] and
    [MULTILINESTRING((2 0,0 2,0 3))]. *)
Definition mls_example1 : MultiLineString :=
  mkMultiLineString
    [mkLineString [mkLine (mkXY 0 0) (mkXY 2 2)];
     mkLineString [mkLine (mkXY 5 5) (mkXY 6 5)]].

Definition mls_example2 : MultiLineString :=
  mkMultiLineString
    [mkLineString [mkLine (mkXY 2 0) (mkXY 0 2); mkLine (mkXY 0 2) (mkXY 0 3)]].

Ltac distinct_endpoints :=
  let H := fresh "H" in
  first [ solve [apply NonDegenerate_by_X; simpl; intros H; vm_compute in H;
                 discriminate H]
        | solve [apply NonDegenerate_by_Y; simpl; intros H; vm_compute in H;
                 discriminate H] ].

Ltac valid_line_string :=
  split; [discriminate|split; [repeat (constructor; [distinct_endpoints|]); constructor
                              |simpl; repeat split]].

Lemma mls_example1_valid : ValidMultiLineString mls_example1.
Proof.
  unfold ValidMultiLineString, mls_example1; simpl.
  repeat (constructor; [valid_line_string|]). constructor.
Qed.

Lemma mls_example2_valid : ValidMultiLineString mls_example2.
Proof.
  unfold ValidMultiLineString, mls_example2; simpl.
  repeat (constructor; [valid_line_string|]). constructor.
Qed.


Example sweep_example_true :
  hasIntersectionMultiLineStringWithMultiLineString insertionSort
    mls_example1 mls_example2 = Some true.
Proof. vm_compute. reflexivity. Qed.

(** ** Self-intersection *)

Lemma anyM_total {A : Type} (f : A -> option bool) (l : list A) :
  (forall x, In x l -> exists r, f x = Some r) -> exists r, anyM f l = Some r.
Proof.
  induction l as [|x l IH]; simpl; intros H; [eauto|].
  destruct (H x (or_introl eq_refl)) as [[|] ->]; eauto.
Qed.

Lemma anyM_true {A : Type} (f : A -> option bool) (l : list A) (x : A) :
  (forall y, In y l -> exists r, f y = Some r) ->
  In x l -> f x = Some true -> anyM f l = Some true.
Proof.
  induction l as [|y l IH]; simpl; intros H Hin Hx; [contradiction|].
  destruct Hin as [->|Hin]; [rewrite Hx; reflexivity|].
  destruct (H y (or_introl eq_refl)) as [[|] ->]; auto.
Qed.

Lemma XY_Equals_refl (p : XY) : XY_Equals p p = true.
Proof.
  unfold XY_Equals, Scalar_Equals. apply andb_true_iff.
  split; apply Qeq_bool_iff; reflexivity.
Qed.

Lemma hasIntersectionLineWithLine_refl (n : Line) :
  hasIntersectionLineWithLine n n = true.
Proof.
  apply hasIntersectionLineWithLine_SharePoint.
  exists (a n). split; apply OnLine_a.
Qed.

Lemma Valid_collection (geoms : list Geometry) :
  Valid (GGeometryCollection geoms) <-> forall g, In g geoms -> Valid g.
Proof.
  simpl. induction geoms as [|g rest IH]; simpl.
  - split; [intros _ g []|auto].
  - rewrite IH. split.
    + intros [Hg Hr] x [->|Hx]; auto.
    + intros H. split; [apply H; auto|intros x Hx; apply H; auto].
Qed.

Lemma depth_child (c : Geometry) (geoms : list Geometry) :
  In c geoms -> (depth c < depth (GGeometryCollection geoms))%nat.
Proof.
  simpl. induction geoms as [|g rest IH]; simpl; [tauto|].
  intros [->|Hin]; [lia|]. specialize (IH Hin). lia.
Qed.

Lemma naiveIntersection_self (mls : MultiLineString) :
  allLines mls <> [] -> naiveIntersection mls mls = true.
Proof.
  intros H. apply naiveIntersection_true.
  destruct (allLines mls) as [|n rest] eqn:E; [congruence|].
  exists n, n. repeat split; try (left; reflexivity).
  apply hasIntersectionLineWithLine_refl.
Qed.

Lemma ValidLineString_lines (ls : LineString) :
  ValidLineString ls -> exists n rest, lines ls = n :: rest.
Proof.
  intros [H _]. destruct (lines ls) as [|n rest]; [congruence|eauto].
Qed.

Lemma allLines_nonempty (ls : LineString) (lss : list LineString) :
  ValidLineString ls -> allLines (mkMultiLineString (ls :: lss)) <> [].
Proof.
  intros H. destruct (ValidLineString_lines ls H) as [n [rest E]].
  unfold allLines. simpl. rewrite E. discriminate.
Qed.

Lemma Chained_tail (n : Line) (l : list Line) : Chained (n :: l) -> Chained l.
Proof. destruct l; simpl; tauto. Qed.

Lemma Chained_next (l : list Line) :
  Chained l ->
  forall (k : nat) (n : Line),
    nth_error l k = Some n ->
    match nth_error l (S k) with
    | Some n2 => a n2 = b n
    | None => last l = Some n
    end.
Proof.
  induction l as [|x l IH]; intros Hc k n Hk; [destruct k; discriminate|].
  destruct k as [|k]; simpl in Hk.
  - inversion Hk; subst. destruct l as [|y l]; simpl; [reflexivity|].
    simpl in Hc. symmetry. tauto.
  - specialize (IH (Chained_tail _ _ Hc) k n Hk).
    change (nth_error (x :: l) (S (S k))) with (nth_error l (S k)).
    destruct (nth_error l (S k)); [exact IH|].
    destruct l as [|y l]; [destruct k; discriminate|]. exact IH.
Qed.

Lemma LineString_PointN_segment (ls : LineString) (k : nat) :
  ValidLineString ls -> (k < length (lines ls))%nat ->
  exists n,
    In n (lines ls) /\
    LineString_PointN ls k = Some (mkPoint (a n)) /\
    LineString_PointN ls (S k) = Some (mkPoint (b n)).
Proof.
  intros [_ [_ Hc]] Hk.
  destruct (nth_error (lines ls) k) as [n|] eqn:En;
    [|apply nth_error_None in En; lia].
  exists n. split; [eapply nth_error_In; eauto|].
  pose proof (Chained_next _ Hc k n En) as Hn.
  unfold LineString_PointN, LineString_NumPoints. split.
  - destruct (Nat.eqb_spec (S k) (S (length (lines ls)))); [lia|].
    rewrite En. reflexivity.
  - destruct (Nat.eqb_spec (S (S k)) (S (length (lines ls)))) as [E|E].
    + assert (En2 : nth_error (lines ls) (S k) = None)
        by (apply nth_error_None; lia).
      rewrite En2 in Hn. rewrite Hn. reflexivity.
    + destruct (nth_error (lines ls) (S k)) as [n2|] eqn:En2.
      * rewrite Hn. reflexivity.
      * apply nth_error_None in En2. lia.
Qed.

Lemma NonDegenerate_NewLineC (n : Line) :
  NonDegenerate n -> NewLineC (a n) (b n) = Some n.
Proof.
  intros H. unfold NewLineC.
  destruct (XY_Equals (a n) (b n)) eqn:E; [|destruct n; reflexivity].
  exfalso. apply H. unfold XY_Equals in E.
  apply andb_true_iff in E as [Ex Ey].
  split; now apply Scalar_Equals_iff.
Qed.

Lemma hasIntersectionMultiPointWithMultiLineString_total
    (mp : MultiPoint) (mls : MultiLineString) :
  ValidMultiLineString mls ->
  exists r, hasIntersectionMultiPointWithMultiLineString mp mls = Some r.
Proof.
  intros Hv. unfold hasIntersectionMultiPointWithMultiLineString.
  apply anyM_total. intros pt _. apply anyM_total. intros ls Hls.
  apply anyM_total. intros k Hk. apply in_seq in Hk.
  unfold ValidMultiLineString in Hv. rewrite List.Forall_forall in Hv.
  specialize (Hv ls Hls).
  destruct (LineString_PointN_segment ls k Hv) as [n [Hn [E1 E2]]];
    [unfold LineString_NumPoints in Hk; lia|].
  rewrite E1, E2. simpl. rewrite NonDegenerate_NewLineC; [eauto|].
  destruct Hv as [_ [Hnd _]]. rewrite List.Forall_forall in Hnd. auto.
Qed.

Lemma asMLS_valid (ls : LineString) :
  ValidLineString ls -> ValidMultiLineString (asMLS ls).
Proof. intros H. constructor; [assumption|constructor]. Qed.

Lemma Line_AsLineString_valid (n : Line) :
  NonDegenerate n -> ValidLineString (Line_AsLineString n).
Proof.
  intros H. split; [discriminate|]. split; [constructor; [assumption|constructor]|exact I].
Qed.

Lemma Part_depth c g : Part c g -> (depth c <= depth g)%nat.
Proof.
  induction 1 as [|geoms d Hd _ IH]; [lia|].
  pose proof (depth_child d geoms Hd). lia.
Qed.

Lemma Part_Valid c g : Part c g -> Valid g -> Valid c.
Proof.
  induction 1 as [|geoms d Hd _ IH]; [auto|].
  intros V. apply IH. apply (proj1 (Valid_collection geoms) V d Hd).
Qed.

Lemma Part_nonempty c g : Part c g -> IsEmpty c = false -> IsEmpty g = false.
Proof.
  induction 1 as [|geoms d Hd _ IH]; [auto|].
  intros E. specialize (IH E). simpl.
  destruct (forallb IsEmpty geoms) eqn:F; [|reflexivity].
  rewrite forallb_forall in F. rewrite (F d Hd) in IH. discriminate.
Qed.

Lemma Part_trans c d g : Part c d -> Part d g -> Part c g.
Proof.
  intros Hcd Hdg. induction Hdg as [|geoms e He _ IH]; [assumption|].
  eapply part_child; eauto.
Qed.

Lemma Part_leaf c g : isCollection g = false -> Part c g -> c = g.
Proof. intros C H. destruct H; [reflexivity|discriminate]. Qed.

Lemma nonempty_member (geoms : list Geometry) :
  IsEmpty (GGeometryCollection geoms) = false ->
  exists c, In c geoms /\ IsEmpty c = false.
Proof.
  simpl. induction geoms as [|g rest IH]; simpl; [discriminate|].
  destruct (IsEmpty g) eqn:E; simpl.
  - intros H. destruct (IH H) as [c [Hc Ec]]. eauto.
  - intros _. eauto.
Qed.

Section IntersectsFacts.

Variable sort_Slice : (Line -> Line -> bool) -> list Line -> list Line.
Hypothesis sort_Slice_Permutation :
  forall (less : Line -> Line -> bool) (l : list Line),
    Permutation l (sort_Slice less l).
Hypothesis sort_Slice_Sorted :
  forall (key : Line -> Scalar) (l : list Line),
    StronglySorted (fun p q => key p <= key q)
      (sort_Slice (fun p q => Scalar_LT (key p) (key q)) l).
Variable pointRingSide : XY -> LineString -> ringSide.

Abbreviation dispatch := (hasIntersection sort_Slice pointRingSide).
Abbreviation sweep := (hasIntersectionMultiLineStringWithMultiLineString sort_Slice).


Lemma sweep_total (mls1 mls2 : MultiLineString) :
  exists r, sweep mls1 mls2 = Some r.
Proof using sort_Slice_Permutation sort_Slice_Sorted.
  rewrite sweep_naive by assumption. eauto.
Qed.

Lemma dispatch_linear_total (fuel : nat) (g1 g2 : Geometry) :
  Linear g1 -> Linear g2 -> exists r, dispatch (S fuel) g1 g2 = Some r.
Proof using sort_Slice_Permutation sort_Slice_Sorted.
  destruct g1, g2; simpl; try contradiction; intros _ _;
    repeat match goal with
           | |- context [if ?c then _ else _] => destruct c
           end; eauto using sweep_total.
Qed.

Lemma Polygon_Boundary_Linear (p : Polygon) : Linear (Polygon_Boundary p).
Proof. unfold Polygon_Boundary. destruct (holes p); exact I. Qed.

Lemma LineString_PointN_0 (ls : LineString) :
  ValidLineString ls -> exists pt, LineString_PointN ls 0 = Some pt.
Proof.
  intros H. destruct (ValidLineString_lines ls H) as [n [rest E]].
  unfold LineString_PointN, LineString_NumPoints. rewrite E. simpl.
  destruct rest as [|n' rest]; simpl; eauto.
Qed.

Lemma dispatch_polygons_total (fuel : nat) (p1 p2 : Polygon) :
  ValidPolygon p1 -> ValidPolygon p2 ->
  exists r, dispatch (S (S fuel)) (GPolygon p1) (GPolygon p2) = Some r.
Proof using sort_Slice_Permutation sort_Slice_Sorted.
  intros [V1 _] [V2 _].
  pose proof (dispatch_linear_total fuel (Polygon_Boundary p1) (Polygon_Boundary p2)
                (Polygon_Boundary_Linear p1) (Polygon_Boundary_Linear p2)) as Hb.
  remember (S fuel) as f1 eqn:Hf1. simpl.
  unfold hasIntersectionPolygonWithPolygon.
  destruct Hb as [[|] ->]; eauto.
  destruct (LineString_PointN_0 _ V1) as [sp1 E1].
  destruct (LineString_PointN_0 _ V2) as [sp2 E2].
  unfold LineString_StartPoint. rewrite E1, E2. subst f1. simpl.
  destruct (hasIntersectionPointWithPolygon pointRingSide sp1 p2); eauto.
Qed.

Lemma MultiPolygon_Boundary_Linear (mp : MultiPolygon) :
  Linear (MultiPolygon_Boundary mp).
Proof. exact I. Qed.

Lemma hasIntersectionMultiLineStringWithMultiPolygon_total
    (fuel : nat) (mls : MultiLineString) (mp : MultiPolygon) :
  ValidMultiLineString mls ->
  exists r,
    hasIntersectionMultiLineStringWithMultiPolygon pointRingSide
      (dispatch (S fuel)) mls mp = Some r.
Proof using sort_Slice_Permutation sort_Slice_Sorted.
  intros Hv. unfold hasIntersectionMultiLineStringWithMultiPolygon.
  destruct (dispatch_linear_total fuel (GMultiLineString mls)
              (MultiPolygon_Boundary mp) I I) as [[|] ->]; eauto.
  destruct (mls_lines mls) as [|ls rest] eqn:E; eauto.
  unfold ValidMultiLineString in Hv. rewrite E in Hv. inversion Hv; subst.
  destruct (LineString_PointN_0 ls) as [pt ->]; eauto.
Qed.

Lemma hasIntersectionMultiPolygonWithMultiPolygon_total
    (fuel : nat) (mp1 mp2 : MultiPolygon) :
  Forall ValidPolygon (polys mp1) -> Forall ValidPolygon (polys mp2) ->
  exists r,
    hasIntersectionMultiPolygonWithMultiPolygon
      (dispatch (S (S fuel))) mp1 mp2 = Some r.
Proof using sort_Slice_Permutation sort_Slice_Sorted.
  intros V1 V2. rewrite List.Forall_forall in V1, V2.
  unfold hasIntersectionMultiPolygonWithMultiPolygon.
  apply anyM_total. intros p1 H1. apply anyM_total. intros p2 H2.
  apply dispatch_polygons_total; auto.
Qed.

Lemma dispatch_leaf_total (fuel : nat) (g1 g2 : Geometry) :
  isCollection g1 = false -> isCollection g2 = false ->
  Valid g1 -> Valid g2 ->
  exists r, dispatch (S (S (S fuel))) g1 g2 = Some r.
Proof using sort_Slice_Permutation sort_Slice_Sorted.
  intros C1 C2 V1 V2. remember (S (S fuel)) as f2 eqn:Hf2.
  destruct g1, g2; try discriminate; simpl in V1, V2; simpl;
    repeat match goal with
           | |- context [if ?c then _ else _] => destruct c
           end; subst f2;
    eauto using sweep_total, hasIntersectionMultiPointWithMultiLineString_total,
      hasIntersectionMultiLineStringWithMultiPolygon_total,
      hasIntersectionMultiPolygonWithMultiPolygon_total,
      dispatch_polygons_total, asMLS_valid, Line_AsLineString_valid;
    first
      [ apply hasIntersectionMultiLineStringWithMultiPolygon_total;
        eauto using asMLS_valid, Line_AsLineString_valid
      | apply hasIntersectionMultiPolygonWithMultiPolygon_total;
        simpl; eauto
      | apply hasIntersectionMultiPointWithMultiLineString_total;
        eauto using asMLS_valid, Line_AsLineString_valid
      | unfold hasIntersectionPolygonWithPolygon;
        apply dispatch_polygons_total; assumption ].
Qed.

(** The dispatch returns on valid operands once the fuel covers the three
    levels of calls outside a collection and the nesting of both operands. *)
Lemma dispatch_total (fuel : nat) :
  forall g1 g2 : Geometry,
    Valid g1 -> Valid g2 -> (3 + depth g1 + depth g2 <= fuel)%nat ->
    exists r, dispatch fuel g1 g2 = Some r.
Proof using sort_Slice_Permutation sort_Slice_Sorted.
  induction fuel as [|fuel IH]; intros g1 g2 V1 V2 Hfuel; [lia|].
  destruct (isCollection g1) eqn:C1; [|destruct (isCollection g2) eqn:C2].
  - destruct g1 as [| | | | | | |gc1]; try discriminate.
    assert (H1 : forall c, In c gc1 ->
                 forall g, Valid g -> (depth g <= depth g2)%nat ->
                           exists r, dispatch fuel g c = Some r).
    { intros c Hc g Vg Hg. apply IH; [assumption| |].
      - apply (proj1 (Valid_collection gc1) V1 c Hc).
      - pose proof (depth_child c gc1 Hc). lia. }
    destruct g2 as [| | | | | | |gc2]; simpl;
      repeat match goal with
             | |- context [if ?c then _ else _] => destruct c
             end; eauto;
      try (apply anyM_total; intros c Hc; apply H1; [assumption|assumption|lia]).
    apply anyM_total. intros c Hc. apply IH; [assumption| |].
    + apply (proj1 (Valid_collection gc2) V2 c Hc).
    + pose proof (depth_child c gc2 Hc). lia.
  - destruct g2 as [| | | | | | |gc2]; try discriminate.
    destruct g1; try discriminate; simpl;
      repeat match goal with
             | |- context [if ?c then _ else _] => destruct c
             end; eauto;
      (apply anyM_total; intros c Hc; apply IH;
       [assumption
       |apply (proj1 (Valid_collection gc2) V2 c Hc)
       |pose proof (depth_child c gc2 Hc); simpl in *; lia]).
  - destruct fuel as [|[|fuel]];
      [destruct g1, g2; simpl in *; try discriminate; lia
      |destruct g1, g2; simpl in *; try discriminate; lia|].
    now apply dispatch_leaf_total.
Qed.

Lemma sweep_self (mls : MultiLineString) (ls : LineString) (rest : list LineString) :
  mls_lines mls = ls :: rest -> ValidLineString ls ->
  hasIntersectionMultiLineStringWithMultiLineString sort_Slice mls mls = Some true.
Proof using sort_Slice_Permutation sort_Slice_Sorted.
  intros E V. rewrite sweep_naive by assumption. f_equal.
  apply naiveIntersection_self. destruct mls as [lss]. simpl in E. subst lss.
  now apply allLines_nonempty.
Qed.

Lemma dispatch_boundary_self (fuel : nat) (p : Polygon) :
  ValidPolygon p ->
  dispatch (S fuel) (Polygon_Boundary p) (Polygon_Boundary p) = Some true.
Proof using sort_Slice_Permutation sort_Slice_Sorted.
  intros [V _]. unfold Polygon_Boundary.
  destruct (holes p) as [|h hs] eqn:E; simpl.
  - eapply sweep_self; [reflexivity|exact V].
  - eapply sweep_self; [reflexivity|exact V].
Qed.

Lemma dispatch_polygon_self (fuel : nat) (p : Polygon) :
  ValidPolygon p ->
  dispatch (S (S fuel)) (GPolygon p) (GPolygon p) = Some true.
Proof using sort_Slice_Permutation sort_Slice_Sorted.
  intros V. pose proof (dispatch_boundary_self fuel p V) as Hb.
  remember (S fuel) as f1 eqn:Hf1. simpl.
  unfold hasIntersectionPolygonWithPolygon. rewrite Hb. reflexivity.
Qed.

(** A geometry that is not a collection and not empty intersects itself. *)
Lemma dispatch_leaf_self (fuel : nat) (g : Geometry) :
  isCollection g = false -> Valid g -> IsEmpty g = false ->
  dispatch (S (S (S fuel))) g g = Some true.
Proof using sort_Slice_Permutation sort_Slice_Sorted.
  intros C V E. destruct g as [p|n|ls|p|mp|mls|mp|gc]; try discriminate.
  - simpl. unfold hasIntersectionPointWithPoint, Point_EqualsExact.
    rewrite XY_Equals_refl. reflexivity.
  - simpl. rewrite hasIntersectionLineWithLine_refl. reflexivity.
  - simpl. eapply sweep_self; [reflexivity|exact V].
  - now apply dispatch_polygon_self.
  - simpl in *. rewrite E. unfold hasIntersectionMultiPointWithMultiPoint.
    destruct mp as [[|pt rest]]; [discriminate|]. simpl.
    unfold hasIntersectionPointWithMultiPoint at 1. simpl.
    unfold Point_EqualsExact at 1. rewrite XY_Equals_refl. reflexivity.
  - simpl in *. rewrite E. unfold ValidMultiLineString in V.
    destruct (mls_lines mls) as [|ls rest] eqn:El; [discriminate|].
    inversion V; subst. eapply sweep_self; eauto.
  - remember (S (S fuel)) as f2 eqn:Hf2.
    assert (Hp : forall p, ValidPolygon p ->
                 dispatch f2 (GPolygon p) (GPolygon p) = Some true)
      by (intros; subst f2; now apply dispatch_polygon_self).
    clear Hf2. simpl in *. rewrite E.
    unfold hasIntersectionMultiPolygonWithMultiPolygon.
    destruct (polys mp) as [|p rest] eqn:El; [discriminate|].
    inversion V; subst. simpl. rewrite Hp by assumption. reflexivity.
Qed.

Lemma dispatch_empty (fuel : nat) (g1 g2 : Geometry) :
  IsEmpty g1 = true \/ IsEmpty g2 = true ->
  dispatch (S fuel) g1 g2 = Some false.
Proof.
  intros H. simpl. destruct (IsEmpty g2); [reflexivity|].
  destruct (IsEmpty g1); [reflexivity|]. destruct H; discriminate.
Qed.

(** The three ways a collection is reached: as the second operand, as the
    first (the operands are swapped) and on both sides. *)
Lemma dispatch_collection_r (fuel : nat) (g1 : Geometry) (gc : list Geometry) :
  isCollection g1 = false -> IsEmpty g1 = false ->
  IsEmpty (GGeometryCollection gc) = false ->
  dispatch (S fuel) g1 (GGeometryCollection gc) =
  anyM (fun g => dispatch fuel g1 g) gc.
Proof.
  intros C E1 E2. destruct g1; try discriminate; simpl in *;
    rewrite E2, ?E1; reflexivity.
Qed.

Lemma dispatch_collection_l (fuel : nat) (gc : list Geometry) (g2 : Geometry) :
  isCollection g2 = false -> IsEmpty g2 = false ->
  IsEmpty (GGeometryCollection gc) = false ->
  dispatch (S fuel) (GGeometryCollection gc) g2 =
  anyM (fun g => dispatch fuel g2 g) gc.
Proof.
  intros C E1 E2. destruct g2; try discriminate; simpl in *;
    rewrite E2, ?E1; reflexivity.
Qed.

Lemma dispatch_collections (fuel : nat) (gc1 gc2 : list Geometry) :
  IsEmpty (GGeometryCollection gc1) = false ->
  IsEmpty (GGeometryCollection gc2) = false ->
  dispatch (S fuel) (GGeometryCollection gc1) (GGeometryCollection gc2) =
  anyM (fun g => dispatch fuel (GGeometryCollection gc1) g) gc2.
Proof. intros E1 E2. simpl in *. rewrite E1, E2. reflexivity. Qed.

(** A geometry that is not a collection intersects whatever it is part of. *)
Lemma dispatch_leaf_part (c d : Geometry) :
  Part c d ->
  isCollection c = false -> Valid c -> IsEmpty c = false -> Valid d ->
  forall fuel : nat, (3 + depth d <= fuel)%nat -> dispatch fuel c d = Some true.
Proof using sort_Slice_Permutation sort_Slice_Sorted.
  induction 1 as [|geoms d Hd Hpart IH]; intros C Vc Ec Vd fuel Hfuel.
  - destruct fuel as [|[|[|fuel]]]; try lia. now apply dispatch_leaf_self.
  - destruct fuel as [|fuel]; [lia|].
    assert (Vg : forall g, In g geoms -> Valid g)
      by (apply Valid_collection; exact Vd).
    rewrite dispatch_collection_r; auto.
    2:{ eapply Part_nonempty; [|exact Ec]. eapply part_child; eauto. }
    apply anyM_true with (x := d); auto.
    + intros y Hy. apply dispatch_total; auto.
      pose proof (depth_child y geoms Hy).
      destruct c; try discriminate; simpl in *; lia.
    + apply IH; auto. pose proof (depth_child d geoms Hd). lia.
Qed.

(** A geometry intersects each of its non-empty parts. *)
Lemma dispatch_part (n : nat) :
  forall c g : Geometry,
    (depth c <= n)%nat -> Valid g -> Part c g -> IsEmpty c = false ->
    forall fuel : nat,
      (3 + depth g + depth c <= fuel)%nat -> dispatch fuel g c = Some true.
Proof using sort_Slice_Permutation sort_Slice_Sorted.
  induction n as [|n IH]; intros c g Hn Vg Hpart Ec fuel Hfuel.
  - assert (C : isCollection c = false)
      by (destruct c; try reflexivity; simpl in Hn; lia).
    assert (Vc : Valid c) by (eapply Part_Valid; eauto).
    destruct (isCollection g) eqn:Cg.
    + destruct g as [| | | | | | |gs]; try discriminate.
      inversion Hpart as [E|geoms d Hd Hcd E]; subst; [discriminate|].
      destruct fuel as [|fuel]; [lia|].
      rewrite dispatch_collection_l; auto.
      2:{ eapply Part_nonempty; eauto. }
      apply anyM_true with (x := d); auto.
      * intros y Hy. apply dispatch_total; auto.
        -- apply (proj1 (Valid_collection gs) Vg y Hy).
        -- pose proof (depth_child y gs Hy). lia.
      * apply dispatch_leaf_part; auto.
        -- apply (proj1 (Valid_collection gs) Vg d Hd).
        -- pose proof (depth_child d gs Hd). lia.
    + apply (Part_leaf _ _ Cg) in Hpart. subst c.
      destruct fuel as [|[|[|fuel]]]; try lia. now apply dispatch_leaf_self.
  - destruct (isCollection c) eqn:C.
    2:{ apply (IH c g); auto. destruct c; try discriminate; simpl; lia. }
    destruct c as [| | | | | | |cs]; try discriminate.
    assert (Eg : IsEmpty g = false) by (eapply Part_nonempty; eauto).
    assert (Vc : Valid (GGeometryCollection cs)) by (eapply Part_Valid; eauto).
    destruct g as [| | | | | | |gs];
      try (inversion Hpart; fail).
    destruct fuel as [|fuel]; [lia|].
    rewrite dispatch_collections; auto.
    destruct (nonempty_member cs Ec) as [c' [Hc' Ec']].
    apply anyM_true with (x := c'); auto.
    + intros y Hy. apply dispatch_total; auto.
      * apply (proj1 (Valid_collection cs) Vc y Hy).
      * pose proof (depth_child y cs Hy). lia.
    + pose proof (depth_child c' cs Hc').
      apply IH; auto; try lia.
      eapply Part_trans; [|exact Hpart]. eapply part_child; eauto. constructor.
Qed.

Lemma Intersects_self_core (g : Geometry) :
  Valid g -> Intersects sort_Slice pointRingSide g g = Some (negb (IsEmpty g)).
Proof using sort_Slice_Permutation sort_Slice_Sorted.
  intros V. unfold Intersects. destruct (IsEmpty g) eqn:E.
  - apply dispatch_empty. auto.
  - apply (dispatch_part (depth g)); auto; [constructor|lia].
Qed.

(** C1: [g.Intersects(g)] returns, and its answer is [!g.IsEmpty()], for
    every valid geometry of every variant. *)
Theorem Intersects_self (g : Geometry) :
  Valid g -> Intersects sort_Slice pointRingSide g g = Some (negb (IsEmpty g)).
Proof using sort_Slice_Permutation sort_Slice_Sorted.
  apply Intersects_self_core.
Qed.

End IntersectsFacts.

(** [GEOMETRYCOLLECTION(MULTIPOINT EMPTY, GEOMETRYCOLLECTION(POINT(1 2)),
     POLYGON((0 0,2 0,0 2,0 0)))]. *)
Definition triangle : Polygon :=
  mkPolygon
    (mkLineString [mkLine (mkXY 0 0) (mkXY 2 0); mkLine (mkXY 2 0) (mkXY 0 2);
                   mkLine (mkXY 0 2) (mkXY 0 0)])
    [].

Definition collection_example : Geometry :=
  GGeometryCollection
    [GMultiPoint (mkMultiPoint []);
     GGeometryCollection [GPoint (mkPoint (mkXY 1 2))];
     GPolygon triangle].

Lemma collection_example_valid : Valid collection_example.
Proof.
  simpl. repeat split; try exact I.
  - discriminate.
  - repeat (constructor; [distinct_endpoints|]). constructor.
  - constructor.
Qed.

(** C1, witness: the theorem at a nested collection, with insertion sort for
    [sort.Slice] and a ring test that answers [exterior]. *)
Lemma Intersects_self_witness :
  Intersects insertionSort (fun _ _ => exterior) collection_example
    collection_example =
  Some (negb (IsEmpty collection_example)).
Proof.
  exact (Intersects_self insertionSort insertionSort_Permutation
           insertionSort_Sorted (fun _ _ => exterior) collection_example
           collection_example_valid).
Defined.

(** The scenario of the spec (section 8):
    [Intersects(POINT(1 2), LINESTRING(0 0, 2 4)) = true]. *)
Example Intersects_point_on_line :
  Intersects insertionSort (fun _ _ => exterior)
    (GPoint (mkPoint (mkXY 1 2)))
    (GLineString (mkLineString [mkLine (mkXY 0 0) (mkXY 2 4)])) = Some true.
Proof. vm_compute. reflexivity. Qed.

(** ** The boundary of a multi point *)

(** C10: [m.Boundary()] is [m] itself when [m] has no point and the empty
    collection otherwise; either way it is empty. *)
Theorem MultiPoint_Boundary_is_empty (m : MultiPoint) :
  MultiPoint_Boundary m =
    (if MultiPoint_IsEmpty m then GMultiPoint m else GGeometryCollection []) /\
  (MultiPoint_IsEmpty m = true <-> pts m = []) /\
  IsEmpty (MultiPoint_Boundary m) = true.
Proof.
  unfold MultiPoint_Boundary, NewGeometryCollection, MultiPoint_IsEmpty.
  split; [reflexivity|]. split.
  - destruct (pts m); simpl; split; congruence.
  - destruct (length (pts m) =? 0)%nat eqn:E; simpl; [|reflexivity].
    unfold MultiPoint_IsEmpty. exact E.
Qed.

(** ** Orientation under a change of the order of the points *)

Lemma orientation_by_cross (p q s p' q' s' : XY) :
  cross3 p' q' s' == cross3 p q s ->
  orientation p' q' s' = orientation p q s.
Proof.
  intros Heq.
  destruct (orientation_case p q s) as [H1|H1|H1];
    destruct (orientation_case p' q' s') as [H2|H2|H2];
    try reflexivity; exfalso; lra.
Qed.

Lemma orientation_by_opposite_cross (p q s p' q' s' : XY) :
  cross3 p' q' s' == - cross3 p q s ->
  orientation p' q' s' = opposite (orientation p q s).
Proof.
  intros Heq.
  destruct (orientation_case p q s) as [H1|H1|H1];
    destruct (orientation_case p' q' s') as [H2|H2|H2];
    try reflexivity; exfalso; lra.
Qed.

(** X7. [orientation] does not change when its three points are rotated,
    and turns into the opposite orientation (collinear staying collinear)
    when two of them are swapped. *)
Theorem orientation_rotate_swap (p q s : XY) :
  orientation q s p = orientation p q s /\
  orientation s p q = orientation p q s /\
  orientation q p s = opposite (orientation p q s) /\
  orientation p s q = opposite (orientation p q s) /\
  orientation s q p = opposite (orientation p q s).
Proof.
  repeat split;
    first [ apply orientation_by_cross | apply orientation_by_opposite_cross ];
    unfold cross3, XY_Cross, XY_Sub; cbn [X Y]; ring.
Qed.

(** ** The lowest-then-leftmost point *)

Lemma lowerThenLefter_iff (p q : XY) :
  lowerThenLefter p q = true <->
  Y p < Y q \/ (Y p == Y q /\ X p < X q).
Proof.
  unfold lowerThenLefter.
  rewrite orb_true_iff, andb_true_iff, !Scalar_LT_iff, Scalar_Equals_iff.
  reflexivity.
Qed.

Lemma lowerThenLefter_irrefl (p : XY) : lowerThenLefter p p = false.
Proof.
  apply not_true_is_false. rewrite lowerThenLefter_iff. lra.
Qed.

Lemma lowerThenLefter_trans (p q r : XY) :
  lowerThenLefter p q = true -> lowerThenLefter q r = true ->
  lowerThenLefter p r = true.
Proof. rewrite !lowerThenLefter_iff. lra. Qed.

Lemma lowerThenLefter_negtrans (p q r : XY) :
  lowerThenLefter p r = true -> lowerThenLefter q r = false ->
  lowerThenLefter p q = true.
Proof.
  intros H1 H2. apply not_true_iff_false in H2.
  rewrite lowerThenLefter_iff in *. lra.
Qed.

Lemma ltlLoop_spec (ps : list XY) :
  forall (n k rpi : nat),
    (k + n = length ps)%nat -> (rpi < k)%nat ->
    (forall j, (j < k)%nat ->
       lowerThenLefter (nth j ps (mkXY 0 0)) (nth rpi ps (mkXY 0 0)) = false) ->
    (forall j, (j < rpi)%nat ->
       lowerThenLefter (nth rpi ps (mkXY 0 0)) (nth j ps (mkXY 0 0)) = true) ->
    let r := fold_left (ltlStep ps) (seq k n) rpi in
    (r < length ps)%nat /\
    (forall j, (j < length ps)%nat ->
       lowerThenLefter (nth j ps (mkXY 0 0)) (nth r ps (mkXY 0 0)) = false) /\
    (forall j, (j < r)%nat ->
       lowerThenLefter (nth r ps (mkXY 0 0)) (nth j ps (mkXY 0 0)) = true).
Proof.
  induction n as [|n IH]; intros k rpi Hlen Hrpi Hlow Hfirst.
  - cbn [seq fold_left]. replace (length ps) with k by lia.
    split; [exact Hrpi|]. split; assumption.
  - cbn [seq fold_left].
    destruct (lowerThenLefter (nth k ps (mkXY 0 0)) (nth rpi ps (mkXY 0 0)))
      eqn:Hk.
    + replace (ltlStep ps rpi k) with k
        by (unfold ltlStep; rewrite Hk; reflexivity).
      apply IH; [lia|lia| |].
      * intros j Hj. destruct (Nat.eq_dec j k) as [->|Hne].
        -- apply lowerThenLefter_irrefl.
        -- apply not_true_is_false. intros Hjk.
           pose proof (lowerThenLefter_trans _ _ _ Hjk Hk) as Hbad.
           rewrite Hlow in Hbad by lia. discriminate Hbad.
      * intros j Hj. eapply lowerThenLefter_negtrans; [exact Hk|].
        apply Hlow. exact Hj.
    + replace (ltlStep ps rpi k) with rpi
        by (unfold ltlStep; rewrite Hk; reflexivity).
      apply IH; [lia|lia| |exact Hfirst].
      intros j Hj. destruct (Nat.eq_dec j k) as [->|Hne]; [exact Hk|].
      apply Hlow. lia.
Qed.

(** X8. On a slice that is not empty, [ltl] returns an index of the slice;
    no point of the slice is lower than the point there, or as low and
    further left; and every point before it is higher, or as high and
    further right, so that of several lowest-then-leftmost points the first
    is returned. *)
Theorem ltl_lowest_then_leftmost (ps : list XY) :
  ps <> [] ->
  (ltl ps < length ps)%nat /\
  (forall j, (j < length ps)%nat ->
     lowerThenLefter (nth j ps (mkXY 0 0)) (nth (ltl ps) ps (mkXY 0 0)) = false) /\
  (forall j, (j < ltl ps)%nat ->
     lowerThenLefter (nth (ltl ps) ps (mkXY 0 0)) (nth j ps (mkXY 0 0)) = true).
Proof.
  intros Hne. unfold ltl.
  assert (Hlen : (0 < length ps)%nat)
    by (destruct ps; [congruence|cbn [length]; lia]).
  apply ltlLoop_spec; [lia|lia| |lia].
  intros j Hj. replace j with O by lia. apply lowerThenLefter_irrefl.
Qed.

Lemma ltl_lowest_then_leftmost_witness :
  (ltl hull_example < length hull_example)%nat /\
  (forall j, (j < length hull_example)%nat ->
     lowerThenLefter (nth j hull_example (mkXY 0 0))
       (nth (ltl hull_example) hull_example (mkXY 0 0)) = false) /\
  (forall j, (j < ltl hull_example)%nat ->
     lowerThenLefter (nth (ltl hull_example) hull_example (mkXY 0 0))
       (nth j hull_example (mkXY 0 0)) = true).
Proof.
  apply (ltl_lowest_then_leftmost hull_example). discriminate.
Defined.

(** ** [MultiPoint.IsSimple] *)

Lemma XY_Equals_sym (p q : XY) : XY_Equals p q = XY_Equals q p.
Proof.
  unfold XY_Equals, Scalar_Equals.
  assert (forall x y, Qeq_bool x y = Qeq_bool y x) as Hsym.
  { intros x y. destruct (Qeq_bool x y) eqn:E1, (Qeq_bool y x) eqn:E2;
      try reflexivity.
    - apply Qeq_bool_iff in E1. symmetry in E1. apply Qeq_bool_iff in E1.
      congruence.
    - apply Qeq_bool_iff in E2. symmetry in E2. apply Qeq_bool_iff in E2.
      congruence. }
  rewrite (Hsym (X p)), (Hsym (Y p)). reflexivity.
Qed.

Lemma IsSimpleLoop_spec (points : list Point) :
  forall seen : list XY,
    IsSimpleLoop seen points = true <->
    Forall (fun p => seenXY seen (coords p) = false) points /\
    ForallOrdPairs (fun p q => XY_Equals (coords p) (coords q) = false) points.
Proof.
  induction points as [|p rest IH]; intros seen.
  - cbn [IsSimpleLoop]. split; [intros _|reflexivity].
    split; constructor.
  - cbn [IsSimpleLoop]. destruct (seenXY seen (coords p)) eqn:Hseen.
    + split; [discriminate|]. intros [Hall _].
      inversion Hall; subst. congruence.
    + rewrite IH. split.
      * intros [Hall Hpairs]. split.
        -- constructor; [exact Hseen|].
           eapply List.Forall_impl; [|exact Hall].
           intros q Hq. cbn [seenXY existsb] in Hq.
           apply orb_false_iff in Hq. apply Hq.
        -- constructor; [|exact Hpairs].
           eapply List.Forall_impl; [|exact Hall].
           intros q Hq. cbn [seenXY existsb] in Hq.
           apply orb_false_iff in Hq. apply Hq.
      * intros [Hall Hpairs]. inversion Hall as [|? ? _ Hrest]; subst.
        inversion Hpairs as [|? ? Hp Hrest']; subst.
        split; [|exact Hrest'].
        apply List.Forall_forall. intros q Hq. cbn [seenXY existsb].
        apply orb_false_iff. split.
        -- rewrite List.Forall_forall in Hp. apply Hp. exact Hq.
        -- rewrite List.Forall_forall in Hrest. apply Hrest. exact Hq.
Qed.

(** X9. [MultiPoint.IsSimple] returns true exactly when no two of its
    points, at different positions, have equal coordinates. *)
Theorem MultiPoint_IsSimple_iff (m : MultiPoint) :
  MultiPoint_IsSimple m = true <->
  ForallOrdPairs (fun p q => XY_Equals (coords p) (coords q) = false) (pts m).
Proof.
  unfold MultiPoint_IsSimple. rewrite IsSimpleLoop_spec. split.
  - intros [_ Hpairs]. exact Hpairs.
  - intros Hpairs. split; [|exact Hpairs].
    apply List.Forall_forall. intros p _. reflexivity.
Qed.

(** ** [Intersects] never panics on valid operands *)

Section IntersectsTotal.

Variable sort_Slice : (Line -> Line -> bool) -> list Line -> list Line.
Hypothesis sort_Slice_Permutation :
  forall (less : Line -> Line -> bool) (l : list Line),
    Permutation l (sort_Slice less l).
Hypothesis sort_Slice_Sorted :
  forall (key : Line -> Scalar) (l : list Line),
    StronglySorted (fun p q => key p <= key q)
      (sort_Slice (fun p q => Scalar_LT (key p) (key q)) l).
Variable pointRingSide : XY -> LineString -> ringSide.

(** X10. [Intersects] returns an answer for every pair of valid
    geometries, of every pair of variants and collections nested to any
    depth: no pair is left to the panic on an unhandled pair, no segment is
    refused when it is rebuilt, and the sweep ends. *)
Theorem Intersects_total (g1 g2 : Geometry) :
  Valid g1 -> Valid g2 ->
  exists r : bool, Intersects sort_Slice pointRingSide g1 g2 = Some r.
Proof using sort_Slice_Permutation sort_Slice_Sorted.
  intros V1 V2. unfold Intersects.
  apply dispatch_total; auto. lia.
Qed.

End IntersectsTotal.

Lemma Intersects_total_witness :
  exists r : bool,
    Intersects insertionSort (fun _ _ => exterior) collection_example
      (GPolygon triangle) = Some r.
Proof.
  apply (Intersects_total insertionSort insertionSort_Permutation
           insertionSort_Sorted (fun _ _ => exterior) collection_example
           (GPolygon triangle) collection_example_valid).
  apply (proj1 (Valid_collection _) collection_example_valid).
  cbn [collection_example In]. auto.
Defined.

(** X11. When either operand is empty, [Intersects] answers false and
    does nothing else: it holds for operands that are not valid too, and
    for collections whose members are all empty. *)
Theorem Intersects_empty
    (sort_Slice : (Line -> Line -> bool) -> list Line -> list Line)
    (pointRingSide : XY -> LineString -> ringSide) (g1 g2 : Geometry) :
  IsEmpty g1 = true \/ IsEmpty g2 = true ->
  Intersects sort_Slice pointRingSide g1 g2 = Some false.
Proof.
  intros Hempty. unfold Intersects. apply dispatch_empty. exact Hempty.
Qed.

Lemma Intersects_empty_witness :
  Intersects insertionSort (fun _ _ => exterior)
    (GLine (mkLine (mkXY 0 0) (mkXY 0 0)))
    (GGeometryCollection [GMultiPoint (mkMultiPoint []); GGeometryCollection []])
  = Some false.
Proof.
  apply (Intersects_empty insertionSort (fun _ _ => exterior)
           (GLine (mkLine (mkXY 0 0) (mkXY 0 0)))
           (GGeometryCollection
              [GMultiPoint (mkMultiPoint []); GGeometryCollection []])).
  right. reflexivity.
Defined.

(** ** The order of the operands *)

(** The answer of a call, a panic counting as no. *)
Definition answered (r : option bool) : bool :=
  match r with Some true => true | _ => false end.

Lemma answered_Some (b : bool) : answered (Some b) = b.
Proof. destruct b; reflexivity. Qed.

Lemma anyM_existsb {A : Type} (f : A -> option bool) (l : list A) :
  (forall x, In x l -> exists r, f x = Some r) ->
  anyM f l = Some (existsb (fun x => answered (f x)) l).
Proof.
  induction l as [|x l IH]; intros Hall; [reflexivity|].
  cbn [anyM existsb].
  destruct (Hall x (or_introl eq_refl)) as [[|] Hx]; rewrite Hx.
  - reflexivity.
  - cbn [answered orb]. apply IH. intros y Hy. apply Hall. right. exact Hy.
Qed.

Lemma existsb_ext_in {A : Type} (f g : A -> bool) (l : list A) :
  (forall x, In x l -> f x = g x) -> existsb f l = existsb g l.
Proof.
  induction l as [|x l IH]; intros Hfg; [reflexivity|].
  cbn [existsb]. rewrite (Hfg x (or_introl eq_refl)). f_equal.
  apply IH. intros y Hy. apply Hfg. right. exact Hy.
Qed.

Lemma existsb_exchange {A B : Type} (F : A -> B -> bool) (l1 : list A)
    (l2 : list B) :
  existsb (fun x => existsb (fun y => F x y) l2) l1
  = existsb (fun y => existsb (fun x => F x y) l1) l2.
Proof.
  apply bool_eq_of_iff. rewrite !existsb_exists. split.
  - intros (x & Hx & Hy). apply existsb_exists in Hy as (y & Hy & HF).
    exists y. split; [exact Hy|]. apply existsb_exists. eauto.
  - intros (y & Hy & Hx). apply existsb_exists in Hx as (x & Hx & HF).
    exists x. split; [exact Hx|]. apply existsb_exists. eauto.
Qed.

Lemma anyM_exchange {A B : Type} (F : A -> B -> option bool) (l1 : list A)
    (l2 : list B) :
  (forall x y, In x l1 -> In y l2 -> exists r, F x y = Some r) ->
  anyM (fun x => anyM (fun y => F x y) l2) l1
  = anyM (fun y => anyM (fun x => F x y) l1) l2.
Proof.
  intros Hall.
  rewrite (anyM_existsb (fun x => anyM (fun y => F x y) l2) l1)
    by (intros x Hx; apply anyM_total; intros y Hy; apply Hall; assumption).
  rewrite (anyM_existsb (fun y => anyM (fun x => F x y) l1) l2)
    by (intros y Hy; apply anyM_total; intros x Hx; apply Hall; assumption).
  f_equal.
  rewrite (existsb_ext_in _ (fun x => existsb (fun y => answered (F x y)) l2)).
  2:{ intros x Hx. rewrite anyM_existsb; [apply answered_Some|].
      intros y Hy. apply Hall; assumption. }
  rewrite (existsb_ext_in (fun y => answered (anyM (fun x => F x y) l1))
             (fun y => existsb (fun x => answered (F x y)) l1)).
  2:{ intros y Hy. rewrite anyM_existsb; [apply answered_Some|].
      intros x Hx. apply Hall; assumption. }
  apply existsb_exchange.
Qed.

Lemma anyM_ext_in {A : Type} (f g : A -> option bool) (l : list A) :
  (forall x, In x l -> f x = g x) -> anyM f l = anyM g l.
Proof.
  induction l as [|x l IH]; intros Hfg; [reflexivity|].
  cbn [anyM]. rewrite (Hfg x (or_introl eq_refl)).
  destruct (g x) as [[|]|]; try reflexivity.
  apply IH. intros y Hy. apply Hfg. right. exact Hy.
Qed.

Lemma naiveIntersection_sym (mls1 mls2 : MultiLineString) :
  naiveIntersection mls1 mls2 = naiveIntersection mls2 mls1.
Proof.
  apply bool_eq_of_iff. rewrite !naiveIntersection_true. split.
  - intros (n1 & n2 & H1 & H2 & Hhit). exists n2, n1.
    rewrite hasIntersectionLineWithLine_sym. auto.
  - intros (n1 & n2 & H1 & H2 & Hhit). exists n2, n1.
    rewrite hasIntersectionLineWithLine_sym. auto.
Qed.

Lemma hasIntersectionMultiPointWithMultiPoint_sym (mp1 mp2 : MultiPoint) :
  hasIntersectionMultiPointWithMultiPoint mp1 mp2
  = hasIntersectionMultiPointWithMultiPoint mp2 mp1.
Proof.
  unfold hasIntersectionMultiPointWithMultiPoint,
    hasIntersectionPointWithMultiPoint.
  rewrite existsb_exchange. apply existsb_ext_in. intros p2 _.
  apply existsb_ext_in. intros p1 _. unfold Point_EqualsExact.
  apply XY_Equals_sym.
Qed.

Section IntersectsSym.

Variable sort_Slice : (Line -> Line -> bool) -> list Line -> list Line.
Hypothesis sort_Slice_Permutation :
  forall (less : Line -> Line -> bool) (l : list Line),
    Permutation l (sort_Slice less l).
Hypothesis sort_Slice_Sorted :
  forall (key : Line -> Scalar) (l : list Line),
    StronglySorted (fun p q => key p <= key q)
      (sort_Slice (fun p q => Scalar_LT (key p) (key q)) l).
Variable pointRingSide : XY -> LineString -> ringSide.

Abbreviation dispatch := (hasIntersection sort_Slice pointRingSide).
Abbreviation sweep :=
  (hasIntersectionMultiLineStringWithMultiLineString sort_Slice).

Lemma sweep_sym (mls1 mls2 : MultiLineString) : sweep mls1 mls2 = sweep mls2 mls1.
Proof using sort_Slice_Permutation sort_Slice_Sorted.
  rewrite !sweep_naive by assumption. f_equal. apply naiveIntersection_sym.
Qed.

(** Operands of different ranks are put in the same order whichever way
    they are given. *)
Lemma dispatch_swap (fuel : nat) (g1 g2 : Geometry) :
  rank g1 <> rank g2 -> dispatch fuel g1 g2 = dispatch fuel g2 g1.
Proof.
  intros Hrank. destruct fuel as [|fuel]; [reflexivity|].
  cbn [hasIntersection].
  destruct (IsEmpty g1), (IsEmpty g2); try reflexivity.
  destruct (Nat.ltb_spec (rank g2) (rank g1)) as [H21|H21];
    destruct (Nat.ltb_spec (rank g1) (rank g2)) as [H12|H12];
    try lia; reflexivity.
Qed.

Lemma dispatch_linear_sym (fuel : nat) (g1 g2 : Geometry) :
  Linear g1 -> Linear g2 -> dispatch fuel g1 g2 = dispatch fuel g2 g1.
Proof using sort_Slice_Permutation sort_Slice_Sorted.
  intros L1 L2. destruct fuel as [|fuel]; [reflexivity|].
  destruct g1 as [| |l1| | |m1| |], g2 as [| |l2| | |m2| |]; try contradiction;
    try (apply dispatch_swap; cbn [rank]; lia).
  - cbn [hasIntersection IsEmpty rank Nat.ltb Nat.leb]. apply sweep_sym.
  - cbn [hasIntersection IsEmpty rank Nat.ltb Nat.leb].
    destruct (length (mls_lines m2) =? 0)%nat, (length (mls_lines m1) =? 0)%nat;
      try reflexivity.
    apply sweep_sym.
Qed.

Lemma dispatch_point_polygon (fuel : nat) (pt : Point) (p : Polygon) :
  dispatch (S fuel) (GPoint pt) (GPolygon p)
  = Some (hasIntersectionPointWithPolygon pointRingSide pt p).
Proof. reflexivity. Qed.

Lemma dispatch_polygons_sym (fuel : nat) (p1 p2 : Polygon) :
  ValidPolygon p1 -> ValidPolygon p2 ->
  dispatch fuel (GPolygon p1) (GPolygon p2)
  = dispatch fuel (GPolygon p2) (GPolygon p1).
Proof using sort_Slice_Permutation sort_Slice_Sorted.
  intros [V1 _] [V2 _]. destruct fuel as [|fuel]; [reflexivity|].
  cbn [hasIntersection IsEmpty rank Nat.ltb Nat.leb].
  unfold hasIntersectionPolygonWithPolygon.
  rewrite (dispatch_linear_sym fuel (Polygon_Boundary p1) (Polygon_Boundary p2)
             (Polygon_Boundary_Linear p1) (Polygon_Boundary_Linear p2)).
  destruct (dispatch fuel (Polygon_Boundary p2) (Polygon_Boundary p1))
    as [[|]|] eqn:Hb; try reflexivity.
  destruct fuel as [|fuel]; [discriminate Hb|].
  destruct (LineString_PointN_0 _ V1) as [sp1 E1].
  destruct (LineString_PointN_0 _ V2) as [sp2 E2].
  unfold LineString_StartPoint. rewrite E1, E2.
  rewrite !dispatch_point_polygon.
  destruct (hasIntersectionPointWithPolygon pointRingSide sp1 p2),
    (hasIntersectionPointWithPolygon pointRingSide sp2 p1); reflexivity.
Qed.

Lemma dispatch_multipolygons_sym (fuel : nat) (mp1 mp2 : MultiPolygon) :
  Forall ValidPolygon (polys mp1) -> Forall ValidPolygon (polys mp2) ->
  (3 <= fuel)%nat ->
  dispatch fuel (GMultiPolygon mp1) (GMultiPolygon mp2)
  = dispatch fuel (GMultiPolygon mp2) (GMultiPolygon mp1).
Proof using sort_Slice_Permutation sort_Slice_Sorted.
  intros V1 V2 Hfuel. rewrite List.Forall_forall in V1, V2.
  destruct fuel as [|[|[|fuel]]]; try lia.
  remember (S (S fuel)) as f2 eqn:Hf2.
  cbn [hasIntersection IsEmpty rank Nat.ltb Nat.leb].
  destruct (length (polys mp2) =? 0)%nat, (length (polys mp1) =? 0)%nat;
    try reflexivity.
  unfold hasIntersectionMultiPolygonWithMultiPolygon.
  rewrite (anyM_exchange (fun p1 p2 => dispatch f2 (GPolygon p1) (GPolygon p2))).
  2:{ intros p1 p2 H1 H2. subst f2. apply dispatch_polygons_total; auto. }
  apply anyM_ext_in. intros p2 H2. apply anyM_ext_in. intros p1 H1.
  apply dispatch_polygons_sym; auto.
Qed.

Lemma anyM_false {A : Type} (f : A -> option bool) (l : list A) :
  (forall x, In x l -> f x = Some false) -> anyM f l = Some false.
Proof.
  induction l as [|x l IH]; intros Hall; [reflexivity|].
  cbn [anyM]. rewrite (Hall x (or_introl eq_refl)).
  apply IH. intros y Hy. apply Hall. right. exact Hy.
Qed.

(** A call with a collection that is not empty as its second operand asks
    for each member in turn, whatever the first operand is. *)
Lemma dispatch_into_collection (fuel : nat) (g : Geometry)
    (gc : list Geometry) :
  IsEmpty (GGeometryCollection gc) = false ->
  dispatch (S (S fuel)) g (GGeometryCollection gc)
  = anyM (fun c => dispatch (S fuel) g c) gc.
Proof.
  intros Hgc. destruct (IsEmpty g) eqn:Hg.
  - rewrite dispatch_empty by auto. symmetry. apply anyM_false.
    intros c _. apply dispatch_empty. auto.
  - destruct (isCollection g) eqn:Cg.
    + destruct g; try discriminate Cg. apply dispatch_collections; assumption.
    + apply dispatch_collection_r; assumption.
Qed.

Lemma dispatch_sym :
  forall (fuel : nat) (g1 g2 : Geometry),
    Valid g1 -> Valid g2 -> (3 + depth g1 + depth g2 <= fuel)%nat ->
    dispatch fuel g1 g2 = dispatch fuel g2 g1.
Proof using sort_Slice_Permutation sort_Slice_Sorted.
  induction fuel as [fuel IH] using lt_wf_ind. intros g1 g2 V1 V2 Hfuel.
  destruct (Nat.eq_dec (rank g1) (rank g2)) as [Hrank|Hrank];
    [|apply dispatch_swap; exact Hrank].
  destruct g1 as [p1|n1|l1|p1|m1|m1|m1|gc1], g2 as [p2|n2|l2|p2|m2|m2|m2|gc2];
    try discriminate Hrank.
  - destruct fuel as [|fuel]; [reflexivity|].
    cbn [hasIntersection IsEmpty Point_IsEmpty rank Nat.ltb Nat.leb]. f_equal.
    unfold hasIntersectionPointWithPoint, Point_EqualsExact.
    rewrite XY_Equals_sym. reflexivity.
  - destruct fuel as [|fuel]; [reflexivity|].
    cbn [hasIntersection IsEmpty rank Nat.ltb Nat.leb]. f_equal.
    apply hasIntersectionLineWithLine_sym.
  - apply dispatch_linear_sym; exact I.
  - apply dispatch_polygons_sym; assumption.
  - destruct fuel as [|fuel]; [reflexivity|].
    cbn [hasIntersection IsEmpty rank Nat.ltb Nat.leb].
    destruct (MultiPoint_IsEmpty m2), (MultiPoint_IsEmpty m1); try reflexivity.
    f_equal. apply hasIntersectionMultiPointWithMultiPoint_sym.
  - apply dispatch_linear_sym; exact I.
  - apply dispatch_multipolygons_sym; [exact V1|exact V2|lia].
  - assert (D1 : (1 <= depth (GGeometryCollection gc1))%nat)
      by (cbn [depth]; lia).
    assert (D2 : (1 <= depth (GGeometryCollection gc2))%nat)
      by (cbn [depth]; lia).
    destruct fuel as [|[|[|f3]]]; try lia.
    destruct (IsEmpty (GGeometryCollection gc1)) eqn:E1;
      [rewrite !dispatch_empty by auto; reflexivity|].
    destruct (IsEmpty (GGeometryCollection gc2)) eqn:E2;
      [rewrite !dispatch_empty by auto; reflexivity|].
    rewrite !dispatch_collections by assumption.
    assert (Vc1 : forall c, In c gc1 -> Valid c)
      by (apply Valid_collection; exact V1).
    assert (Vc2 : forall c, In c gc2 -> Valid c)
      by (apply Valid_collection; exact V2).
    rewrite (anyM_ext_in _
               (fun g => anyM (fun g' => dispatch (S f3) g g') gc1) gc2).
    2:{ intros g Hg. pose proof (depth_child g gc2 Hg).
        rewrite (IH (S (S f3)) ltac:(lia) (GGeometryCollection gc1) g);
          [|exact V1|apply Vc2; exact Hg|lia].
        apply dispatch_into_collection. exact E1. }
    rewrite (anyM_ext_in (fun g' => dispatch (S (S f3)) (GGeometryCollection gc2) g')
               (fun g' => anyM (fun g => dispatch (S f3) g' g) gc2) gc1).
    2:{ intros g' Hg'. pose proof (depth_child g' gc1 Hg').
        rewrite (IH (S (S f3)) ltac:(lia) (GGeometryCollection gc2) g');
          [|exact V2|apply Vc1; exact Hg'|lia].
        apply dispatch_into_collection. exact E2. }
    rewrite (anyM_exchange (fun g g' => dispatch (S f3) g g')).
    2:{ intros g g' Hg Hg'. pose proof (depth_child g gc2 Hg).
        pose proof (depth_child g' gc1 Hg').
        apply dispatch_total; auto. lia. }
    apply anyM_ext_in. intros g' Hg'. apply anyM_ext_in. intros g Hg.
    pose proof (depth_child g gc2 Hg). pose proof (depth_child g' gc1 Hg').
    apply IH; auto; lia.
Qed.


(** ** More fuel changes nothing *)

Lemma anyM_mono {A : Type} (f f' : A -> option bool) (l : list A) (r : bool) :
  (forall x r, f x = Some r -> f' x = Some r) ->
  anyM f l = Some r -> anyM f' l = Some r.
Proof.
  intros Hmono. induction l as [|x l IH]; intros Hrun; [exact Hrun|].
  cbn [anyM] in *. destruct (f x) as [[|]|] eqn:Hx; try discriminate Hrun.
  - rewrite (Hmono x true Hx). exact Hrun.
  - rewrite (Hmono x false Hx). apply IH. exact Hrun.
Qed.

Section MoreFuel.

Variables i i' : Geometry -> Geometry -> option bool.
Hypothesis Hmono : forall g1 g2 r, i g1 g2 = Some r -> i' g1 g2 = Some r.

Lemma hasIntersectionMultiLineStringWithMultiPolygon_mono
    (mls : MultiLineString) (mp : MultiPolygon) (r : bool) :
  hasIntersectionMultiLineStringWithMultiPolygon pointRingSide i mls mp = Some r ->
  hasIntersectionMultiLineStringWithMultiPolygon pointRingSide i' mls mp = Some r.
Proof using Hmono.
  unfold hasIntersectionMultiLineStringWithMultiPolygon.
  destruct (i (GMultiLineString mls) (MultiPolygon_Boundary mp)) as [b|] eqn:Hb;
    [|discriminate].
  rewrite (Hmono _ _ _ Hb). auto.
Qed.

Lemma hasIntersectionPolygonWithPolygon_mono (p1 p2 : Polygon) (r : bool) :
  hasIntersectionPolygonWithPolygon i p1 p2 = Some r ->
  hasIntersectionPolygonWithPolygon i' p1 p2 = Some r.
Proof using Hmono.
  unfold hasIntersectionPolygonWithPolygon.
  destruct (i (Polygon_Boundary p1) (Polygon_Boundary p2)) as [b|] eqn:Hb;
    [|discriminate].
  rewrite (Hmono _ _ _ Hb). destruct b; [auto|].
  destruct (LineString_StartPoint (outer p1)) as [sp1|]; [|discriminate].
  destruct (i (GPoint sp1) (GPolygon p2)) as [b1|] eqn:H1; [|discriminate].
  rewrite (Hmono _ _ _ H1). destruct b1; [auto|].
  destruct (LineString_StartPoint (outer p2)) as [sp2|]; [|discriminate].
  apply Hmono.
Qed.

Lemma hasIntersectionMultiPolygonWithMultiPolygon_mono (mp1 mp2 : MultiPolygon)
    (r : bool) :
  hasIntersectionMultiPolygonWithMultiPolygon i mp1 mp2 = Some r ->
  hasIntersectionMultiPolygonWithMultiPolygon i' mp1 mp2 = Some r.
Proof using Hmono.
  unfold hasIntersectionMultiPolygonWithMultiPolygon.
  apply anyM_mono. intros p1 r1. apply anyM_mono. intros p2 r2. apply Hmono.
Qed.

End MoreFuel.

Lemma dispatch_more_fuel :
  forall (fuel : nat) (g1 g2 : Geometry) (r : bool),
    dispatch fuel g1 g2 = Some r -> dispatch (S fuel) g1 g2 = Some r.
Proof.
  induction fuel as [|fuel IH]; intros g1 g2 r Hrun; [discriminate Hrun|].
  remember (S fuel) as f1 eqn:Hf1.
  assert (Hm : forall a b r, dispatch fuel a b = Some r -> dispatch f1 a b = Some r)
    by (subst f1; exact IH).
  cbn [hasIntersection]. rewrite Hf1 in Hrun. cbn [hasIntersection] in Hrun.
  clear Hf1 IH.
  destruct (IsEmpty g2); [exact Hrun|].
  destruct (IsEmpty g1); [exact Hrun|].
  destruct (rank g2 <? rank g1)%nat.
  - destruct g2, g1; try exact Hrun;
      first [ eapply anyM_mono; [|exact Hrun]; intros x rx; apply Hm
            | eapply hasIntersectionMultiLineStringWithMultiPolygon_mono;
              [exact Hm|exact Hrun]
            | eapply hasIntersectionPolygonWithPolygon_mono;
              [exact Hm|exact Hrun]
            | eapply hasIntersectionMultiPolygonWithMultiPolygon_mono;
              [exact Hm|exact Hrun] ].
  - destruct g1, g2; try exact Hrun;
      first [ eapply anyM_mono; [|exact Hrun]; intros x rx; apply Hm
            | eapply hasIntersectionMultiLineStringWithMultiPolygon_mono;
              [exact Hm|exact Hrun]
            | eapply hasIntersectionPolygonWithPolygon_mono;
              [exact Hm|exact Hrun]
            | eapply hasIntersectionMultiPolygonWithMultiPolygon_mono;
              [exact Hm|exact Hrun] ].
Qed.

Lemma dispatch_enough_fuel (fuel : nat) (g1 g2 : Geometry) :
  Valid g1 -> Valid g2 -> (3 + depth g1 + depth g2 <= fuel)%nat ->
  dispatch fuel g1 g2 = Intersects sort_Slice pointRingSide g1 g2.
Proof using sort_Slice_Permutation sort_Slice_Sorted.
  intros V1 V2 Hfuel.
  destruct (dispatch_total sort_Slice sort_Slice_Permutation sort_Slice_Sorted
              pointRingSide (3 + depth g1 + depth g2) g1 g2 V1 V2 ltac:(lia))
    as [r Hr].
  assert (Hup : forall k,
             dispatch (k + (3 + depth g1 + depth g2)) g1 g2 = Some r).
  { induction k as [|k IHk]; [exact Hr|]. apply dispatch_more_fuel. exact IHk. }
  unfold Intersects.
  replace fuel with ((fuel - (3 + depth g1 + depth g2))
                     + (3 + depth g1 + depth g2))%nat by lia.
  rewrite Hup.
  replace (4 + depth g1 + depth g2)%nat
    with (1 + (3 + depth g1 + depth g2))%nat by lia.
  rewrite Hup. reflexivity.
Qed.


End IntersectsSym.

Lemma triangle_valid : Valid (GPolygon triangle).
Proof.
  apply (proj1 (Valid_collection _) collection_example_valid).
  cbn [collection_example In]. auto.
Qed.



(** ** A multi point against a multi line string *)

Lemma LineString_PointN_nth (ls : LineString) (k : nat) (n : Line) :
  ValidLineString ls -> nth_error (lines ls) k = Some n ->
  LineString_PointN ls k = Some (mkPoint (a n)) /\
  LineString_PointN ls (S k) = Some (mkPoint (b n)).
Proof.
  intros [_ [_ Hc]] En.
  assert (Hk : (k < length (lines ls))%nat)
    by (apply nth_error_Some; congruence).
  pose proof (Chained_next _ Hc k n En) as Hn.
  unfold LineString_PointN, LineString_NumPoints. split.
  - destruct (Nat.eqb_spec (S k) (S (length (lines ls)))); [lia|].
    rewrite En. reflexivity.
  - destruct (Nat.eqb_spec (S (S k)) (S (length (lines ls)))) as [E|E].
    + assert (En2 : nth_error (lines ls) (S k) = None)
        by (apply nth_error_None; lia).
      rewrite En2 in Hn. rewrite Hn. reflexivity.
    + destruct (nth_error (lines ls) (S k)) as [n2|] eqn:En2.
      * rewrite Hn. reflexivity.
      * apply nth_error_None in En2. lia.
Qed.

(** X26. On a valid multi line string,
    [hasIntersectionMultiPointWithMultiLineString] returns, and its answer
    is that some point of the multi point meets the multi line string as
    [hasIntersectionPointWithMultiLineString] has it: the segments it
    rebuilds from consecutive points are the segments of the line strings,
    and none is refused. *)
Theorem hasIntersectionMultiPointWithMultiLineString_points (mp : MultiPoint)
    (mls : MultiLineString) :
  ValidMultiLineString mls ->
  hasIntersectionMultiPointWithMultiLineString mp mls
  = Some (existsb (fun pt => hasIntersectionPointWithMultiLineString pt mls)
            (pts mp)).
Proof.
  intros Hv. unfold ValidMultiLineString in Hv. rewrite List.Forall_forall in Hv.
  unfold hasIntersectionMultiPointWithMultiLineString.
  assert (Hseg : forall pt ls, In ls (mls_lines mls) ->
             anyM (fun k =>
                     match LineString_PointN ls k, LineString_PointN ls (S k) with
                     | Some p1, Some p2 =>
                         match NewLineC (coords p1) (coords p2) with
                         | Some ln => Some (hasIntersectionPointWithLine pt ln)
                         | None => None
                         end
                     | _, _ => None
                     end)
               (seq 0 (LineString_NumPoints ls - 1))
             = Some (hasIntersectionPointWithLineString pt ls)).
  { intros pt ls Hls. specialize (Hv ls Hls).
    assert (Hstep : forall k, In k (seq 0 (LineString_NumPoints ls - 1)) ->
               exists n, nth_error (lines ls) k = Some n /\
                 match LineString_PointN ls k, LineString_PointN ls (S k) with
                 | Some p1, Some p2 =>
                     match NewLineC (coords p1) (coords p2) with
                     | Some ln => Some (hasIntersectionPointWithLine pt ln)
                     | None => None
                     end
                 | _, _ => None
                 end = Some (hasIntersectionPointWithLine pt n)).
    { intros k Hk. apply in_seq in Hk. unfold LineString_NumPoints in Hk.
      destruct (nth_error (lines ls) k) as [n|] eqn:En;
        [|apply nth_error_None in En; lia].
      exists n. split; [reflexivity|].
      destruct (LineString_PointN_nth ls k n Hv En) as [E1 E2].
      rewrite E1, E2. cbn [coords].
      rewrite NonDegenerate_NewLineC; [reflexivity|].
      destruct Hv as [_ [Hnd _]]. rewrite List.Forall_forall in Hnd.
      apply Hnd. eapply nth_error_In; eauto. }
    rewrite anyM_existsb
      by (intros k Hk; destruct (Hstep k Hk) as (n & _ & ->); eauto).
    f_equal. unfold hasIntersectionPointWithLineString.
    apply bool_eq_of_iff. rewrite !existsb_exists. split.
    - intros (k & Hk & Hans). destruct (Hstep k Hk) as (n & En & Hn).
      rewrite Hn, answered_Some in Hans. exists n.
      split; [eapply nth_error_In; eauto|exact Hans].
    - intros (n & Hin & Hn). apply In_nth_error in Hin as [k En].
      assert (Hk : In k (seq 0 (LineString_NumPoints ls - 1))).
      { apply in_seq. unfold LineString_NumPoints.
        assert (k < length (lines ls))%nat
          by (apply nth_error_Some; congruence).
        lia. }
      exists k. split; [exact Hk|].
      destruct (Hstep k Hk) as (n' & En' & Hn').
      rewrite Hn', answered_Some. congruence. }
  rewrite anyM_existsb.
  2:{ intros pt _. apply anyM_total. intros ls Hls. rewrite Hseg by exact Hls.
      eauto. }
  f_equal. apply existsb_ext_in. intros pt _.
  rewrite anyM_existsb by (intros ls Hls; rewrite Hseg by exact Hls; eauto).
  rewrite answered_Some. unfold hasIntersectionPointWithMultiLineString.
  apply existsb_ext_in. intros ls Hls. rewrite Hseg by exact Hls.
  apply answered_Some.
Qed.

(** [MULTILINESTRING((0 0,2 0,0 2,0 0))]. *)
Definition triangle_lines : MultiLineString :=
  mkMultiLineString [outer triangle].

Lemma hasIntersectionMultiPointWithMultiLineString_points_witness :
  hasIntersectionMultiPointWithMultiLineString
    (mkMultiPoint [mkPoint (mkXY 5 5); mkPoint (mkXY 1 1)]) triangle_lines
  = Some (existsb
            (fun pt => hasIntersectionPointWithMultiLineString pt triangle_lines)
            [mkPoint (mkXY 5 5); mkPoint (mkXY 1 1)]).
Proof.
  apply (hasIntersectionMultiPointWithMultiLineString_points
           (mkMultiPoint [mkPoint (mkXY 5 5); mkPoint (mkXY 1 1)])
           triangle_lines).
  constructor; [|constructor].
  exact (proj1 triangle_valid).
Defined.

End Geom.

(* ===================================================================== *)
(** * The R-tree bulk loader ([rtree/bulk.go]) *)
(* ===================================================================== *)

Module RTree.

Local Open Scope nat_scope.

Definition float64 : Set := PrimFloat.float.

(** Modelled from the spec: [Box] (declared outside the sources) is a box
    by its four bounds. *)
Record Box : Set :=
  mkBox { MinX : float64; MinY : float64; MaxX : float64; MaxY : float64 }.

Record BulkItem : Set := mkBulkItem { ItemBox : Box; RecordID : Z }.

(** Modelled from the spec: [combine] (absent from the sources) is the least
    box around two boxes. *)
Definition fmin (x y : float64) : float64 := if PrimFloat.ltb x y then x else y.
Definition fmax (x y : float64) : float64 := if PrimFloat.ltb y x then x else y.

Definition combine (b1 b2 : Box) : Box :=
  mkBox (fmin (MinX b1) (MinX b2)) (fmin (MinY b1) (MinY b2))
        (fmax (MaxX b1) (MaxX b2)) (fmax (MaxY b1) (MaxY b2)).

(** [bulkItems]: the items with the axis they are compared on. The slice
    shares its store with the caller's: what [Swap] does to it is seen
    through [items]. *)
Record bulkItems : Set := mkBulkItems { horizontal : bool; items : list BulkItem }.

(** The number [Less] compares two items by. *)
Definition axisKey (horizontal : bool) (it : BulkItem) : float64 :=
  if horizontal then (MinX (ItemBox it) + MaxX (ItemBox it))%float
  else (MinY (ItemBox it) + MaxY (ItemBox it))%float.

Definition bulkItems_Len (b : bulkItems) : nat := length (items b).

(** [Less(i, j)]; an index out of range panics. *)
Definition bulkItems_Less (b : bulkItems) (i j : nat) : option bool :=
  match items b !! i, items b !! j with
  | Some bi, Some bj =>
      Some (if horizontal b
            then PrimFloat.ltb (MinX (ItemBox bi) + MaxX (ItemBox bi))%float
                               (MinX (ItemBox bj) + MaxX (ItemBox bj))%float
            else PrimFloat.ltb (MinY (ItemBox bi) + MaxY (ItemBox bi))%float
                               (MinY (ItemBox bj) + MaxY (ItemBox bj))%float)
  | _, _ => None
  end.

(** [Swap(i, j)]. *)
Definition bulkItems_Swap (b : bulkItems) (i j : nat) : option bulkItems :=
  match items b !! i, items b !! j with
  | Some bi, Some bj =>
      Some (mkBulkItems (horizontal b) (<[i := bj]> (<[j := bi]> (items b))))
  | _, _ => None
  end.

(** The linear congruential generator of [quickPartition]: the next state. *)
Definition rndNext (rndState : Z) : Z :=
  ((1664525 * rndState + 1013904223) mod (2 ^ 32))%Z.

(** [for i := left; i <= right; i++ { if Less(i, right) { Swap(i, j); j++ } }],
    with [steps] turns left to go. *)
Fixpoint partitionLoop (steps : nat) (b : bulkItems) (right i j : nat)
  : option (bulkItems * nat) :=
  match steps with
  | O => Some (b, j)
  | S steps' =>
      match bulkItems_Less b i right with
      | None => None
      | Some true =>
          match bulkItems_Swap b i j with
          | None => None
          | Some b' => partitionLoop steps' b' right (S i) (S j)
          end
      | Some false => partitionLoop steps' b right (S i) j
      end
  end.

(** The outer loop of [quickPartition]. While [k] is within the window,
    [left <= right] holds at every turn; where it does not, the Go code fails
    on [rnd(0)] or on an index, which is the [None] here. *)
Fixpoint quickLoop (fuel : nat) (b : bulkItems) (rndState : Z)
    (left right k : nat) : option bulkItems :=
  match fuel with
  | O => None
  | S fuel' =>
      if right <? left then None
      else
        (* pivot := left + rnd(right-left+1) *)
        let rndState := rndNext rndState in
        let pivot :=
          left + Z.to_nat (rndState mod Z.of_nat (right - left + 1)) in
        match bulkItems_Swap b pivot right with
        | None => None
        | Some b1 =>
            match partitionLoop (right + 1 - left) b1 right left left with
            | None => None
            | Some (b2, j) =>
                match bulkItems_Swap b2 right j with
                | None => None
                | Some b3 =>
                    if j - left <? k then
                      quickLoop fuel' b3 rndState (j + 1) right
                        (k - (j - left + 1))
                    else if k <? j - left then
                      quickLoop fuel' b3 rndState left (j - 1) k
                    else Some b3
                end
            end
        end
  end.

(** [quickPartition]: on an empty slice [rnd(0)] divides by zero. Every turn
    narrows the window, so the length is fuel enough. *)
Definition quickPartition (b : bulkItems) (k : nat) : option bulkItems :=
  if bulkItems_Len b =? 0 then None
  else quickLoop (bulkItems_Len b) b 0%Z 0 (bulkItems_Len b - 1) k.

(** The box around all the items. *)
Definition enclosing (first : BulkItem) (rest : list BulkItem) : Box :=
  fold_left (fun box item => combine box (ItemBox item)) rest (ItemBox first).

(** The axis test of [buildBulkItems]: the X extent exceeds the Y extent. *)
Definition widerThanTall (box : Box) : bool :=
  PrimFloat.ltb (MaxY box - MinY box)%float (MaxX box - MinX box)%float.

(** [buildBulkItems]; [items[0]] panics on an empty slice. *)
Definition buildBulkItems (items : list BulkItem) : option bulkItems :=
  match items with
  | [] => None
  | first :: rest =>
      let box := enclosing first rest in
      Some (mkBulkItems (widerThanTall box) items)
  end.

(** [splitBulkItems2Ways]. *)
Definition splitBulkItems2Ways (items : list BulkItem)
  : option (list BulkItem * list BulkItem) :=
  match buildBulkItems items with
  | None => None
  | Some bulkItems =>
      let split := length items / 2 in
      match quickPartition bulkItems split with
      | None => None
      | Some sorted => Some (take split (RTree.items sorted),
                             drop split (RTree.items sorted))
      end
  end.

(** [splitBulkItems3Ways]: the second partition works on [items[3:]] of the
    shared store. *)
Definition splitBulkItems3Ways (items : list BulkItem)
  : option (list BulkItem * list BulkItem * list BulkItem) :=
  if negb ((length items =? 6) || (length items =? 7)) then None
  else
    match buildBulkItems items with
    | None => None
    | Some bulkItems =>
        match quickPartition bulkItems 2 with
        | None => None
        | Some sorted1 =>
            let tail3 :=
              mkBulkItems (horizontal sorted1) (drop 3 (RTree.items sorted1)) in
            match quickPartition tail3 1 with
            | None => None
            | Some sorted2 =>
                let store := take 3 (RTree.items sorted1) ++ RTree.items sorted2 in
                Some (take 2 store, take 2 (drop 2 store), drop 4 store)
            end
        end
    end.

(** A node of the tree. The back pointer [parent] is left out: nothing here
    reads it. *)
Inductive node : Set :=
| mkNode (isLeaf : bool) (entries : list entry)
with entry : Set :=
| mkEntry (box : Box) (child : option node) (recordID : Z).

Definition numEntries (n : node) : nat :=
  match n with mkNode _ entries => length entries end.

Section Bulk.

(** [calculateBound] is absent from the sources. *)
Variable calculateBound : node -> Box.

(** [bulkNode], given the children already built. *)
Definition bulkNodeOf (children : list node) : node :=
  mkNode false (map (fun child => mkEntry (calculateBound child) (Some child) 0%Z)
                  children).

(** Build every part in turn; a panic in one is a panic of the whole. *)
Fixpoint buildParts (build : list BulkItem -> option node)
    (parts : list (list BulkItem)) : option (list node) :=
  match parts with
  | [] => Some []
  | part :: rest =>
      match build part with
      | None => None
      | Some child =>
          match buildParts build rest with
          | None => None
          | Some children => Some (child :: children)
          end
      end
  end.

(** [bulkNode(levels, parts...)], with [build] for [bulkInsert(_, levels-1)]. *)
Definition bulkNode (build : list BulkItem -> option node)
    (parts : list (list BulkItem)) : option node :=
  match buildParts build parts with
  | None => None
  | Some children => Some (bulkNodeOf children)
  end.

(** [bulkInsert]. With [levels < 1] the Go recursion never meets
    [levels == 1] and ends in the panic of [buildBulkItems] on an empty
    slice. *)
Fixpoint bulkInsert (levels : nat) (items : list BulkItem) : option node :=
  match levels with
  | O => None
  | S O =>
      Some (mkNode true
              (map (fun item => mkEntry (ItemBox item) None (RecordID item)) items))
  | S levels' =>
      if length items <? 6 then
        match splitBulkItems2Ways items with
        | None => None
        | Some (firstHalf, secondHalf) =>
            bulkNode (bulkInsert levels') [firstHalf; secondHalf]
        end
      else if length items <? 8 then
        match splitBulkItems3Ways items with
        | None => None
        | Some (firstThird, secondThird, thirdThird) =>
            bulkNode (bulkInsert levels') [firstThird; secondThird; thirdThird]
        end
      else
        match splitBulkItems2Ways items with
        | None => None
        | Some (firstHalf, secondHalf) =>
            match splitBulkItems2Ways firstHalf with
            | None => None
            | Some (firstQuarter, secondQuarter) =>
                match splitBulkItems2Ways secondHalf with
                | None => None
                | Some (thirdQuarter, fourthQuarter) =>
                    bulkNode (bulkInsert levels')
                      [firstQuarter; secondQuarter; thirdQuarter; fourthQuarter]
                end
            end
        end
  end.

End Bulk.

(** [calculateBound] for running the loader: the box around the entries. *)
Definition boundOf (n : node) : Box :=
  match n with
  | mkNode _ [] => (mkBox 0 0 0 0)%float
  | mkNode _ (mkEntry box0 _ _ :: rest) =>
      fold_left (fun acc e => match e with mkEntry box _ _ => combine acc box end)
        rest box0
  end.

(** ** Notions the proofs use *)

(** [x] is below [y] on the axis, as [Less] has it. *)
Definition Below (horizontal : bool) (x y : BulkItem) : Prop :=
  PrimFloat.ltb (axisKey horizontal x) (axisKey horizontal y) = true.

(** [x] is at most [y] on the axis: [y] is not below [x]. *)
Definition NotAbove (horizontal : bool) (x y : BulkItem) : Prop :=
  PrimFloat.ltb (axisKey horizontal y) (axisKey horizontal x) = false.

(** The number the item is compared by is a number. *)
Definition Keyed (horizontal : bool) (it : BulkItem) : Prop :=
  PrimFloat.is_nan (axisKey horizontal it) = false.

(** No item is compared by a NaN, on either axis. *)
Definition NumberKeys (items : list BulkItem) : Prop :=
  forall horizontal : bool, Forall (Keyed horizontal) items.

(** Every item of [p1] is at most every item of [p2] on the axis. *)
Definition Separated (horizontal : bool) (p1 p2 : list BulkItem) : Prop :=
  forall x y : BulkItem, In x p1 -> In y p2 -> NotAbove horizontal x y.

(** The axis a split of [items] uses: X when the box around them is wider
    than tall, Y otherwise. *)
Definition splitAxis (items : list BulkItem) : bool :=
  match items with
  | [] => false
  | first :: rest => widerThanTall (enclosing first rest)
  end.

(** [Within left right l l']: [l'] is [l] with the window from [left] to
    [right] rearranged. *)
Definition Within (left right : nat) (l l' : list BulkItem) : Prop :=
  length l' = length l /\
  l' ≡ₚ l /\
  (forall p, p < left \/ right < p -> l' !! p = l !! p) /\
  (forall q y, left <= q <= right -> l' !! q = Some y ->
               exists q', left <= q' <= right /\ l !! q' = Some y).

Definition LeftSettled (h : bool) (l : list BulkItem) (left : nat) : Prop :=
  forall p q x y, p < left -> left <= q -> l !! p = Some x -> l !! q = Some y ->
                  NotAbove h x y.

Definition RightSettled (h : bool) (l : list BulkItem) (right : nat) : Prop :=
  forall p q x y, p <= right -> right < q -> l !! p = Some x -> l !! q = Some y ->
                  NotAbove h x y.

(** Position [t] holds an item that everything before it is at most, and
    everything after it is at least. *)
Definition PartitionedAt (h : bool) (l : list BulkItem) (t : nat) : Prop :=
  (forall p x y, p < t -> l !! p = Some x -> l !! t = Some y ->
                 NotAbove h x y) /\
  (forall q x y, t < q -> l !! t = Some y -> l !! q = Some x ->
                 NotAbove h y x).

(** The parts a non-leaf step of [bulkInsert] hands to [bulkNode]
    ([bulkInsert_non_leaf]). *)
Definition bulkSplit (items : list BulkItem) : option (list (list BulkItem)) :=
  if length items <? 6 then
    match splitBulkItems2Ways items with
    | None => None
    | Some (firstHalf, secondHalf) => Some [firstHalf; secondHalf]
    end
  else if length items <? 8 then
    match splitBulkItems3Ways items with
    | None => None
    | Some (firstThird, secondThird, thirdThird) =>
        Some [firstThird; secondThird; thirdThird]
    end
  else
    match splitBulkItems2Ways items with
    | None => None
    | Some (firstHalf, secondHalf) =>
        match splitBulkItems2Ways firstHalf with
        | None => None
        | Some (firstQuarter, secondQuarter) =>
            match splitBulkItems2Ways secondHalf with
            | None => None
            | Some (thirdQuarter, fourthQuarter) =>
                Some [firstQuarter; secondQuarter; thirdQuarter; fourthQuarter]
            end
        end
    end.

(** Seven unit boxes in a row, out of order. *)
Definition unitBox (x : float64) (recordID : Z) : BulkItem :=
  mkBulkItem (mkBox x 0 (x + 1) 1)%float recordID.

Definition example_items : list BulkItem :=
  [unitBox 5%float 5%Z; unitBox 2%float 2%Z; unitBox 6%float 6%Z;
   unitBox 1%float 1%Z; unitBox 3%float 3%Z; unitBox 0%float 0%Z;
   unitBox 4%float 4%Z].

(** ** The loader *)

(** Modelled from the spec: the largest and the least number of children of
    a node (declared outside the sources). *)
Definition maxChildren : Z := 4.
Definition minChildren : Z := 2.

(** Go's [int] is 64 bits wide here ([1 << 32] is an [int] constant of
    [quickPartition]): a product wraps around. *)
Definition wrap64 (z : Z) : Z := ((z + 2 ^ 63) mod 2 ^ 64 - 2 ^ 63)%Z.

(** The loop of [calculateLevels], with [fuel] turns left. *)
Fixpoint calculateLevelsLoop (fuel : nat) (numItems count levels : Z)
  : option Z :=
  match fuel with
  | O => None
  | S fuel' =>
      if (count <? numItems)%Z
      then calculateLevelsLoop fuel' numItems (wrap64 (count * maxChildren))
             (levels + 1)%Z
      else Some levels
  end.

(** [calculateLevels]: [count] is a power of four until it wraps to zero, so
    64 turns end the loop if anything does. *)
Definition calculateLevels (numItems : Z) : option Z :=
  calculateLevelsLoop 64 numItems maxChildren 1.

(** [RTree], by the literal [&RTree{root}] of [BulkLoad]; [None] is the
    [nil] root of [&RTree{}]. *)
Record RTree : Set := mkRTree { root : option node }.

Section Load.

Variable calculateBound : node -> Box.

Definition BulkLoad (items : list BulkItem) : option RTree :=
  if length items =? 0 then Some (mkRTree None)
  else
    levels ← calculateLevels (Z.of_nat (length items));
    n ← bulkInsert calculateBound (Z.to_nat levels) items;
    Some (mkRTree (Some n)).

End Load.

(** The records under a node, leaf by leaf. *)
Fixpoint records (n : node) : list (Box * Z) :=
  match n with
  | mkNode isLeaf entries =>
      flat_map
        (fun e =>
           match e with
           | mkEntry box None recordID => [(box, recordID)]
           | mkEntry _ (Some child) _ => records child
           end)
        entries
  end.

Definition entryChild (e : entry) : option node :=
  match e with mkEntry _ child _ => child end.

Definition entryBox (e : entry) : Box :=
  match e with mkEntry box _ _ => box end.

(** A tree of [levels] levels below and at [n]: leaves at the last level
    only, at most four entries in a node, at least two in a node that is not
    the root, and over each child the box [calculateBound] gives it. *)
Fixpoint Balanced (calculateBound : node -> Box) (levels : nat) (n : node)
  : Prop :=
  match n with
  | mkNode isLeaf entries =>
      length entries <= 4 /\
      match levels with
      | O => False
      | S O => isLeaf = true /\ Forall (fun e => entryChild e = None) entries
      | S levels' =>
          isLeaf = false /\ 2 <= length entries /\
          Forall (fun e => exists child : node,
                     entryChild e = Some child /\
                     entryBox e = calculateBound child /\
                     2 <= numEntries child /\
                     Balanced calculateBound levels' child) entries
      end
  end.

(** What an item leaves in the tree. *)
Definition itemRecord (item : BulkItem) : Box * Z :=
  (ItemBox item, RecordID item).

Definition treeRecords (t : RTree) : list (Box * Z) :=
  match root t with
  | None => []
  | Some n => records n
  end.

(** ** The order of [float64] *)

(** The place of a number on the line: class first, then exponent, then
    mantissa. NaN has none. *)
Definition place (f : spec_float) : Z * Z * Z :=
  match f with
  | S754_infinity true => (-2, 0, 0)
  | S754_finite true m e => (-1, - e, - Z.pos m)
  | S754_zero _ => (0, 0, 0)
  | S754_finite false m e => (1, e, Z.pos m)
  | S754_infinity false => (2, 0, 0)
  | S754_nan => (0, 0, 0)
  end%Z.

Definition before (p q : Z * Z * Z) : Prop :=
  let '(a1, b1, c1) := p in
  let '(a2, b2, c2) := q in
  (a1 < a2 \/ (a1 = a2 /\ (b1 < b2 \/ (b1 = b2 /\ c1 < c2))))%Z.

Lemma SFltb_before (f1 f2 : spec_float) :
  f1 <> S754_nan -> f2 <> S754_nan ->
  (SFltb f1 f2 = true <-> before (place f1) (place f2)).
Proof.
  intros H1 H2. unfold SFltb.
  destruct f1 as [s1|s1| |s1 m1 e1], f2 as [s2|s2| |s2 m2 e2];
    try congruence; try destruct s1; try destruct s2; simpl;
    try (split; [discriminate|lia]); try (split; [lia|reflexivity]);
    change (Pos.compare_cont Eq m1 m2) with (Pos.compare m1 m2);
    destruct (Z.compare_spec e1 e2); destruct (Pos.compare_spec m1 m2);
    simpl; split; intros; try discriminate; try reflexivity; subst; lia.
Qed.

Lemma SFltb_nan_r (f : spec_float) : SFltb f S754_nan = false.
Proof. destruct f; reflexivity. Qed.

Lemma not_true_false (b : bool) : (b = true -> False) -> b = false.
Proof. destruct b; [intros H; exfalso; auto|reflexivity]. Qed.

Lemma SFltb_asym (f1 f2 : spec_float) :
  SFltb f1 f2 = true -> SFltb f2 f1 = false.
Proof.
  intros H.
  assert (f1 <> S754_nan) by (intros ->; discriminate).
  assert (f2 <> S754_nan) by (intros ->; rewrite SFltb_nan_r in H; discriminate).
  apply not_true_false. intros H'.
  apply SFltb_before in H, H'; auto.
  destruct (place f1) as [[a1 b1] c1], (place f2) as [[a2 b2] c2].
  simpl in *. lia.
Qed.

Lemma SFltb_negtrans (f1 f2 f3 : spec_float) :
  f2 <> S754_nan ->
  SFltb f2 f1 = false -> SFltb f3 f2 = false -> SFltb f3 f1 = false.
Proof.
  intros H2 H21 H32. apply not_true_false. intros H31.
  assert (H1 : f1 <> S754_nan)
    by (intros ->; rewrite SFltb_nan_r in H31; discriminate).
  assert (H3 : f3 <> S754_nan) by (intros ->; discriminate).
  apply SFltb_before in H31; auto.
  assert (N21 : ~ before (place f2) (place f1))
    by (intros B; apply SFltb_before in B; auto; congruence).
  assert (N32 : ~ before (place f3) (place f2))
    by (intros B; apply SFltb_before in B; auto; congruence).
  destruct (place f1) as [[a1 b1] c1], (place f2) as [[a2 b2] c2],
    (place f3) as [[a3 b3] c3].
  simpl in *. lia.
Qed.

Lemma is_nan_false (x : float64) :
  PrimFloat.is_nan x = false -> Prim2SF x <> S754_nan.
Proof.
  unfold PrimFloat.is_nan. rewrite FloatAxioms.eqb_spec. intros H E. rewrite E in H.
  discriminate.
Qed.

Lemma NotAbove_refl (h : bool) (x : BulkItem) : NotAbove h x x.
Proof.
  unfold NotAbove. rewrite FloatAxioms.ltb_spec. apply not_true_false. intros H.
  pose proof (SFltb_asym _ _ H). congruence.
Qed.

Lemma Below_NotAbove (h : bool) (x y : BulkItem) : Below h x y -> NotAbove h x y.
Proof. unfold Below, NotAbove. rewrite !FloatAxioms.ltb_spec. apply SFltb_asym. Qed.

Lemma NotAbove_trans (h : bool) (x y z : BulkItem) :
  Keyed h y -> NotAbove h x y -> NotAbove h y z -> NotAbove h x z.
Proof.
  unfold Keyed, NotAbove. rewrite !FloatAxioms.ltb_spec. intros Hy Hxy Hyz.
  eapply SFltb_negtrans; [apply is_nan_false; exact Hy|exact Hxy|exact Hyz].
Qed.

Lemma Keyed_lookup (h : bool) (l l' : list BulkItem) (p : nat) (x : BulkItem) :
  Forall (Keyed h) l -> l' ≡ₚ l -> l' !! p = Some x -> Keyed h x.
Proof.
  intros Hall Hperm Hx. rewrite <- Hperm in Hall.
  eapply Forall_lookup_1; eauto.
Qed.

(** ** The partial partition *)

Lemma bulkItems_Less_spec (h : bool) (l : list BulkItem) (i j : nat)
    (x y : BulkItem) :
  l !! i = Some x -> l !! j = Some y ->
  bulkItems_Less (mkBulkItems h l) i j
  = Some (PrimFloat.ltb (axisKey h x) (axisKey h y)).
Proof.
  intros Hi Hj. unfold bulkItems_Less, axisKey. simpl. rewrite Hi, Hj.
  destruct h; reflexivity.
Qed.

Lemma bulkItems_Swap_spec (h : bool) (l : list BulkItem) (i j : nat)
    (x y : BulkItem) :
  l !! i = Some x -> l !! j = Some y ->
  bulkItems_Swap (mkBulkItems h l) i j =
  Some (mkBulkItems h (<[i := y]> (<[j := x]> l))).
Proof. intros Hi Hj. unfold bulkItems_Swap. simpl. now rewrite Hi, Hj. Qed.

Lemma Within_refl left right l : Within left right l l.
Proof. repeat split; eauto. Qed.

Lemma Within_trans left right l1 l2 l3 :
  Within left right l1 l2 -> Within left right l2 l3 -> Within left right l1 l3.
Proof.
  intros (L1 & P1 & F1 & C1) (L2 & P2 & F2 & C2). repeat split.
  - congruence.
  - etransitivity; eassumption.
  - intros p Hp. rewrite F2, F1; auto.
  - intros q y Hq Hy. destruct (C2 q y Hq Hy) as (q' & Hq' & Hy'). eauto.
Qed.

Lemma Within_widen left right left' right' l l' :
  left <= left' -> right' <= right ->
  Within left' right' l l' -> Within left right l l'.
Proof.
  intros Hl Hr (L & P & F & C). repeat split; auto.
  - intros p Hp. apply F. lia.
  - intros q y Hq Hy.
    destruct (decide (left' <= q <= right')) as [Hin|Hout].
    + destruct (C q y Hin Hy) as (q' & Hq' & Hy'). exists q'. split; [lia|auto].
    + exists q. split; [lia|]. rewrite <- F; [auto|lia].
Qed.

Lemma swap_lookup (l : list BulkItem) (i j p : nat) (x y : BulkItem) :
  l !! i = Some x -> l !! j = Some y ->
  <[i := y]> (<[j := x]> l) !! p =
  if decide (p = i) then Some y else if decide (p = j) then Some x else l !! p.
Proof.
  intros Hi Hj.
  pose proof (lookup_lt_Some _ _ _ Hi). pose proof (lookup_lt_Some _ _ _ Hj).
  destruct (decide (p = i)) as [->|Hpi].
  - apply list_lookup_insert_eq. now rewrite length_insert.
  - rewrite list_lookup_insert_ne by auto.
    destruct (decide (p = j)) as [->|Hpj].
    + now apply list_lookup_insert_eq.
    + now rewrite list_lookup_insert_ne by auto.
Qed.

Lemma Within_swap left right (l : list BulkItem) (i j : nat) (x y : BulkItem) :
  left <= i <= right -> left <= j <= right ->
  l !! i = Some x -> l !! j = Some y ->
  Within left right l (<[i := y]> (<[j := x]> l)).
Proof.
  intros Hi Hj Hx Hy. repeat split.
  - now rewrite !length_insert.
  - now apply Permutation_insert_swap.
  - intros p Hp. rewrite (swap_lookup l i j p x y) by auto.
    repeat case_decide; try lia. reflexivity.
  - intros q z Hq Hz. rewrite (swap_lookup l i j q x y) in Hz by auto.
    repeat case_decide; simplify_eq; eauto.
Qed.

Lemma partitionLoop_spec (h : bool) (left right : nat) (pv : BulkItem) :
  forall (steps : nat) (l : list BulkItem) (i j : nat),
    steps = right + 1 - i -> i <= right + 1 ->
    left <= j -> j <= i -> j <= right ->
    l !! right = Some pv ->
    (forall p x, left <= p < j -> l !! p = Some x ->
                 Below h x pv) ->
    (forall p x, j <= p < i -> l !! p = Some x ->
                 NotAbove h pv x) ->
    exists (l' : list BulkItem) (j' : nat),
      partitionLoop steps (mkBulkItems h l) right i j
        = Some (mkBulkItems h l', j') /\
      Within left right l l' /\
      left <= j' <= right /\
      l' !! right = Some pv /\
      (forall p x, left <= p < j' -> l' !! p = Some x ->
                   Below h x pv) /\
      (forall p x, j' <= p <= right -> l' !! p = Some x ->
                   NotAbove h pv x).
Proof.
  induction steps as [|steps IH]; intros l i j Hsteps Hi Hlj Hji Hjr Hpv HA HB.
  - exists l, j. simpl. split; [reflexivity|].
    split; [apply Within_refl|]. split; [lia|]. split; [exact Hpv|].
    split; [exact HA|]. intros p x Hp. apply HB. lia.
  - assert (Hir : i <= right) by lia.
    pose proof (lookup_lt_Some _ _ _ Hpv) as Hlen.
    destruct (lookup_lt_is_Some_2 l i ltac:(lia)) as [x Hx].
    destruct (lookup_lt_is_Some_2 l j ltac:(lia)) as [y Hy].
    cbn [partitionLoop].
    rewrite (bulkItems_Less_spec h l i right x pv Hx Hpv).
    destruct (PrimFloat.ltb (axisKey h x) (axisKey h pv)) eqn:Hlt.
    + assert (i <> right) as Hne.
      { intros ->. assert (x = pv) by congruence. subst x.
        pose proof (NotAbove_refl h pv) as Hrefl. unfold NotAbove in Hrefl.
        congruence. }
      rewrite (bulkItems_Swap_spec h l i j x y Hx Hy).
      destruct (IH (<[i := y]> (<[j := x]> l)) (S i) (S j))
        as (l' & j' & Hrun & Hw & Hj' & Hpv' & HA' & HB'); try lia.
      * rewrite (swap_lookup l i j right x y) by auto.
        repeat case_decide; try lia. exact Hpv.
      * intros p z Hp Hz. rewrite (swap_lookup l i j p x y) in Hz by auto.
        destruct (decide (p = i)) as [Hpi|Hpi].
        { assert (i = j) by lia. subst p j.
          assert (z = x) by congruence. subst z. exact Hlt. }
        destruct (decide (p = j)) as [Hpj|Hpj].
        { assert (z = x) by congruence. subst z. exact Hlt. }
        apply (HA p); [lia|exact Hz].
      * intros p z Hp Hz. rewrite (swap_lookup l i j p x y) in Hz by auto.
        destruct (decide (p = i)) as [Hpi|Hpi].
        { assert (z = y) by congruence. subst z.
          apply (HB j); [lia|exact Hy]. }
        destruct (decide (p = j)) as [Hpj|Hpj]; [lia|].
        apply (HB p); [lia|exact Hz].
      * exists l', j'. split; [exact Hrun|].
        split.
        { eapply Within_trans; [|exact Hw].
          apply Within_swap; auto; lia. }
        split; [lia|]. auto.
    + destruct (IH l (S i) j)
        as (l' & j' & Hrun & Hw & Hj' & Hpv' & HA' & HB'); try lia; auto.
      * intros p z Hp Hz.
        destruct (decide (p = i)) as [->|Hne].
        -- assert (x = z) by congruence. subst. exact Hlt.
        -- apply (HB p); [lia|exact Hz].
      * exists l', j'. split; [exact Hrun|]. split; [exact Hw|].
        split; [lia|]. auto.
Qed.

Lemma LeftSettled_Within h l l' left right :
  LeftSettled h l left -> Within left right l l' -> LeftSettled h l' left.
Proof.
  intros HL (_ & _ & F & C) p q x y Hp Hq Hx Hy.
  rewrite F in Hx by lia.
  destruct (decide (q <= right)) as [Hin|Hout].
  - destruct (C q y ltac:(lia) Hy) as (q' & Hq' & Hy').
    apply (HL p q' x y); auto; lia.
  - rewrite F in Hy by lia. apply (HL p q x y); auto.
Qed.

Lemma RightSettled_Within h l l' left right :
  RightSettled h l right -> Within left right l l' -> RightSettled h l' right.
Proof.
  intros HR (_ & _ & F & C) p q x y Hp Hq Hx Hy.
  rewrite F in Hy by lia.
  destruct (decide (left <= p)) as [Hin|Hout].
  - destruct (C p x ltac:(lia) Hx) as (p' & Hp' & Hx').
    apply (HR p' q x y); auto; lia.
  - rewrite F in Hx by lia. apply (HR p q x y); auto.
Qed.

Lemma pivot_in_window (rndState : Z) (left right : nat) :
  left <= right ->
  left <= left + Z.to_nat (rndState mod Z.of_nat (right - left + 1)) <= right.
Proof.
  intros H.
  pose proof (Z.mod_pos_bound rndState (Z.of_nat (right - left + 1))
                ltac:(lia)) as Hm.
  lia.
Qed.

Lemma quickLoop_spec (h : bool) :
  forall (fuel : nat) (l : list BulkItem) (rndState : Z) (left right k : nat),
    left <= right -> right < length l -> k <= right - left ->
    right - left < fuel ->
    exists l' : list BulkItem,
      quickLoop fuel (mkBulkItems h l) rndState left right k
        = Some (mkBulkItems h l') /\
      Within left right l l' /\
      (Forall (Keyed h) l ->
       LeftSettled h l left -> RightSettled h l right ->
       PartitionedAt h l' (left + k)).
Proof.
  induction fuel as [|fuel IH];
    intros l rndState left right k Hlr Hlen Hk Hfuel; [lia|].
  cbn [quickLoop].
  destruct (Nat.ltb_spec right left) as [Hbad|_]; [lia|].
  set (pivot := left + Z.to_nat (rndNext rndState mod Z.of_nat (right - left + 1))).
  assert (Hpivot : left <= pivot <= right) by (apply pivot_in_window; exact Hlr).
  destruct (lookup_lt_is_Some_2 l pivot ltac:(lia)) as [pv Hpv].
  destruct (lookup_lt_is_Some_2 l right ltac:(lia)) as [r Hr].
  rewrite (bulkItems_Swap_spec h l pivot right pv r Hpv Hr).
  set (l1 := <[pivot := r]> (<[right := pv]> l)).
  assert (Hw1 : Within left right l l1)
    by (apply Within_swap; auto; lia).
  assert (Hpv1 : l1 !! right = Some pv).
  { unfold l1. rewrite (swap_lookup l pivot right right pv r) by auto.
    destruct (decide (right = pivot)) as [He|He]; [|case_decide; congruence].
    rewrite <- He in Hpv. congruence. }
  destruct (partitionLoop_spec h left right pv (right + 1 - left) l1 left left)
    as (l2 & j & Hrun & Hw2 & Hj & Hpv2 & HA & HB);
    [lia|lia|lia|lia|lia|exact Hpv1|intros p x Hp; lia|intros p x Hp; lia|].
  rewrite Hrun.
  assert (Hlen2 : length l2 = length l).
  { destruct Hw1 as (E1 & _), Hw2 as (E2 & _). congruence. }
  destruct (lookup_lt_is_Some_2 l2 j ltac:(lia)) as [z Hz].
  rewrite (bulkItems_Swap_spec h l2 right j pv z Hpv2 Hz).
  set (l3 := <[right := z]> (<[j := pv]> l2)).
  assert (Hw3 : Within left right l l3).
  { eapply Within_trans; [exact Hw1|]. eapply Within_trans; [exact Hw2|].
    apply Within_swap; auto; lia. }
  assert (Hj3 : l3 !! j = Some pv).
  { unfold l3. rewrite (swap_lookup l2 right j j pv z) by auto.
    destruct (decide (j = right)) as [He|He]; [|case_decide; congruence].
    rewrite He in Hz. congruence. }
  assert (HA3 : forall p x, left <= p < j -> l3 !! p = Some x -> Below h x pv).
  { intros p x Hp Hx. unfold l3 in Hx.
    rewrite (swap_lookup l2 right j p pv z) in Hx by auto.
    destruct (decide (p = right)); [lia|]. destruct (decide (p = j)); [lia|].
    apply (HA p); auto. }
  assert (HB3 : forall p x, j < p <= right -> l3 !! p = Some x ->
                            NotAbove h pv x).
  { intros p x Hp Hx. unfold l3 in Hx.
    rewrite (swap_lookup l2 right j p pv z) in Hx by auto.
    destruct (decide (p = right)).
    - assert (x = z) by congruence. subst x. apply (HB j); [lia|exact Hz].
    - destruct (decide (p = j)); [lia|]. apply (HB p); [lia|exact Hx]. }
  assert (Hlen3 : length l3 = length l) by (destruct Hw3 as (E & _); exact E).
  assert (Hsettled :
            Forall (Keyed h) l -> LeftSettled h l left -> RightSettled h l right ->
            Forall (Keyed h) l3 /\ Keyed h pv /\
            LeftSettled h l3 left /\ RightSettled h l3 right).
  { intros HK HL HR.
    assert (HK3 : Forall (Keyed h) l3)
      by (destruct Hw3 as (_ & Hperm & _); rewrite Hperm; exact HK).
    split; [exact HK3|]. split; [eapply Forall_lookup_1; eauto|].
    split; [eapply LeftSettled_Within; eauto|eapply RightSettled_Within; eauto]. }
  clearbody l3 l1 pivot.
  destruct (Nat.ltb_spec (j - left) k) as [Hlow|Hnlow].
  - (* the k-th item is right of the pivot *)
    destruct (IH l3 (rndNext rndState) (j + 1) right (k - (j - left + 1)))
      as (l' & Hrun' & Hw' & HP'); try lia.
    exists l'. split; [exact Hrun'|]. split.
    { eapply Within_trans; [exact Hw3|].
      eapply Within_widen; [| |exact Hw']; lia. }
    intros HK HL HR. destruct (Hsettled HK HL HR) as (HK3 & Kpv & HL3 & HR3).
    replace (left + k) with (j + 1 + (k - (j - left + 1))) by lia.
    apply HP'; [exact HK3| |exact HR3].
    intros p q x y Hp Hq Hx Hy.
    destruct (decide (p < left)) as [Hout|Hin].
    + apply (HL3 p q x y); auto; lia.
    + assert (Hxp : NotAbove h x pv).
      { destruct (decide (p = j)) as [->|Hne].
        - assert (x = pv) by congruence. subst x. apply NotAbove_refl.
        - apply Below_NotAbove. apply (HA3 p); [lia|exact Hx]. }
      destruct (decide (q <= right)) as [Hqin|Hqout].
      * apply (NotAbove_trans h x pv y Kpv Hxp).
        apply (HB3 q); [lia|exact Hy].
      * apply (HR3 p q x y); auto; lia.
  - destruct (Nat.ltb_spec k (j - left)) as [Hhigh|Hnhigh].
    + (* the k-th item is left of the pivot *)
      destruct (IH l3 (rndNext rndState) left (j - 1) k)
        as (l' & Hrun' & Hw' & HP'); try lia.
      exists l'. split; [exact Hrun'|]. split.
      { eapply Within_trans; [exact Hw3|].
        eapply Within_widen; [| |exact Hw']; lia. }
      intros HK HL HR. destruct (Hsettled HK HL HR) as (HK3 & Kpv & HL3 & HR3).
      apply HP'; [exact HK3|exact HL3|].
      intros p q x y Hp Hq Hx Hy.
      destruct (decide (right < q)) as [Hout|Hin].
      * apply (HR3 p q x y); auto; lia.
      * assert (Hyq : NotAbove h pv y).
        { destruct (decide (q = j)) as [->|Hne].
          - assert (y = pv) by congruence. subst y. apply NotAbove_refl.
          - apply (HB3 q); [lia|exact Hy]. }
        destruct (decide (left <= p)) as [Hpin|Hpout].
        -- apply (NotAbove_trans h x pv y Kpv); [|exact Hyq].
           apply Below_NotAbove. apply (HA3 p); [lia|exact Hx].
        -- apply (HL3 p q x y); auto; lia.
    + (* the pivot is the k-th item *)
      assert (j = left + k) as -> by lia.
      exists l3. split; [reflexivity|]. split; [exact Hw3|].
      intros HK HL HR. destruct (Hsettled HK HL HR) as (HK3 & Kpv & HL3 & HR3).
      split.
      * intros p x y Hp Hx Hy. assert (y = pv) by congruence. subst y.
        destruct (decide (p < left)) as [Hout|Hin].
        -- apply (HL3 p (left + k) x pv); auto; lia.
        -- apply Below_NotAbove. apply (HA3 p); [lia|exact Hx].
      * intros q x y Hq Hy Hx. assert (y = pv) by congruence. subst y.
        destruct (decide (q <= right)) as [Hin|Hout].
        -- apply (HB3 q); [lia|exact Hx].
        -- apply (HR3 (left + k) q pv x); auto; lia.
Qed.

Lemma quickPartition_spec (h : bool) (l : list BulkItem) (k : nat) :
  k < length l ->
  exists l' : list BulkItem,
    quickPartition (mkBulkItems h l) k = Some (mkBulkItems h l') /\
    length l' = length l /\ l' ≡ₚ l /\
    (Forall (Keyed h) l -> PartitionedAt h l' k).
Proof.
  intros Hk. unfold quickPartition, bulkItems_Len. simpl.
  destruct (Nat.eqb_spec (length l) 0) as [E|_]; [lia|].
  destruct (quickLoop_spec h (length l) l 0%Z 0 (length l - 1) k)
    as (l' & Hrun & (Hlen & Hperm & _) & HP); try lia.
  exists l'. split; [exact Hrun|]. split; [exact Hlen|]. split; [exact Hperm|].
  intros HK. apply HP; [exact HK| |].
  - intros p q x y Hp. lia.
  - intros p q x y _ Hq _ Hy. apply lookup_lt_Some in Hy. lia.
Qed.

Lemma In_lookup (l : list BulkItem) (x : BulkItem) :
  In x l <-> exists p, l !! p = Some x.
Proof. rewrite <- list_elem_of_In. apply list_elem_of_lookup. Qed.

Lemma PartitionedAt_Separated h l k :
  k < length l -> Forall (Keyed h) l -> PartitionedAt h l k ->
  Separated h (take k l) (drop k l).
Proof.
  intros Hk HK [HP1 HP2] x y Hx Hy.
  apply In_lookup in Hx as [p Hp]. apply In_lookup in Hy as [q Hq].
  apply lookup_take_Some in Hp as [Hp Hpk].
  rewrite lookup_drop in Hq.
  destruct (lookup_lt_is_Some_2 l k Hk) as [m Hm].
  pose proof (HP1 p x m Hpk Hp Hm) as H1.
  destruct q as [|q].
  - replace (k + 0) with k in Hq by lia. assert (y = m) by congruence.
    subst y. exact H1.
  - apply (NotAbove_trans h x m y); [|exact H1|].
    + eapply Forall_lookup_1; eauto.
    + apply (HP2 (k + S q) y m); [lia|exact Hm|exact Hq].
Qed.

Lemma Separated_sub h p1 p2 q1 q2 :
  Separated h p1 p2 -> (forall x, In x q1 -> In x p1) ->
  (forall y, In y q2 -> In y p2) -> Separated h q1 q2.
Proof. intros HS H1 H2 x y Hx Hy. apply HS; auto. Qed.

Lemma buildBulkItems_spec (items : list BulkItem) :
  items <> [] ->
  buildBulkItems items = Some (mkBulkItems (splitAxis items) items).
Proof. destruct items; [congruence|reflexivity]. Qed.

Lemma splitBulkItems2Ways_spec (items : list BulkItem) :
  items <> [] ->
  exists p1 p2 : list BulkItem,
    splitBulkItems2Ways items = Some (p1, p2) /\
    length p1 = length items / 2 /\
    length p2 = length items - length items / 2 /\
    p1 ++ p2 ≡ₚ items /\
    (Forall (Keyed (splitAxis items)) items ->
     Separated (splitAxis items) p1 p2).
Proof.
  intros Hne. unfold splitBulkItems2Ways.
  rewrite (buildBulkItems_spec items Hne).
  assert (Hlen : 0 < length items) by (destruct items; [congruence|simpl; lia]).
  assert (Hk : length items / 2 < length items)
    by (apply Nat.div_lt; lia).
  remember (length items / 2) as k eqn:Ek. clear Ek.
  destruct (quickPartition_spec (splitAxis items) items k Hk)
    as (l' & Hrun & Hl' & Hperm & HP).
  cbv zeta. rewrite Hrun. cbn [RTree.items].
  exists (take k l'), (drop k l').
  split; [reflexivity|].
  split; [rewrite length_take; lia|].
  split; [rewrite length_drop; lia|].
  split; [rewrite take_drop; exact Hperm|].
  intros HK. apply PartitionedAt_Separated; [lia| |exact (HP HK)].
  rewrite Hperm. exact HK.
Qed.

(** The store after the second partition of the 3-way split: the first three
    items stay, the rest is a rearrangement of what follows them. *)
Lemma tail_partition (h : bool) (l1 l2 : list BulkItem) :
  6 <= length l1 -> Forall (Keyed h) l1 ->
  PartitionedAt h l1 2 -> l2 ≡ₚ drop 3 l1 -> PartitionedAt h l2 1 ->
  PartitionedAt h (take 3 l1 ++ l2) 2 /\ PartitionedAt h (take 3 l1 ++ l2) 4.
Proof.
  intros Hlen HK [HP1 HP2] Hperm [HQ1 HQ2].
  assert (Hlen2 : length l2 = length l1 - 3)
    by (rewrite Hperm, length_drop; reflexivity).
  assert (Hfront : forall p, p < 3 -> (take 3 l1 ++ l2) !! p = l1 !! p).
  { intros p Hp. rewrite lookup_app_l by (rewrite length_take; lia).
    now apply lookup_take_lt. }
  assert (Hback : forall p, 3 <= p -> (take 3 l1 ++ l2) !! p = l2 !! (p - 3)).
  { intros p Hp. rewrite lookup_app_r by (rewrite length_take; lia).
    rewrite length_take. f_equal. lia. }
  assert (Htail : forall i y, l2 !! i = Some y -> exists q, 2 < q /\ l1 !! q = Some y).
  { intros i y Hy.
    assert (In y (drop 3 l1)) as Hin.
    { apply list_elem_of_In. rewrite <- Hperm. eapply list_elem_of_lookup_2; eauto. }
    apply In_lookup in Hin as [q Hq]. rewrite lookup_drop in Hq.
    exists (3 + q). split; [lia|exact Hq]. }
  destruct (lookup_lt_is_Some_2 l1 2 ltac:(lia)) as [m Hm].
  destruct (lookup_lt_is_Some_2 l2 1 ltac:(lia)) as [n Hn].
  assert (Hmn : forall i y, l2 !! i = Some y -> NotAbove h m y).
  { intros i y Hy. destruct (Htail i y Hy) as (q & Hq & Hy').
    apply (HP2 q y m); auto. }
  split; split.
  - intros p x y Hp Hx Hy. rewrite Hfront in Hx, Hy by lia.
    apply (HP1 p x y); auto.
  - intros q x y Hq Hy Hx. rewrite Hfront in Hy by lia.
    rewrite Hback in Hx by lia. assert (y = m) by congruence. subst y.
    apply (Hmn (q - 3)); exact Hx.
  - intros p x y Hp Hx Hy. rewrite Hback in Hy by lia.
    change (4 - 3) with 1 in Hy. assert (y = n) by congruence. subst y.
    destruct (decide (p < 3)) as [Hlow|Hhigh].
    + rewrite Hfront in Hx by lia.
      assert (NotAbove h x m) as Hxm.
      { destruct (decide (p = 2)) as [->|Hne].
        - assert (x = m) by congruence. subst x. apply NotAbove_refl.
        - apply (HP1 p x m); auto; lia. }
      apply (NotAbove_trans h x m n); [|exact Hxm|exact (Hmn 1 n Hn)].
      eapply Forall_lookup_1; eauto.
    + rewrite Hback in Hx by lia. assert (p - 3 = 0) as E by lia.
      rewrite E in Hx. apply (HQ1 0 x n); auto.
  - intros q x y Hq Hy Hx. rewrite Hback in Hx, Hy by lia.
    change (4 - 3) with 1 in Hy. apply (HQ2 (q - 3) x y); auto. lia.
Qed.

Lemma In_take (l : list BulkItem) (n : nat) (x : BulkItem) :
  In x (take n l) -> In x l.
Proof.
  intros H. apply In_lookup in H as [p Hp]. apply lookup_take_Some in Hp as [Hp _].
  apply In_lookup. eauto.
Qed.

Lemma In_drop (l : list BulkItem) (n : nat) (x : BulkItem) :
  In x (drop n l) -> In x l.
Proof.
  intros H. apply In_lookup in H as [p Hp]. rewrite lookup_drop in Hp.
  apply In_lookup. eauto.
Qed.

Lemma In_drop_le (l : list BulkItem) (n m : nat) (x : BulkItem) :
  n <= m -> In x (drop m l) -> In x (drop n l).
Proof.
  intros Hnm H. apply In_lookup in H as [p Hp]. rewrite lookup_drop in Hp.
  apply In_lookup. exists (m - n + p). rewrite lookup_drop.
  replace (n + (m - n + p)) with (m + p) by lia. exact Hp.
Qed.

Lemma splitBulkItems3Ways_spec (items : list BulkItem) :
  length items = 6 \/ length items = 7 ->
  exists p1 p2 p3 : list BulkItem,
    splitBulkItems3Ways items = Some (p1, p2, p3) /\
    length p1 = 2 /\ length p2 = 2 /\ length p3 = length items - 4 /\
    p1 ++ p2 ++ p3 ≡ₚ items /\
    (Forall (Keyed (splitAxis items)) items ->
     Separated (splitAxis items) p1 p2 /\
     Separated (splitAxis items) p2 p3 /\
     Separated (splitAxis items) p1 p3).
Proof.
  intros Hlen. unfold splitBulkItems3Ways.
  assert (Hsix : negb ((length items =? 6) || (length items =? 7)) = false).
  { destruct Hlen as [-> | ->]; reflexivity. }
  rewrite Hsix.
  assert (Hne : items <> []) by (intros ->; simpl in Hlen; lia).
  rewrite (buildBulkItems_spec items Hne).
  set (h := splitAxis items).
  destruct (quickPartition_spec h items 2 ltac:(lia))
    as (l1 & Hrun1 & Hl1 & Hperm1 & HP1).
  rewrite Hrun1. cbn [RTree.items horizontal].
  destruct (quickPartition_spec h (drop 3 l1) 1
              ltac:(rewrite length_drop; lia))
    as (l2 & Hrun2 & Hl2 & Hperm2 & HP2).
  rewrite Hrun2. cbn [RTree.items].
  rewrite length_drop in Hl2.
  assert (Hparts :
            Forall (Keyed h) items ->
            PartitionedAt h (take 3 l1 ++ l2) 2 /\
            PartitionedAt h (take 3 l1 ++ l2) 4).
  { intros HK.
    assert (HK1 : Forall (Keyed h) l1) by (rewrite Hperm1; exact HK).
    apply tail_partition; [lia|exact HK1|exact (HP1 HK)|exact Hperm2|].
    apply HP2. rewrite <- (take_drop 3 l1) in HK1.
    apply Forall_app in HK1 as [_ HK1]. exact HK1. }
  set (store := take 3 l1 ++ l2) in *.
  assert (Hstore : length store = length items).
  { unfold store. rewrite length_app, length_take. lia. }
  assert (Hperm : store ≡ₚ items).
  { unfold store. rewrite Hperm2, take_drop. exact Hperm1. }
  clearbody store.
  exists (take 2 store), (take 2 (drop 2 store)), (drop 4 store).
  split; [reflexivity|].
  split; [rewrite length_take; lia|].
  split; [rewrite length_take, length_drop; lia|].
  split; [rewrite length_drop; lia|].
  assert (E4 : drop 4 store = drop 2 (drop 2 store)) by now rewrite drop_drop.
  split; [rewrite E4, take_drop, take_drop; exact Hperm|].
  intros HK. destruct (Hparts HK) as [HS2 HS4].
  assert (HKs : Forall (Keyed h) store) by (rewrite Hperm; exact HK).
  pose proof (PartitionedAt_Separated h store 2 ltac:(lia) HKs HS2) as Sep2.
  pose proof (PartitionedAt_Separated h store 4 ltac:(lia) HKs HS4) as Sep4.
  assert (Hmid : forall x, In x (take 2 (drop 2 store)) -> In x (take 4 store)).
  { intros x Hx. apply In_lookup in Hx as [p Hp].
    apply lookup_take_Some in Hp as [Hp Hlt]. rewrite lookup_drop in Hp.
    apply In_lookup. exists (2 + p). apply lookup_take_Some. split; [exact Hp|lia]. }
  split; [|split].
  - eapply Separated_sub; [exact Sep2|auto|]. intros y. apply In_take.
  - eapply Separated_sub; [exact Sep4|exact Hmid|auto].
  - eapply Separated_sub; [exact Sep2|auto|]. intros y. apply In_drop_le. lia.
Qed.

Lemma bulkInsert_non_leaf (calculateBound : node -> Box) (levels : nat)
    (items : list BulkItem) :
  bulkInsert calculateBound (S (S levels)) items =
  match bulkSplit items with
  | None => None
  | Some parts => bulkNode calculateBound (bulkInsert calculateBound (S levels)) parts
  end.
Proof.
  unfold bulkSplit. cbn [bulkInsert].
  destruct (length items <? 6).
  - destruct (splitBulkItems2Ways items) as [[a b]|]; reflexivity.
  - destruct (length items <? 8).
    + destruct (splitBulkItems3Ways items) as [[[a b] c]|]; reflexivity.
    + destruct (splitBulkItems2Ways items) as [[a b]|]; [|reflexivity].
      destruct (splitBulkItems2Ways a) as [[q1 q2]|]; [|reflexivity].
      destruct (splitBulkItems2Ways b) as [[q3 q4]|]; reflexivity.
Qed.

Lemma splitAxis_spec (first : BulkItem) (rest : list BulkItem) :
  splitAxis (first :: rest)
  = PrimFloat.ltb
      (MaxY (enclosing first rest) - MinY (enclosing first rest))%float
      (MaxX (enclosing first rest) - MinX (enclosing first rest))%float.
Proof. reflexivity. Qed.

Lemma NumberKeys_parts (items p1 p2 : list BulkItem) :
  NumberKeys items -> p1 ++ p2 ≡ₚ items -> NumberKeys p1 /\ NumberKeys p2.
Proof.
  intros HK Hperm. split; intros h; specialize (HK h);
    rewrite <- Hperm in HK; apply Forall_app in HK as [H1 H2]; assumption.
Qed.



Example bulkSplit_example :
  option_map (map (map RecordID)) (bulkSplit example_items)
  = Some [[0; 1]; [2; 3]; [4; 5; 6]]%Z.
Proof. vm_compute. reflexivity. Qed.

(** ** The number of levels *)

Lemma wrap64_small (z : Z) : (- 2 ^ 63 <= z < 2 ^ 63)%Z -> wrap64 z = z.
Proof.
  intros Hz. unfold wrap64. rewrite Z.mod_small; lia.
Qed.

Lemma calculateLevelsLoop_spec (n : Z) :
  (n <= 4 ^ 31)%Z ->
  forall (fuel : nat) (lv : Z),
    (1 <= lv <= 31)%Z -> (31 - lv < Z.of_nat fuel)%Z ->
    (lv = 1 \/ 4 ^ (lv - 1) < n)%Z ->
    exists L : Z,
      calculateLevelsLoop fuel n (4 ^ lv) lv = Some L /\
      (lv <= L <= 31)%Z /\ (n <= 4 ^ L)%Z /\ (L = 1 \/ 4 ^ (L - 1) < n)%Z.
Proof.
  intros Hn. induction fuel as [|fuel IH]; intros lv Hlv Hfuel Hlow; [lia|].
  cbn [calculateLevelsLoop].
  destruct (Z.ltb_spec (4 ^ lv) n) as [Hlt|Hge].
  - assert (lv < 31)%Z as Hlv'.
    { destruct (Z.eq_dec lv 31%Z) as [->|]; lia. }
    assert (Hpow : (4 ^ (lv + 1) = 4 ^ lv * 4)%Z).
    { rewrite Z.pow_add_r by lia. reflexivity. }
    assert (Hle : (4 ^ (lv + 1) <= 4 ^ 31)%Z)
      by (apply Z.pow_le_mono_r; lia).
    unfold maxChildren. rewrite wrap64_small.
    2:{ rewrite <- Hpow. split; [|lia].
        pose proof (Z.pow_nonneg 4 (lv + 1) ltac:(lia)). lia. }
    rewrite <- Hpow.
    destruct (IH (lv + 1)%Z) as (L & Hrun & HL & Hup & Hdown); try lia.
    { right. replace (lv + 1 - 1)%Z with lv by lia. exact Hlt. }
    exists L. split; [exact Hrun|]. split; [lia|]. auto.
  - exists lv. split; [reflexivity|]. split; [lia|]. auto.
Qed.

Lemma calculateLevels_spec (n : Z) :
  (n <= 2 ^ 62)%Z ->
  exists L : Z,
    calculateLevels n = Some L /\
    (1 <= L <= 31)%Z /\ (n <= 4 ^ L)%Z /\ (L = 1 \/ 4 ^ (L - 1) < n)%Z.
Proof.
  intros Hn. unfold calculateLevels, maxChildren.
  destruct (calculateLevelsLoop_spec n ltac:(change (4 ^ 31)%Z with (2 ^ 62)%Z; lia)
              64 1%Z) as (L & Hrun & HL & Hup & Hdown); try lia.
  exists L. change (4 ^ 1)%Z with 4%Z in Hrun. split; [exact Hrun|].
  split; [lia|]. auto.
Qed.

Lemma calculateLevelsLoop_stuck (n : Z) :
  (0 < n)%Z ->
  forall (fuel : nat) (lv : Z), calculateLevelsLoop fuel n 0 lv = None.
Proof.
  intros Hn. induction fuel as [|fuel IH]; intros lv; [reflexivity|].
  cbn [calculateLevelsLoop].
  destruct (Z.ltb_spec 0 n) as [_|Hbad]; [|lia].
  change (wrap64 (0 * maxChildren)) with 0%Z. apply IH.
Qed.

Lemma calculateLevelsLoop_wraps (n : Z) :
  (2 ^ 62 < n)%Z ->
  forall (fuel : nat) (lv : Z),
    (1 <= lv <= 31)%Z -> calculateLevelsLoop fuel n (4 ^ lv) lv = None.
Proof.
  intros Hn. induction fuel as [|fuel IH]; intros lv Hlv; [reflexivity|].
  cbn [calculateLevelsLoop].
  assert (Hle : (4 ^ lv <= 4 ^ 31)%Z) by (apply Z.pow_le_mono_r; lia).
  change (4 ^ 31)%Z with (2 ^ 62)%Z in Hle.
  destruct (Z.ltb_spec (4 ^ lv) n) as [_|Hbad]; [|lia].
  destruct (Z.eq_dec lv 31%Z) as [->|Hne].
  - change (wrap64 (4 ^ 31 * maxChildren)) with 0%Z.
    apply calculateLevelsLoop_stuck. lia.
  - assert (Hpow : (4 ^ (lv + 1) = 4 ^ lv * 4)%Z).
    { rewrite Z.pow_add_r by lia. reflexivity. }
    assert (Hle' : (4 ^ (lv + 1) <= 4 ^ 31)%Z)
      by (apply Z.pow_le_mono_r; lia).
    change (4 ^ 31)%Z with (2 ^ 62)%Z in Hle'.
    unfold maxChildren. rewrite wrap64_small.
    2:{ rewrite <- Hpow.
        pose proof (Z.pow_nonneg 4 (lv + 1) ltac:(lia)). lia. }
    rewrite <- Hpow. apply IH. lia.
Qed.

(** ** [quickPartition] out of range *)

Lemma quickLoop_out_of_range (h : bool) :
  forall (fuel : nat) (l : list BulkItem) (rndState : Z) (left right k : nat),
    right < length l -> right + 1 <= left + k ->
    quickLoop fuel (mkBulkItems h l) rndState left right k = None.
Proof.
  induction fuel as [|fuel IH]; intros l rndState left right k Hlen Hk;
    [reflexivity|].
  cbn [quickLoop].
  destruct (Nat.ltb_spec right left) as [Hbad|Hlr]; [reflexivity|].
  set (pivot := left + Z.to_nat (rndNext rndState mod Z.of_nat (right - left + 1))).
  assert (Hpivot : left <= pivot <= right) by (apply pivot_in_window; exact Hlr).
  destruct (lookup_lt_is_Some_2 l pivot ltac:(lia)) as [pv Hpv].
  destruct (lookup_lt_is_Some_2 l right ltac:(lia)) as [r Hr].
  rewrite (bulkItems_Swap_spec h l pivot right pv r Hpv Hr).
  set (l1 := <[pivot := r]> (<[right := pv]> l)).
  assert (Hw1 : Within left right l l1)
    by (apply Within_swap; auto; lia).
  assert (Hpv1 : l1 !! right = Some pv).
  { unfold l1. rewrite (swap_lookup l pivot right right pv r) by auto.
    repeat case_decide; try lia; congruence. }
  destruct (partitionLoop_spec h left right pv (right + 1 - left) l1 left left)
    as (l2 & j & Hrun & Hw2 & Hj & Hpv2 & _ & _);
    [lia|lia|lia|lia|lia|exact Hpv1|intros; lia|intros; lia|].
  rewrite Hrun.
  destruct Hw1 as (Hlen1 & _). destruct Hw2 as (Hlen2 & _).
  destruct (lookup_lt_is_Some_2 l2 j ltac:(lia)) as [y Hy].
  rewrite (bulkItems_Swap_spec h l2 right j pv y Hpv2 Hy).
  destruct (Nat.ltb_spec (j - left) k) as [_|Hbad]; [|lia].
  apply IH.
  - rewrite !length_insert. lia.
  - lia.
Qed.

(** ** The tree [bulkInsert] builds *)

Lemma buildParts_spec (build : list BulkItem -> option node)
    (P : list BulkItem -> node -> Prop) (parts : list (list BulkItem)) :
  Forall (fun part => exists n, build part = Some n /\ P part n) parts ->
  exists children : list node,
    buildParts build parts = Some children /\ Forall2 P parts children.
Proof.
  induction 1 as [|part rest (n & Hn & HP) _ (children & Hrun & Hall)].
  - exists []. split; [reflexivity|constructor].
  - exists (n :: children). cbn [buildParts]. rewrite Hn, Hrun.
    split; [reflexivity|]. constructor; assumption.
Qed.

Lemma records_leaf (items : list BulkItem) :
  records
    (mkNode true
       (map (fun item => mkEntry (ItemBox item) None (RecordID item)) items))
  = map itemRecord items.
Proof.
  cbn [records]. induction items as [|item items IH]; [reflexivity|].
  cbn [map flat_map app]. rewrite IH. reflexivity.
Qed.

Lemma records_bulkNodeOf (calculateBound : node -> Box) (children : list node) :
  records (bulkNodeOf calculateBound children) = flat_map records children.
Proof.
  unfold bulkNodeOf. cbn [records].
  induction children as [|child children IH]; [reflexivity|].
  cbn [map flat_map]. rewrite IH. reflexivity.
Qed.

Lemma records_parts (parts : list (list BulkItem)) (children : list node) :
  Forall2 (fun part child => records child ≡ₚ map itemRecord part)
    parts children ->
  flat_map records children ≡ₚ map itemRecord (concat parts).
Proof.
  induction 1 as [|part child parts children Hhead _ IH]; [reflexivity|].
  cbn [flat_map concat]. rewrite map_app, Hhead, IH. reflexivity.
Qed.

Lemma half_bounds (n : nat) : 2 * (n / 2) <= n <= 2 * (n / 2) + 1.
Proof.
  pose proof (Nat.div_mod_eq n 2). pose proof (Nat.mod_upper_bound n 2). lia.
Qed.

(** The parts of a non-leaf step fit the level below: between a quarter and
    the whole of what the level can hold, and never fewer than two items. *)
Lemma bulkSplit_fits (items : list BulkItem) (p : nat) :
  1 <= p -> 4 * p <= length items <= 16 * p ->
  (p = 1 \/ 4 <= p) ->
  exists parts : list (list BulkItem),
    bulkSplit items = Some parts /\
    concat parts ≡ₚ items /\
    2 <= length parts <= 4 /\
    Forall (fun part => 2 <= length part /\ p <= length part <= 4 * p) parts.
Proof.
  intros Hp Hlen Hpow. unfold bulkSplit.
  assert (Hne : items <> []) by (intros ->; cbn [length] in Hlen; lia).
  destruct (Nat.ltb_spec (length items) 6) as [H6|H6].
  - destruct (splitBulkItems2Ways_spec items Hne)
      as (p1 & p2 & Hrun & L1 & L2 & Hperm & _).
    rewrite Hrun. exists [p1; p2]. split; [reflexivity|].
    pose proof (half_bounds (length items)) as Hh.
    split; [cbn [concat]; rewrite app_nil_r; exact Hperm|].
    split; [cbn [length]; lia|].
    repeat constructor; lia.
  - destruct (Nat.ltb_spec (length items) 8) as [H8|H8].
    + destruct (splitBulkItems3Ways_spec items ltac:(lia))
        as (p1 & p2 & p3 & Hrun & L1 & L2 & L3 & Hperm & _).
      rewrite Hrun. exists [p1; p2; p3]. split; [reflexivity|].
      split; [cbn [concat]; rewrite app_nil_r; exact Hperm|].
      split; [cbn [length]; lia|].
      repeat constructor; lia.
    + destruct (splitBulkItems2Ways_spec items Hne)
        as (h1 & h2 & Hrun & L1 & L2 & Hperm & _).
      pose proof (half_bounds (length items)) as Hh.
      assert (Hne1 : h1 <> []) by (intros ->; cbn [length] in L1; lia).
      assert (Hne2 : h2 <> []) by (intros ->; cbn [length] in L2; lia).
      destruct (splitBulkItems2Ways_spec h1 Hne1)
        as (q1 & q2 & Hrun1 & M1 & M2 & Hperm1 & _).
      destruct (splitBulkItems2Ways_spec h2 Hne2)
        as (q3 & q4 & Hrun2 & M3 & M4 & Hperm2 & _).
      rewrite Hrun, Hrun1, Hrun2. exists [q1; q2; q3; q4].
      split; [reflexivity|].
      pose proof (half_bounds (length h1)) as Hh1.
      pose proof (half_bounds (length h2)) as Hh2.
      split.
      { cbn [concat]. rewrite app_nil_r, app_assoc, Hperm1, Hperm2.
        exact Hperm. }
      split; [cbn [length]; lia|].
      repeat constructor; lia.
Qed.

Lemma Balanced_non_leaf (calculateBound : node -> Box) (levels : nat)
    (isLeaf : bool) (entries : list entry) :
  Balanced calculateBound (S (S levels)) (mkNode isLeaf entries) =
  (length entries <= 4 /\ isLeaf = false /\ 2 <= length entries /\
   Forall (fun e => exists child : node,
              entryChild e = Some child /\
              entryBox e = calculateBound child /\
              2 <= numEntries child /\
              Balanced calculateBound (S levels) child) entries).
Proof. reflexivity. Qed.

Lemma Balanced_bulkNodeOf (calculateBound : node -> Box) (levels : nat)
    (children : list node) :
  2 <= length children <= 4 ->
  Forall (fun child => 2 <= numEntries child /\
                       Balanced calculateBound (S levels) child) children ->
  Balanced calculateBound (S (S levels)) (bulkNodeOf calculateBound children).
Proof.
  intros Hlen Hall. unfold bulkNodeOf.
  rewrite Balanced_non_leaf, length_map.
  split; [lia|]. split; [reflexivity|]. split; [lia|]. clear Hlen.
  induction Hall as [|child children [Hmin Hbal] _ IH]; constructor.
  - exists child. cbn [entryChild entryBox]. auto.
  - apply IH.
Qed.

Lemma bulkInsert_spec (calculateBound : node -> Box) :
  forall (levels : nat) (items : list BulkItem),
    4 ^ levels <= length items <= 4 * 4 ^ levels ->
    exists n : node,
      bulkInsert calculateBound (S levels) items = Some n /\
      records n ≡ₚ map itemRecord items /\
      (2 <= length items -> 2 <= numEntries n) /\
      Balanced calculateBound (S levels) n.
Proof.
  induction levels as [|levels IH]; intros items Hlen.
  - eexists. split; [reflexivity|]. rewrite records_leaf.
    split; [reflexivity|]. cbn [numEntries Balanced]. rewrite length_map.
    cbn [Nat.pow] in Hlen. split; [auto|]. split; [lia|].
    split; [reflexivity|].
    clear. induction items; constructor; auto.
  - rewrite bulkInsert_non_leaf.
    assert (Hpos : 1 <= 4 ^ levels)
      by (pose proof (Nat.pow_nonzero 4 levels); lia).
    assert (Hpow : 4 ^ levels = 1 \/ 4 <= 4 ^ levels).
    { destruct levels as [|levels']; [left; reflexivity|right].
      cbn [Nat.pow].
      pose proof (Nat.pow_nonzero 4 levels'). lia. }
    cbn [Nat.pow] in Hlen.
    destruct (bulkSplit_fits items (4 ^ levels) Hpos ltac:(lia) Hpow)
      as (parts & Hsplit & Hperm & Hcount & Hfit).
    rewrite Hsplit. unfold bulkNode.
    destruct (buildParts_spec (bulkInsert calculateBound (S levels))
                (fun part child =>
                   records child ≡ₚ map itemRecord part /\
                   2 <= numEntries child /\
                   Balanced calculateBound (S levels) child) parts)
      as (children & Hrun & Hall).
    { clear - IH Hfit.
      induction Hfit as [|part parts [Hmin Hbounds] _ IH']; constructor.
      - destruct (IH part Hbounds) as (n & Hn & Hrec & Hnum & Hbal).
        exists n. auto.
      - apply IH'. }
    rewrite Hrun. eexists. split; [reflexivity|].
    rewrite records_bulkNodeOf.
    assert (Hsame : length parts = length children).
    { clear - Hall. induction Hall; cbn [length]; congruence. }
    split.
    { rewrite <- Hperm. apply records_parts.
      clear - Hall. induction Hall as [|part child parts children (Hrec & _) _ IH'];
        constructor; auto. }
    split.
    { intros _. unfold bulkNodeOf. cbn [numEntries]. rewrite length_map. lia. }
    apply Balanced_bulkNodeOf; [lia|].
    clear - Hall. induction Hall as [|part child parts children (_ & Hn & Hb) _ IH'];
      constructor; auto.
Qed.

(** ** What the loader guarantees *)

(** X1. For at most [2^62] items, [calculateLevels] returns the least
    number of levels [L >= 1] such that a tree of [L] levels with four
    entries to the node can hold the items: [numItems <= 4^L], and no
    smaller [L' >= 1] has [numItems <= 4^L']. *)
Theorem calculateLevels_least (numItems : Z) :
  (numItems <= 2 ^ 62)%Z ->
  exists L : Z,
    calculateLevels numItems = Some L /\
    (1 <= L)%Z /\ (numItems <= 4 ^ L)%Z /\
    (forall L' : Z, (1 <= L')%Z -> (numItems <= 4 ^ L')%Z -> (L <= L')%Z).
Proof.
  intros Hn.
  destruct (calculateLevels_spec numItems Hn) as (L & Hrun & HL & Hup & Hdown).
  exists L. split; [exact Hrun|]. split; [lia|]. split; [exact Hup|].
  intros L' HL' Hfit. destruct Hdown as [->|Hdown]; [lia|].
  destruct (Z.le_gt_cases L L') as [Hle|Hgt]; [exact Hle|].
  assert (4 ^ L' <= 4 ^ (L - 1))%Z by (apply Z.pow_le_mono_r; lia). lia.
Qed.

Lemma calculateLevels_least_witness :
  exists L : Z,
    calculateLevels 17 = Some L /\
    (1 <= L)%Z /\ (17 <= 4 ^ L)%Z /\
    (forall L' : Z, (1 <= L')%Z -> (17 <= 4 ^ L')%Z -> (L <= L')%Z).
Proof.
  apply (calculateLevels_least 17). vm_compute. discriminate.
Defined.

(** X2. Above [2^62] items the loop of [calculateLevels] never ends:
    [count] reaches [2^62], the next product wraps around to 0, and 0 stays
    below [numItems] for ever. Whatever the number of turns allowed, no
    result comes out. *)
Theorem calculateLevels_overflow (numItems : Z) :
  (2 ^ 62 < numItems)%Z ->
  calculateLevels numItems = None /\
  forall fuel : nat, calculateLevelsLoop fuel numItems maxChildren 1 = None.
Proof.
  intros Hn.
  assert (forall fuel : nat,
             calculateLevelsLoop fuel numItems maxChildren 1 = None) as Hloop
    by (intros fuel;
        exact (calculateLevelsLoop_wraps numItems Hn fuel 1%Z ltac:(lia))).
  split; [apply Hloop|exact Hloop].
Qed.

Lemma calculateLevels_overflow_witness :
  calculateLevels (2 ^ 62 + 1) = None /\
  forall fuel : nat,
    calculateLevelsLoop fuel (2 ^ 62 + 1) maxChildren 1 = None.
Proof.
  apply (calculateLevels_overflow (2 ^ 62 + 1)). vm_compute. reflexivity.
Defined.

(** X3. [quickPartition] with [k] an index of the slice returns, and leaves
    the same items in another order. When no item is compared by a NaN,
    every item before position [k] is at most the item at [k], and every
    item after it is at least that item. *)
Theorem quickPartition_partial_sort (horizontal : bool) (l : list BulkItem)
    (k : nat) :
  k < length l ->
  exists l' : list BulkItem,
    quickPartition (mkBulkItems horizontal l) k
      = Some (mkBulkItems horizontal l') /\
    l' ≡ₚ l /\
    (Forall (Keyed horizontal) l ->
     forall (p : nat) (x y : BulkItem),
       l' !! p = Some x -> l' !! k = Some y ->
       (p < k -> NotAbove horizontal x y) /\
       (k < p -> NotAbove horizontal y x)).
Proof.
  intros Hk.
  destruct (quickPartition_spec horizontal l k Hk)
    as (l' & Hrun & _ & Hperm & Hord).
  exists l'. split; [exact Hrun|]. split; [exact Hperm|].
  intros Hkeys p x y Hx Hy. destruct (Hord Hkeys) as [Hbefore Hafter].
  split; intros Hp; [exact (Hbefore p x y Hp Hx Hy)|exact (Hafter p x y Hp Hy Hx)].
Qed.

Lemma quickPartition_partial_sort_witness :
  exists l' : list BulkItem,
    quickPartition (mkBulkItems true example_items) 3
      = Some (mkBulkItems true l') /\
    l' ≡ₚ example_items /\
    (Forall (Keyed true) example_items ->
     forall (p : nat) (x y : BulkItem),
       l' !! p = Some x -> l' !! 3 = Some y ->
       (p < 3 -> NotAbove true x y) /\
       (3 < p -> NotAbove true y x)).
Proof.
  apply (quickPartition_partial_sort true example_items 3).
  cbn [example_items length]. lia.
Defined.

(** X4. [quickPartition] with [k] at or past the length of the slice never
    returns normally: every turn moves to the right of the pivot, until the
    window is empty and [rnd(0)] divides by zero. This holds whatever the
    number of turns allowed. *)
Theorem quickPartition_out_of_range (b : bulkItems) (k : nat) :
  bulkItems_Len b <= k ->
  quickPartition b k = None /\
  forall (fuel : nat) (rndState : Z),
    quickLoop fuel b rndState 0 (bulkItems_Len b - 1) k = None.
Proof.
  intros Hk. destruct b as [h l]. unfold quickPartition, bulkItems_Len in *.
  cbn [items] in *.
  destruct (Nat.eqb_spec (length l) 0) as [Hzero|Hpos].
  - split; [reflexivity|]. intros [|fuel] rndState; [reflexivity|].
    destruct l; [|discriminate Hzero]. reflexivity.
  - assert (forall fuel rndState,
               quickLoop fuel (mkBulkItems h l) rndState 0 (length l - 1) k = None)
      as Hloop by (intros; apply quickLoop_out_of_range; lia).
    split; [apply Hloop|exact Hloop].
Qed.

Lemma quickPartition_out_of_range_witness :
  quickPartition (mkBulkItems true example_items) 7 = None /\
  forall (fuel : nat) (rndState : Z),
    quickLoop fuel (mkBulkItems true example_items) rndState 0
      (bulkItems_Len (mkBulkItems true example_items) - 1) 7 = None.
Proof.
  apply (quickPartition_out_of_range (mkBulkItems true example_items) 7).
  vm_compute. lia.
Defined.

Lemma levels_bounds (items : list BulkItem) (L : Z) :
  items <> [] -> (1 <= L)%Z ->
  (Z.of_nat (length items) <= 4 ^ L)%Z ->
  (L = 1 \/ 4 ^ (L - 1) < Z.of_nat (length items))%Z ->
  exists levels : nat,
    Z.to_nat L = S levels /\
    4 ^ levels <= length items <= 4 * 4 ^ levels.
Proof.
  intros Hne HL Hup Hdown. exists (Z.to_nat (L - 1)).
  split; [lia|].
  assert (Hpow : Z.of_nat (4 ^ Z.to_nat (L - 1)) = (4 ^ (L - 1))%Z).
  { rewrite Nat2Z.inj_pow, Z2Nat.id by lia. reflexivity. }
  assert (Hstep : (4 ^ L = 4 * 4 ^ (L - 1))%Z).
  { replace L with (L - 1 + 1)%Z at 1 by lia.
    rewrite Z.pow_add_r by lia. lia. }
  assert (0 < length items) by (destruct items; [congruence|cbn [length]; lia]).
  destruct Hdown as [->|Hdown].
  - change (Z.to_nat (1 - 1)) with 0 in *. cbn [Nat.pow] in *.
    change (4 ^ 1)%Z with 4%Z in Hup. lia.
  - lia.
Qed.

(** X5. [BulkLoad] of at most [2^62] items returns a tree that holds
    exactly the boxes and record ids of the items, each as often as it was
    given; of no items, the tree without a root. *)
Theorem BulkLoad_keeps_records (calculateBound : node -> Box)
    (items : list BulkItem) :
  (Z.of_nat (length items) <= 2 ^ 62)%Z ->
  exists t : RTree,
    BulkLoad calculateBound items = Some t /\
    (items = [] <-> root t = None) /\
    treeRecords t ≡ₚ map itemRecord items.
Proof.
  intros Hlen. unfold BulkLoad.
  destruct items as [|first rest].
  - exists (mkRTree None). split; [reflexivity|]. split; [tauto|reflexivity].
  - remember (first :: rest) as items eqn:Eitems.
    assert (Hne : items <> []) by (subst items; discriminate).
    destruct (Nat.eqb_spec (length items) 0) as [Hzero|_].
    { subst items. discriminate Hzero. }
    destruct (calculateLevels_spec _ Hlen) as (L & Hrun & HL & Hup & Hdown).
    rewrite Hrun. cbn [mbind option_bind].
    destruct (levels_bounds items L Hne ltac:(lia) Hup Hdown)
      as (levels & -> & Hbounds).
    destruct (bulkInsert_spec calculateBound levels items Hbounds)
      as (n & Hn & Hrec & _ & _).
    rewrite Hn. cbn [mbind option_bind].
    exists (mkRTree (Some n)). split; [reflexivity|].
    split; [split; [congruence|discriminate]|exact Hrec].
Qed.

Lemma BulkLoad_keeps_records_witness :
  exists t : RTree,
    BulkLoad boundOf example_items = Some t /\
    (example_items = [] <-> root t = None) /\
    treeRecords t ≡ₚ map itemRecord example_items.
Proof.
  apply (BulkLoad_keeps_records boundOf example_items).
  vm_compute. discriminate.
Defined.

(** X6. The tree [BulkLoad] returns for a non-empty slice of at most
    [2^62] items has the number of levels [calculateLevels] gives, all its
    leaves at the last level, at most four entries in every node, at least
    two in every node but the root, and in every entry of a non-leaf node
    the box [calculateBound] gives for the child. *)
Theorem BulkLoad_balanced (calculateBound : node -> Box)
    (items : list BulkItem) :
  items <> [] ->
  (Z.of_nat (length items) <= 2 ^ 62)%Z ->
  exists (n : node) (levels : nat),
    BulkLoad calculateBound items = Some (mkRTree (Some n)) /\
    calculateLevels (Z.of_nat (length items)) = Some (Z.of_nat levels) /\
    Balanced calculateBound levels n.
Proof.
  intros Hne Hlen. unfold BulkLoad.
  destruct (Nat.eqb_spec (length items) 0) as [Hzero|_].
  { destruct items; [congruence|discriminate Hzero]. }
  destruct (calculateLevels_spec _ Hlen) as (L & Hrun & HL & Hup & Hdown).
  rewrite Hrun. cbn [mbind option_bind].
  destruct (levels_bounds items L Hne ltac:(lia) Hup Hdown)
    as (levels & HLn & Hbounds).
  rewrite HLn.
  destruct (bulkInsert_spec calculateBound levels items Hbounds)
    as (n & Hn & _ & _ & Hbal).
  rewrite Hn. cbn [mbind option_bind].
  exists n, (S levels). split; [reflexivity|].
  split; [|exact Hbal]. f_equal. lia.
Qed.

Lemma BulkLoad_balanced_witness :
  exists (n : node) (levels : nat),
    BulkLoad boundOf example_items = Some (mkRTree (Some n)) /\
    calculateLevels (Z.of_nat (length example_items))
      = Some (Z.of_nat levels) /\
    Balanced boundOf levels n.
Proof.
  apply (BulkLoad_balanced boundOf example_items).
  - discriminate.
  - vm_compute. discriminate.
Defined.

End RTree.

(** * The doubly connected edge list *)

Module DCEL.

Local Open Scope nat_scope.

Section WithXY.

(** [XY] is a map key here and nothing else: any type with a decidable
    equality that can key a finite map. *)
Context {XY : Type} `{Countable XY}.

(** The label constants are declared outside the sources. *)
Variables (locBoundary populatedMask : Z).

Definition Sequence : Type := list XY.

Record Polygon : Type := mkPolygon {
  ExteriorRing : Sequence;
  InteriorRings : list Sequence
}.

Definition MultiPolygon : Type := list Polygon.
Definition MultiLineString : Type := list Sequence.

(** [ForceCCW] is absent from the sources. *)
Variable ForceCCW : MultiPolygon -> MultiPolygon.

(** Pointers are addresses into the stores below; [None] is [nil]. *)
Record vertexRecord : Type := mkVertexRecord {
  coords : XY;
  incidents : list nat;
  label : Z;
  locLabel : Z
}.

Record halfEdgeRecord : Type := mkHalfEdgeRecord {
  origin : option nat;
  twin : option nat;
  incident : option nat;
  next : option nat;
  prev : option nat;
  intermediate : list XY;
  edgeLabel : Z;
  faceLabel : Z
}.

(** The list with the records its pointers lead to: [edgeStore] holds every
    [halfEdgeRecord] allocated so far and [vertexStore] every
    [vertexRecord], in the order of allocation. *)
Record doublyConnectedEdgeList : Type := mkDCEL {
  faces : list nat;
  halfEdges : list nat;
  vertices : gmap XY nat;
  edgeStore : list halfEdgeRecord;
  vertexStore : list vertexRecord
}.

Definition withEdgeStore (d : doublyConnectedEdgeList)
    (store : list halfEdgeRecord) : doublyConnectedEdgeList :=
  mkDCEL (faces d) (halfEdges d) (vertices d) store (vertexStore d).

Definition withVertexStore (d : doublyConnectedEdgeList)
    (store : list vertexRecord) : doublyConnectedEdgeList :=
  mkDCEL (faces d) (halfEdges d) (vertices d) (edgeStore d) store.

Definition withHalfEdges (d : doublyConnectedEdgeList)
    (edges : list nat) : doublyConnectedEdgeList :=
  mkDCEL (faces d) edges (vertices d) (edgeStore d) (vertexStore d).

(** [dcel.vertices[xy] = &vertexRecord{...}]. *)
Definition newVertex (d : doublyConnectedEdgeList) (xy : XY)
    (record : vertexRecord) : doublyConnectedEdgeList :=
  mkDCEL (faces d) (halfEdges d)
    (<[xy := length (vertexStore d)]> (vertices d))
    (edgeStore d) (vertexStore d ++ [record]).

(** [v.incidents = append(v.incidents, e)]; a [nil] vertex panics. *)
Definition appendIncident (v : option nat) (e : nat)
    (d : doublyConnectedEdgeList) : option doublyConnectedEdgeList :=
  p ← v;
  r ← vertexStore d !! p;
  Some (withVertexStore d
          (<[p := mkVertexRecord (coords r) (incidents r ++ [e]) (label r)
                    (locLabel r)]> (vertexStore d))).

(** Modelled from the spec: [reverseXYs] (absent from the sources) is the
    points in reverse order. *)
Definition reverseXYs (xys : list XY) : list XY := reverse xys.

(** ** forEachNonInteractingSegment *)

(** The search for [end]: the first interaction point among [rest], whose
    head is at index [j]; 0, the initial value of [end], if there is none. *)
Fixpoint nextInteraction (interactions : gset XY) (rest : list XY) (j : nat)
  : nat :=
  match rest with
  | [] => 0
  | xy :: rest' =>
      if decide (xy ∈ interactions) then j
      else nextInteraction interactions rest' (S j)
  end.

(** The loop from index [i], the callback threading a state. [make] panics
    on a negative length. The fuel bounds the turns: a turn that does not
    advance [i] would repeat for ever, which is [None] here as a panic is. *)
Fixpoint segmentLoop {St : Type} (fuel : nat) (seq : Sequence)
    (interactions : gset XY) (fn : list XY -> St -> option St) (i : nat)
    (s : St) : option St :=
  match fuel with
  | O => None
  | S fuel' =>
      if i + 1 <? length seq then
        let start := i in
        let end_ := nextInteraction interactions (drop (i + 1) seq) (i + 1) in
        if end_ + 1 <? start then None
        else
          let segment := take (end_ + 1 - start) (drop start seq) in
          s' ← fn segment s;
          segmentLoop fuel' seq interactions fn end_ s'
      else Some s
  end.

Definition forEachNonInteractingSegment {St : Type} (seq : Sequence)
    (interactions : gset XY) (fn : list XY -> St -> option St) (s : St)
  : option St :=
  segmentLoop (S (length seq)) seq interactions fn 0 s.

(** ** newDCELFromMultiPolygon *)

(** One turn of the loop that populates the vertices. *)
Definition populateVertex (mask : Z) (interactions : gset XY)
    (d : doublyConnectedEdgeList) (xy : XY) : doublyConnectedEdgeList :=
  if decide (xy ∈ interactions) then
    match vertices d !! xy with
    | Some _ => d
    | None => newVertex d xy (mkVertexRecord xy [] mask (Z.land mask locBoundary))
    end
  else d.

(** The callback of the ring loop: the state is the list and [newEdges].
    [internalEdge.twin] is written here with its final value. *)
Definition ringSegment (mask : Z) (segment : list XY)
    (st : doublyConnectedEdgeList * list nat)
  : option (doublyConnectedEdgeList * list nat) :=
  let '(d, newEdges) := st in
  if length segment <? 2 then None
  else
    let intermediateFwd := take (length segment - 2) (drop 1 segment) in
    let intermediateRev := reverseXYs intermediateFwd in
    a ← segment !! 0;
    b ← segment !! (length segment - 1);
    let vertA := vertices d !! a in
    let vertB := vertices d !! b in
    let internalEdge := length (edgeStore d) in
    let externalEdge := S internalEdge in
    let d1 :=
      withEdgeStore d
        (edgeStore d ++
         [mkHalfEdgeRecord vertA (Some externalEdge) None None None
            intermediateFwd mask mask;
          mkHalfEdgeRecord vertB (Some internalEdge) None None None
            intermediateRev mask (Z.land mask populatedMask)]) in
    d2 ← appendIncident vertA internalEdge d1;
    d3 ← appendIncident vertB externalEdge d2;
    Some (d3, newEdges ++ [internalEdge; externalEdge]).

(** [e.next = target] and [e.prev = target] through the pointer [e]. *)
Definition setNext (e target : nat) (store : list halfEdgeRecord)
  : option (list halfEdgeRecord) :=
  r ← store !! e;
  Some (<[e := mkHalfEdgeRecord (origin r) (twin r) (incident r) (Some target)
                 (prev r) (intermediate r) (edgeLabel r) (faceLabel r)]> store).

Definition setPrev (e target : nat) (store : list halfEdgeRecord)
  : option (list halfEdgeRecord) :=
  r ← store !! e;
  Some (<[e := mkHalfEdgeRecord (origin r) (twin r) (incident r) (next r)
                 (Some target) (intermediate r) (edgeLabel r) (faceLabel r)]>
          store).

(** One turn of the loop that links the pointers. *)
Definition linkStep (newEdges : list nat) (i : nat)
    (store : list halfEdgeRecord) : option (list halfEdgeRecord) :=
  let numEdges := length newEdges in
  e0 ← newEdges !! (i * 2 + 0);
  t0 ← newEdges !! ((2 * i + 2) mod numEdges);
  store ← setNext e0 t0 store;
  e1 ← newEdges !! (i * 2 + 1);
  t1 ← newEdges !! ((2 * i + numEdges - 1) mod numEdges);
  store ← setNext e1 t1 store;
  t2 ← newEdges !! ((2 * i + numEdges - 2) mod numEdges);
  store ← setPrev e0 t2 store;
  t3 ← newEdges !! ((2 * i + 3) mod numEdges);
  setPrev e1 t3 store.

(** [for i := i; i < numEdges/2; i++], with [steps] turns left. *)
Fixpoint linkLoop (steps : nat) (newEdges : list nat) (i : nat)
    (store : list halfEdgeRecord) : option (list halfEdgeRecord) :=
  match steps with
  | O => Some store
  | S steps' =>
      store' ← linkStep newEdges i store;
      linkLoop steps' newEdges (S i) store'
  end.

(** The body of the loop over the rings. *)
Definition addRing (mask : Z) (interactions : gset XY)
    (d : doublyConnectedEdgeList) (ring : Sequence)
  : option doublyConnectedEdgeList :=
  '(d1, newEdges) ←
    forEachNonInteractingSegment ring interactions (ringSegment mask) (d, []);
  let numEdges := length newEdges in
  store ← linkLoop (numEdges / 2) newEdges 0 (edgeStore d1);
  Some (withHalfEdges (withEdgeStore d1 store) (halfEdges d1 ++ newEdges)).

(** A loop whose body can panic. *)
Fixpoint foldOption {A St : Type} (body : St -> A -> option St) (l : list A)
    (s : St) : option St :=
  match l with
  | [] => Some s
  | x :: l' => s' ← body s x; foldOption body l' s'
  end.

(** The body of the loop over the polygons. *)
Definition addPolygon (mask : Z) (interactions : gset XY)
    (d : doublyConnectedEdgeList) (poly : Polygon)
  : option doublyConnectedEdgeList :=
  let rings := ExteriorRing poly :: InteriorRings poly in
  let d1 :=
    fold_left (fun d ring => fold_left (populateVertex mask interactions) ring d)
      rings d in
  foldOption (addRing mask interactions) rings d1.

Definition newDCELFromMultiPolygon (mp : MultiPolygon) (mask : Z)
    (interactions : gset XY) : option doublyConnectedEdgeList :=
  let mp := ForceCCW mp in
  let dcel := mkDCEL [] [] ∅ [] [] in
  foldOption (addPolygon mask interactions) mp dcel.

(** ** addGhosts *)

(** Modelled from the spec: [edgeSet] (absent from the sources) is a set of
    edges, each known by its start, its intermediate points and its end. *)
Definition edgeSet : Type := gset (XY * list XY * XY).

Definition insertStartIntermediateEnd (start : XY) (intermediate : list XY)
    (end_ : XY) (s : edgeSet) : edgeSet :=
  {[ (start, intermediate, end_) ]} ∪ s.

Definition containsStartIntermediateEnd (start : XY) (intermediate : list XY)
    (end_ : XY) (s : edgeSet) : bool :=
  bool_decide ((start, intermediate, end_) ∈ s).

(** [e.origin.coords]. *)
Definition originCoords (d : doublyConnectedEdgeList) (e : nat) : option XY :=
  r ← edgeStore d !! e;
  v ← origin r;
  vr ← vertexStore d !! v;
  Some (coords vr).

(** [insertEdge(e)]: from [e.origin.coords] by [e.intermediate] to
    [e.twin.origin.coords]. *)
Definition insertEdge (d : doublyConnectedEdgeList) (s : edgeSet) (e : nat)
  : option edgeSet :=
  r ← edgeStore d !! e;
  start ← originCoords d e;
  t ← twin r;
  end_ ← originCoords d t;
  Some (insertStartIntermediateEnd start (intermediate r) end_ s).

(** [fixVertex] is absent from the sources. *)
Variable fixVertex :
  doublyConnectedEdgeList -> option nat -> option doublyConnectedEdgeList.

Definition addGhostLine (d : doublyConnectedEdgeList) (startXY : XY)
    (intermediateFwd intermediateRev : list XY) (endXY : XY) (mask : Z)
  : option doublyConnectedEdgeList :=
  let vertA := vertices d !! startXY in
  let vertB := vertices d !! endXY in
  let e1 := length (edgeStore d) in
  let e2 := S e1 in
  let d1 :=
    withEdgeStore d
      (edgeStore d ++
       [mkHalfEdgeRecord vertA (Some e2) None (Some e2) (Some e2)
          intermediateFwd (Z.land mask populatedMask) 0;
        mkHalfEdgeRecord vertB (Some e1) None (Some e1) (Some e1)
          intermediateRev (Z.land mask populatedMask) 0]) in
  d2 ← appendIncident vertA e1 d1;
  d3 ← appendIncident vertB e2 d2;
  let d4 := withHalfEdges d3 (halfEdges d3 ++ [e1; e2]) in
  d5 ← fixVertex d4 vertA;
  fixVertex d5 vertB.

(** [if _, ok := d.vertices[xy]; !ok { d.vertices[xy] = &vertexRecord{...} }];
    the fields left out of the literal are zero. *)
Definition ensureVertex (d : doublyConnectedEdgeList) (xy : XY)
  : doublyConnectedEdgeList :=
  match vertices d !! xy with
  | Some _ => d
  | None => newVertex d xy (mkVertexRecord xy [] 0 0)
  end.

(** The callback of [addGhosts]: the state is the list and [edges]. *)
Definition ghostSegment (mask : Z) (segment : list XY)
    (st : doublyConnectedEdgeList * edgeSet)
  : option (doublyConnectedEdgeList * edgeSet) :=
  let '(d, edges) := st in
  startXY ← segment !! 0;
  endXY ← segment !! (length segment - 1);
  if length segment <? 2 then None
  else
    let intermediateFwd := take (length segment - 2) (drop 1 segment) in
    let intermediateRev := reverseXYs intermediateFwd in
    let d := ensureVertex d startXY in
    let d := ensureVertex d endXY in
    if containsStartIntermediateEnd startXY intermediateFwd endXY edges
    then Some (d, edges)
    else
      let edges := insertStartIntermediateEnd startXY intermediateFwd endXY edges in
      let edges := insertStartIntermediateEnd endXY intermediateRev startXY edges in
      d' ← addGhostLine d startXY intermediateFwd intermediateRev endXY mask;
      Some (d', edges).

Definition addGhosts (d : doublyConnectedEdgeList) (mls : MultiLineString)
    (mask : Z) (interactions : gset XY) : option doublyConnectedEdgeList :=
  edges ← foldOption (insertEdge d) (halfEdges d) ∅;
  '(d', _) ←
    foldOption
      (fun st seq =>
         forEachNonInteractingSegment seq interactions (ghostSegment mask) st)
      mls (d, edges);
  Some d'.

(** The segments put end to end: each starts at the point the one before it
    ends at, which is kept once. *)
Fixpoint joinSegments (segs : list (list XY)) : list XY :=
  match segs with
  | [] => []
  | segment :: rest => segment ++ drop 1 (joinSegments rest)
  end.

(** What [forEachNonInteractingSegment] promises of a segment: two points
    at least, an interaction point at its end and none strictly inside. *)
Definition NonInteracting (interactions : gset XY) (segment : list XY) : Prop :=
  2 <= length segment /\
  (exists b : XY, last segment = Some b /\ b ∈ interactions) /\
  forall (k : nat) (xy : XY),
    0 < k < length segment - 1 -> segment !! k = Some xy -> xy ∉ interactions.

(** ** newDCELFromMultiPoint *)

(** The label constant is declared outside the sources. *)
Variable locInterior : Z.

(** One turn of the loop of [newDCELFromMultiPoint]; [pt] is what
    [PointN(i).XY()] returns, [None] for the empty point. *)
Definition multiPointStep (mask : Z) (d : doublyConnectedEdgeList)
    (pt : option XY) : option doublyConnectedEdgeList :=
  match pt with
  | None => Some d
  | Some xy =>
      let d1 :=
        match vertices d !! xy with
        | Some _ => d
        | None =>
            newVertex d xy (mkVertexRecord xy [] 0 (Z.land mask locInterior))
        end in
      record ← vertices d1 !! xy;
      r ← vertexStore d1 !! record;
      Some (withVertexStore d1
              (<[record := mkVertexRecord (coords r) (incidents r)
                             (Z.lor (label r) mask) (locLabel r)]>
                 (vertexStore d1)))
  end.

Definition newDCELFromMultiPoint (mp : list (option XY)) (mask : Z)
  : option doublyConnectedEdgeList :=
  foldOption (multiPointStep mask) mp (mkDCEL [] [] ∅ [] []).

(** ** forEachEdge *)

(** The loop of [forEachEdge]: the callback can write to the records, so
    the store is part of what it threads. A [nil] in [e.next] ends in the
    panic of the next turn. The fuel bounds the turns: a chain of [next]
    that never comes back to [start] would be followed for ever. *)
Fixpoint forEachEdgeLoop {St : Type} (fuel : nat) (start e : nat)
    (fn : nat -> list halfEdgeRecord * St -> option (list halfEdgeRecord * St))
    (st : list halfEdgeRecord * St) : option (list halfEdgeRecord * St) :=
  match fuel with
  | O => None
  | S fuel' =>
      st' ← fn e st;
      r ← fst st' !! e;
      e' ← next r;
      if decide (e' = start) then Some st'
      else forEachEdgeLoop fuel' start e' fn st'
  end.

Definition forEachEdge {St : Type} (fuel : nat) (start : nat)
    (fn : nat -> list halfEdgeRecord * St -> option (list halfEdgeRecord * St))
    (st : list halfEdgeRecord * St) : option (list halfEdgeRecord * St) :=
  forEachEdgeLoop fuel start start fn st.

(** A callback that reads the edge and leaves the records as they are. *)
Definition readOnly {St : Type} (fn : nat -> St -> option St) (e : nat)
    (st : list halfEdgeRecord * St) : option (list halfEdgeRecord * St) :=
  s' ← fn e (snd st); Some (fst st, s').

(** ** newDCELFromMultiLineString *)

(** [IsClosed] is absent from the sources. *)
Variable IsClosed : Sequence -> bool.

(** One turn of the loop that adds the vertices of a line string of [n]
    points, at its point [j]. *)
Definition lineVertex (mask : Z) (interactions : gset XY) (closed : bool)
    (n j : nat) (xy : XY) (d : doublyConnectedEdgeList)
  : option doublyConnectedEdgeList :=
  if decide (xy ∈ interactions) then
    let loc :=
      if ((j =? 0) || (j =? n - 1)) && negb closed then locBoundary
      else locInterior in
    match vertices d !! xy with
    | Some v =>
        r ← vertexStore d !! v;
        Some (withVertexStore d
                (<[v := mkVertexRecord (coords r) (incidents r) (label r)
                          (Z.lor (locLabel r) (Z.land mask loc))]>
                   (vertexStore d)))
    | None =>
        Some (newVertex d xy (mkVertexRecord xy [] mask (Z.land mask loc)))
    end
  else Some d.

(** [for j := 0; j < n; j++], from point [j] on. *)
Fixpoint lineVertices (mask : Z) (interactions : gset XY) (closed : bool)
    (n j : nat) (rest : list XY) (d : doublyConnectedEdgeList)
  : option doublyConnectedEdgeList :=
  match rest with
  | [] => Some d
  | xy :: rest' =>
      d' ← lineVertex mask interactions closed n j xy d;
      lineVertices mask interactions closed n (S j) rest' d'
  end.

(** The callback of the loop that adds the edges: the state is the list and
    [edges]. *)
Definition lineSegment (mask : Z) (segment : list XY)
    (st : doublyConnectedEdgeList * edgeSet)
  : option (doublyConnectedEdgeList * edgeSet) :=
  let '(d, edges) := st in
  startXY ← segment !! 0;
  endXY ← segment !! (length segment - 1);
  if length segment <? 2 then None
  else
    let intermediateFwd := take (length segment - 2) (drop 1 segment) in
    let intermediateRev := reverseXYs intermediateFwd in
    if containsStartIntermediateEnd startXY intermediateFwd endXY edges
    then Some (d, edges)
    else
      let edges := insertStartIntermediateEnd startXY intermediateFwd endXY edges in
      let edges := insertStartIntermediateEnd endXY intermediateRev startXY edges in
      let vOrigin := vertices d !! startXY in
      let vDestin := vertices d !! endXY in
      let fwd := length (edgeStore d) in
      let rev := S fwd in
      let d1 :=
        withEdgeStore d
          (edgeStore d ++
           [mkHalfEdgeRecord vOrigin (Some rev) None (Some rev) (Some rev)
              intermediateFwd mask (Z.land mask populatedMask);
            mkHalfEdgeRecord vDestin (Some fwd) None (Some fwd) (Some fwd)
              intermediateRev mask (Z.land mask populatedMask)]) in
      d2 ← appendIncident vOrigin fwd d1;
      d3 ← appendIncident vDestin rev d2;
      Some (withHalfEdges d3 (halfEdges d3 ++ [fwd; rev]), edges).

Definition newDCELFromMultiLineString (mls : MultiLineString) (mask : Z)
    (interactions : gset XY) : option doublyConnectedEdgeList :=
  let dcel := mkDCEL [] [] ∅ [] [] in
  d1 ←
    foldOption
      (fun d seq =>
         lineVertices mask interactions (IsClosed seq) (length seq) 0 seq d)
      mls dcel;
  '(d2, _) ←
    foldOption
      (fun st seq =>
         forEachNonInteractingSegment seq interactions (lineSegment mask) st)
      mls (d1, ∅);
  Some d2.

(** The way a half-edge runs: from the place of its origin, by its
    intermediate points, to the place of the origin of its twin. *)
Definition edgeRun (d : doublyConnectedEdgeList) (e : nat)
  : option (XY * list XY * XY) :=
  r ← edgeStore d !! e;
  start ← originCoords d e;
  t ← twin r;
  end_ ← originCoords d t;
  Some (start, intermediate r, end_).

(** The way a segment runs. *)
Definition segmentRun (segment : list XY) : option (XY * list XY * XY) :=
  start ← segment !! 0;
  end_ ← segment !! (length segment - 1);
  Some (start, take (length segment - 2) (drop 1 segment), end_).

(** The first and the last point of the line string are interaction
    points. *)
Definition LineAnchored (interactions : gset XY) (seq : Sequence) : Prop :=
  match seq with
  | [] => True
  | first :: _ =>
      first ∈ interactions /\
      exists z : XY, last seq = Some z /\ z ∈ interactions
  end.

(** ** Notions the proofs use *)

(** The segments the callback is called with, in order. *)
Definition segmentsOf (seq : Sequence) (interactions : gset XY)
  : option (list (list XY)) :=
  forEachNonInteractingSegment seq interactions
    (fun segment acc => Some (acc ++ [segment])) [].

(** The ring's first point, which is also its last, is an interaction. *)
Definition RingAnchored (interactions : gset XY) (ring : Sequence) : Prop :=
  match ring with
  | [] => True
  | first :: _ => first ∈ interactions /\ last ring = Some first
  end.

Definition ringsOf (mp : MultiPolygon) : list Sequence :=
  concat (map (fun poly => ExteriorRing poly :: InteriorRings poly) mp).

(** A segment from one interaction point of [seq] to another. *)
Definition GoodSegment (interactions : gset XY) (seq : Sequence)
    (segment : list XY) : Prop :=
  2 <= length segment /\
  exists a b : XY,
    segment !! 0 = Some a /\ segment !! (length segment - 1) = Some b /\
    a ∈ interactions /\ b ∈ interactions /\ a ∈ seq /\ b ∈ seq.

(** The links of the edges [base + 2 i] and [base + 2 i + 1] of a ring
    with [n] new edges, as the linking loop writes them. *)
Definition WiredAt (store : list halfEdgeRecord) (base n i : nat) : Prop :=
  exists r0 r1 : halfEdgeRecord,
    store !! (base + 2 * i) = Some r0 /\
    store !! (base + 2 * i + 1) = Some r1 /\
    next r0 = Some (base + (2 * i + 2) mod n) /\
    next r1 = Some (base + (2 * i + n - 1) mod n) /\
    prev r0 = Some (base + (2 * i + n - 2) mod n) /\
    prev r1 = Some (base + (2 * i + 3) mod n).

Definition RingWired (store : list halfEdgeRecord) (base n : nat) : Prop :=
  Nat.Even n /\ base + n <= length store /\
  forall i : nat, i < n / 2 -> WiredAt store base n i.

(** [e.next.prev == e] and [e.prev.next == e]. *)
Definition NextPrevInverse (store : list halfEdgeRecord) (e : nat) : Prop :=
  exists (r rn rp : halfEdgeRecord) (n p : nat),
    store !! e = Some r /\ next r = Some n /\ prev r = Some p /\
    store !! n = Some rn /\ prev rn = Some e /\
    store !! p = Some rp /\ next rp = Some e.

(** Every pointer of the vertex map leads to a record. *)
Definition PointersValid (d : doublyConnectedEdgeList) : Prop :=
  forall (xy : XY) (v : nat),
    vertices d !! xy = Some v -> v < length (vertexStore d).

(** The interaction points of [seq] have their vertex. *)
Definition Known (interactions : gset XY) (d : doublyConnectedEdgeList)
    (seq : Sequence) : Prop :=
  forall xy : XY, xy ∈ seq -> xy ∈ interactions -> is_Some (vertices d !! xy).

(** Each half-edge starts at a vertex and has a twin that does, and the
    vertex map knows both places. *)
Definition WellFormed (d : doublyConnectedEdgeList) : Prop :=
  forall e : nat, e ∈ halfEdges d ->
    exists (r : halfEdgeRecord) (start end_ : XY) (t : nat),
      edgeStore d !! e = Some r /\ originCoords d e = Some start /\
      twin r = Some t /\ originCoords d t = Some end_ /\
      is_Some (vertices d !! start) /\ is_Some (vertices d !! end_).

(** The segment runs as a half-edge of the list does: same start, same
    intermediate points, same end. *)
Definition Duplicates (d : doublyConnectedEdgeList) (segment : list XY) : Prop :=
  exists (e : nat) (r : halfEdgeRecord) (start end_ : XY) (t : nat),
    e ∈ halfEdges d /\ edgeStore d !! e = Some r /\
    originCoords d e = Some start /\ twin r = Some t /\
    originCoords d t = Some end_ /\
    segment = start :: intermediate r ++ [end_].

(** The number of new edges of a ring: two for each segment. *)
Definition ringEdges (interactions : gset XY) (ring : Sequence) : nat :=
  match segmentsOf ring interactions with
  | Some segs => 2 * length segs
  | None => 0
  end.

(** The half-edges lie ring after ring, [sizes] giving the number of edges
    of each, and each ring is wired. *)
Definition Laid (sizes : list nat) (d : doublyConnectedEdgeList) : Prop :=
  length (edgeStore d) = sum_list sizes /\
  halfEdges d = List.seq 0 (sum_list sizes) /\
  forall (k n : nat), sizes !! k = Some n ->
    RingWired (edgeStore d) (sum_list (take k sizes)) n.

(** The vertex map leads each place to a record of that place. *)
Definition VCoords (d : doublyConnectedEdgeList) : Prop :=
  forall (xy : XY) (v : nat),
    vertices d !! xy = Some v ->
    exists r : vertexRecord, vertexStore d !! v = Some r /\ coords r = xy.

(** The edge starts at a vertex whose place the vertex map knows, and has a
    twin. *)
Definition EdgeOk (d : doublyConnectedEdgeList) (r : halfEdgeRecord) : Prop :=
  exists (v : nat) (rv : vertexRecord) (t : nat),
    origin r = Some v /\ vertexStore d !! v = Some rv /\
    is_Some (vertices d !! coords rv) /\
    twin r = Some t /\ t < length (edgeStore d).

Definition Sound (d : doublyConnectedEdgeList) : Prop :=
  VCoords d /\
  (forall (e : nat) (r : halfEdgeRecord), edgeStore d !! e = Some r -> EdgeOk d r) /\
  (forall e : nat, e ∈ halfEdges d -> e < length (edgeStore d)).

(** The records of [store'] start where those of [store] do and have the
    same twins. *)
Definition SameRoots (store store' : list halfEdgeRecord) : Prop :=
  length store' = length store /\
  forall (e : nat) (r' : halfEdgeRecord),
    store' !! e = Some r' ->
    exists r : halfEdgeRecord,
      store !! e = Some r /\ origin r' = origin r /\ twin r' = twin r.

(** ** The segments *)

Lemma nextInteraction_spec (interactions : gset XY) (rest : list XY) (j : nat) :
  (exists xy, xy ∈ rest /\ xy ∈ interactions) ->
  j <= nextInteraction interactions rest j < j + length rest /\
  exists xy, rest !! (nextInteraction interactions rest j - j) = Some xy /\
             xy ∈ interactions.
Proof.
  revert j. induction rest as [|x rest IH]; intros j (xy & Hin & HI).
  - inversion Hin.
  - simpl. destruct (decide (x ∈ interactions)) as [Hx|Hx].
    + split; [lia|]. exists x. rewrite Nat.sub_diag. auto.
    + assert (xy ∈ rest) as Hrest.
      { apply elem_of_cons in Hin as [->|Hin]; [contradiction|exact Hin]. }
      destruct (IH (S j) (ex_intro _ xy (conj Hrest HI)))
        as (Hrange & y & Hy & HyI).
      split; [lia|]. exists y. split; [|exact HyI].
      replace (nextInteraction interactions rest (S j) - j)
        with (S (nextInteraction interactions rest (S j) - S j)) by lia.
      exact Hy.
Qed.

(** Whatever the callback, the loop is a fold over the segments. *)
Lemma segmentLoop_fold (seq : Sequence) (interactions : gset XY) :
  forall (fuel i : nat) (acc out : list (list XY)),
    segmentLoop fuel seq interactions
      (fun segment acc => Some (acc ++ [segment])) i acc = Some out ->
    exists segs : list (list XY),
      out = acc ++ segs /\
      forall (St : Type) (fn : list XY -> St -> option St) (s : St),
        segmentLoop fuel seq interactions fn i s
        = foldOption (fun s segment => fn segment s) segs s.
Proof.
  induction fuel as [|fuel IH]; intros i acc out Hrun; [discriminate|].
  cbn [segmentLoop] in *.
  destruct (i + 1 <? length seq).
  - destruct (nextInteraction interactions (drop (i + 1) seq) (i + 1) + 1 <? i);
      [discriminate|].
    simpl in Hrun. apply IH in Hrun as (segs & -> & Hfold).
    eexists (_ :: segs). split; [now rewrite <- app_assoc|].
    intros St fn s. simpl. destruct (fn _ s) as [s'|]; simpl; [apply Hfold|reflexivity].
  - inversion Hrun; subst. exists []. split; [now rewrite app_nil_r|].
    reflexivity.
Qed.

Lemma forEachNonInteractingSegment_fold (seq : Sequence)
    (interactions : gset XY) (segs : list (list XY)) :
  segmentsOf seq interactions = Some segs ->
  forall (St : Type) (fn : list XY -> St -> option St) (s : St),
    forEachNonInteractingSegment seq interactions fn s
    = foldOption (fun s segment => fn segment s) segs s.
Proof.
  unfold segmentsOf, forEachNonInteractingSegment. intros Hrun.
  apply segmentLoop_fold in Hrun as (segs' & E & Hfold).
  simpl in E. subst segs'. exact Hfold.
Qed.

Lemma segment_ends (seq : Sequence) (i e : nat) (a b : XY) :
  i < e -> seq !! i = Some a -> seq !! e = Some b ->
  let segment := take (e + 1 - i) (drop i seq) in
  length segment = e + 1 - i /\
  segment !! 0 = Some a /\ segment !! (length segment - 1) = Some b.
Proof.
  intros Hie Ha Hb segment.
  pose proof (lookup_lt_Some _ _ _ Hb) as Hlen.
  assert (Hl : length segment = e + 1 - i).
  { unfold segment. rewrite length_take, length_drop. lia. }
  split; [exact Hl|]. rewrite Hl. unfold segment. split.
  - rewrite lookup_take_lt by lia. rewrite lookup_drop.
    now replace (i + 0) with i by lia.
  - rewrite lookup_take_lt by lia. rewrite lookup_drop.
    now replace (i + (e + 1 - i - 1)) with e by lia.
Qed.

Lemma anchored_loop (seq : Sequence) (interactions : gset XY) (z : XY) :
  last seq = Some z -> z ∈ interactions ->
  forall (fuel i : nat) (acc : list (list XY)) (a : XY),
    length seq < i + fuel ->
    seq !! i = Some a -> a ∈ interactions ->
    exists segs : list (list XY),
      segmentLoop fuel seq interactions
        (fun segment acc => Some (acc ++ [segment])) i acc = Some (acc ++ segs) /\
      Forall (GoodSegment interactions seq) segs.
Proof.
  intros Hlast Hz.
  induction fuel as [|fuel IH]; intros i acc a Hfuel Ha HaI.
  { apply lookup_lt_Some in Ha. lia. }
  cbn [segmentLoop].
  destruct (Nat.ltb_spec (i + 1) (length seq)) as [Hi|Hi].
  - destruct (nextInteraction_spec interactions (drop (i + 1) seq) (i + 1))
      as (Hrange & b & Hb & HbI).
    { exists z. split; [|exact Hz].
      rewrite last_lookup in Hlast.
      apply list_elem_of_lookup. exists (pred (length seq) - (i + 1)).
      rewrite lookup_drop. rewrite <- Hlast. f_equal. lia. }
    set (e := nextInteraction interactions (drop (i + 1) seq) (i + 1)) in *.
    rewrite length_drop in Hrange. rewrite lookup_drop in Hb.
    replace (i + 1 + (e - (i + 1))) with e in Hb by lia.
    destruct (Nat.ltb_spec (e + 1) i) as [Hbad|_]; [lia|].
    simpl.
    destruct (IH e (acc ++ [take (e + 1 - i) (drop i seq)]) b ltac:(lia) Hb HbI)
      as (segs & Hrun & Hgood).
    exists (take (e + 1 - i) (drop i seq) :: segs).
    split; [rewrite Hrun; now rewrite <- app_assoc|].
    constructor; [|exact Hgood].
    destruct (segment_ends seq i e a b ltac:(lia) Ha Hb) as (Hl & H0 & H1).
    split; [lia|]. exists a, b. repeat split; auto.
    + eapply list_elem_of_lookup_2; eauto.
    + eapply list_elem_of_lookup_2; eauto.
  - exists []. split; [now rewrite app_nil_r|constructor].
Qed.

Lemma anchored_segments (interactions : gset XY) (seq : Sequence) :
  RingAnchored interactions seq ->
  exists segs : list (list XY),
    segmentsOf seq interactions = Some segs /\
    Forall (GoodSegment interactions seq) segs.
Proof.
  unfold segmentsOf, forEachNonInteractingSegment.
  destruct seq as [|first rest]; intros Hanch.
  - exists []. split; [reflexivity|constructor].
  - destruct Hanch as [Hfirst Hlast].
    destruct (anchored_loop (first :: rest) interactions first Hlast Hfirst
                (S (length (first :: rest))) 0 [] first)
      as (segs & Hrun & Hgood); [lia|reflexivity|exact Hfirst|].
    exists segs. split; [exact Hrun|exact Hgood].
Qed.

(** ** The edges of one ring *)

Lemma appendIncident_spec (d : doublyConnectedEdgeList) (v e : nat) :
  v < length (vertexStore d) ->
  exists d' : doublyConnectedEdgeList,
    appendIncident (Some v) e d = Some d' /\
    faces d' = faces d /\ halfEdges d' = halfEdges d /\
    vertices d' = vertices d /\ edgeStore d' = edgeStore d /\
    length (vertexStore d') = length (vertexStore d).
Proof.
  intros Hv. unfold appendIncident. simpl.
  destruct (lookup_lt_is_Some_2 (vertexStore d) v Hv) as [r Hr].
  rewrite Hr. simpl. eexists. split; [reflexivity|].
  simpl. rewrite length_insert. auto.
Qed.

Lemma ringSegment_spec (mask : Z) (interactions : gset XY) (seq : Sequence)
    (segment : list XY) (d : doublyConnectedEdgeList) (newEdges : list nat) :
  PointersValid d -> Known interactions d seq ->
  GoodSegment interactions seq segment ->
  exists (d' : doublyConnectedEdgeList) (r0 r1 : halfEdgeRecord),
    ringSegment mask segment (d, newEdges)
    = Some (d', newEdges ++ [length (edgeStore d); S (length (edgeStore d))]) /\
    faces d' = faces d /\ halfEdges d' = halfEdges d /\
    vertices d' = vertices d /\
    length (vertexStore d') = length (vertexStore d) /\
    edgeStore d' = edgeStore d ++ [r0; r1].
Proof.
  intros Hvalid Hknown (Hlen & a & b & Ha & Hb & HaI & HbI & Haseq & Hbseq).
  unfold ringSegment.
  destruct (Nat.ltb_spec (length segment) 2) as [Hbad|_]; [lia|].
  rewrite Ha, Hb. simpl.
  destruct (Hknown a Haseq HaI) as [va Hva].
  destruct (Hknown b Hbseq HbI) as [vb Hvb].
  rewrite Hva, Hvb.
  match goal with
  | |- context [appendIncident (Some va) ?e ?d1] =>
      destruct (appendIncident_spec d1 va e) as (d2 & Hrun2 & F2 & E2 & V2 & S2 & L2)
  end.
  { simpl. eapply Hvalid; eauto. }
  rewrite Hrun2. cbn [mbind option_bind].
  match goal with
  | |- context [appendIncident (Some vb) ?e d2] =>
      destruct (appendIncident_spec d2 vb e) as (d3 & Hrun3 & F3 & E3 & V3 & S3 & L3)
  end.
  { rewrite L2. simpl. eapply Hvalid; eauto. }
  rewrite Hrun3. simpl.
  eexists d3, _, _. split; [reflexivity|].
  rewrite F3, F2, E3, E2, V3, V2, L3, L2, S3, S2. simpl. auto.
Qed.

Lemma seq_two_more (base n : nat) :
  List.seq base (2 * S n) = [base; S base] ++ List.seq (base + 2) (2 * n).
Proof.
  replace (2 * S n) with (2 + 2 * n) by lia.
  apply (List.seq_app 2 (2 * n) base).
Qed.

Lemma ringSegments_spec (mask : Z) (interactions : gset XY) (seq : Sequence) :
  forall (segs : list (list XY)) (d : doublyConnectedEdgeList)
         (newEdges : list nat),
    PointersValid d -> Known interactions d seq ->
    Forall (GoodSegment interactions seq) segs ->
    exists (d' : doublyConnectedEdgeList) (added : list halfEdgeRecord),
      foldOption (fun s segment => ringSegment mask segment s) segs
        (d, newEdges)
      = Some (d', newEdges ++ List.seq (length (edgeStore d)) (2 * length segs)) /\
      faces d' = faces d /\ halfEdges d' = halfEdges d /\
      vertices d' = vertices d /\
      length (vertexStore d') = length (vertexStore d) /\
      edgeStore d' = edgeStore d ++ added /\
      length added = 2 * length segs.
Proof.
  induction segs as [|segment segs IH]; intros d newEdges Hvalid Hknown Hgood.
  - exists d, []. simpl. rewrite !app_nil_r. auto 10.
  - inversion Hgood as [|? ? Hg Hgs]; subst.
    destruct (ringSegment_spec mask interactions seq segment d newEdges
                Hvalid Hknown Hg)
      as (d1 & r0 & r1 & Hrun & F1 & E1 & V1 & L1 & S1).
    cbn [foldOption]. rewrite Hrun. simpl.
    destruct (IH d1 (newEdges ++ [length (edgeStore d); S (length (edgeStore d))]))
      as (d' & added & Hrun' & F' & E' & V' & L' & S' & A'); auto.
    { intros xy v Hxy. rewrite V1 in Hxy. rewrite L1. eapply Hvalid; eauto. }
    { intros xy Hin HI. rewrite V1. auto. }
    exists d', (r0 :: r1 :: added). rewrite Hrun'.
    split.
    { f_equal. f_equal. rewrite <- app_assoc. f_equal.
      rewrite S1, length_app. cbn [length]. symmetry. apply seq_two_more. }
    rewrite F', E', V', L', S', S1, <- app_assoc. simpl.
    repeat split; auto; try congruence. lia.
Qed.

(** ** The links of one ring *)

Lemma setNext_spec (store : list halfEdgeRecord) (e target : nat)
    (r : halfEdgeRecord) :
  store !! e = Some r ->
  setNext e target store =
  Some (<[e := mkHalfEdgeRecord (origin r) (twin r) (incident r) (Some target)
                 (prev r) (intermediate r) (edgeLabel r) (faceLabel r)]> store).
Proof. intros Hr. unfold setNext. rewrite Hr. reflexivity. Qed.

Lemma setPrev_spec (store : list halfEdgeRecord) (e target : nat)
    (r : halfEdgeRecord) :
  store !! e = Some r ->
  setPrev e target store =
  Some (<[e := mkHalfEdgeRecord (origin r) (twin r) (incident r) (next r)
                 (Some target) (intermediate r) (edgeLabel r) (faceLabel r)]>
          store).
Proof. intros Hr. unfold setPrev. rewrite Hr. reflexivity. Qed.

Lemma linkStep_spec (store : list halfEdgeRecord) (base n i : nat) :
  base + n <= length store -> 2 * i + 1 < n ->
  exists store' : list halfEdgeRecord,
    linkStep (List.seq base n) i store = Some store' /\
    length store' = length store /\
    (forall a, a <> base + 2 * i -> a <> base + 2 * i + 1 ->
               store' !! a = store !! a) /\
    WiredAt store' base n i.
Proof.
  intros Hlen Hi. unfold linkStep. rewrite length_seq.
  assert (Hn : n <> 0) by lia.
  pose proof (Nat.mod_upper_bound (2 * i + 2) n Hn) as M0.
  pose proof (Nat.mod_upper_bound (2 * i + n - 1) n Hn) as M1.
  pose proof (Nat.mod_upper_bound (2 * i + n - 2) n Hn) as M2.
  pose proof (Nat.mod_upper_bound (2 * i + 3) n Hn) as M3.
  rewrite !lookup_seq_lt by lia.
  replace (base + (i * 2 + 0)) with (base + 2 * i) by lia.
  replace (base + (i * 2 + 1)) with (base + 2 * i + 1) by lia.
  set (e0 := base + 2 * i). set (e1 := base + 2 * i + 1).
  assert (Hne : e0 <> e1) by (unfold e0, e1; lia).
  destruct (lookup_lt_is_Some_2 store e0 ltac:(unfold e0; lia)) as [r0 Hr0].
  destruct (lookup_lt_is_Some_2 store e1 ltac:(unfold e1; lia)) as [r1 Hr1].
  cbn [mbind option_bind].
  rewrite (setNext_spec store e0 _ r0 Hr0). cbn [mbind option_bind].
  erewrite setNext_spec
    by (rewrite list_lookup_insert_ne by exact Hne; exact Hr1).
  cbn [mbind option_bind].
  erewrite setPrev_spec
    by (rewrite list_lookup_insert_ne by auto;
        apply list_lookup_insert_eq; unfold e0; lia).
  cbn [mbind option_bind].
  erewrite setPrev_spec
    by (rewrite list_lookup_insert_ne by exact Hne;
        apply list_lookup_insert_eq; rewrite length_insert; unfold e1; lia).
  eexists. split; [reflexivity|].
  split; [now rewrite !length_insert|].
  split.
  - intros a Ha0 Ha1. fold e0 in Ha0. fold e1 in Ha1.
    now rewrite !list_lookup_insert_ne by auto.
  - unfold WiredAt. fold e0 e1. eexists _, _.
    split.
    { rewrite list_lookup_insert_ne by auto.
      apply list_lookup_insert_eq. rewrite !length_insert. unfold e0; lia. }
    split.
    { apply list_lookup_insert_eq. rewrite !length_insert. unfold e1; lia. }
    cbn. auto.
Qed.

Lemma linkLoop_spec (base n : nat) :
  forall (steps i : nat) (store : list halfEdgeRecord),
    2 * (i + steps) = n -> base + n <= length store ->
    (forall i', i' < i -> WiredAt store base n i') ->
    exists store' : list halfEdgeRecord,
      linkLoop steps (List.seq base n) i store = Some store' /\
      length store' = length store /\
      (forall a, a < base \/ base + n <= a -> store' !! a = store !! a) /\
      (forall i', i' < i + steps -> WiredAt store' base n i').
Proof.
  induction steps as [|steps IH]; intros i store Hn Hlen Hdone.
  - exists store. simpl. rewrite Nat.add_0_r. auto.
  - cbn [linkLoop].
    destruct (linkStep_spec store base n i Hlen ltac:(lia))
      as (store1 & Hrun & Hl1 & Hframe & Hwired).
    rewrite Hrun. cbn [mbind option_bind].
    destruct (IH (S i) store1 ltac:(lia) ltac:(lia)) as (store' & Hrun' & Hl' & Hframe' & Hall).
    { intros i' Hi'. destruct (decide (i' = i)) as [->|Hne]; [exact Hwired|].
      destruct (Hdone i' ltac:(lia)) as (r0 & r1 & H0 & H1 & Hrest).
      exists r0, r1. rewrite !Hframe by lia. auto. }
    exists store'. split; [exact Hrun'|]. split; [lia|]. split.
    + intros a Ha. rewrite Hframe' by exact Ha. apply Hframe; lia.
    + intros i' Hi'. apply Hall. lia.
Qed.

Lemma RingWired_grow (store store' : list halfEdgeRecord) (base n : nat) :
  length store <= length store' ->
  (forall a, a < length store -> store' !! a = store !! a) ->
  RingWired store base n -> RingWired store' base n.
Proof.
  intros Hlen Hsame (Heven & Hfit & Hwired).
  split; [exact Heven|]. split; [lia|].
  intros i Hi. destruct (Hwired i Hi) as (r0 & r1 & H0 & H1 & Hrest).
  exists r0, r1. rewrite !Hsame by (eapply lookup_lt_Some; eassumption). auto.
Qed.

Lemma addRing_spec (mask : Z) (interactions : gset XY)
    (d : doublyConnectedEdgeList) (ring : Sequence) :
  PointersValid d -> Known interactions d ring ->
  RingAnchored interactions ring ->
  exists d' : doublyConnectedEdgeList,
    addRing mask interactions d ring = Some d' /\
    faces d' = faces d /\ vertices d' = vertices d /\
    length (vertexStore d') = length (vertexStore d) /\
    halfEdges d' =
      halfEdges d ++ List.seq (length (edgeStore d)) (ringEdges interactions ring) /\
    length (edgeStore d') = length (edgeStore d) + ringEdges interactions ring /\
    (forall a, a < length (edgeStore d) -> edgeStore d' !! a = edgeStore d !! a) /\
    RingWired (edgeStore d') (length (edgeStore d)) (ringEdges interactions ring).
Proof.
  intros Hvalid Hknown Hanch.
  destruct (anchored_segments interactions ring Hanch) as (segs & Hsegs & Hgood).
  unfold addRing, ringEdges.
  rewrite (forEachNonInteractingSegment_fold ring interactions segs Hsegs).
  rewrite Hsegs.
  destruct (ringSegments_spec mask interactions ring segs d [] Hvalid Hknown Hgood)
    as (d1 & added & Hrun & F1 & E1 & V1 & L1 & S1 & A1).
  rewrite Hrun. cbn [mbind option_bind app].
  rewrite length_seq.
  set (n := 2 * length segs) in *. set (base := length (edgeStore d)) in *.
  assert (Hhalf : n / 2 = length segs).
  { unfold n. rewrite Nat.mul_comm. apply Nat.div_mul. lia. }
  rewrite Hhalf.
  assert (Hlen1 : length (edgeStore d1) = base + n).
  { rewrite S1, length_app. unfold base. lia. }
  destruct (linkLoop_spec base n (length segs) 0 (edgeStore d1))
    as (store' & Hlink & Hl' & Hframe & Hwired); [unfold n; lia|lia| |].
  { intros i' Hi'. lia. }
  rewrite Hlink. cbn [mbind option_bind].
  eexists. split; [reflexivity|]. simpl.
  rewrite F1, E1, V1, L1.
  repeat split; auto; try lia.
  - intros a Ha. rewrite Hframe by lia. rewrite S1.
    apply lookup_app_l. exact Ha.
  - exists (length segs). unfold n. lia.
  - intros i Hi. apply Hwired. lia.
Qed.

(** ** The vertices *)

(** What populating the vertices keeps. *)
Definition Grows (d d' : doublyConnectedEdgeList) : Prop :=
  faces d' = faces d /\ halfEdges d' = halfEdges d /\
  edgeStore d' = edgeStore d /\
  (PointersValid d -> PointersValid d') /\
  (forall xy, is_Some (vertices d !! xy) -> is_Some (vertices d' !! xy)).

Lemma Grows_refl (d : doublyConnectedEdgeList) : Grows d d.
Proof. repeat split; auto. Qed.

Lemma Grows_trans (d1 d2 d3 : doublyConnectedEdgeList) :
  Grows d1 d2 -> Grows d2 d3 -> Grows d1 d3.
Proof.
  intros (F1 & E1 & S1 & P1 & K1) (F2 & E2 & S2 & P2 & K2).
  repeat split; try congruence; auto.
Qed.

Lemma populateVertex_spec (mask : Z) (interactions : gset XY)
    (d : doublyConnectedEdgeList) (xy : XY) :
  Grows d (populateVertex mask interactions d xy) /\
  (xy ∈ interactions ->
   is_Some (vertices (populateVertex mask interactions d xy) !! xy)).
Proof.
  unfold populateVertex.
  destruct (decide (xy ∈ interactions)) as [HI|HI].
  - destruct (vertices d !! xy) as [v|] eqn:Hv.
    + split; [apply Grows_refl|]. intros _. rewrite Hv. eauto.
    + split.
      * repeat split; auto; simpl.
        -- intros Hvalid k v Hk. unfold newVertex in *. cbn in Hk |- *.
           rewrite length_app. simpl.
           destruct (decide (xy = k)) as [->|Hne].
           ++ rewrite lookup_insert_eq in Hk. inversion Hk. lia.
           ++ rewrite lookup_insert_ne in Hk by exact Hne.
              apply Hvalid in Hk. lia.
        -- intros k Hk. destruct (decide (xy = k)) as [->|Hne].
           ++ rewrite lookup_insert_eq. eauto.
           ++ rewrite lookup_insert_ne by exact Hne. exact Hk.
      * intros _. simpl. rewrite lookup_insert_eq. eauto.
  - split; [apply Grows_refl|]. contradiction.
Qed.

Lemma populateRing_spec (mask : Z) (interactions : gset XY) :
  forall (ring : Sequence) (d : doublyConnectedEdgeList),
    Grows d (fold_left (populateVertex mask interactions) ring d) /\
    Known interactions (fold_left (populateVertex mask interactions) ring d) ring.
Proof.
  induction ring as [|xy ring IH]; intros d.
  - split; [apply Grows_refl|]. intros xy Hin. inversion Hin.
  - cbn [fold_left].
    destruct (populateVertex_spec mask interactions d xy) as [Hg Hxy].
    destruct (IH (populateVertex mask interactions d xy)) as [Hg' Hk'].
    split; [eapply Grows_trans; eauto|].
    intros k Hin HI. apply elem_of_cons in Hin as [->|Hin].
    + destruct Hg' as (_ & _ & _ & _ & Hmono). apply Hmono. auto.
    + apply Hk'; auto.
Qed.

Lemma populateRings_spec (mask : Z) (interactions : gset XY) :
  forall (rings : list Sequence) (d : doublyConnectedEdgeList),
    let d' :=
      fold_left
        (fun d ring => fold_left (populateVertex mask interactions) ring d)
        rings d in
    Grows d d' /\ Forall (Known interactions d') rings.
Proof.
  induction rings as [|ring rings IH]; intros d.
  - split; [apply Grows_refl|constructor].
  - cbn [fold_left].
    destruct (populateRing_spec mask interactions ring d) as [Hg Hk].
    destruct (IH (fold_left (populateVertex mask interactions) ring d))
      as [Hg' Hk'].
    split; [eapply Grows_trans; eauto|].
    constructor; [|exact Hk'].
    intros xy Hin HI. destruct Hg' as (_ & _ & _ & _ & Hmono).
    apply Hmono. apply Hk; auto.
Qed.

(** ** Ring after ring *)

Lemma Laid_snoc (sizes : list nat) (n : nat) (d d' : doublyConnectedEdgeList) :
  Laid sizes d ->
  halfEdges d' = halfEdges d ++ List.seq (length (edgeStore d)) n ->
  length (edgeStore d') = length (edgeStore d) + n ->
  (forall a, a < length (edgeStore d) -> edgeStore d' !! a = edgeStore d !! a) ->
  RingWired (edgeStore d') (length (edgeStore d)) n ->
  Laid (sizes ++ [n]) d'.
Proof.
  intros (Hlen & Hedges & Hrings) Hedges' Hlen' Hsame Hwired.
  assert (Hsum : sum_list (sizes ++ [n]) = sum_list sizes + n).
  { rewrite sum_list_with_app. simpl. lia. }
  split; [rewrite Hsum; lia|]. split.
  - rewrite Hedges', Hedges, Hsum, Hlen. symmetry. apply List.seq_app.
  - intros k m Hk.
    destruct (decide (k < length sizes)) as [Hlt|Hge].
    + rewrite lookup_app_l in Hk by exact Hlt.
      rewrite take_app_le by lia.
      eapply RingWired_grow; [| |apply Hrings; exact Hk]; [lia|exact Hsame].
    + rewrite lookup_app_r in Hk by lia.
      destruct (k - length sizes) as [|j] eqn:Ej; [|destruct j; discriminate].
      inversion Hk; subst m.
      assert (k = length sizes) as -> by lia.
      rewrite take_app_length. rewrite <- Hlen. exact Hwired.
Qed.

Lemma addRings_spec (mask : Z) (interactions : gset XY) :
  forall (rings : list Sequence) (sizes : list nat)
         (d : doublyConnectedEdgeList),
    PointersValid d -> Laid sizes d ->
    Forall (Known interactions d) rings ->
    Forall (RingAnchored interactions) rings ->
    exists d' : doublyConnectedEdgeList,
      foldOption (addRing mask interactions) rings d = Some d' /\
      PointersValid d' /\
      Laid (sizes ++ map (ringEdges interactions) rings) d'.
Proof.
  induction rings as [|ring rings IH]; intros sizes d Hvalid Hlaid Hknown Hanch.
  - exists d. simpl. rewrite app_nil_r. auto.
  - inversion Hknown as [|? ? Hk Hks]; subst.
    inversion Hanch as [|? ? Ha Has]; subst.
    destruct (addRing_spec mask interactions d ring Hvalid Hk Ha)
      as (d1 & Hrun & F1 & V1 & L1 & E1 & S1 & Hsame & Hwired).
    cbn [foldOption]. rewrite Hrun. cbn [mbind option_bind].
    destruct (IH (sizes ++ [ringEdges interactions ring]) d1)
      as (d' & Hrun' & Hvalid' & Hlaid'); auto.
    + intros xy v Hxy. rewrite V1 in Hxy. rewrite L1. eapply Hvalid; eauto.
    + eapply Laid_snoc; eauto.
    + eapply List.Forall_impl; [|exact Hks].
      intros r Hr xy Hin HI. rewrite V1. auto.
    + exists d'. split; [exact Hrun'|]. split; [exact Hvalid'|].
      rewrite <- app_assoc in Hlaid'. exact Hlaid'.
Qed.

Lemma addPolygon_spec (mask : Z) (interactions : gset XY) (poly : Polygon)
    (sizes : list nat) (d : doublyConnectedEdgeList) :
  PointersValid d -> Laid sizes d ->
  Forall (RingAnchored interactions) (ExteriorRing poly :: InteriorRings poly) ->
  exists d' : doublyConnectedEdgeList,
    addPolygon mask interactions d poly = Some d' /\
    PointersValid d' /\
    Laid (sizes ++ map (ringEdges interactions)
                     (ExteriorRing poly :: InteriorRings poly)) d'.
Proof.
  intros Hvalid Hlaid Hanch. unfold addPolygon.
  destruct (populateRings_spec mask interactions
              (ExteriorRing poly :: InteriorRings poly) d)
    as [(F & E & S & P & _) Hknown].
  cbv zeta in Hknown.
  apply addRings_spec; auto.
  destruct Hlaid as (L1 & L2 & L3). split; [|split]; rewrite ?S, ?E; auto.
Qed.

Lemma addPolygons_spec (mask : Z) (interactions : gset XY) :
  forall (mp : MultiPolygon) (sizes : list nat) (d : doublyConnectedEdgeList),
    PointersValid d -> Laid sizes d ->
    Forall (RingAnchored interactions) (ringsOf mp) ->
    exists d' : doublyConnectedEdgeList,
      foldOption (addPolygon mask interactions) mp d = Some d' /\
      PointersValid d' /\
      Laid (sizes ++ map (ringEdges interactions) (ringsOf mp)) d'.
Proof.
  induction mp as [|poly mp IH]; intros sizes d Hvalid Hlaid Hanch.
  - exists d. simpl. rewrite app_nil_r. auto.
  - unfold ringsOf in Hanch. cbn [map concat] in Hanch.
    apply Forall_app in Hanch as [Hpoly Hrest].
    destruct (addPolygon_spec mask interactions poly sizes d Hvalid Hlaid Hpoly)
      as (d1 & Hrun & Hvalid1 & Hlaid1).
    cbn [foldOption]. rewrite Hrun. cbn [mbind option_bind].
    destruct (IH _ d1 Hvalid1 Hlaid1 Hrest) as (d' & Hrun' & Hvalid' & Hlaid').
    exists d'. split; [exact Hrun'|]. split; [exact Hvalid'|].
    unfold ringsOf. cbn [map concat]. rewrite map_app, app_assoc. exact Hlaid'.
Qed.

(** ** Next and prev *)

Lemma mod_once (a n : nat) :
  n <> 0 -> a < 2 * n -> a mod n = if a <? n then a else a - n.
Proof.
  intros Hn Ha. destruct (Nat.ltb_spec a n) as [Hlt|Hge].
  - now apply Nat.mod_small.
  - symmetry. apply (Nat.mod_unique a n 1); lia.
Qed.

(** The links of [WiredAt] with the remainders worked out. *)
Lemma WiredAt_fields (store : list halfEdgeRecord) (base m i : nat) :
  i < m -> WiredAt store base (2 * m) i ->
  exists r0 r1 : halfEdgeRecord,
    store !! (base + 2 * i) = Some r0 /\
    store !! (base + 2 * i + 1) = Some r1 /\
    next r0 = Some (base + (if i + 1 <? m then 2 * i + 2 else 0)) /\
    next r1 = Some (base + (if 0 <? i then 2 * i - 1 else 2 * m - 1)) /\
    prev r0 = Some (base + (if 0 <? i then 2 * i - 2 else 2 * m - 2)) /\
    prev r1 = Some (base + (if i + 1 <? m then 2 * i + 3 else 1)).
Proof.
  intros Hi (r0 & r1 & H0 & H1 & N0 & N1 & P0 & P1).
  exists r0, r1. split; [exact H0|]. split; [exact H1|].
  rewrite N0, N1, P0, P1.
  rewrite !mod_once by lia.
  repeat split; do 2 f_equal;
    repeat match goal with
           | |- context [?a <? ?b] => destruct (Nat.ltb_spec a b)
           end; lia.
Qed.

Lemma RingWired_inverse (store : list halfEdgeRecord) (base n j : nat) :
  RingWired store base n -> j < n -> NextPrevInverse store (base + j).
Proof.
  intros ([m Hm] & Hfit & Hwired) Hj. subst n.
  assert (Hhalf : 2 * m / 2 = m) by (rewrite Nat.mul_comm; apply Nat.div_mul; lia).
  rewrite Hhalf in Hwired.
  assert (Hat : forall i, i < m ->
            exists r0 r1 : halfEdgeRecord,
              store !! (base + 2 * i) = Some r0 /\
              store !! (base + 2 * i + 1) = Some r1 /\
              next r0 = Some (base + (if i + 1 <? m then 2 * i + 2 else 0)) /\
              next r1 = Some (base + (if 0 <? i then 2 * i - 1 else 2 * m - 1)) /\
              prev r0 = Some (base + (if 0 <? i then 2 * i - 2 else 2 * m - 2)) /\
              prev r1 = Some (base + (if i + 1 <? m then 2 * i + 3 else 1)))
    by (intros i Hi; apply WiredAt_fields; auto).
  clear Hwired.
  destruct (Nat.Even_or_Odd j) as [[i Hi]|[i Hi]]; subst j.
  - (* an internal edge *)
    destruct (Hat i ltac:(lia)) as (r0 & _ & H0 & _ & N0 & _ & P0 & _).
    set (ni := if i + 1 <? m then i + 1 else 0).
    set (pi := if 0 <? i then i - 1 else m - 1).
    destruct (Hat ni) as (rn & _ & Hn & _ & _ & _ & Pn & _).
    { unfold ni. destruct (Nat.ltb_spec (i + 1) m); lia. }
    destruct (Hat pi) as (rp & _ & Hp & _ & Np & _ & _ & _).
    { unfold pi. destruct (Nat.ltb_spec 0 i); lia. }
    exists r0, rn, rp, (base + 2 * ni), (base + 2 * pi).
    split; [exact H0|].
    split; [rewrite N0; unfold ni; destruct (i + 1 <? m); do 2 f_equal; lia|].
    split; [rewrite P0; unfold pi; destruct (0 <? i); do 2 f_equal; lia|].
    split; [exact Hn|].
    split.
    { rewrite Pn. unfold ni. do 2 f_equal.
      destruct (Nat.ltb_spec (i + 1) m); simpl;
        repeat match goal with
               | |- context [?a <? ?b] => destruct (Nat.ltb_spec a b)
               end; lia. }
    split; [exact Hp|].
    rewrite Np. unfold pi. do 2 f_equal.
    destruct (Nat.ltb_spec 0 i); simpl;
      repeat match goal with
             | |- context [?a <? ?b] => destruct (Nat.ltb_spec a b)
             end; lia.
  - (* an external edge *)
    destruct (Hat i ltac:(lia)) as (_ & r1 & _ & H1 & _ & N1 & _ & P1).
    set (ni := if 0 <? i then i - 1 else m - 1).
    set (pi := if i + 1 <? m then i + 1 else 0).
    destruct (Hat ni) as (_ & rn & _ & Hn & _ & _ & _ & Pn).
    { unfold ni. destruct (Nat.ltb_spec 0 i); lia. }
    destruct (Hat pi) as (_ & rp & _ & Hp & _ & Np & _ & _).
    { unfold pi. destruct (Nat.ltb_spec (i + 1) m); lia. }
    exists r1, rn, rp, (base + 2 * ni + 1), (base + 2 * pi + 1).
    split; [rewrite <- H1; f_equal; lia|].
    split; [rewrite N1; unfold ni; destruct (Nat.ltb_spec 0 i); f_equal; lia|].
    split; [rewrite P1; unfold pi; destruct (Nat.ltb_spec (i + 1) m); f_equal; lia|].
    split; [exact Hn|].
    split.
    { rewrite Pn. unfold ni. f_equal.
      destruct (Nat.ltb_spec 0 i); simpl;
        repeat match goal with
               | |- context [?a <? ?b] => destruct (Nat.ltb_spec a b)
               end; lia. }
    split; [exact Hp|].
    rewrite Np. unfold pi. f_equal.
    destruct (Nat.ltb_spec (i + 1) m); simpl;
      repeat match goal with
             | |- context [?a <? ?b] => destruct (Nat.ltb_spec a b)
             end; lia.
Qed.

Lemma block_of (sizes : list nat) (e : nat) :
  e < sum_list sizes ->
  exists k n : nat,
    sizes !! k = Some n /\
    sum_list (take k sizes) <= e < sum_list (take k sizes) + n.
Proof.
  induction sizes as [|n sizes IH] using rev_ind; intros He; [simpl in He; lia|].
  rewrite sum_list_with_app in He. simpl in He.
  destruct (decide (e < sum_list sizes)) as [Hlt|Hge].
  - destruct (IH Hlt) as (k & n' & Hk & Hrange).
    pose proof (lookup_lt_Some _ _ _ Hk) as Hklen.
    exists k, n'. split; [now rewrite lookup_app_l|].
    now rewrite take_app_le by lia.
  - exists (length sizes), n. split.
    + rewrite lookup_app_r by lia. now rewrite Nat.sub_diag.
    + rewrite take_app_length. unfold id in *. lia.
Qed.

(** C4. When each ring's first point, which is also its last, is among the
    interactions, [newDCELFromMultiPolygon] returns a list in which every
    half-edge [e] has [e.next.prev == e] and [e.prev.next == e]; the
    half-edges lie ring after ring, and in a ring with [n] new edges from
    address [base] the internal edge [base + 2 i] has next [base + (2 i + 2) mod n]
    and prev [base + (2 i - 2) mod n], the external edge [base + 2 i + 1] has
    next [base + (2 i - 1) mod n] and prev [base + (2 i + 3) mod n]. *)
Theorem newDCELFromMultiPolygon_next_prev (mp : MultiPolygon) (mask : Z)
    (interactions : gset XY) :
  Forall (RingAnchored interactions) (ringsOf (ForceCCW mp)) ->
  exists d : doublyConnectedEdgeList,
    newDCELFromMultiPolygon mp mask interactions = Some d /\
    (forall e : nat, e ∈ halfEdges d -> NextPrevInverse (edgeStore d) e) /\
    Laid (map (ringEdges interactions) (ringsOf (ForceCCW mp))) d.
Proof.
  intros Hanch. unfold newDCELFromMultiPolygon.
  destruct (addPolygons_spec mask interactions (ForceCCW mp) []
              (mkDCEL [] [] ∅ [] []))
    as (d & Hrun & _ & Hlaid); auto.
  - intros xy v Hxy. simpl in Hxy. rewrite lookup_empty in Hxy. discriminate.
  - split; [reflexivity|]. split; [reflexivity|].
    intros k n Hk. rewrite lookup_nil in Hk. discriminate.
  - exists d. split; [exact Hrun|]. simpl in Hlaid. split; [|exact Hlaid].
    destruct Hlaid as (Hlen & Hedges & Hrings).
    set (sizes := map (ringEdges interactions) (ringsOf (ForceCCW mp))) in *.
    intros e He. rewrite Hedges in He.
    apply list_elem_of_In, List.in_seq in He.
    destruct (block_of sizes e ltac:(lia)) as (k & n & Hk & Hrange).
    replace e with (sum_list (take k sizes) + (e - sum_list (take k sizes)))
      by lia.
    eapply RingWired_inverse; [apply Hrings; exact Hk|lia].
Qed.

(** ** Ghosts that are already there *)

Lemma insertEdge_spec (d : doublyConnectedEdgeList) (s : edgeSet) (e : nat)
    (r : halfEdgeRecord) (start end_ : XY) (t : nat) :
  edgeStore d !! e = Some r -> originCoords d e = Some start ->
  twin r = Some t -> originCoords d t = Some end_ ->
  insertEdge d s e
  = Some (insertStartIntermediateEnd start (intermediate r) end_ s).
Proof.
  intros Hr Hstart Ht Hend. unfold insertEdge.
  rewrite Hr. cbn [mbind option_bind]. rewrite Hstart. cbn [mbind option_bind].
  rewrite Ht. cbn [mbind option_bind]. rewrite Hend. reflexivity.
Qed.

Lemma insertEdges_spec (d : doublyConnectedEdgeList) :
  forall (l : list nat) (s : edgeSet),
    (forall e, e ∈ l -> e ∈ halfEdges d) -> WellFormed d ->
    exists s' : edgeSet,
      foldOption (insertEdge d) l s = Some s' /\
      s ⊆ s' /\
      forall (e : nat) (r : halfEdgeRecord) (start end_ : XY) (t : nat),
        e ∈ l -> edgeStore d !! e = Some r ->
        originCoords d e = Some start -> twin r = Some t ->
        originCoords d t = Some end_ ->
        (start, intermediate r, end_) ∈ s'.
Proof.
  induction l as [|e l IH]; intros s Hsub Hwf.
  - exists s. split; [reflexivity|]. split; [reflexivity|].
    intros e r start end_ t He. inversion He.
  - destruct (Hwf e) as (r & start & end_ & t & Hr & Hstart & Ht & Hend & _).
    { apply Hsub. left. }
    cbn [foldOption].
    rewrite (insertEdge_spec d s e r start end_ t Hr Hstart Ht Hend).
    cbn [mbind option_bind].
    destruct (IH (insertStartIntermediateEnd start (intermediate r) end_ s))
      as (s' & Hrun & Hincl & Hall); [|exact Hwf|].
    { intros e' He'. apply Hsub. now right. }
    exists s'. split; [exact Hrun|]. split.
    + intros x Hx. apply Hincl. unfold insertStartIntermediateEnd.
      apply elem_of_union_r. exact Hx.
    + intros e' r' start' end_' t' He' Hr' Hstart' Ht' Hend'.
      apply elem_of_cons in He' as [->|He'].
      * assert (r' = r) by congruence. subst r'.
        assert (t' = t) by congruence. subst t'.
        assert (start' = start) by congruence.
        assert (end_' = end_) by congruence. subst.
        apply Hincl. unfold insertStartIntermediateEnd.
        apply elem_of_union_l, elem_of_singleton. reflexivity.
      * eapply Hall; eauto.
Qed.

Lemma ensureVertex_known (d : doublyConnectedEdgeList) (xy : XY) :
  is_Some (vertices d !! xy) -> ensureVertex d xy = d.
Proof. intros [v Hv]. unfold ensureVertex. now rewrite Hv. Qed.

Lemma ghostSegment_duplicate (mask : Z) (d : doublyConnectedEdgeList)
    (edges : edgeSet) (segment : list XY) :
  WellFormed d ->
  (forall (e : nat) (r : halfEdgeRecord) (start end_ : XY) (t : nat),
      e ∈ halfEdges d -> edgeStore d !! e = Some r ->
      originCoords d e = Some start -> twin r = Some t ->
      originCoords d t = Some end_ ->
      (start, intermediate r, end_) ∈ edges) ->
  Duplicates d segment ->
  ghostSegment mask segment (d, edges) = Some (d, edges).
Proof.
  intros Hwf Hedges (e & r & start & end_ & t & He & Hr & Hstart & Ht & Hend & ->).
  destruct (Hwf e He) as (r' & start' & end_' & t' & Hr' & Hstart' & Ht' & Hend'
                          & Kstart & Kend).
  assert (r' = r) by congruence. subst r'.
  assert (t' = t) by congruence. subst t'.
  assert (start' = start) by congruence.
  assert (end_' = end_) by congruence. subst.
  unfold ghostSegment.
  assert (Hlen : length (start :: intermediate r ++ [end_])
                 = S (S (length (intermediate r)))).
  { cbn [length]. rewrite length_app. simpl. lia. }
  rewrite Hlen.
  assert (Hlast : (start :: intermediate r ++ [end_])
                    !! (S (S (length (intermediate r))) - 1) = Some end_).
  { replace (S (S (length (intermediate r))) - 1)
      with (S (length (intermediate r))) by lia.
    cbn [lookup list_lookup]. change ((intermediate r ++ [end_]) !! length (intermediate r) = Some end_).
    rewrite lookup_app_r by lia. now rewrite Nat.sub_diag. }
  rewrite Hlast. cbn [lookup list_lookup mbind option_bind].
  destruct (Nat.ltb_spec (S (S (length (intermediate r)))) 2) as [Hbad|_]; [lia|].
  replace (S (S (length (intermediate r))) - 2) with (length (intermediate r))
    by lia.
  change (drop 1 (start :: intermediate r ++ [end_]))
    with (intermediate r ++ [end_]).
  rewrite take_app_length.
  rewrite (ensureVertex_known d start Kstart).
  rewrite (ensureVertex_known d end_ Kend).
  unfold containsStartIntermediateEnd.
  rewrite bool_decide_eq_true_2; [reflexivity|].
  eapply Hedges; eauto.
Qed.

Lemma ghostSegments_duplicate (mask : Z) (d : doublyConnectedEdgeList)
    (edges : edgeSet) (segs : list (list XY)) :
  WellFormed d ->
  (forall (e : nat) (r : halfEdgeRecord) (start end_ : XY) (t : nat),
      e ∈ halfEdges d -> edgeStore d !! e = Some r ->
      originCoords d e = Some start -> twin r = Some t ->
      originCoords d t = Some end_ ->
      (start, intermediate r, end_) ∈ edges) ->
  Forall (Duplicates d) segs ->
  foldOption (fun s segment => ghostSegment mask segment s) segs (d, edges)
  = Some (d, edges).
Proof.
  intros Hwf Hedges. induction segs as [|segment segs IH]; intros Hdup.
  - reflexivity.
  - inversion Hdup as [|? ? Hd Hds]; subst. cbn [foldOption].
    rewrite (ghostSegment_duplicate mask d edges segment Hwf Hedges Hd).
    cbn [mbind option_bind]. apply IH. exact Hds.
Qed.

(** C7. In a list each of whose half-edges starts at a vertex and has a twin
    that does, the vertex map knowing both places, ghosts all of whose
    segments run as half-edges of the list already do leave the list as it
    was: [addGhosts] returns it unchanged, the vertex map and the half-edges
    with it. *)
Theorem addGhosts_duplicates_unchanged (d : doublyConnectedEdgeList)
    (mls : MultiLineString) (mask : Z) (interactions : gset XY) :
  WellFormed d ->
  Forall (fun seq : Sequence =>
            exists segs : list (list XY),
              segmentsOf seq interactions = Some segs /\
              Forall (Duplicates d) segs) mls ->
  addGhosts d mls mask interactions = Some d.
Proof.
  intros Hwf Hdup. unfold addGhosts.
  destruct (insertEdges_spec d (halfEdges d) ∅ ltac:(auto) Hwf)
    as (edges & Hrun & _ & Hall).
  rewrite Hrun. cbn [mbind option_bind].
  assert (Hfold :
            foldOption
              (fun st seq =>
                 forEachNonInteractingSegment seq interactions
                   (ghostSegment mask) st) mls (d, edges) = Some (d, edges)).
  { induction Hdup as [|seq mls (segs & Hsegs & Hd) _ IH]; [reflexivity|].
    cbn [foldOption].
    rewrite (forEachNonInteractingSegment_fold seq interactions segs Hsegs).
    rewrite (ghostSegments_duplicate mask d edges segs Hwf Hall Hd).
    cbn [mbind option_bind]. exact IH. }
  rewrite Hfold. reflexivity.
Qed.

(** ** What the construction builds is well formed *)

Lemma Sound_WellFormed (d : doublyConnectedEdgeList) : Sound d -> WellFormed d.
Proof.
  intros (HV & HE & HH) e He.
  destruct (lookup_lt_is_Some_2 (edgeStore d) e (HH e He)) as [r Hr].
  destruct (HE e r Hr) as (v & rv & t & Ho & Hv & Hk & Ht & Htlen).
  destruct (lookup_lt_is_Some_2 (edgeStore d) t Htlen) as [rt Hrt].
  destruct (HE t rt Hrt) as (vt & rvt & _ & Hot & Hvt & Hkt & _ & _).
  exists r, (coords rv), (coords rvt), t.
  split; [exact Hr|]. split.
  { unfold originCoords. rewrite Hr. simpl. rewrite Ho. simpl. now rewrite Hv. }
  split; [exact Ht|]. split.
  { unfold originCoords. rewrite Hrt. simpl. rewrite Hot. simpl. now rewrite Hvt. }
  auto.
Qed.

Lemma Sound_newVertex (d : doublyConnectedEdgeList) (xy : XY)
    (record : vertexRecord) :
  coords record = xy -> vertices d !! xy = None ->
  Sound d -> Sound (newVertex d xy record).
Proof.
  intros Hc Hnone (HV & HE & HH). unfold newVertex. split; [|split]; simpl.
  - intros k v Hk. simpl in Hk. destruct (decide (xy = k)) as [->|Hne].
    + rewrite lookup_insert_eq in Hk. inversion Hk; subst v.
      exists record. split; [|exact Hc]. simpl.
      rewrite lookup_app_r by lia. now rewrite Nat.sub_diag.
    + rewrite lookup_insert_ne in Hk by exact Hne.
      destruct (HV k v Hk) as (r & Hr & Hrc). exists r. split; [|exact Hrc].
      simpl. rewrite lookup_app_l by (eapply lookup_lt_Some; eauto). exact Hr.
  - intros e r Hr. simpl in Hr.
    destruct (HE e r Hr) as (v & rv & t & Ho & Hv & Hk & Ht & Hl).
    exists v, rv, t. simpl. split; [exact Ho|]. split.
    { rewrite lookup_app_l by (eapply lookup_lt_Some; eauto). exact Hv. }
    split; [|auto].
    destruct (decide (xy = coords rv)) as [->|Hne].
    + rewrite lookup_insert_eq. eauto.
    + rewrite lookup_insert_ne by exact Hne. exact Hk.
  - exact HH.
Qed.

Lemma Sound_populateVertex (mask : Z) (interactions : gset XY)
    (d : doublyConnectedEdgeList) (xy : XY) :
  Sound d -> Sound (populateVertex mask interactions d xy).
Proof.
  intros Hs. unfold populateVertex.
  destruct (decide (xy ∈ interactions)); [|exact Hs].
  destruct (vertices d !! xy) eqn:Hxy; [exact Hs|].
  apply Sound_newVertex; auto.
Qed.

Lemma Sound_appendIncident (d d' : doublyConnectedEdgeList) (v : option nat)
    (e : nat) :
  Sound d -> appendIncident v e d = Some d' -> Sound d'.
Proof.
  intros (HV & HE & HH) Hrun. unfold appendIncident in Hrun.
  destruct v as [p|]; [|discriminate]. simpl in Hrun.
  destruct (vertexStore d !! p) as [rp|] eqn:Hp; [|discriminate].
  simpl in Hrun. inversion Hrun; subst d'. clear Hrun.
  pose proof (lookup_lt_Some _ _ _ Hp) as Hplen.
  assert (Hcoords : forall v rv, vertexStore d !! v = Some rv ->
            exists rv', <[p := mkVertexRecord (coords rp) (incidents rp ++ [e])
                                  (label rp) (locLabel rp)]> (vertexStore d) !! v
                        = Some rv' /\ coords rv' = coords rv).
  { intros v rv Hv. destruct (decide (p = v)) as [->|Hne].
    - eexists. split; [apply list_lookup_insert_eq; exact Hplen|].
      simpl. congruence.
    - exists rv. split; [|reflexivity]. now rewrite list_lookup_insert_ne. }
  split; [|split]; simpl.
  - intros k v Hk. simpl in Hk. destruct (HV k v Hk) as (r & Hr & Hrc).
    destruct (Hcoords v r Hr) as (r' & Hr' & Hc'). exists r'. split; [exact Hr'|].
    congruence.
  - intros e0 r Hr. simpl in Hr.
    destruct (HE e0 r Hr) as (v & rv & t & Ho & Hv & Hk & Ht & Hl).
    destruct (Hcoords v rv Hv) as (rv' & Hv' & Hc').
    exists v, rv', t. simpl. rewrite Hc'. auto.
  - exact HH.
Qed.

Lemma Sound_ringSegment (mask : Z) (segment : list XY)
    (d d' : doublyConnectedEdgeList) (newEdges newEdges' : list nat) :
  Sound d -> (forall e, e ∈ newEdges -> e < length (edgeStore d)) ->
  ringSegment mask segment (d, newEdges) = Some (d', newEdges') ->
  Sound d' /\ forall e, e ∈ newEdges' -> e < length (edgeStore d').
Proof.
  intros Hs Hne Hrun. unfold ringSegment in Hrun.
  destruct (length segment <? 2); [discriminate|].
  destruct (segment !! 0) as [pa|]; [|discriminate]. simpl in Hrun.
  destruct (segment !! (length segment - 1)) as [pb|]; [|discriminate].
  simpl in Hrun.
  destruct (vertices d !! pa) as [va|] eqn:Hva; [|discriminate].
  destruct (vertices d !! pb) as [vb|] eqn:Hvb.
  2:{ destruct (appendIncident (Some va) _ _); discriminate. }
  match type of Hrun with
  | context [appendIncident (Some va) ?e ?d1] =>
      assert (Hs1 : Sound d1); [|destruct (appendIncident (Some va) e d1) as [d2|] eqn:Hrun2;
                                  [|discriminate]]
  end.
  { destruct Hs as (HV & HE & HH).
    destruct (HV pa va Hva) as (ra & Hra & Hca).
    destruct (HV pb vb Hvb) as (rb & Hrb & Hcb).
    split; [exact HV|]. split; simpl.
    - intros e r Hr. simpl in Hr. apply lookup_app_Some in Hr as [Hr|[Hge Hr]].
      + destruct (HE e r Hr) as (v & rv & t & Ho & Hv & Hk & Ht & Hl).
        exists v, rv, t. simpl. rewrite length_app. simpl.
        repeat split; auto. lia.
      + destruct (e - length (edgeStore d)) as [|[|k]]; simpl in Hr;
          inversion Hr; subst r; clear Hr.
        * exists va, ra, (S (length (edgeStore d))). simpl.
          rewrite length_app, Hca, Hva. simpl. repeat split; eauto. lia.
        * exists vb, rb, (length (edgeStore d)). simpl.
          rewrite length_app, Hcb, Hvb. simpl. repeat split; eauto. lia.
    - intros e He. simpl in He. rewrite length_app. simpl. apply HH in He. lia. }
  cbn [mbind option_bind] in Hrun.
  match type of Hrun with
  | context [appendIncident (Some vb) ?e d2] =>
      destruct (appendIncident (Some vb) e d2) as [d3|] eqn:Hrun3; [|discriminate]
  end.
  cbn [mbind option_bind] in Hrun. inversion Hrun; subst d' newEdges'. clear Hrun.
  pose proof (Sound_appendIncident _ _ _ _ Hs1 Hrun2) as Hs2.
  pose proof (Sound_appendIncident _ _ _ _ Hs2 Hrun3) as Hs3.
  split; [exact Hs3|].
  assert (Hlen : length (edgeStore d3) = length (edgeStore d) + 2).
  { unfold appendIncident in Hrun2, Hrun3. simpl in Hrun2, Hrun3.
    destruct (vertexStore _ !! va); [|discriminate].
    simpl in Hrun2. inversion Hrun2; subst d2. clear Hrun2.
    simpl in Hrun3.
    destruct (_ !! vb); [|discriminate].
    simpl in Hrun3. inversion Hrun3; subst d3. simpl.
    rewrite length_app. reflexivity. }
  intros e He. rewrite Hlen.
  apply elem_of_app in He as [He|He]; [apply Hne in He; lia|].
  apply elem_of_cons in He as [->|He]; [lia|].
  apply elem_of_cons in He as [->|He]; [lia|inversion He].
Qed.

Lemma segmentLoop_invariant {St : Type} (P : St -> Prop) (seq : Sequence)
    (interactions : gset XY) (fn : list XY -> St -> option St) :
  (forall segment s s', P s -> fn segment s = Some s' -> P s') ->
  forall (fuel i : nat) (s s' : St),
    P s -> segmentLoop fuel seq interactions fn i s = Some s' -> P s'.
Proof.
  intros Hfn. induction fuel as [|fuel IH]; intros i s s' Hs Hrun; [discriminate|].
  cbn [segmentLoop] in Hrun.
  destruct (i + 1 <? length seq); [|inversion Hrun; subst; exact Hs].
  destruct (_ + 1 <? i); [discriminate|].
  destruct (fn _ s) as [s1|] eqn:Hstep; [|discriminate].
  cbn [mbind option_bind] in Hrun.
  eapply IH; [|exact Hrun]. eapply Hfn; eauto.
Qed.

Lemma foldOption_invariant {A St : Type} (P : St -> Prop)
    (body : St -> A -> option St) :
  (forall s x s', P s -> body s x = Some s' -> P s') ->
  forall (l : list A) (s s' : St),
    P s -> foldOption body l s = Some s' -> P s'.
Proof.
  intros Hbody. induction l as [|x l IH]; intros s s' Hs Hrun.
  - inversion Hrun; subst. exact Hs.
  - cbn [foldOption] in Hrun.
    destruct (body s x) as [s1|] eqn:Hstep; [|discriminate].
    cbn [mbind option_bind] in Hrun. eapply IH; [|exact Hrun]. eapply Hbody; eauto.
Qed.

Lemma SameRoots_refl (store : list halfEdgeRecord) : SameRoots store store.
Proof. split; [reflexivity|]. intros e r Hr. exists r. auto. Qed.

Lemma SameRoots_trans (s1 s2 s3 : list halfEdgeRecord) :
  SameRoots s1 s2 -> SameRoots s2 s3 -> SameRoots s1 s3.
Proof.
  intros [L1 R1] [L2 R2]. split; [congruence|].
  intros e r3 Hr3. destruct (R2 e r3 Hr3) as (r2 & Hr2 & Ho2 & Ht2).
  destruct (R1 e r2 Hr2) as (r1 & Hr1 & Ho1 & Ht1).
  exists r1. split; [exact Hr1|]. split; congruence.
Qed.

Lemma SameRoots_setNext (store store' : list halfEdgeRecord) (e target : nat) :
  setNext e target store = Some store' -> SameRoots store store'.
Proof.
  unfold setNext. destruct (store !! e) as [r|] eqn:Hr; [|discriminate].
  simpl. intros Hrun. inversion Hrun; subst store'. clear Hrun.
  split; [apply length_insert|].
  intros e' r' Hr'. destruct (decide (e = e')) as [->|Hne].
  - rewrite list_lookup_insert_eq in Hr' by (eapply lookup_lt_Some; eauto).
    inversion Hr'; subst r'. exists r. auto.
  - rewrite list_lookup_insert_ne in Hr' by exact Hne. exists r'. auto.
Qed.

Lemma SameRoots_setPrev (store store' : list halfEdgeRecord) (e target : nat) :
  setPrev e target store = Some store' -> SameRoots store store'.
Proof.
  unfold setPrev. destruct (store !! e) as [r|] eqn:Hr; [|discriminate].
  simpl. intros Hrun. inversion Hrun; subst store'. clear Hrun.
  split; [apply length_insert|].
  intros e' r' Hr'. destruct (decide (e = e')) as [->|Hne].
  - rewrite list_lookup_insert_eq in Hr' by (eapply lookup_lt_Some; eauto).
    inversion Hr'; subst r'. exists r. auto.
  - rewrite list_lookup_insert_ne in Hr' by exact Hne. exists r'. auto.
Qed.

Lemma SameRoots_linkStep (newEdges : list nat) (i : nat)
    (store store' : list halfEdgeRecord) :
  linkStep newEdges i store = Some store' -> SameRoots store store'.
Proof.
  unfold linkStep. intros Hrun.
  repeat match type of Hrun with
         | mbind _ ?m = Some _ =>
             let E := fresh "E" in
             destruct m eqn:E;
             [cbn [mbind option_bind] in Hrun|discriminate Hrun]
         end.
  repeat match goal with
         | E : setNext _ _ _ = Some _ |- _ => apply SameRoots_setNext in E
         | E : setPrev _ _ _ = Some _ |- _ => apply SameRoots_setPrev in E
         end.
  eauto using SameRoots_trans.
Qed.

Lemma SameRoots_linkLoop (newEdges : list nat) :
  forall (steps i : nat) (store store' : list halfEdgeRecord),
    linkLoop steps newEdges i store = Some store' -> SameRoots store store'.
Proof.
  induction steps as [|steps IH]; intros i store store' Hrun.
  - inversion Hrun; subst. apply SameRoots_refl.
  - cbn [linkLoop] in Hrun.
    destruct (linkStep newEdges i store) as [s1|] eqn:Hstep; [|discriminate].
    cbn [mbind option_bind] in Hrun.
    eapply SameRoots_trans; [eapply SameRoots_linkStep; eauto|eapply IH; eauto].
Qed.

Lemma Sound_addRing (mask : Z) (interactions : gset XY)
    (d d' : doublyConnectedEdgeList) (ring : Sequence) :
  Sound d -> addRing mask interactions d ring = Some d' -> Sound d'.
Proof.
  intros Hs Hrun. unfold addRing in Hrun.
  destruct (forEachNonInteractingSegment ring interactions (ringSegment mask)
              (d, [])) as [[d1 newEdges]|] eqn:Hloop; [|discriminate].
  cbn [mbind option_bind] in Hrun.
  destruct (linkLoop _ newEdges 0 (edgeStore d1)) as [store|] eqn:Hlink;
    [|discriminate].
  cbn [mbind option_bind] in Hrun. inversion Hrun; subst d'. clear Hrun.
  assert (Hinv : Sound d1 /\ forall e, e ∈ newEdges -> e < length (edgeStore d1)).
  { unfold forEachNonInteractingSegment in Hloop.
    eapply (segmentLoop_invariant
              (fun st => Sound (fst st) /\
                         forall e, e ∈ snd st -> e < length (edgeStore (fst st))))
      in Hloop; [exact Hloop| |].
    - intros segment [da na] [db nb] [Ha Hna] Hstep. simpl in *.
      eapply Sound_ringSegment; eauto.
    - simpl. split; [exact Hs|]. intros e He. inversion He. }
  destruct Hinv as [(HV & HE & HH) Hnew].
  apply SameRoots_linkLoop in Hlink as [Hlen Hroots].
  split; [exact HV|]. split; simpl.
  - intros e r' Hr'. simpl in Hr'.
    destruct (Hroots e r' Hr') as (r & Hr & Ho & Ht).
    destruct (HE e r Hr) as (v & rv & t & Ho' & Hv & Hk & Ht' & Hl).
    exists v, rv, t. simpl. rewrite Ho, Ht, Hlen. auto.
  - intros e He. simpl in He. rewrite Hlen.
    apply elem_of_app in He as [He|He]; auto.
Qed.

Lemma Sound_addPolygon (mask : Z) (interactions : gset XY)
    (d d' : doublyConnectedEdgeList) (poly : Polygon) :
  Sound d -> addPolygon mask interactions d poly = Some d' -> Sound d'.
Proof.
  intros Hs Hrun. unfold addPolygon in Hrun.
  eapply (foldOption_invariant Sound) in Hrun; [exact Hrun| |].
  - intros s ring s'. apply Sound_addRing.
  - clear Hrun. generalize (ExteriorRing poly :: InteriorRings poly).
    intros rings. revert d Hs. induction rings as [|ring rings IH]; intros d Hs; [exact Hs|].
    cbn [fold_left]. apply IH.
    revert d Hs. induction ring as [|xy ring IHr]; intros d Hs; [exact Hs|].
    cbn [fold_left]. apply IHr. apply Sound_populateVertex. exact Hs.
Qed.

(** A list built by [newDCELFromMultiPolygon] is well formed. *)
Lemma newDCELFromMultiPolygon_WellFormed (mp : MultiPolygon) (mask : Z)
    (interactions : gset XY) (d : doublyConnectedEdgeList) :
  newDCELFromMultiPolygon mp mask interactions = Some d -> WellFormed d.
Proof.
  intros Hrun. apply Sound_WellFormed. unfold newDCELFromMultiPolygon in Hrun.
  eapply (foldOption_invariant Sound) in Hrun; [exact Hrun| |].
  - intros s poly s'. apply Sound_addPolygon.
  - split; [|split]; simpl.
    + intros xy v Hxy. simpl in Hxy. rewrite lookup_empty in Hxy. discriminate.
    + intros e r Hr. simpl in Hr. rewrite lookup_nil in Hr. discriminate.
    + intros e He. simpl in He. inversion He.
Qed.


(** ** What the callback of [forEachNonInteractingSegment] is given *)

Lemma nextInteraction_first (interactions : gset XY) (rest : list XY) (j : nat) :
  (exists xy, xy ∈ rest /\ xy ∈ interactions) ->
  forall (k : nat) (xy : XY),
    k < nextInteraction interactions rest j - j -> rest !! k = Some xy ->
    xy ∉ interactions.
Proof.
  revert j. induction rest as [|x rest IH]; intros j (y & Hin & HI) k xy Hk Hxy.
  - inversion Hin.
  - cbn [nextInteraction] in Hk.
    destruct (decide (x ∈ interactions)) as [Hx|Hx]; [lia|].
    destruct k as [|k].
    + cbn in Hxy. congruence.
    + assert (y ∈ rest) as Hrest.
      { apply elem_of_cons in Hin as [->|Hin]; [contradiction|exact Hin]. }
      apply (IH (S j) (ex_intro _ y (conj Hrest HI)) k xy); [|exact Hxy].
      pose proof (nextInteraction_spec interactions rest (S j)
                    (ex_intro _ y (conj Hrest HI))) as [Hrange _].
      lia.
Qed.

Lemma segments_loop (seq : Sequence) (interactions : gset XY) (z : XY) :
  last seq = Some z -> z ∈ interactions ->
  forall (fuel i : nat) (acc : list (list XY)),
    length seq < i + fuel -> i < length seq ->
    exists segs : list (list XY),
      segmentLoop fuel seq interactions
        (fun segment acc => Some (acc ++ [segment])) i acc = Some (acc ++ segs) /\
      drop 1 (joinSegments segs) = drop (i + 1) seq /\
      (i + 1 < length seq -> joinSegments segs = drop i seq) /\
      Forall (NonInteracting interactions) segs.
Proof.
  intros Hlast Hz.
  induction fuel as [|fuel IH]; intros i acc Hfuel Hi; [lia|].
  cbn [segmentLoop].
  destruct (Nat.ltb_spec (i + 1) (length seq)) as [Hnext|Hnext].
  - assert (Hsome : exists xy, xy ∈ drop (i + 1) seq /\ xy ∈ interactions).
    { exists z. split; [|exact Hz].
      rewrite last_lookup in Hlast.
      apply list_elem_of_lookup. exists (pred (length seq) - (i + 1)).
      rewrite lookup_drop. rewrite <- Hlast. f_equal. lia. }
    destruct (nextInteraction_spec interactions (drop (i + 1) seq) (i + 1) Hsome)
      as (Hrange & b & Hb & HbI).
    pose proof (nextInteraction_first interactions (drop (i + 1) seq) (i + 1)
                  Hsome) as Hfirst.
    set (e := nextInteraction interactions (drop (i + 1) seq) (i + 1)) in *.
    rewrite length_drop in Hrange. rewrite lookup_drop in Hb.
    replace (i + 1 + (e - (i + 1))) with e in Hb by lia.
    destruct (Nat.ltb_spec (e + 1) i) as [Hbad|_]; [lia|].
    cbn [mbind option_bind].
    destruct (IH e (acc ++ [take (e + 1 - i) (drop i seq)]) ltac:(lia) ltac:(lia))
      as (segs & Hrun & Hjoin1 & Hjoin & Hgood).
    exists (take (e + 1 - i) (drop i seq) :: segs).
    split; [rewrite Hrun; now rewrite <- app_assoc|].
    assert (Hwhole :
              take (e + 1 - i) (drop i seq) ++ drop 1 (joinSegments segs)
              = drop i seq).
    { rewrite Hjoin1.
      replace (drop (e + 1) seq) with (drop (e + 1 - i) (drop i seq)).
      - apply take_drop.
      - rewrite drop_drop. f_equal. lia. }
    assert (Hlen : length (take (e + 1 - i) (drop i seq)) = e + 1 - i).
    { rewrite length_take, length_drop. lia. }
    split.
    { cbn [joinSegments]. rewrite Hwhole. rewrite drop_drop. reflexivity. }
    split; [intros _; exact Hwhole|].
    constructor; [|exact Hgood].
    split; [lia|]. split.
    + exists b. split; [|exact HbI].
      rewrite last_lookup, Hlen, lookup_take_lt by lia.
      rewrite lookup_drop. rewrite <- Hb. f_equal. lia.
    + intros k xy Hk Hxy. rewrite Hlen in Hk.
      rewrite lookup_take_lt in Hxy by lia. rewrite lookup_drop in Hxy.
      apply (Hfirst (k - 1) xy); [lia|].
      rewrite lookup_drop. rewrite <- Hxy. f_equal. lia.
  - exists []. split; [now rewrite app_nil_r|].
    cbn [joinSegments]. split.
    + rewrite (drop_ge seq) by lia. reflexivity.
    + split; [lia|constructor].
Qed.

(** X12. When a sequence of two points or more ends at an interaction
    point, [forEachNonInteractingSegment] returns, and the callback is run
    once on each of a list of segments, in order, such that: the segments
    put end to end, the shared points kept once, are the sequence; each
    segment has two points at least, ends at an interaction point and has
    no interaction point strictly inside. *)
Theorem forEachNonInteractingSegment_segments (seq : Sequence)
    (interactions : gset XY) (z : XY) :
  2 <= length seq -> last seq = Some z -> z ∈ interactions ->
  exists segs : list (list XY),
    (forall (St : Type) (fn : list XY -> St -> option St) (s : St),
        forEachNonInteractingSegment seq interactions fn s
        = foldOption (fun s segment => fn segment s) segs s) /\
    joinSegments segs = seq /\
    Forall (NonInteracting interactions) segs.
Proof.
  intros Hlen Hlast Hz.
  destruct (segments_loop seq interactions z Hlast Hz (S (length seq)) 0 [])
    as (segs & Hrun & _ & Hjoin & Hgood); [lia|lia|].
  exists segs. split; [|split; [|exact Hgood]].
  - apply forEachNonInteractingSegment_fold. exact Hrun.
  - rewrite Hjoin by lia. apply drop_0.
Qed.

Lemma nextInteraction_cases (interactions : gset XY) (rest : list XY) (j : nat) :
  nextInteraction interactions rest j = 0 \/
  (j <= nextInteraction interactions rest j < j + length rest /\
   exists b : XY,
     rest !! (nextInteraction interactions rest j - j) = Some b /\
     b ∈ interactions).
Proof.
  revert j. induction rest as [|x rest IH]; intros j; [left; reflexivity|].
  cbn [nextInteraction].
  destruct (decide (x ∈ interactions)) as [Hx|Hx].
  - right. cbn [length]. split; [lia|]. exists x. rewrite Nat.sub_diag. auto.
  - destruct (IH (S j)) as [Hzero|(Hrange & b & Hb & HbI)]; [left; exact Hzero|].
    right. cbn [length]. split; [lia|]. exists b. split; [|exact HbI].
    replace (nextInteraction interactions rest (S j) - j)
      with (S (nextInteraction interactions rest (S j) - S j)) by lia.
    exact Hb.
Qed.

(** X13. When a sequence of two points or more does not end at an
    interaction point, [forEachNonInteractingSegment] never returns
    normally, whatever the callback and however many turns it is given: a
    search that finds no interaction point leaves [end] at 0, and the loop
    either panics on a negative length or starts again from the first
    point, for ever. *)
Theorem forEachNonInteractingSegment_unanchored (seq : Sequence)
    (interactions : gset XY) (z : XY) :
  2 <= length seq -> last seq = Some z -> z ∉ interactions ->
  segmentsOf seq interactions = None /\
  forall (St : Type) (fn : list XY -> St -> option St) (fuel : nat) (s : St),
    segmentLoop fuel seq interactions fn 0 s = None.
Proof.
  intros Hlen Hlast Hz.
  assert (Hloop : forall (St : Type) (fn : list XY -> St -> option St)
                         (fuel i : nat) (s : St),
             i + 1 < length seq ->
             segmentLoop fuel seq interactions fn i s = None).
  { intros St fn. induction fuel as [|fuel IH]; intros i s Hi; [reflexivity|].
    cbn [segmentLoop].
    destruct (Nat.ltb_spec (i + 1) (length seq)) as [_|Hbad]; [|lia].
    pose proof (nextInteraction_cases interactions (drop (i + 1) seq) (i + 1))
      as He.
    set (e := nextInteraction interactions (drop (i + 1) seq) (i + 1)) in *.
    destruct (e + 1 <? i); [reflexivity|].
    destruct (fn (take (e + 1 - i) (drop i seq)) s) as [s'|];
      [|reflexivity].
    cbn [mbind option_bind]. apply IH.
    destruct He as [->|(Hrange & b & Hb & HbI)]; [lia|].
    rewrite length_drop in Hrange. rewrite lookup_drop in Hb.
    replace (i + 1 + (e - (i + 1))) with e in Hb by lia.
    destruct (Nat.eq_dec (e + 1) (length seq)) as [Hend|Hne]; [|lia].
    rewrite last_lookup in Hlast.
    replace (pred (length seq)) with e in Hlast by lia.
    assert (b = z) by congruence. subst b. contradiction. }
  split.
  - apply Hloop. lia.
  - intros St fn fuel s. apply Hloop. lia.
Qed.

(** ** The list of a multi point *)

(** What [newDCELFromMultiPoint] keeps at every turn. *)
Definition PointsOnly (mask : Z) (seen : list (option XY))
    (d : doublyConnectedEdgeList) : Prop :=
  faces d = [] /\ halfEdges d = [] /\ edgeStore d = [] /\
  (forall xy : XY, is_Some (vertices d !! xy) <-> Some xy ∈ seen) /\
  (forall (xy : XY) (v : nat),
      vertices d !! xy = Some v ->
      vertexStore d !! v
      = Some (mkVertexRecord xy [] mask (Z.land mask locInterior))).

Lemma multiPointStep_spec (mask : Z) (seen : list (option XY))
    (d : doublyConnectedEdgeList) (pt : option XY) :
  PointsOnly mask seen d ->
  exists d' : doublyConnectedEdgeList,
    multiPointStep mask d pt = Some d' /\ PointsOnly mask (seen ++ [pt]) d'.
Proof.
  intros (Hf & Hh & He & Hkeys & Hrec).
  destruct pt as [xy|]; cbn [multiPointStep].
  2:{ exists d. split; [reflexivity|].
      split; [exact Hf|]. split; [exact Hh|]. split; [exact He|].
      split; [|exact Hrec].
      intros xy. rewrite Hkeys, elem_of_app, list_elem_of_singleton.
      split; [auto|]. intros [Hin|Heq]; [exact Hin|discriminate Heq]. }
  destruct (vertices d !! xy) as [v|] eqn:Hv.
  - rewrite Hv. cbn [mbind option_bind]. rewrite (Hrec xy v Hv).
    cbn [mbind option_bind coords incidents label locLabel].
    rewrite Z.lor_diag.
    eexists. split; [reflexivity|].
    unfold withVertexStore. cbn [faces halfEdges edgeStore vertices vertexStore].
    split; [exact Hf|]. split; [exact Hh|]. split; [exact He|]. split.
    + intros xy'. cbn [vertices]. rewrite Hkeys, elem_of_app, list_elem_of_singleton.
      split; [auto|]. intros [Hin|Heq]; [exact Hin|].
      inversion Heq; subst. apply Hkeys. eauto.
    + intros xy' v' Hv'. cbn [vertices vertexStore] in Hv' |- *.
      destruct (decide (v' = v)) as [->|Hne].
      * pose proof (Hrec xy' v Hv') as H1. pose proof (Hrec xy v Hv) as H2.
        assert (xy' = xy) by congruence. subst xy'.
        rewrite list_lookup_insert_eq; [reflexivity|].
        eapply lookup_lt_Some; eauto.
      * rewrite list_lookup_insert_ne by congruence. apply Hrec. exact Hv'.
  - unfold newVertex. cbn [vertices vertexStore].
    rewrite lookup_insert_eq. cbn [mbind option_bind].
    rewrite lookup_app_r by lia. rewrite Nat.sub_diag.
    cbn [lookup list_lookup mbind option_bind coords incidents label locLabel].
    rewrite Z.lor_0_l.
    eexists. split; [reflexivity|].
    unfold withVertexStore. cbn [faces halfEdges edgeStore vertices vertexStore].
    split; [exact Hf|]. split; [exact Hh|]. split; [exact He|]. split.
    + intros xy'. cbn [vertices]. rewrite elem_of_app, list_elem_of_singleton.
      destruct (decide (xy' = xy)) as [->|Hne].
      * rewrite lookup_insert_eq. split; [auto|eauto].
      * rewrite lookup_insert_ne by congruence. rewrite Hkeys.
        split; [auto|]. intros [Hin|Heq]; [exact Hin|congruence].
    + intros xy' v' Hv'. cbn [vertices vertexStore] in Hv' |- *.
      destruct (decide (xy' = xy)) as [->|Hne].
      * rewrite lookup_insert_eq in Hv'. inversion Hv'; subst v'.
        rewrite list_lookup_insert_eq by (rewrite length_app; cbn [length]; lia).
        reflexivity.
      * rewrite lookup_insert_ne in Hv' by congruence.
        pose proof (Hrec xy' v' Hv') as Hr.
        pose proof (lookup_lt_Some _ _ _ Hr) as Hlt.
        rewrite list_lookup_insert_ne by lia.
        rewrite lookup_app_l by lia. exact Hr.
Qed.

Lemma multiPointLoop_spec (mask : Z) :
  forall (mp seen : list (option XY)) (d : doublyConnectedEdgeList),
    PointsOnly mask seen d ->
    exists d' : doublyConnectedEdgeList,
      foldOption (multiPointStep mask) mp d = Some d' /\
      PointsOnly mask (seen ++ mp) d'.
Proof.
  induction mp as [|pt mp IH]; intros seen d Hinv.
  - exists d. split; [reflexivity|]. now rewrite app_nil_r.
  - cbn [foldOption].
    destruct (multiPointStep_spec mask seen d pt Hinv) as (d1 & Hstep & Hinv1).
    rewrite Hstep. cbn [mbind option_bind].
    destruct (IH (seen ++ [pt]) d1 Hinv1) as (d' & Hrun & Hinv').
    exists d'. split; [exact Hrun|]. now rewrite <- app_assoc in Hinv'.
Qed.

(** X14. [newDCELFromMultiPoint] returns a list with no face and no
    half-edge whose vertex map has exactly the coordinates of the points
    that are not empty as its keys, a point given twice having one vertex;
    the record of each vertex has those coordinates, no incident edge, the
    label [mask] and the location label [mask & locInterior]. *)
Theorem newDCELFromMultiPoint_vertices (mp : list (option XY)) (mask : Z) :
  exists d : doublyConnectedEdgeList,
    newDCELFromMultiPoint mp mask = Some d /\
    faces d = [] /\ halfEdges d = [] /\ edgeStore d = [] /\
    (forall xy : XY, is_Some (vertices d !! xy) <-> Some xy ∈ mp) /\
    (forall (xy : XY) (v : nat),
        vertices d !! xy = Some v ->
        vertexStore d !! v
        = Some (mkVertexRecord xy [] mask (Z.land mask locInterior))).
Proof.
  unfold newDCELFromMultiPoint.
  assert (Hinit : PointsOnly mask [] (mkDCEL [] [] ∅ [] [])).
  { split; [reflexivity|]. split; [reflexivity|]. split; [reflexivity|]. split.
    - intros xy. cbn [vertices]. rewrite lookup_empty.
      split; [intros [v Hv]; discriminate Hv|intros Hin; inversion Hin].
    - intros xy v Hv. cbn [vertices] in Hv. rewrite lookup_empty in Hv.
      discriminate Hv. }
  destruct (multiPointLoop_spec mask mp [] (mkDCEL [] [] ∅ [] []) Hinit)
    as (d & Hrun & Hinv).
  exists d. split; [exact Hrun|]. exact Hinv.
Qed.

(** ** Walking a ring *)

(** The address of the first edge of ring [k], two edges being made for
    each segment of the rings before it. *)
Definition ringStart (interactions : gset XY) (rings : list Sequence)
    (k : nat) : nat :=
  sum_list (take k (map (ringEdges interactions) rings)).

Lemma readOnly_spec {St : Type} (fn : nat -> St -> option St) (e : nat)
    (store : list halfEdgeRecord) (s : St) :
  readOnly fn e (store, s) = (s' ← fn e s; Some (store, s')).
Proof. reflexivity. Qed.

Lemma forEachEdgeLoop_ring {St : Type} (store : list halfEdgeRecord)
    (base m : nat) (fn : nat -> St -> option St) :
  RingWired store base (2 * m) ->
  forall (j fuel i : nat) (s : St),
    0 < j -> i + j = m -> j <= fuel ->
    forEachEdgeLoop fuel base (base + 2 * i) (readOnly fn) (store, s)
    = (s' ← foldOption (fun s e => fn e s)
              (map (fun i => base + 2 * i) (List.seq i j)) s;
       Some (store, s')).
Proof.
  intros (_ & _ & Hwired).
  induction j as [|j IH]; intros fuel i s Hj Hij Hfuel; [lia|].
  destruct fuel as [|fuel]; [lia|].
  cbn [forEachEdgeLoop List.seq map foldOption]. rewrite readOnly_spec.
  destruct (fn (base + 2 * i) s) as [s1|]; [|reflexivity].
  cbn [mbind option_bind fst].
  assert (Hi : i < m) by lia.
  destruct (WiredAt_fields store base m i Hi) as (r0 & r1 & H0 & _ & Hn & _).
  { apply Hwired.
    replace (2 * m / 2) with m
      by (symmetry; rewrite Nat.mul_comm; apply Nat.div_mul; lia).
    exact Hi. }
  rewrite H0. cbn [mbind option_bind]. rewrite Hn. cbn [mbind option_bind].
  destruct (Nat.ltb_spec (i + 1) m) as [Hmore|Hlast].
  - destruct (decide (base + (2 * i + 2) = base)) as [Hbad|_]; [lia|].
    replace (base + (2 * i + 2)) with (base + 2 * S i) by lia.
    apply IH; lia.
  - destruct (decide (base + 0 = base)) as [_|Hbad]; [|lia].
    assert (j = 0) by lia. subst j. reflexivity.
Qed.

Lemma forEachEdge_ring {St : Type} (store : list halfEdgeRecord)
    (base n fuel : nat) (fn : nat -> St -> option St) (s : St) :
  RingWired store base n -> 0 < n -> n / 2 <= fuel ->
  forEachEdge fuel base (readOnly fn) (store, s)
  = (s' ← foldOption (fun s e => fn e s)
            (map (fun i => base + 2 * i) (List.seq 0 (n / 2))) s;
     Some (store, s')).
Proof.
  intros Hwired Hn Hfuel.
  destruct (proj1 Hwired) as [m Hm]. subst n.
  assert (Hhalf : 2 * m / 2 = m)
    by (rewrite Nat.mul_comm; apply Nat.div_mul; lia).
  rewrite Hhalf in *. unfold forEachEdge.
  replace base with (base + 2 * 0) at 2 by lia.
  apply (forEachEdgeLoop_ring store base m fn Hwired m fuel 0 s);
    [lia|lia|exact Hfuel].
Qed.

(** X15. In the list [newDCELFromMultiPolygon] returns for rings that
    start and end at an interaction point, [forEachEdge] from the first
    edge of a ring returns, and runs the callback once on each internal
    edge of that ring, in the order in which they were made, and on no
    other edge. The callback here leaves the records as they are. *)
Theorem forEachEdge_newDCELFromMultiPolygon (mp : MultiPolygon) (mask : Z)
    (interactions : gset XY) :
  Forall (RingAnchored interactions) (ringsOf (ForceCCW mp)) ->
  exists d : doublyConnectedEdgeList,
    newDCELFromMultiPolygon mp mask interactions = Some d /\
    forall (k n : nat),
      map (ringEdges interactions) (ringsOf (ForceCCW mp)) !! k = Some n ->
      0 < n ->
      forall (St : Type) (fn : nat -> St -> option St) (fuel : nat) (s : St),
        n / 2 <= fuel ->
        forEachEdge fuel (ringStart interactions (ringsOf (ForceCCW mp)) k)
          (readOnly fn) (edgeStore d, s)
        = (s' ← foldOption (fun s e => fn e s)
                  (map (fun i =>
                          ringStart interactions (ringsOf (ForceCCW mp)) k
                          + 2 * i)
                     (List.seq 0 (n / 2))) s;
           Some (edgeStore d, s')).
Proof.
  intros Hanch. unfold newDCELFromMultiPolygon.
  destruct (addPolygons_spec mask interactions (ForceCCW mp) []
              (mkDCEL [] [] ∅ [] []))
    as (d & Hrun & _ & Hlaid); auto.
  - intros xy v Hxy. cbn [vertices] in Hxy. rewrite lookup_empty in Hxy.
    discriminate.
  - split; [reflexivity|]. split; [reflexivity|].
    intros k n Hk. rewrite lookup_nil in Hk. discriminate.
  - exists d. split; [exact Hrun|]. cbn [app] in Hlaid.
    destruct Hlaid as (_ & _ & Hrings).
    intros k n Hk Hn St fn fuel s Hfuel. unfold ringStart.
    apply forEachEdge_ring; [apply Hrings; exact Hk|exact Hn|exact Hfuel].
Qed.

(** ** The twins *)

(** The records lie in pairs, an internal edge at an even address and its
    external edge next to it, each the twin of the other. *)
Definition Twinned (mask : Z) (store : list halfEdgeRecord) : Prop :=
  Nat.Even (length store) /\
  forall (k : nat) (r0 r1 : halfEdgeRecord),
    store !! (2 * k) = Some r0 -> store !! (2 * k + 1) = Some r1 ->
    twin r0 = Some (2 * k + 1) /\ twin r1 = Some (2 * k) /\
    intermediate r1 = reverseXYs (intermediate r0) /\
    edgeLabel r0 = mask /\ edgeLabel r1 = mask /\
    faceLabel r0 = mask /\ faceLabel r1 = Z.land mask populatedMask /\
    incident r0 = None /\ incident r1 = None.

(** The records of [store'] are those of [store] but for [next] and
    [prev]. *)
Definition SameButLinks (store store' : list halfEdgeRecord) : Prop :=
  length store' = length store /\
  forall (e : nat) (r' : halfEdgeRecord),
    store' !! e = Some r' ->
    exists r : halfEdgeRecord,
      store !! e = Some r /\ origin r' = origin r /\ twin r' = twin r /\
      incident r' = incident r /\ intermediate r' = intermediate r /\
      edgeLabel r' = edgeLabel r /\ faceLabel r' = faceLabel r.

Lemma SameButLinks_refl (store : list halfEdgeRecord) : SameButLinks store store.
Proof. split; [reflexivity|]. intros e r Hr. exists r. repeat split; auto. Qed.

Lemma SameButLinks_trans (s1 s2 s3 : list halfEdgeRecord) :
  SameButLinks s1 s2 -> SameButLinks s2 s3 -> SameButLinks s1 s3.
Proof.
  intros [L12 H12] [L23 H23]. split; [congruence|].
  intros e r3 Hr3.
  destruct (H23 e r3 Hr3) as (r2 & Hr2 & A1 & A2 & A3 & A4 & A5 & A6).
  destruct (H12 e r2 Hr2) as (r1 & Hr1 & B1 & B2 & B3 & B4 & B5 & B6).
  exists r1. repeat split; congruence.
Qed.

Lemma SameButLinks_setNext (store store' : list halfEdgeRecord) (e target : nat) :
  setNext e target store = Some store' -> SameButLinks store store'.
Proof.
  unfold setNext. destruct (store !! e) as [r|] eqn:Hr; [|discriminate].
  cbn [mbind option_bind]. intros Hrun. inversion Hrun; subst store'. clear Hrun.
  split; [apply length_insert|].
  intros e' r' Hr'. destruct (decide (e = e')) as [->|Hne].
  - rewrite list_lookup_insert_eq in Hr' by (eapply lookup_lt_Some; eauto).
    inversion Hr'; subst r'. exists r. repeat split; auto.
  - rewrite list_lookup_insert_ne in Hr' by exact Hne. exists r'.
    repeat split; auto.
Qed.

Lemma SameButLinks_setPrev (store store' : list halfEdgeRecord) (e target : nat) :
  setPrev e target store = Some store' -> SameButLinks store store'.
Proof.
  unfold setPrev. destruct (store !! e) as [r|] eqn:Hr; [|discriminate].
  cbn [mbind option_bind]. intros Hrun. inversion Hrun; subst store'. clear Hrun.
  split; [apply length_insert|].
  intros e' r' Hr'. destruct (decide (e = e')) as [->|Hne].
  - rewrite list_lookup_insert_eq in Hr' by (eapply lookup_lt_Some; eauto).
    inversion Hr'; subst r'. exists r. repeat split; auto.
  - rewrite list_lookup_insert_ne in Hr' by exact Hne. exists r'.
    repeat split; auto.
Qed.

Lemma SameButLinks_linkStep (newEdges : list nat) (i : nat)
    (store store' : list halfEdgeRecord) :
  linkStep newEdges i store = Some store' -> SameButLinks store store'.
Proof.
  unfold linkStep. intros Hrun.
  repeat match type of Hrun with
         | mbind _ ?m = Some _ =>
             let E := fresh "E" in
             destruct m eqn:E;
             [cbn [mbind option_bind] in Hrun|discriminate Hrun]
         end.
  repeat match goal with
         | E : setNext _ _ _ = Some _ |- _ => apply SameButLinks_setNext in E
         | E : setPrev _ _ _ = Some _ |- _ => apply SameButLinks_setPrev in E
         end.
  eauto using SameButLinks_trans.
Qed.

Lemma SameButLinks_linkLoop (newEdges : list nat) :
  forall (steps i : nat) (store store' : list halfEdgeRecord),
    linkLoop steps newEdges i store = Some store' -> SameButLinks store store'.
Proof.
  induction steps as [|steps IH]; intros i store store' Hrun.
  - inversion Hrun; subst. apply SameButLinks_refl.
  - cbn [linkLoop] in Hrun.
    destruct (linkStep newEdges i store) as [s1|] eqn:Hstep; [|discriminate].
    cbn [mbind option_bind] in Hrun.
    eapply SameButLinks_trans;
      [eapply SameButLinks_linkStep; eauto|eapply IH; eauto].
Qed.

Lemma Twinned_SameButLinks (mask : Z) (store store' : list halfEdgeRecord) :
  SameButLinks store store' -> Twinned mask store -> Twinned mask store'.
Proof.
  intros [Hlen Hsame] [Heven Hpairs]. split; [now rewrite Hlen|].
  intros k r0' r1' H0 H1.
  destruct (Hsame _ _ H0) as (r0 & Hr0 & _ & A2 & A3 & A4 & A5 & A6).
  destruct (Hsame _ _ H1) as (r1 & Hr1 & _ & B2 & B3 & B4 & B5 & B6).
  destruct (Hpairs k r0 r1 Hr0 Hr1) as (C1 & C2 & C3 & C4 & C5 & C6 & C7 & C8 & C9).
  repeat split; congruence.
Qed.

Lemma Twinned_pair (mask : Z) (store : list halfEdgeRecord)
    (vertA vertB : option nat) (fwd : list XY) :
  Twinned mask store ->
  Twinned mask
    (store ++
     [mkHalfEdgeRecord vertA (Some (S (length store))) None None None fwd mask
        mask;
      mkHalfEdgeRecord vertB (Some (length store)) None None None
        (reverseXYs fwd) mask (Z.land mask populatedMask)]).
Proof.
  intros [[m Hm] Hpairs]. split.
  - exists (S m). rewrite length_app. cbn [length]. lia.
  - intros k r0 r1 H0 H1.
    destruct (Nat.lt_ge_cases (2 * k) (length store)) as [Hlt|Hge].
    + rewrite lookup_app_l in H0 by lia. rewrite lookup_app_l in H1 by lia.
      exact (Hpairs k r0 r1 H0 H1).
    + rewrite lookup_app_r in H0 by lia. rewrite lookup_app_r in H1 by lia.
      destruct (Nat.eq_dec (2 * k) (length store)) as [Heq|Hne].
      * replace (2 * k - length store) with 0 in H0 by lia.
        replace (2 * k + 1 - length store) with 1 in H1 by lia.
        cbn in H0, H1. inversion H0; subst r0. inversion H1; subst r1.
        cbn [twin intermediate edgeLabel faceLabel incident].
        rewrite <- Heq. repeat split; try reflexivity. f_equal. lia.
      * assert (2 <= 2 * k - length store) by lia.
        destruct (2 * k - length store) as [|[|j]] eqn:E; try lia.
        cbn in H0. discriminate H0.
Qed.

Lemma ringSegment_store (mask : Z) (segment : list XY)
    (d d' : doublyConnectedEdgeList) (newEdges newEdges' : list nat) :
  ringSegment mask segment (d, newEdges) = Some (d', newEdges') ->
  exists (vertA vertB : option nat) (fwd : list XY),
    edgeStore d' =
    edgeStore d ++
    [mkHalfEdgeRecord vertA (Some (S (length (edgeStore d)))) None None None
       fwd mask mask;
     mkHalfEdgeRecord vertB (Some (length (edgeStore d))) None None None
       (reverseXYs fwd) mask (Z.land mask populatedMask)].
Proof.
  intros Hrun. unfold ringSegment in Hrun.
  destruct (length segment <? 2); [discriminate|].
  destruct (segment !! 0) as [pa|]; [|discriminate].
  cbn [mbind option_bind] in Hrun.
  destruct (segment !! (length segment - 1)) as [pb|]; [|discriminate].
  cbn [mbind option_bind] in Hrun.
  match type of Hrun with
  | context [appendIncident ?va ?e ?d1] =>
      destruct (appendIncident va e d1) as [d2|] eqn:Hrun2; [|discriminate]
  end.
  cbn [mbind option_bind] in Hrun.
  match type of Hrun with
  | context [appendIncident ?vb ?e d2] =>
      destruct (appendIncident vb e d2) as [d3|] eqn:Hrun3; [|discriminate]
  end.
  cbn [mbind option_bind] in Hrun. inversion Hrun; subst d' newEdges'.
  clear Hrun.
  assert (Hkeep : forall v e da db,
             appendIncident v e da = Some db -> edgeStore db = edgeStore da).
  { intros v e da db Happ. unfold appendIncident in Happ.
    destruct v as [p|]; [|discriminate]. cbn [mbind option_bind] in Happ.
    destruct (vertexStore da !! p); [|discriminate].
    cbn [mbind option_bind] in Happ. inversion Happ; subst db. reflexivity. }
  rewrite (Hkeep _ _ _ _ Hrun3), (Hkeep _ _ _ _ Hrun2).
  eexists _, _, _. reflexivity.
Qed.

Lemma Twinned_addRing (mask : Z) (interactions : gset XY)
    (d d' : doublyConnectedEdgeList) (ring : Sequence) :
  Twinned mask (edgeStore d) -> addRing mask interactions d ring = Some d' ->
  Twinned mask (edgeStore d').
Proof.
  intros Ht Hrun. unfold addRing in Hrun.
  destruct (forEachNonInteractingSegment ring interactions (ringSegment mask)
              (d, [])) as [[d1 newEdges]|] eqn:Hloop; [|discriminate].
  cbn [mbind option_bind] in Hrun.
  destruct (linkLoop _ newEdges 0 (edgeStore d1)) as [store|] eqn:Hlink;
    [|discriminate].
  cbn [mbind option_bind] in Hrun. inversion Hrun; subst d'. clear Hrun.
  cbn [withHalfEdges withEdgeStore edgeStore].
  eapply Twinned_SameButLinks; [eapply SameButLinks_linkLoop; exact Hlink|].
  unfold forEachNonInteractingSegment in Hloop.
  eapply (segmentLoop_invariant
            (fun st => Twinned mask (edgeStore (fst st)))) in Hloop;
    [exact Hloop| |exact Ht].
  intros segment [da na] [db nb] Ha Hstep. cbn [fst] in *.
  destruct (ringSegment_store mask segment da db na nb Hstep)
    as (vertA & vertB & fwd & ->).
  apply Twinned_pair. exact Ha.
Qed.

Lemma Twinned_addPolygon (mask : Z) (interactions : gset XY)
    (d d' : doublyConnectedEdgeList) (poly : Polygon) :
  Twinned mask (edgeStore d) -> addPolygon mask interactions d poly = Some d' ->
  Twinned mask (edgeStore d').
Proof.
  intros Ht Hrun. unfold addPolygon in Hrun.
  eapply (foldOption_invariant (fun d => Twinned mask (edgeStore d))) in Hrun;
    [exact Hrun| |].
  - intros s ring s'. apply Twinned_addRing.
  - destruct (populateRings_spec mask interactions
                (ExteriorRing poly :: InteriorRings poly) d)
      as [(_ & _ & Hstore & _) _].
    rewrite Hstore. exact Ht.
Qed.

(** X16. For rings that start and end at an interaction point,
    [newDCELFromMultiPolygon] returns a list in which every half-edge has a
    twin that is another half-edge of the list, whose twin it is in turn;
    the twin runs through the same intermediate points in reverse order;
    both carry the edge label [mask], and one of the two (the internal
    edge) the face label [mask], the other [mask & populatedMask]. *)
Theorem newDCELFromMultiPolygon_twins (mp : MultiPolygon) (mask : Z)
    (interactions : gset XY) :
  Forall (RingAnchored interactions) (ringsOf (ForceCCW mp)) ->
  exists d : doublyConnectedEdgeList,
    newDCELFromMultiPolygon mp mask interactions = Some d /\
    forall e : nat, e ∈ halfEdges d ->
      exists (r rt : halfEdgeRecord) (t : nat),
        edgeStore d !! e = Some r /\ twin r = Some t /\
        t ∈ halfEdges d /\ t <> e /\
        edgeStore d !! t = Some rt /\ twin rt = Some e /\
        intermediate rt = reverseXYs (intermediate r) /\
        edgeLabel r = mask /\ edgeLabel rt = mask /\
        ((faceLabel r = mask /\ faceLabel rt = Z.land mask populatedMask) \/
         (faceLabel r = Z.land mask populatedMask /\ faceLabel rt = mask)).
Proof.
  intros Hanch. unfold newDCELFromMultiPolygon.
  destruct (addPolygons_spec mask interactions (ForceCCW mp) []
              (mkDCEL [] [] ∅ [] []))
    as (d & Hrun & _ & Hlaid); auto.
  - intros xy v Hxy. cbn [vertices] in Hxy. rewrite lookup_empty in Hxy.
    discriminate.
  - split; [reflexivity|]. split; [reflexivity|].
    intros k n Hk. rewrite lookup_nil in Hk. discriminate.
  - exists d. split; [exact Hrun|].
    assert (Ht : Twinned mask (edgeStore d)).
    { eapply (foldOption_invariant (fun d => Twinned mask (edgeStore d)))
        in Hrun; [exact Hrun| |].
      - intros s poly s'. apply Twinned_addPolygon.
      - split; [exists 0; reflexivity|].
        intros k r0 r1 H0. cbn [edgeStore] in H0. rewrite lookup_nil in H0.
        discriminate. }
    destruct Hlaid as (Hlen & Hedges & _). cbn [app] in Hlen, Hedges.
    destruct Ht as [[m Hm] Hpairs].
    intros e He. rewrite Hedges in He.
    apply list_elem_of_In, List.in_seq in He.
    assert (Hin : forall a, a < length (edgeStore d) -> a ∈ halfEdges d).
    { intros a Ha. rewrite Hedges. apply list_elem_of_In, List.in_seq. lia. }
    destruct (Nat.Even_or_Odd e) as [[k Hk]|[k Hk]].
    + destruct (lookup_lt_is_Some_2 (edgeStore d) (2 * k) ltac:(lia)) as [r0 H0].
      destruct (lookup_lt_is_Some_2 (edgeStore d) (2 * k + 1) ltac:(lia))
        as [r1 H1].
      destruct (Hpairs k r0 r1 H0 H1)
        as (C1 & C2 & C3 & C4 & C5 & C6 & C7 & _).
      subst e. exists r0, r1, (2 * k + 1).
      repeat split; auto; [apply Hin; lia|lia].
    + destruct (lookup_lt_is_Some_2 (edgeStore d) (2 * k) ltac:(lia)) as [r0 H0].
      destruct (lookup_lt_is_Some_2 (edgeStore d) (2 * k + 1) ltac:(lia))
        as [r1 H1].
      destruct (Hpairs k r0 r1 H0 H1)
        as (C1 & C2 & C3 & C4 & C5 & C6 & C7 & _).
      subst e. exists r1, r0, (2 * k).
      repeat split; auto; [apply Hin; lia|lia|].
      rewrite C3. unfold reverseXYs. now rewrite reverse_involutive.
Qed.

(** ** The list of a multi line string: the vertices *)

Lemma lineVertex_spec (mask : Z) (interactions : gset XY) (closed : bool)
    (n j : nat) (xy : XY) (d : doublyConnectedEdgeList) :
  VCoords d ->
  exists d' : doublyConnectedEdgeList,
    lineVertex mask interactions closed n j xy d = Some d' /\
    VCoords d' /\
    faces d' = faces d /\ halfEdges d' = halfEdges d /\
    edgeStore d' = edgeStore d /\
    (forall xy', is_Some (vertices d !! xy') -> is_Some (vertices d' !! xy')) /\
    (xy ∈ interactions -> is_Some (vertices d' !! xy)).
Proof.
  intros HV. unfold lineVertex.
  destruct (decide (xy ∈ interactions)) as [Hin|Hout].
  2:{ exists d. repeat split; auto. intros Hbad. contradiction. }
  destruct (vertices d !! xy) as [v|] eqn:Hv.
  - destruct (HV xy v Hv) as (r & Hr & Hc). rewrite Hr.
    cbn [mbind option_bind]. eexists. split; [reflexivity|].
    unfold withVertexStore. cbn [faces halfEdges edgeStore vertices vertexStore].
    split; [|repeat split; auto; intros _; rewrite Hv; eauto].
    intros xy' v' Hv'. cbn [vertices vertexStore] in Hv' |- *.
    destruct (HV xy' v' Hv') as (r' & Hr' & Hc').
    destruct (decide (v' = v)) as [->|Hne].
    + rewrite list_lookup_insert_eq by (eapply lookup_lt_Some; eauto).
      eexists. split; [reflexivity|]. cbn [coords]. congruence.
    + rewrite list_lookup_insert_ne by congruence. eauto.
  - eexists. split; [reflexivity|].
    unfold newVertex. cbn [faces halfEdges edgeStore vertices vertexStore].
    split.
    { intros xy' v' Hv'. cbn [vertices vertexStore] in Hv' |- *.
      destruct (decide (xy' = xy)) as [->|Hne].
      - rewrite lookup_insert_eq in Hv'. inversion Hv'; subst v'.
        rewrite lookup_app_r by lia. rewrite Nat.sub_diag.
        eexists. split; [reflexivity|]. reflexivity.
      - rewrite lookup_insert_ne in Hv' by congruence.
        destruct (HV xy' v' Hv') as (r' & Hr' & Hc').
        rewrite lookup_app_l by (eapply lookup_lt_Some; eauto). eauto. }
    repeat split; auto.
    + intros xy' [v' Hv']. destruct (decide (xy' = xy)) as [->|Hne].
      * rewrite lookup_insert_eq. eauto.
      * rewrite lookup_insert_ne by congruence. eauto.
    + intros _. rewrite lookup_insert_eq. eauto.
Qed.

Lemma lineVertices_spec (mask : Z) (interactions : gset XY) (closed : bool)
    (n : nat) :
  forall (rest : list XY) (j : nat) (d : doublyConnectedEdgeList),
    VCoords d ->
    exists d' : doublyConnectedEdgeList,
      lineVertices mask interactions closed n j rest d = Some d' /\
      VCoords d' /\
      faces d' = faces d /\ halfEdges d' = halfEdges d /\
      edgeStore d' = edgeStore d /\
      (forall xy', is_Some (vertices d !! xy') -> is_Some (vertices d' !! xy')) /\
      Known interactions d' rest.
Proof.
  induction rest as [|xy rest IH]; intros j d HV.
  - exists d. repeat split; auto. intros xy Hin. inversion Hin.
  - cbn [lineVertices].
    destruct (lineVertex_spec mask interactions closed n j xy d HV)
      as (d1 & Hstep & HV1 & Hf1 & Hh1 & He1 & Hkeep1 & Hnew1).
    rewrite Hstep. cbn [mbind option_bind].
    destruct (IH (S j) d1 HV1)
      as (d' & Hrun & HV' & Hf' & Hh' & He' & Hkeep' & Hknown').
    exists d'. split; [exact Hrun|]. split; [exact HV'|].
    split; [congruence|]. split; [congruence|]. split; [congruence|].
    split; [auto|].
    intros xy' Hin HI. apply elem_of_cons in Hin as [->|Hin].
    + apply Hkeep'. apply Hnew1. exact HI.
    + apply Hknown'; assumption.
Qed.

Lemma lineVertices_all (mask : Z) (interactions : gset XY) :
  forall (mls : MultiLineString) (d : doublyConnectedEdgeList),
    VCoords d ->
    exists d' : doublyConnectedEdgeList,
      foldOption
        (fun d seq =>
           lineVertices mask interactions (IsClosed seq) (length seq) 0 seq d)
        mls d = Some d' /\
      VCoords d' /\
      faces d' = faces d /\ halfEdges d' = halfEdges d /\
      edgeStore d' = edgeStore d /\
      (forall xy', is_Some (vertices d !! xy') -> is_Some (vertices d' !! xy')) /\
      Forall (Known interactions d') mls.
Proof.
  induction mls as [|seq mls IH]; intros d HV.
  - exists d. repeat split; auto.
  - cbn [foldOption].
    destruct (lineVertices_spec mask interactions (IsClosed seq) (length seq)
                seq 0 d HV)
      as (d1 & Hstep & HV1 & Hf1 & Hh1 & He1 & Hkeep1 & Hknown1).
    rewrite Hstep. cbn [mbind option_bind].
    destruct (IH d1 HV1)
      as (d' & Hrun & HV' & Hf' & Hh' & He' & Hkeep' & Hknown').
    exists d'. split; [exact Hrun|]. split; [exact HV'|].
    split; [congruence|]. split; [congruence|]. split; [congruence|].
    split; [auto|].
    constructor; [|exact Hknown'].
    intros xy Hin HI. apply Hkeep'. apply Hknown1; assumption.
Qed.

(** ** The list of a multi line string: the edges *)

Definition reverseRun (t : XY * list XY * XY) : XY * list XY * XY :=
  let '(start, intermediate, end_) := t in
  (end_, reverseXYs intermediate, start).

Lemma reverseRun_involutive (t : XY * list XY * XY) :
  reverseRun (reverseRun t) = t.
Proof.
  destruct t as [[s i] e]. unfold reverseRun, reverseXYs.
  now rewrite reverse_involutive.
Qed.

(** The two records made for a run, at the addresses [a] and [a + 1]. *)
Definition fwdRecord (vs : gmap XY nat) (mask : Z) (a : nat)
    (t : XY * list XY * XY) : halfEdgeRecord :=
  let '(start, intermediate, end_) := t in
  mkHalfEdgeRecord (vs !! start) (Some (S a)) None (Some (S a)) (Some (S a))
    intermediate mask (Z.land mask populatedMask).

Definition revRecord (vs : gmap XY nat) (mask : Z) (a : nat)
    (t : XY * list XY * XY) : halfEdgeRecord :=
  let '(start, intermediate, end_) := t in
  mkHalfEdgeRecord (vs !! end_) (Some a) None (Some a) (Some a)
    (reverseXYs intermediate) mask (Z.land mask populatedMask).

Fixpoint lineRecords (vs : gmap XY nat) (mask : Z) (base : nat)
    (made : list (XY * list XY * XY)) : list halfEdgeRecord :=
  match made with
  | [] => []
  | t :: rest =>
      fwdRecord vs mask base t :: revRecord vs mask base t ::
      lineRecords vs mask (S (S base)) rest
  end.

Lemma lineRecords_length (vs : gmap XY nat) (mask : Z) :
  forall (made : list (XY * list XY * XY)) (base : nat),
    length (lineRecords vs mask base made) = 2 * length made.
Proof.
  induction made as [|t made IH]; intros base; [reflexivity|].
  cbn [lineRecords length]. rewrite IH. lia.
Qed.

Lemma lineRecords_snoc (vs : gmap XY nat) (mask : Z) (t : XY * list XY * XY) :
  forall (made : list (XY * list XY * XY)) (base : nat),
    lineRecords vs mask base (made ++ [t])
    = lineRecords vs mask base made ++
      [fwdRecord vs mask (base + 2 * length made) t;
       revRecord vs mask (base + 2 * length made) t].
Proof.
  induction made as [|t' made IH]; intros base.
  - cbn [app lineRecords length]. now replace (base + 2 * 0) with base by lia.
  - cbn [app lineRecords length]. rewrite IH.
    replace (S (S base) + 2 * length made) with (base + 2 * S (length made))
      by lia.
    reflexivity.
Qed.

Lemma lineRecords_lookup (vs : gmap XY nat) (mask : Z) :
  forall (made : list (XY * list XY * XY)) (base k : nat)
         (t : XY * list XY * XY),
    made !! k = Some t ->
    lineRecords vs mask base made !! (2 * k)
    = Some (fwdRecord vs mask (base + 2 * k) t) /\
    lineRecords vs mask base made !! (2 * k + 1)
    = Some (revRecord vs mask (base + 2 * k) t).
Proof.
  induction made as [|t' made IH]; intros base k t Hk.
  - rewrite lookup_nil in Hk. discriminate Hk.
  - destruct k as [|k].
    + cbn in Hk. inversion Hk; subst t'. cbn [lineRecords].
      replace (base + 2 * 0) with base by lia. split; reflexivity.
    + cbn in Hk. destruct (IH (S (S base)) k t Hk) as [H0 H1].
      cbn [lineRecords].
      replace (2 * S k) with (S (S (2 * k))) by lia.
      replace (S (S (2 * k)) + 1) with (S (S (2 * k + 1))) by lia.
      cbn [lookup list_lookup].
      replace (base + S (S (2 * k))) with (S (S base) + 2 * k) by lia.
      split; assumption.
Qed.

(** What the loop over the segments keeps: the records are those of the
    runs made so far, [edges] holds these runs and their reverses, and no
    run was made twice, in either direction. *)
Definition LineInv (mask : Z) (vs : gmap XY nat)
    (made : list (XY * list XY * XY))
    (st : doublyConnectedEdgeList * edgeSet) : Prop :=
  vertices (fst st) = vs /\ VCoords (fst st) /\ faces (fst st) = [] /\
  edgeStore (fst st) = lineRecords vs mask 0 made /\
  halfEdges (fst st) = List.seq 0 (2 * length made) /\
  (forall t, t ∈ snd st <->
             exists t', t' ∈ made /\ (t = t' \/ t = reverseRun t')) /\
  (forall k1 k2 t1 t2,
      made !! k1 = Some t1 -> made !! k2 = Some t2 ->
      t1 = t2 \/ t1 = reverseRun t2 -> k1 = k2) /\
  (forall s i e, (s, i, e) ∈ made -> is_Some (vs !! s) /\ is_Some (vs !! e)).

Lemma appendIncident_keeps (d d' : doublyConnectedEdgeList) (v : option nat)
    (e : nat) :
  VCoords d -> appendIncident v e d = Some d' ->
  VCoords d' /\ faces d' = faces d /\ halfEdges d' = halfEdges d /\
  vertices d' = vertices d /\ edgeStore d' = edgeStore d.
Proof.
  intros HV Hrun. unfold appendIncident in Hrun.
  destruct v as [p|]; [|discriminate Hrun]. cbn [mbind option_bind] in Hrun.
  destruct (vertexStore d !! p) as [r|] eqn:Hr; [|discriminate Hrun].
  cbn [mbind option_bind] in Hrun. inversion Hrun; subst d'. clear Hrun.
  unfold withVertexStore. cbn [faces halfEdges vertices edgeStore].
  split; [|repeat split].
  intros xy v Hv. cbn [vertices vertexStore] in Hv |- *.
  destruct (HV xy v Hv) as (r' & Hr' & Hc').
  destruct (decide (v = p)) as [->|Hne].
  - rewrite list_lookup_insert_eq by (eapply lookup_lt_Some; eauto).
    eexists. split; [reflexivity|]. cbn [coords]. congruence.
  - rewrite list_lookup_insert_ne by congruence. eauto.
Qed.

Lemma lineSegment_spec (mask : Z) (vs : gmap XY nat)
    (made : list (XY * list XY * XY)) (d : doublyConnectedEdgeList)
    (edges : edgeSet) (segment : list XY) (s e : XY) :
  LineInv mask vs made (d, edges) ->
  2 <= length segment ->
  segment !! 0 = Some s -> segment !! (length segment - 1) = Some e ->
  is_Some (vs !! s) -> is_Some (vs !! e) ->
  exists (d' : doublyConnectedEdgeList) (edges' : edgeSet)
         (made' : list (XY * list XY * XY)),
    lineSegment mask segment (d, edges) = Some (d', edges') /\
    LineInv mask vs made' (d', edges') /\
    edges ⊆ edges' /\
    (s, take (length segment - 2) (drop 1 segment), e) ∈ edges'.
Proof.
  intros (Hvs & HV & Hf & Hstore & Hhalf & Hset & Hdistinct & Hknown)
    Hlen Hs He [vs_s Hvs_s] [vs_e Hvs_e].
  cbn [fst snd] in Hvs, HV, Hf, Hstore, Hhalf, Hset.
  unfold lineSegment. rewrite Hs, He. cbn [mbind option_bind].
  destruct (Nat.ltb_spec (length segment) 2) as [Hbad|_]; [lia|].
  set (i := take (length segment - 2) (drop 1 segment)).
  unfold containsStartIntermediateEnd.
  destruct (bool_decide_reflect ((s, i, e) ∈ edges)) as [Hin|Hout].
  - exists d, edges, made. split; [reflexivity|].
    split; [unfold LineInv; cbn [fst snd];
            exact (conj Hvs (conj HV (conj Hf (conj Hstore (conj Hhalf
                     (conj Hset (conj Hdistinct Hknown)))))))|].
    split; [intros t Ht; exact Ht|exact Hin].
  - assert (Hrev_out : reverseRun (s, i, e) ∉ edges).
    { intros Hin. apply Hset in Hin as (t' & Ht' & [Heq|Heq]).
      - apply Hout. apply Hset. exists t'. split; [exact Ht'|]. right.
        rewrite <- Heq. now rewrite reverseRun_involutive.
      - apply Hout. apply Hset. exists t'. split; [exact Ht'|]. left.
        rewrite <- (reverseRun_involutive (s, i, e)), Heq.
        now rewrite reverseRun_involutive. }
    rewrite Hvs, Hvs_s, Hvs_e.
    assert (Hlen_s : vs_s < length (vertexStore d)).
    { rewrite <- Hvs in Hvs_s. destruct (HV s vs_s Hvs_s) as (r & Hr & _).
      eapply lookup_lt_Some; eauto. }
    assert (Hlen_e : vs_e < length (vertexStore d)).
    { rewrite <- Hvs in Hvs_e. destruct (HV e vs_e Hvs_e) as (r & Hr & _).
      eapply lookup_lt_Some; eauto. }
    match goal with
    | |- context [appendIncident (Some vs_s) ?a ?d1] =>
        destruct (appendIncident_spec d1 vs_s a Hlen_s)
          as (d2 & Hrun2 & _ & _ & _ & _ & Hlen2);
        pose proof (appendIncident_keeps d1 d2 (Some vs_s) a) as Hkeep2
    end.
    rewrite Hrun2. cbn [mbind option_bind].
    destruct (appendIncident_spec d2 vs_e (S (length (edgeStore d)))
                ltac:(rewrite Hlen2; exact Hlen_e))
      as (d3 & Hrun3 & _ & _ & _ & _ & Hlen3).
    pose proof (appendIncident_keeps d2 d3 (Some vs_e)
                  (S (length (edgeStore d)))) as Hkeep3.
    rewrite Hrun3. cbn [mbind option_bind].
    destruct Hkeep2 as (HV2 & Hf2 & Hh2 & Hvs2 & He2); [exact HV|exact Hrun2|].
    destruct (Hkeep3 HV2 Hrun3) as (HV3 & Hf3 & Hh3 & Hvs3 & He3).
    cbn [withEdgeStore faces halfEdges vertices edgeStore] in Hf2, Hh2, Hvs2, He2.
    eexists _, _, (made ++ [(s, i, e)]). split; [reflexivity|].
    assert (Hmade_len : length (edgeStore d) = 2 * length made)
      by (rewrite Hstore; apply lineRecords_length).
    split; [|split].
    + unfold LineInv, withHalfEdges.
      cbn [fst snd faces halfEdges vertices edgeStore].
      split; [congruence|]. split.
      { intros xy v Hv. cbn [vertices vertexStore] in Hv |- *.
        apply HV3. exact Hv. }
      split; [congruence|]. split.
      { rewrite He3, He2, Hstore, lineRecords_snoc.
        rewrite lineRecords_length. cbn [fwdRecord revRecord].
        rewrite Hvs_s, Hvs_e. reflexivity. }
      split.
      { rewrite Hh3, Hh2, Hhalf, length_app. cbn [length].
        replace (2 * (length made + 1)) with (2 * length made + 2) by lia.
        rewrite seq_app. cbn [List.seq]. rewrite Hmade_len. reflexivity. }
      split.
      { intros t. unfold insertStartIntermediateEnd.
        rewrite !elem_of_union, !elem_of_singleton, Hset. split.
        - intros [Ht|[Ht|(t' & Ht' & Heq)]].
          + exists (s, i, e). split; [apply elem_of_app; right; left|].
            right. exact Ht.
          + exists (s, i, e). split; [apply elem_of_app; right; left|].
            left. exact Ht.
          + exists t'. split; [apply elem_of_app; left; exact Ht'|exact Heq].
        - intros (t' & Ht' & Heq). apply elem_of_app in Ht' as [Ht'|Ht'].
          + right. right. eauto.
          + apply list_elem_of_singleton in Ht'. subst t'.
            destruct Heq as [->| ->]; auto. }
      split.
      { intros k1 k2 t1 t2 H1 H2 Heq.
        apply lookup_app_Some in H1 as [H1|[Hge1 H1]];
          apply lookup_app_Some in H2 as [H2|[Hge2 H2]].
        - eapply Hdistinct; eauto.
        - exfalso. apply list_lookup_singleton_Some in H2 as [_ <-].
          destruct Heq as [Heq|Heq].
          + apply Hout. apply Hset. exists t1.
            split; [eapply list_elem_of_lookup_2; eauto|]. left. congruence.
          + apply Hrev_out. apply Hset. exists t1.
            split; [eapply list_elem_of_lookup_2; eauto|]. left. congruence.
        - exfalso. apply list_lookup_singleton_Some in H1 as [_ <-].
          destruct Heq as [Heq|Heq].
          + apply Hout. apply Hset. exists t2.
            split; [eapply list_elem_of_lookup_2; eauto|]. left. exact Heq.
          + apply Hout. apply Hset. exists t2.
            split; [eapply list_elem_of_lookup_2; eauto|]. right. exact Heq.
        - apply list_lookup_singleton_Some in H1 as [E1 _].
          apply list_lookup_singleton_Some in H2 as [E2 _]. lia. }
      { intros s' i' e' Hin. apply elem_of_app in Hin as [Hin|Hin].
        - eapply Hknown; eauto.
        - apply list_elem_of_singleton in Hin. inversion Hin; subst.
          split; eauto. }
    + unfold insertStartIntermediateEnd. intros t Ht.
      rewrite !elem_of_union. right. right. exact Ht.
    + unfold insertStartIntermediateEnd.
      rewrite !elem_of_union, !elem_of_singleton. right. left. reflexivity.
Qed.

(** The run of a segment, and its place in [edges]. *)
Definition RunIn (edges : edgeSet) (segment : list XY) : Prop :=
  exists t : XY * list XY * XY, segmentRun segment = Some t /\ t ∈ edges.

Lemma RunIn_grow (edges edges' : edgeSet) (segment : list XY) :
  edges ⊆ edges' -> RunIn edges segment -> RunIn edges' segment.
Proof.
  intros Hsub (t & Hrun & Hin). exists t. split; [exact Hrun|].
  apply Hsub. exact Hin.
Qed.

Lemma lineSegments_spec (mask : Z) (vs : gmap XY nat) (interactions : gset XY)
    (seq : Sequence) :
  (forall xy : XY, xy ∈ seq -> xy ∈ interactions -> is_Some (vs !! xy)) ->
  forall (segs : list (list XY)) (made : list (XY * list XY * XY))
         (d : doublyConnectedEdgeList) (edges : edgeSet),
    LineInv mask vs made (d, edges) ->
    Forall (GoodSegment interactions seq) segs ->
    exists (d' : doublyConnectedEdgeList) (edges' : edgeSet)
           (made' : list (XY * list XY * XY)),
      foldOption (fun st segment => lineSegment mask segment st) segs (d, edges)
      = Some (d', edges') /\
      LineInv mask vs made' (d', edges') /\
      edges ⊆ edges' /\
      Forall (RunIn edges') segs.
Proof.
  intros Hknown.
  induction segs as [|segment segs IH]; intros made d edges Hinv Hgood.
  - exists d, edges, made. split; [reflexivity|]. split; [exact Hinv|].
    split; [intros t Ht; exact Ht|constructor].
  - inversion Hgood as [|? ? Hseg Hrest]; subst.
    destruct Hseg as (Hlen & a & b & Ha & Hb & HaI & HbI & Haseq & Hbseq).
    destruct (lineSegment_spec mask vs made d edges segment a b Hinv Hlen Ha Hb
                (Hknown a Haseq HaI) (Hknown b Hbseq HbI))
      as (d1 & edges1 & made1 & Hstep & Hinv1 & Hsub1 & Hin1).
    destruct (IH made1 d1 edges1 Hinv1 Hrest)
      as (d' & edges' & made' & Hrun & Hinv' & Hsub' & Hall').
    exists d', edges', made'. cbn [foldOption]. rewrite Hstep.
    cbn [mbind option_bind]. split; [exact Hrun|]. split; [exact Hinv'|].
    split; [intros t Ht; apply Hsub', Hsub1; exact Ht|].
    constructor; [|exact Hall'].
    exists (a, take (length segment - 2) (drop 1 segment), b).
    split; [|apply Hsub'; exact Hin1].
    unfold segmentRun. rewrite Ha, Hb. reflexivity.
Qed.

Lemma line_segments (interactions : gset XY) (seq : Sequence) :
  LineAnchored interactions seq ->
  exists segs : list (list XY),
    segmentsOf seq interactions = Some segs /\
    Forall (GoodSegment interactions seq) segs.
Proof.
  unfold segmentsOf, forEachNonInteractingSegment.
  destruct seq as [|first rest]; intros Hanch.
  - exists []. split; [reflexivity|constructor].
  - destruct Hanch as [Hfirst (z & Hlast & Hz)].
    destruct (anchored_loop (first :: rest) interactions z Hlast Hz
                (S (length (first :: rest))) 0 [] first)
      as (segs & Hrun & Hgood); [lia|reflexivity|exact Hfirst|].
    exists segs. split; [exact Hrun|exact Hgood].
Qed.

(** The segments of every line string have their run in [edges]. *)
Definition Covered (interactions : gset XY) (edges : edgeSet)
    (seq : Sequence) : Prop :=
  exists segs : list (list XY),
    segmentsOf seq interactions = Some segs /\ Forall (RunIn edges) segs.

Lemma lineStrings_spec (mask : Z) (vs : gmap XY nat) (interactions : gset XY) :
  forall (mls : MultiLineString) (made : list (XY * list XY * XY))
         (d : doublyConnectedEdgeList) (edges : edgeSet),
    LineInv mask vs made (d, edges) ->
    Forall (LineAnchored interactions) mls ->
    Forall (fun seq => forall xy : XY,
                xy ∈ seq -> xy ∈ interactions -> is_Some (vs !! xy)) mls ->
    exists (d' : doublyConnectedEdgeList) (edges' : edgeSet)
           (made' : list (XY * list XY * XY)),
      foldOption
        (fun st seq =>
           forEachNonInteractingSegment seq interactions (lineSegment mask) st)
        mls (d, edges)
      = Some (d', edges') /\
      LineInv mask vs made' (d', edges') /\
      edges ⊆ edges' /\
      Forall (Covered interactions edges') mls.
Proof.
  induction mls as [|seq mls IH]; intros made d edges Hinv Hanch Hknown.
  - exists d, edges, made. split; [reflexivity|]. split; [exact Hinv|].
    split; [intros t Ht; exact Ht|constructor].
  - inversion Hanch as [|? ? Hseq Hrest]; subst.
    inversion Hknown as [|? ? Hkseq Hkrest]; subst.
    destruct (line_segments interactions seq Hseq) as (segs & Hsegs & Hgood).
    destruct (lineSegments_spec mask vs interactions seq Hkseq segs made d edges
                Hinv Hgood)
      as (d1 & edges1 & made1 & Hstep & Hinv1 & Hsub1 & Hall1).
    destruct (IH made1 d1 edges1 Hinv1 Hrest Hkrest)
      as (d' & edges' & made' & Hrun & Hinv' & Hsub' & Hall').
    exists d', edges', made'. cbn [foldOption].
    rewrite (forEachNonInteractingSegment_fold seq interactions segs Hsegs).
    rewrite Hstep. cbn [mbind option_bind]. split; [exact Hrun|].
    split; [exact Hinv'|].
    split; [intros t Ht; apply Hsub', Hsub1; exact Ht|].
    constructor; [|exact Hall'].
    exists segs. split; [exact Hsegs|].
    clear - Hall1 Hsub'. induction Hall1 as [|segment segs' H1 _ IH1];
      constructor; [eapply RunIn_grow; eauto|exact IH1].
Qed.

(** What [newDCELFromMultiLineString] returns, for anchored line strings. *)
Lemma newDCELFromMultiLineString_spec (mls : MultiLineString) (mask : Z)
    (interactions : gset XY) :
  Forall (LineAnchored interactions) mls ->
  exists (d : doublyConnectedEdgeList) (edges : edgeSet)
         (made : list (XY * list XY * XY)),
    newDCELFromMultiLineString mls mask interactions = Some d /\
    LineInv mask (vertices d) made (d, edges) /\
    Forall (Covered interactions edges) mls.
Proof.
  intros Hanch. unfold newDCELFromMultiLineString.
  destruct (lineVertices_all mask interactions mls (mkDCEL [] [] ∅ [] []))
    as (d1 & Hrun1 & HV1 & Hf1 & Hh1 & He1 & _ & Hknown1).
  { intros xy v Hxy. cbn [vertices] in Hxy. rewrite lookup_empty in Hxy.
    discriminate. }
  rewrite Hrun1. cbn [mbind option_bind].
  cbn [faces halfEdges edgeStore] in Hf1, Hh1, He1.
  destruct (lineStrings_spec mask (vertices d1) interactions mls [] d1 ∅)
    as (d2 & edges2 & made2 & Hrun2 & Hinv2 & _ & Hall2).
  - unfold LineInv. cbn [fst snd length lineRecords].
    split; [reflexivity|]. split; [exact HV1|]. split; [exact Hf1|].
    split; [exact He1|]. split; [exact Hh1|]. split.
    { intros t. split.
      - intros Ht. apply elem_of_empty in Ht. destruct Ht.
      - intros (t' & Ht' & _). inversion Ht'. }
    split.
    { intros k1 k2 t1 t2 H1. rewrite lookup_nil in H1. discriminate. }
    intros s i e Hin. inversion Hin.
  - exact Hanch.
  - exact Hknown1.
  - rewrite Hrun2. cbn [mbind option_bind]. exists d2, edges2, made2.
    split; [reflexivity|]. split; [|exact Hall2].
    assert (Hvs : vertices d2 = vertices d1) by apply Hinv2.
    rewrite Hvs. exact Hinv2.
Qed.

Lemma LineInv_pair (mask : Z) (vs : gmap XY nat)
    (made : list (XY * list XY * XY)) (d : doublyConnectedEdgeList)
    (edges : edgeSet) (e : nat) :
  LineInv mask vs made (d, edges) -> e ∈ halfEdges d ->
  exists (k : nat) (t : XY * list XY * XY),
    made !! k = Some t /\ (e = 2 * k \/ e = 2 * k + 1) /\
    edgeStore d !! (2 * k) = Some (fwdRecord vs mask (2 * k) t) /\
    edgeStore d !! (2 * k + 1) = Some (revRecord vs mask (2 * k) t) /\
    2 * k ∈ halfEdges d /\ 2 * k + 1 ∈ halfEdges d.
Proof.
  intros (_ & _ & _ & Hstore & Hhalf & _) He. cbn [fst] in Hstore, Hhalf.
  rewrite Hhalf in He |- *. apply list_elem_of_In, List.in_seq in He.
  assert (Hk : e / 2 < length made) by (apply Nat.Div0.div_lt_upper_bound; lia).
  destruct (lookup_lt_is_Some_2 made (e / 2) Hk) as [t Ht].
  exists (e / 2), t. split; [exact Ht|].
  pose proof (Nat.div_mod_eq e 2) as Hdiv.
  pose proof (Nat.mod_upper_bound e 2 ltac:(lia)) as Hmod.
  split; [lia|].
  destruct (lineRecords_lookup vs mask made 0 (e / 2) t Ht) as [H0 H1].
  rewrite Hstore. cbn [Nat.add] in H0, H1.
  split; [exact H0|]. split; [exact H1|].
  apply lookup_lt_Some in Ht.
  split; apply list_elem_of_In, List.in_seq; lia.
Qed.

Lemma edgeRun_made (mask : Z) (vs : gmap XY nat)
    (made : list (XY * list XY * XY)) (d : doublyConnectedEdgeList)
    (edges : edgeSet) (k : nat) (t : XY * list XY * XY) :
  LineInv mask vs made (d, edges) -> made !! k = Some t ->
  edgeRun d (2 * k) = Some t /\ edgeRun d (2 * k + 1) = Some (reverseRun t).
Proof.
  intros (Hvs & HV & _ & Hstore & _ & _ & _ & Hknown) Ht.
  cbn [fst] in Hvs, HV, Hstore.
  destruct (lineRecords_lookup vs mask made 0 k t Ht) as [H0 H1].
  cbn [Nat.add] in H0, H1. rewrite <- Hstore in H0, H1.
  destruct t as [[s i] e].
  destruct (Hknown s i e (list_elem_of_lookup_2 _ _ _ Ht))
    as [[v_s Hv_s] [v_e Hv_e]].
  cbn [fwdRecord revRecord] in H0, H1. rewrite Hv_s in H0. rewrite Hv_e in H1.
  rewrite <- Hvs in Hv_s, Hv_e.
  destruct (HV s v_s Hv_s) as (r_s & Hr_s & Hc_s).
  destruct (HV e v_e Hv_e) as (r_e & Hr_e & Hc_e).
  replace (S (2 * k)) with (2 * k + 1) in H0 by lia.
  assert (O0 : originCoords d (2 * k) = Some s).
  { unfold originCoords. rewrite H0. cbn [mbind option_bind origin].
    rewrite Hr_s. cbn [mbind option_bind]. now rewrite Hc_s. }
  assert (O1 : originCoords d (2 * k + 1) = Some e).
  { unfold originCoords. rewrite H1. cbn [mbind option_bind origin].
    rewrite Hr_e. cbn [mbind option_bind]. now rewrite Hc_e. }
  unfold edgeRun. rewrite H0, H1. cbn [mbind option_bind twin intermediate].
  rewrite O0, O1. cbn [mbind option_bind]. split; reflexivity.
Qed.

(** X27. For line strings whose first and last points are interaction
    points, [newDCELFromMultiLineString] returns a list without faces in
    which every half-edge has one other half-edge as its twin, its next and
    its previous edge, and is in turn the twin, the next and the previous
    edge of that one; the twin runs through the same intermediate points in
    reverse order; every half-edge has no incident face, the edge label
    [mask] and the face label [mask & populatedMask]. *)
Theorem newDCELFromMultiLineString_pairs (mls : MultiLineString) (mask : Z)
    (interactions : gset XY) :
  Forall (LineAnchored interactions) mls ->
  exists d : doublyConnectedEdgeList,
    newDCELFromMultiLineString mls mask interactions = Some d /\
    faces d = [] /\
    forall e : nat, e ∈ halfEdges d ->
      exists (r rt : halfEdgeRecord) (t : nat),
        edgeStore d !! e = Some r /\
        twin r = Some t /\ next r = Some t /\ prev r = Some t /\
        t ∈ halfEdges d /\ t <> e /\
        edgeStore d !! t = Some rt /\
        twin rt = Some e /\ next rt = Some e /\ prev rt = Some e /\
        intermediate rt = reverseXYs (intermediate r) /\
        incident r = None /\ edgeLabel r = mask /\
        faceLabel r = Z.land mask populatedMask.
Proof.
  intros Hanch.
  destruct (newDCELFromMultiLineString_spec mls mask interactions Hanch)
    as (d & edges & made & Hrun & Hinv & _).
  exists d. split; [exact Hrun|]. split; [apply Hinv|].
  intros e He.
  destruct (LineInv_pair mask (vertices d) made d edges e Hinv He)
    as (k & [[s i] z] & _ & Hcase & H0 & H1 & Hin0 & Hin1).
  cbn [fwdRecord revRecord] in H0, H1.
  replace (S (2 * k)) with (2 * k + 1) in H0 by lia.
  destruct Hcase as [-> | ->].
  - eexists _, _, (2 * k + 1). split; [exact H0|].
    cbn [twin next prev intermediate incident edgeLabel faceLabel].
    split; [reflexivity|]. split; [reflexivity|]. split; [reflexivity|].
    split; [exact Hin1|]. split; [lia|]. split; [exact H1|].
    cbn [twin next prev intermediate incident edgeLabel faceLabel].
    repeat split; reflexivity.
  - eexists _, _, (2 * k). split; [exact H1|].
    cbn [twin next prev intermediate incident edgeLabel faceLabel].
    split; [reflexivity|]. split; [reflexivity|]. split; [reflexivity|].
    split; [exact Hin0|]. split; [lia|]. split; [exact H0|].
    cbn [twin next prev intermediate incident edgeLabel faceLabel].
    split; [reflexivity|]. split; [reflexivity|]. split; [reflexivity|].
    split; [|repeat split; reflexivity].
    unfold reverseXYs. now rewrite reverse_involutive.
Qed.

(** X28. For line strings whose first and last points are interaction
    points, every segment between two interaction points of every line
    string has a half-edge in the list of [newDCELFromMultiLineString] that
    runs as the segment does: from its first point, through its inner
    points, to its last point. No run is stored twice: two half-edges
    that run the same way are one half-edge, or twins. *)
Theorem newDCELFromMultiLineString_runs (mls : MultiLineString) (mask : Z)
    (interactions : gset XY) :
  Forall (LineAnchored interactions) mls ->
  exists d : doublyConnectedEdgeList,
    newDCELFromMultiLineString mls mask interactions = Some d /\
    (forall (seq : Sequence) (segs : list (list XY)) (segment : list XY),
        seq ∈ mls -> segmentsOf seq interactions = Some segs ->
        segment ∈ segs ->
        exists (e : nat) (t : XY * list XY * XY),
          e ∈ halfEdges d /\ segmentRun segment = Some t /\
          edgeRun d e = Some t) /\
    (forall (e1 e2 : nat) (t : XY * list XY * XY),
        e1 ∈ halfEdges d -> e2 ∈ halfEdges d ->
        edgeRun d e1 = Some t -> edgeRun d e2 = Some t ->
        e1 = e2 \/
        exists r : halfEdgeRecord,
          edgeStore d !! e1 = Some r /\ twin r = Some e2).
Proof.
  intros Hanch.
  destruct (newDCELFromMultiLineString_spec mls mask interactions Hanch)
    as (d & edges & made & Hrun & Hinv & Hcov).
  exists d. split; [exact Hrun|]. split.
  - intros seq segs segment Hseq Hsegs Hsegment.
    rewrite List.Forall_forall in Hcov.
    destruct (Hcov seq (proj1 (list_elem_of_In _ _) Hseq))
      as (segs' & Hsegs' & Hall).
    rewrite Hsegs in Hsegs'. inversion Hsegs'; subst segs'.
    rewrite List.Forall_forall in Hall.
    destruct (Hall segment (proj1 (list_elem_of_In _ _) Hsegment))
      as (t & Ht & Hin).
    assert (Hset : exists t', t' ∈ made /\ (t = t' \/ t = reverseRun t')).
    { destruct Hinv as (_ & _ & _ & _ & _ & Hset & _). cbn [snd] in Hset.
      apply Hset. exact Hin. }
    destruct Hset as (t' & Ht' & Hcase).
    apply list_elem_of_lookup in Ht' as [k Hk].
    destruct (edgeRun_made mask (vertices d) made d edges k t' Hinv Hk)
      as [R0 R1].
    assert (Hbound : k < length made) by (eapply lookup_lt_Some; eauto).
    assert (Hhalf : halfEdges d = List.seq 0 (2 * length made)) by apply Hinv.
    destruct Hcase as [-> | ->].
    + exists (2 * k), t'. split; [|split; [exact Ht|exact R0]].
      rewrite Hhalf. apply list_elem_of_In, List.in_seq. lia.
    + exists (2 * k + 1), (reverseRun t'). split; [|split; [exact Ht|exact R1]].
      rewrite Hhalf. apply list_elem_of_In, List.in_seq. lia.
  - intros e1 e2 t He1 He2 R1 R2.
    destruct (LineInv_pair mask (vertices d) made d edges e1 Hinv He1)
      as (k1 & t1 & Hk1 & Hcase1 & S0 & S1 & _).
    destruct (LineInv_pair mask (vertices d) made d edges e2 Hinv He2)
      as (k2 & t2 & Hk2 & Hcase2 & _).
    destruct (edgeRun_made mask (vertices d) made d edges k1 t1 Hinv Hk1)
      as [A0 A1].
    destruct (edgeRun_made mask (vertices d) made d edges k2 t2 Hinv Hk2)
      as [B0 B1].
    assert (Hdistinct : forall k1 k2 t1 t2,
               made !! k1 = Some t1 -> made !! k2 = Some t2 ->
               t1 = t2 \/ t1 = reverseRun t2 -> k1 = k2) by apply Hinv.
    destruct t1 as [[s1 i1] z1]. cbn [fwdRecord revRecord] in S0, S1.
    destruct Hcase1 as [-> | ->]; destruct Hcase2 as [-> | ->].
    + left. rewrite A0 in R1. rewrite B0 in R2.
      assert (k1 = k2) by (eapply Hdistinct; eauto; left; congruence).
      congruence.
    + right. rewrite A0 in R1. rewrite B1 in R2.
      assert (k1 = k2) by (eapply Hdistinct; eauto; right; congruence).
      subst k2. eexists. split; [exact S0|]. cbn [twin]. f_equal. lia.
    + right. rewrite A1 in R1. rewrite B0 in R2.
      assert (k1 = k2).
      { eapply Hdistinct; eauto. right.
        rewrite <- (reverseRun_involutive (s1, i1, z1)). congruence. }
      subst k2. eexists. split; [exact S1|]. reflexivity.
    + left. rewrite A1 in R1. rewrite B1 in R2.
      assert (k1 = k2).
      { eapply Hdistinct; eauto. left.
        rewrite <- (reverseRun_involutive (s1, i1, z1)).
        rewrite <- (reverseRun_involutive t2). congruence. }
      congruence.
Qed.

(** The vertices are at interaction points that satisfy [Q], and carry the
    label [mask]. *)
Definition VerticesOnly (mask : Z) (interactions : gset XY) (Q : XY -> Prop)
    (d : doublyConnectedEdgeList) : Prop :=
  (forall xy : XY, is_Some (vertices d !! xy) -> xy ∈ interactions /\ Q xy) /\
  (forall (v : nat) (r : vertexRecord),
      vertexStore d !! v = Some r -> label r = mask).

Lemma lineVertex_only (mask : Z) (interactions : gset XY) (Q : XY -> Prop)
    (closed : bool) (n j : nat) (xy : XY) (d d' : doublyConnectedEdgeList) :
  Q xy -> VerticesOnly mask interactions Q d ->
  lineVertex mask interactions closed n j xy d = Some d' ->
  VerticesOnly mask interactions Q d'.
Proof.
  intros HQ [Honly Hlabel] Hrun. unfold lineVertex in Hrun.
  destruct (decide (xy ∈ interactions)) as [Hin|Hout].
  2:{ inversion Hrun; subst d'. split; assumption. }
  destruct (vertices d !! xy) as [v|] eqn:Hv.
  - destruct (vertexStore d !! v) as [r|] eqn:Hr; [|discriminate Hrun].
    cbn [mbind option_bind] in Hrun. inversion Hrun; subst d'. clear Hrun.
    unfold withVertexStore. split; cbn [vertices vertexStore].
    + exact Honly.
    + intros v' r' Hr'. destruct (decide (v' = v)) as [->|Hne].
      * rewrite list_lookup_insert_eq in Hr' by (eapply lookup_lt_Some; eauto).
        inversion Hr'; subst r'. cbn [label]. eapply Hlabel; eauto.
      * rewrite list_lookup_insert_ne in Hr' by congruence.
        eapply Hlabel; eauto.
  - inversion Hrun; subst d'. clear Hrun.
    unfold newVertex. split; cbn [vertices vertexStore].
    + intros xy' Hxy'. destruct (decide (xy' = xy)) as [->|Hne].
      * split; assumption.
      * rewrite lookup_insert_ne in Hxy' by congruence. apply Honly, Hxy'.
    + intros v' r' Hr'. apply lookup_app_Some in Hr' as [Hr'|[_ Hr']].
      * eapply Hlabel; eauto.
      * apply list_lookup_singleton_Some in Hr' as [_ <-]. reflexivity.
Qed.

Lemma lineVertices_only (mask : Z) (interactions : gset XY) (Q : XY -> Prop)
    (closed : bool) (n : nat) :
  forall (rest : list XY) (j : nat) (d d' : doublyConnectedEdgeList),
    (forall xy : XY, xy ∈ rest -> Q xy) ->
    VerticesOnly mask interactions Q d ->
    lineVertices mask interactions closed n j rest d = Some d' ->
    VerticesOnly mask interactions Q d'.
Proof.
  induction rest as [|xy rest IH]; intros j d d' HQ Hd Hrun.
  - inversion Hrun; subst d'. exact Hd.
  - cbn [lineVertices] in Hrun.
    destruct (lineVertex mask interactions closed n j xy d) as [d1|] eqn:Hstep;
      [|discriminate Hrun].
    cbn [mbind option_bind] in Hrun.
    eapply (IH (S j) d1 d'); [|eapply lineVertex_only; eauto|exact Hrun].
    + intros xy' Hin. apply HQ. right. exact Hin.
    + apply HQ. left.
Qed.

Lemma lineVertices_all_only (mask : Z) (interactions : gset XY)
    (Q : XY -> Prop) :
  forall (mls : MultiLineString) (d d' : doublyConnectedEdgeList),
    (forall (seq : Sequence) (xy : XY), seq ∈ mls -> xy ∈ seq -> Q xy) ->
    VerticesOnly mask interactions Q d ->
    foldOption
      (fun d seq =>
         lineVertices mask interactions (IsClosed seq) (length seq) 0 seq d)
      mls d = Some d' ->
    VerticesOnly mask interactions Q d'.
Proof.
  induction mls as [|seq mls IH]; intros d d' HQ Hd Hrun.
  - inversion Hrun; subst d'. exact Hd.
  - cbn [foldOption] in Hrun.
    destruct (lineVertices mask interactions (IsClosed seq) (length seq) 0 seq d)
      as [d1|] eqn:Hstep; [|discriminate Hrun].
    cbn [mbind option_bind] in Hrun.
    eapply (IH d1 d'); [| |exact Hrun].
    + intros seq' xy Hseq' Hxy. eapply HQ; [right; exact Hseq'|exact Hxy].
    + eapply lineVertices_only; [|exact Hd|exact Hstep].
      intros xy Hxy. eapply HQ; [left|exact Hxy].
Qed.

Lemma appendIncident_label (mask : Z) (d d' : doublyConnectedEdgeList)
    (v : option nat) (e : nat) :
  (forall (p : nat) (r : vertexRecord),
      vertexStore d !! p = Some r -> label r = mask) ->
  appendIncident v e d = Some d' ->
  forall (p : nat) (r : vertexRecord),
    vertexStore d' !! p = Some r -> label r = mask.
Proof.
  intros Hlabel Hrun. unfold appendIncident in Hrun.
  destruct v as [q|]; [|discriminate Hrun]. cbn [mbind option_bind] in Hrun.
  destruct (vertexStore d !! q) as [rq|] eqn:Hq; [|discriminate Hrun].
  cbn [mbind option_bind] in Hrun. inversion Hrun; subst d'. clear Hrun.
  unfold withVertexStore. cbn [vertexStore]. intros p r Hr.
  destruct (decide (p = q)) as [->|Hne].
  - rewrite list_lookup_insert_eq in Hr by (eapply lookup_lt_Some; eauto).
    inversion Hr; subst r. cbn [label]. eapply Hlabel; eauto.
  - rewrite list_lookup_insert_ne in Hr by congruence. eapply Hlabel; eauto.
Qed.

Lemma lineSegment_label (mask : Z) (segment : list XY)
    (st st' : doublyConnectedEdgeList * edgeSet) :
  (forall (p : nat) (r : vertexRecord),
      vertexStore (fst st) !! p = Some r -> label r = mask) ->
  lineSegment mask segment st = Some st' ->
  forall (p : nat) (r : vertexRecord),
    vertexStore (fst st') !! p = Some r -> label r = mask.
Proof.
  destruct st as [d edges]. cbn [fst]. intros Hlabel Hrun.
  unfold lineSegment in Hrun.
  destruct (segment !! 0) as [s|]; [|discriminate Hrun].
  destruct (segment !! (length segment - 1)) as [e|]; [|discriminate Hrun].
  cbn [mbind option_bind] in Hrun.
  destruct (length segment <? 2); [discriminate Hrun|].
  destruct (containsStartIntermediateEnd _ _ _ _).
  { inversion Hrun; subst st'. exact Hlabel. }
  match type of Hrun with
  | context [appendIncident ?v ?a ?d1] =>
      destruct (appendIncident v a d1) as [d2|] eqn:H2; [|discriminate Hrun]
  end.
  cbn [mbind option_bind] in Hrun.
  match type of Hrun with
  | context [appendIncident ?v ?a d2] =>
      destruct (appendIncident v a d2) as [d3|] eqn:H3; [|discriminate Hrun]
  end.
  cbn [mbind option_bind] in Hrun. inversion Hrun; subst st'. clear Hrun.
  cbn [fst withHalfEdges vertexStore].
  eapply appendIncident_label; [|exact H3].
  eapply appendIncident_label; [|exact H2].
  exact Hlabel.
Qed.

(** X29. For line strings whose first and last points are interaction
    points, the vertices of the list of [newDCELFromMultiLineString] are at
    the interaction points that lie on a line string, and nowhere else; the
    record of each holds its place and the label [mask]. *)
Theorem newDCELFromMultiLineString_vertices (mls : MultiLineString) (mask : Z)
    (interactions : gset XY) :
  Forall (LineAnchored interactions) mls ->
  exists d : doublyConnectedEdgeList,
    newDCELFromMultiLineString mls mask interactions = Some d /\
    (forall xy : XY,
        is_Some (vertices d !! xy) <->
        xy ∈ interactions /\ exists seq : Sequence, seq ∈ mls /\ xy ∈ seq) /\
    (forall (xy : XY) (v : nat),
        vertices d !! xy = Some v ->
        exists r : vertexRecord,
          vertexStore d !! v = Some r /\ coords r = xy /\ label r = mask).
Proof.
  intros Hanch.
  destruct (newDCELFromMultiLineString_spec mls mask interactions Hanch)
    as (d & edges & made & Hrun & Hinv & _).
  exists d. split; [exact Hrun|].
  unfold newDCELFromMultiLineString in Hrun.
  destruct (lineVertices_all mask interactions mls (mkDCEL [] [] ∅ [] []))
    as (d1 & Hrun1 & _ & _ & _ & _ & _ & Hknown1).
  { intros xy v Hxy. cbn [vertices] in Hxy. rewrite lookup_empty in Hxy.
    discriminate. }
  rewrite Hrun1 in Hrun. cbn [mbind option_bind] in Hrun.
  pose proof (lineVertices_all_only mask interactions
                (fun xy => exists seq : Sequence, seq ∈ mls /\ xy ∈ seq)
                mls (mkDCEL [] [] ∅ [] []) d1) as Honly1.
  destruct Honly1 as [Honly1 Hlabel1]; [| |exact Hrun1|].
  { intros seq xy Hseq Hxy. exists seq. split; assumption. }
  { split.
    - intros xy [v Hv]. cbn [vertices] in Hv. rewrite lookup_empty in Hv.
      discriminate.
    - intros v r Hr. cbn [vertexStore] in Hr. rewrite lookup_nil in Hr.
      discriminate. }
  destruct (foldOption _ mls (d1, ∅)) as [[d2 edges2]|] eqn:Hrun2;
    [|discriminate Hrun].
  cbn [mbind option_bind] in Hrun. inversion Hrun; subst d2. clear Hrun.
  assert (Hvs : vertices d = vertices d1).
  { eapply (foldOption_invariant
              (fun st : doublyConnectedEdgeList * edgeSet =>
                 vertices (fst st) = vertices d1)) in Hrun2;
      [exact Hrun2| |reflexivity].
    intros st seq st' Hst Hstep.
    eapply (segmentLoop_invariant
              (fun st : doublyConnectedEdgeList * edgeSet =>
                 vertices (fst st) = vertices d1)); [|exact Hst|exact Hstep].
    clear. intros segment [d0 e0] st' Hst Hstep. cbn [fst] in Hst.
    unfold lineSegment in Hstep.
    destruct (segment !! 0) as [s|]; [|discriminate Hstep].
    destruct (segment !! (length segment - 1)) as [e|]; [|discriminate Hstep].
    cbn [mbind option_bind] in Hstep.
    destruct (length segment <? 2); [discriminate Hstep|].
    destruct (containsStartIntermediateEnd _ _ _ _).
    { inversion Hstep; subst st'. exact Hst. }
    unfold appendIncident in Hstep.
    destruct (vertices d0 !! s) as [p|]; [|discriminate Hstep].
    cbn [mbind option_bind withEdgeStore vertexStore] in Hstep.
    destruct (vertexStore d0 !! p) as [rp|]; [|discriminate Hstep].
    cbn [mbind option_bind] in Hstep.
    destruct (vertices d0 !! e) as [q|]; [|discriminate Hstep].
    cbn [mbind option_bind withVertexStore vertexStore] in Hstep.
    destruct (_ !! q) as [rq|]; [|discriminate Hstep].
    cbn [mbind option_bind] in Hstep. inversion Hstep; subst st'.
    cbn [fst withHalfEdges vertices]. exact Hst. }
  assert (Hlabel : forall (p : nat) (r : vertexRecord),
             vertexStore d !! p = Some r -> label r = mask).
  { refine (foldOption_invariant
              (fun st : doublyConnectedEdgeList * edgeSet =>
                 forall (p : nat) (r : vertexRecord),
                   vertexStore (fst st) !! p = Some r -> label r = mask)
              _ _ mls (d1, ∅) (d, edges2) Hlabel1 Hrun2).
    intros st seq st' Hst Hstep.
    eapply (segmentLoop_invariant
              (fun st : doublyConnectedEdgeList * edgeSet =>
                 forall (p : nat) (r : vertexRecord),
                   vertexStore (fst st) !! p = Some r -> label r = mask));
      [|exact Hst|exact Hstep].
    intros segment s0 s1 Hs0 Hs1. eapply lineSegment_label; eauto. }
  split.
  - intros xy. rewrite Hvs. split; [apply Honly1|].
    intros [HI (seq & Hseq & Hxy)].
    rewrite List.Forall_forall in Hknown1.
    apply (Hknown1 seq (proj1 (list_elem_of_In _ _) Hseq) xy Hxy HI).
  - intros xy v Hv.
    assert (HV : VCoords d) by apply Hinv.
    destruct (HV xy v Hv) as (r & Hr & Hc).
    exists r. split; [exact Hr|]. split; [exact Hc|]. eapply Hlabel; eauto.
Qed.

End WithXY.

(** ** Examples *)

(** The unit square, with two of its corners among the interactions. *)
Definition square : Sequence (XY := Z * Z) :=
  [(0, 0); (1, 0); (1, 1); (0, 1); (0, 0)]%Z.

Definition square_interactions : gset (Z * Z) := {[ (0, 0)%Z; (1, 1)%Z ]}.

Definition square_mp : MultiPolygon (XY := Z * Z) := [mkPolygon square []].

(** One edge from (0,0) to (1,0) with its twin. *)
Definition one_edge : doublyConnectedEdgeList (XY := Z * Z) :=
  mkDCEL [] [0; 1]
    (<[(0, 0)%Z := 0]> (<[(1, 0)%Z := 1]> ∅))
    [mkHalfEdgeRecord (Some 0) (Some 1) None (Some 1) (Some 1) [] 1 1;
     mkHalfEdgeRecord (Some 1) (Some 0) None (Some 0) (Some 0) [] 1 1]
    [mkVertexRecord (0, 0)%Z [0] 1 1; mkVertexRecord (1, 0)%Z [1] 1 1].

Definition one_edge_interactions : gset (Z * Z) := {[ (0, 0)%Z; (1, 0)%Z ]}.

Lemma newDCELFromMultiPolygon_next_prev_witness :
  exists d : doublyConnectedEdgeList,
    newDCELFromMultiPolygon 2 3 (fun mp => mp) square_mp 1 square_interactions
    = Some d /\
    (forall e : nat, e ∈ halfEdges d -> NextPrevInverse (edgeStore d) e) /\
    Laid (map (ringEdges square_interactions) (ringsOf square_mp)) d.
Proof.
  apply (newDCELFromMultiPolygon_next_prev 2 3 (fun mp => mp) square_mp 1
           square_interactions).
  constructor; [|constructor].
  split; [|reflexivity].
  apply (bool_decide_unpack _). vm_compute. exact I.
Defined.

Example square_links :
  option_map (fun d => (halfEdges d, map next (edgeStore d), map prev (edgeStore d)))
    (newDCELFromMultiPolygon 2 3 (fun mp => mp) square_mp 1 square_interactions)
  = Some ([0; 1; 2; 3],
          [Some 2; Some 3; Some 0; Some 1],
          [Some 2; Some 3; Some 0; Some 1]).
Proof. vm_compute. reflexivity. Qed.

Lemma addGhosts_duplicates_unchanged_witness :
  addGhosts 3 (fun d _ => Some d) one_edge [[(0, 0); (1, 0)]%Z] 1
    one_edge_interactions
  = Some one_edge.
Proof.
  apply (addGhosts_duplicates_unchanged 3 (fun d _ => Some d) one_edge
           [[(0, 0); (1, 0)]%Z] 1 one_edge_interactions).
  - intros e He.
    apply elem_of_cons in He as [->|He];
      [|apply elem_of_cons in He as [->|He]; [|inversion He]].
    + eexists _, (0, 0)%Z, (1, 0)%Z, 1.
      repeat split; try reflexivity; eexists; vm_compute; reflexivity.
    + eexists _, (1, 0)%Z, (0, 0)%Z, 0.
      repeat split; try reflexivity; eexists; vm_compute; reflexivity.
  - constructor; [|constructor].
    exists [[(0, 0); (1, 0)]%Z]. split; [vm_compute; reflexivity|].
    constructor; [|constructor].
    exists 0, (mkHalfEdgeRecord (Some 0) (Some 1) None (Some 1) (Some 1) [] 1 1),
      (0, 0)%Z, (1, 0)%Z, 1.
    repeat split; try reflexivity. left.
Defined.

Lemma forEachNonInteractingSegment_segments_witness :
  exists segs : list (list (Z * Z)),
    (forall (St : Type) (fn : list (Z * Z) -> St -> option St) (s : St),
        forEachNonInteractingSegment square square_interactions fn s
        = foldOption (fun s segment => fn segment s) segs s) /\
    joinSegments segs = square /\
    Forall (NonInteracting square_interactions) segs.
Proof.
  apply (forEachNonInteractingSegment_segments square square_interactions
           (0, 0)%Z).
  - cbn [square length]. lia.
  - reflexivity.
  - apply (bool_decide_unpack _). vm_compute. exact I.
Defined.

(** A line from an interaction point to a point that is none. *)
Definition open_line : Sequence (XY := Z * Z) := [(0, 0); (1, 0); (2, 0)]%Z.

Lemma forEachNonInteractingSegment_unanchored_witness :
  segmentsOf open_line square_interactions = None /\
  forall (St : Type) (fn : list (Z * Z) -> St -> option St) (fuel : nat)
         (s : St),
    segmentLoop fuel open_line square_interactions fn 0 s = None.
Proof.
  apply (forEachNonInteractingSegment_unanchored open_line square_interactions
           (2, 0)%Z).
  - cbn [open_line length]. lia.
  - reflexivity.
  - apply (bool_decide_unpack _). vm_compute. exact I.
Defined.

Lemma forEachEdge_newDCELFromMultiPolygon_witness :
  exists d : doublyConnectedEdgeList,
    newDCELFromMultiPolygon 2 3 (fun mp => mp) square_mp 1 square_interactions
    = Some d /\
    forall (k n : nat),
      map (ringEdges square_interactions) (ringsOf square_mp) !! k = Some n ->
      0 < n ->
      forall (St : Type) (fn : nat -> St -> option St) (fuel : nat) (s : St),
        n / 2 <= fuel ->
        forEachEdge fuel (ringStart square_interactions (ringsOf square_mp) k)
          (readOnly fn) (edgeStore d, s)
        = (s' ← foldOption (fun s e => fn e s)
                  (map (fun i =>
                          ringStart square_interactions (ringsOf square_mp) k
                          + 2 * i)
                     (List.seq 0 (n / 2))) s;
           Some (edgeStore d, s')).
Proof.
  apply (forEachEdge_newDCELFromMultiPolygon 2 3 (fun mp => mp) square_mp 1
           square_interactions).
  constructor; [|constructor].
  split; [|reflexivity].
  apply (bool_decide_unpack _). vm_compute. exact I.
Defined.

Lemma newDCELFromMultiPolygon_twins_witness :
  exists d : doublyConnectedEdgeList,
    newDCELFromMultiPolygon 2 3 (fun mp => mp) square_mp 1 square_interactions
    = Some d /\
    forall e : nat, e ∈ halfEdges d ->
      exists (r rt : halfEdgeRecord) (t : nat),
        edgeStore d !! e = Some r /\ twin r = Some t /\
        t ∈ halfEdges d /\ t <> e /\
        edgeStore d !! t = Some rt /\ twin rt = Some e /\
        intermediate rt = reverseXYs (intermediate r) /\
        edgeLabel r = 1%Z /\ edgeLabel rt = 1%Z /\
        ((faceLabel r = 1%Z /\ faceLabel rt = Z.land 1 3) \/
         (faceLabel r = Z.land 1 3 /\ faceLabel rt = 1%Z)).
Proof.
  apply (newDCELFromMultiPolygon_twins 2 3 (fun mp => mp) square_mp 1
           square_interactions).
  constructor; [|constructor].
  split; [|reflexivity].
  apply (bool_decide_unpack _). vm_compute. exact I.
Defined.

(** The walk round the square: the two internal edges, in order. *)
Example square_walk :
  (d ← newDCELFromMultiPolygon 2 3 (fun mp => mp) square_mp 1
         square_interactions;
   st ← forEachEdge 2 0 (readOnly (fun e acc => Some (acc ++ [e])))
          (edgeStore d, []);
   Some (snd st))
  = Some [0; 2].
Proof. vm_compute. reflexivity. Qed.

(** [MULTIPOINT(1 1, EMPTY, 1 1, 2 0)] has two vertices. *)
Example multipoint_vertices :
  option_map (fun d => (map_to_list (vertices d), vertexStore d))
    (newDCELFromMultiPoint 4
       [Some (1, 1)%Z; None; Some (1, 1)%Z; Some (2, 0)%Z] 1)
  = Some (map_to_list (<[(1, 1)%Z := 0]> (<[(2, 0)%Z := 1]> ∅)),
          [mkVertexRecord (1, 1)%Z [] 1 (Z.land 1 4);
           mkVertexRecord (2, 0)%Z [] 1 (Z.land 1 4)]).
Proof. vm_compute. reflexivity. Qed.


(** [MULTILINESTRING((0 0, 1 0, 2 0), (2 0, 1 0, 0 0), (2 0, 2 1))], with
    interaction points at [(0 0)], [(2 0)] and [(2 1)]. *)
Definition lines_example : MultiLineString (XY := Z * Z) :=
  [[(0, 0); (1, 0); (2, 0)]; [(2, 0); (1, 0); (0, 0)]; [(2, 0); (2, 1)]]%Z.

Definition lines_interactions : gset (Z * Z) :=
  {[ (0, 0)%Z; (2, 0)%Z; (2, 1)%Z ]}.

Lemma newDCELFromMultiLineString_pairs_witness :
  exists d : doublyConnectedEdgeList,
    newDCELFromMultiLineString 2 3 4 (fun _ => false) lines_example 1
      lines_interactions = Some d /\
    faces d = [] /\
    forall e : nat, e ∈ halfEdges d ->
      exists (r rt : halfEdgeRecord) (t : nat),
        edgeStore d !! e = Some r /\
        twin r = Some t /\ next r = Some t /\ prev r = Some t /\
        t ∈ halfEdges d /\ t <> e /\
        edgeStore d !! t = Some rt /\
        twin rt = Some e /\ next rt = Some e /\ prev rt = Some e /\
        intermediate rt = reverseXYs (intermediate r) /\
        incident r = None /\ edgeLabel r = 1%Z /\
        faceLabel r = Z.land 1 3.
Proof.
  apply (newDCELFromMultiLineString_pairs 2 3 4 (fun _ => false) lines_example
           1 lines_interactions).
  repeat constructor;
    first [ apply (bool_decide_unpack _); vm_compute; exact I
          | eexists; split; [reflexivity|];
            apply (bool_decide_unpack _); vm_compute; exact I ].
Defined.

Lemma newDCELFromMultiLineString_runs_witness :
  exists d : doublyConnectedEdgeList,
    newDCELFromMultiLineString 2 3 4 (fun _ => false) lines_example 1
      lines_interactions = Some d /\
    (forall (seq : Sequence) (segs : list (list (Z * Z)))
            (segment : list (Z * Z)),
        seq ∈ lines_example -> segmentsOf seq lines_interactions = Some segs ->
        segment ∈ segs ->
        exists (e : nat) (t : (Z * Z) * list (Z * Z) * (Z * Z)),
          e ∈ halfEdges d /\ segmentRun segment = Some t /\
          edgeRun d e = Some t) /\
    (forall (e1 e2 : nat) (t : (Z * Z) * list (Z * Z) * (Z * Z)),
        e1 ∈ halfEdges d -> e2 ∈ halfEdges d ->
        edgeRun d e1 = Some t -> edgeRun d e2 = Some t ->
        e1 = e2 \/
        exists r : halfEdgeRecord,
          edgeStore d !! e1 = Some r /\ twin r = Some e2).
Proof.
  apply (newDCELFromMultiLineString_runs 2 3 4 (fun _ => false) lines_example
           1 lines_interactions).
  repeat constructor;
    first [ apply (bool_decide_unpack _); vm_compute; exact I
          | eexists; split; [reflexivity|];
            apply (bool_decide_unpack _); vm_compute; exact I ].
Defined.

Lemma newDCELFromMultiLineString_vertices_witness :
  exists d : doublyConnectedEdgeList,
    newDCELFromMultiLineString 2 3 4 (fun _ => false) lines_example 1
      lines_interactions = Some d /\
    (forall xy : Z * Z,
        is_Some (vertices d !! xy) <->
        xy ∈ lines_interactions /\
        exists seq : Sequence, seq ∈ lines_example /\ xy ∈ seq) /\
    (forall (xy : Z * Z) (v : nat),
        vertices d !! xy = Some v ->
        exists r : vertexRecord,
          vertexStore d !! v = Some r /\ coords r = xy /\ label r = 1%Z).
Proof.
  apply (newDCELFromMultiLineString_vertices 2 3 4 (fun _ => false)
           lines_example 1 lines_interactions).
  repeat constructor;
    first [ apply (bool_decide_unpack _); vm_compute; exact I
          | eexists; split; [reflexivity|];
            apply (bool_decide_unpack _); vm_compute; exact I ].
Defined.

(** The second line string is the first one reversed: it adds no edge. *)
Example lines_example_edges :
  option_map (fun d => (halfEdges d, map intermediate (edgeStore d)))
    (newDCELFromMultiLineString 2 3 4 (fun _ => false) lines_example 1
       lines_interactions)
  = Some ([0; 1; 2; 3], [[(1, 0)%Z]; [(1, 0)%Z]; []; []]).
Proof. vm_compute. reflexivity. Qed.

End DCEL.

(** * The distance engine ([alg_distance.go]) *)

Module Distance.

Definition float64 : Set := PrimFloat.float.

(** The boxes and the items of the tree are those of the loader. *)
Import RTree (Box, mkBox, MinX, MinY, MaxX, MaxY, BulkItem, mkBulkItem, ItemBox,
              RecordID, fmin, fmax).

Record XY : Set := mkXY { X : float64; Y : float64 }.

Record line : Set := mkLine { a : XY; b : XY }.

(** [math.Inf(+1)]. *)
Definition math_Inf : float64 := PrimFloat.infinity.

(** [math.IsInf(f, +1)]. *)
Definition math_IsInf_pos (f : float64) : bool := PrimFloat.eqb f PrimFloat.infinity.

(** The sign bit of [f]. *)
Definition math_Signbit (f : float64) : bool :=
  match PrimFloat.classify f with
  | NInf | NNormal | NSubn | NZero => true
  | _ => false
  end.

(** [math.Min] of the Go library: an infinity below wins, then a NaN, and of
    two zeros the negative one. *)
Definition math_Min (x y : float64) : float64 :=
  if PrimFloat.eqb x PrimFloat.neg_infinity || PrimFloat.eqb y PrimFloat.neg_infinity
  then PrimFloat.neg_infinity
  else if PrimFloat.is_nan x || PrimFloat.is_nan y then PrimFloat.nan
  else if PrimFloat.eqb x PrimFloat.zero && PrimFloat.eqb x y
  then (if math_Signbit x then x else y)
  else if PrimFloat.ltb x y then x else y.

(** Modelled from the spec: the methods of [XY] over [float64], as the
    sources have [Sub], [Add], [Scale] and [Cross] over [Scalar]; [Dot] and
    [Length] are not in the sources. *)
Definition XY_Sub (w o : XY) : XY := mkXY (X w - X o)%float (Y w - Y o)%float.
Definition XY_Add (w o : XY) : XY := mkXY (X w + X o)%float (Y w + Y o)%float.
Definition XY_Scale (w : XY) (s : float64) : XY :=
  mkXY (X w * s)%float (Y w * s)%float.
Definition XY_Dot (w o : XY) : float64 := (X w * X o + Y w * Y o)%float.
Definition XY_Length (w : XY) : float64 := PrimFloat.sqrt (XY_Dot w w).

Definition distBetweenXYs (xy1 xy2 : XY) : float64 :=
  XY_Length (XY_Sub xy1 xy2).

Definition distBetweenXYAndLine (xy : XY) (ln : line) : float64 :=
  let ab := XY_Sub (b ln) (a ln) in
  let abLen := XY_Length ab in
  let proj := (XY_Dot (XY_Sub xy (a ln)) ab / abLen)%float in
  let closest :=
    if PrimFloat.ltb proj 0%float then a ln
    else if PrimFloat.ltb abLen proj then b ln
    else XY_Add (XY_Scale ab (proj / abLen)%float) (a ln) in
  distBetweenXYs xy closest.

Definition distBetweenLineAndLine (ln1 ln2 : line) : float64 :=
  fold_left math_Min
    [distBetweenXYAndLine (a ln1) ln2;
     distBetweenXYAndLine (b ln1) ln2;
     distBetweenXYAndLine (a ln2) ln1;
     distBetweenXYAndLine (b ln2) ln1]
    math_Inf.

(** Modelled from the spec: the geometries by what they hold. A point can be
    empty. The types are not in the sources. *)
Inductive Geometry : Set :=
| GPoint (coords : option XY)
| GLineString (seq : list XY)
| GPolygon (rings : list (list XY))
| GMultiPoint (pts : list (option XY))
| GMultiLineString (lss : list (list XY))
| GMultiPolygon (polys : list (list (list XY)))
| GGeometryCollection (geoms : list Geometry).

Definition XY_eqb (w o : XY) : bool :=
  PrimFloat.eqb (X w) (X o) && PrimFloat.eqb (Y w) (Y o).

(** Modelled from the spec: [asXYs] and [asLines] (not in the sources) give
    the points a geometry holds and the segments between the consecutive
    points of a sequence, one of no length left out. *)
Definition Point_asXYs (coords : option XY) : list XY :=
  match coords with Some xy => [xy] | None => [] end.

Definition MultiPoint_asXYs (pts : list (option XY)) : list XY :=
  concat (map Point_asXYs pts).

Fixpoint asLines (seq : list XY) : list line :=
  match seq with
  | p :: (q :: _) as rest =>
      if XY_eqb p q then asLines rest else mkLine p q :: asLines rest
  | _ => []
  end.

Definition rings_asLines (rings : list (list XY)) : list line :=
  concat (map asLines rings).

Fixpoint extractXYsAndLines (g : Geometry) : list XY * list line :=
  match g with
  | GPoint coords => (Point_asXYs coords, [])
  | GLineString seq => ([], asLines seq)
  | GPolygon rings => ([], rings_asLines rings)
  | GMultiPoint pts => (MultiPoint_asXYs pts, [])
  | GMultiLineString lss => ([], rings_asLines lss)
  | GMultiPolygon polys => ([], concat (map rings_asLines polys))
  | GGeometryCollection geoms =>
      fold_left
        (fun '(allXYs, allLines) child =>
           let '(xys, lns) := extractXYsAndLines child in
           (allXYs ++ xys, allLines ++ lns))
        geoms ([], [])
  end.

Record Envelope : Set := mkEnvelope { min : XY; max : XY }.

Section Engine.

(** The envelope methods, [Intersects] over these geometries, and the tree
    with its search are not in the sources. *)
Variable NewEnvelope : XY -> Envelope.
Variable line_envelope : line -> Envelope.
Variable Envelope_box : Envelope -> Box.
Variable Envelope_Distance : Envelope -> Envelope -> float64.
Variable Intersects : Geometry -> Geometry -> bool.
Variable RTree : Type.
Variable BulkLoad : list BulkItem -> RTree.

(** [PrioritySearch(box, callback)]: the callback threads a state and says
    whether to stop. *)
Variable PrioritySearch :
  forall St : Type, RTree -> Box -> (Z -> St -> St * bool) -> St -> St.

Definition loadTree (xys : list XY) (lns : list line) : RTree :=
  BulkLoad
    (imap (fun i xy => mkBulkItem (Envelope_box (NewEnvelope xy))
                         (Z.of_nat i + 1)) xys ++
     imap (fun i ln => mkBulkItem (Envelope_box (line_envelope ln))
                         (- (Z.of_nat i + 1))) lns).

(** [searchBody]: the new [minDist] and whether the search stops
    ([rtree.Stop]); an index out of range panics. *)
Definition searchBody (xys2 : list XY) (lns2 : list line) (env : Envelope)
    (recordID : Z) (xyDist lnDist : nat -> option float64) (minDist : float64)
  : option (float64 * bool) :=
  let xyIdx := recordID - 1 in
  let lnIdx := - recordID - 1 in
  recordEnv ←
    (if 0 <? recordID
     then xy ← xys2 !! Z.to_nat xyIdx; Some (NewEnvelope xy)
     else if lnIdx <? 0 then None
          else ln ← lns2 !! Z.to_nat lnIdx; Some (line_envelope ln));
  if PrimFloat.ltb minDist (Envelope_Distance recordEnv env)
  then Some (minDist, true)
  else if 0 <? recordID
       then d ← xyDist (Z.to_nat xyIdx); Some (math_Min minDist d, false)
       else d ← lnDist (Z.to_nat lnIdx); Some (math_Min minDist d, false).

(** The callback handed to [PrioritySearch]: once it has panicked nothing
    more happens. *)
Definition visit (body : Z -> float64 -> option (float64 * bool))
    (recordID : Z) (st : option float64) : option float64 * bool :=
  match st with
  | None => (None, true)
  | Some minDist =>
      match body recordID minDist with
      | None => (None, true)
      | Some (minDist', stop) => (Some minDist', stop)
      end
  end.

Definition distance (g1 g2 : Geometry) : option (float64 * bool) :=
  if Intersects g1 g2 then Some (0%float, true)
  else
    let '(xys1, lns1) := extractXYsAndLines g1 in
    let '(xys2, lns2) := extractXYsAndLines g2 in
    let tr := loadTree xys2 lns2 in
    let minDist := Some math_Inf in
    let minDist :=
      fold_left
        (fun minDist xy =>
           let xyEnv := NewEnvelope xy in
           PrioritySearch _ tr (Envelope_box xyEnv)
             (visit (fun recordID =>
                       searchBody xys2 lns2 xyEnv recordID
                         (fun i => p ← xys2 !! i; Some (distBetweenXYs xy p))
                         (fun i => l ← lns2 !! i; Some (distBetweenXYAndLine xy l))))
             minDist)
        xys1 minDist in
    let minDist :=
      fold_left
        (fun minDist ln =>
           let lnEnv := line_envelope ln in
           PrioritySearch _ tr (Envelope_box lnEnv)
             (visit (fun recordID =>
                       searchBody xys2 lns2 lnEnv recordID
                         (fun i => p ← xys2 !! i; Some (distBetweenXYAndLine p ln))
                         (fun i => l ← lns2 !! i; Some (distBetweenLineAndLine l ln))))
             minDist)
        lns1 minDist in
    minDist ← minDist;
    if math_IsInf_pos minDist then Some (0%float, false)
    else Some (minDist, true).

(** ** The empty side *)

(** What is asked of the search: in a tree loaded with nothing the callback
    is never called. *)
Hypothesis PrioritySearch_empty :
  forall (St : Type) (box : Box) (callback : Z -> St -> St * bool) (s : St),
    PrioritySearch St (BulkLoad []) box callback s = s.

Lemma fold_left_same {A B : Type} (f : A -> B -> A) (l : list B) (s : A) :
  (forall x, f s x = s) -> fold_left f l s = s.
Proof.
  intros Hf. induction l as [|x l IH]; [reflexivity|].
  simpl. rewrite Hf. exact IH.
Qed.

(** X18. When one of the two geometries holds no point and no segment and
    the two do not intersect, [distance] answers [(0, false)]: nothing is
    searched for, or the tree searched is empty, and [minDist] is still
    [+Inf] at the end. *)
Lemma distance_empty_side (g1 g2 : Geometry) :
  Intersects g1 g2 = false ->
  extractXYsAndLines g1 = ([], []) \/ extractXYsAndLines g2 = ([], []) ->
  distance g1 g2 = Some (0%float, false).
Proof using PrioritySearch_empty.
  intros Hint Hempty. unfold distance. rewrite Hint.
  destruct Hempty as [E|E]; rewrite E.
  - destruct (extractXYsAndLines g2) as [xys2 lns2]. reflexivity.
  - destruct (extractXYsAndLines g1) as [xys1 lns1].
    unfold loadTree. cbn [imap app].
    rewrite !fold_left_same; [reflexivity| |];
      intros x; apply PrioritySearch_empty.
Qed.

(** ** One record *)

(** What is asked of the search: in a tree loaded with one record the
    callback is called with it, once. *)
Hypothesis PrioritySearch_single :
  forall (St : Type) (item : BulkItem) (box : Box)
         (callback : Z -> St -> St * bool) (s : St),
    PrioritySearch St (BulkLoad [item]) box callback s
    = fst (callback (RecordID item) s).

(** Nothing is beyond [+Inf]: the first record met is never pruned. *)
Lemma ltb_infinity (x : float64) : PrimFloat.ltb PrimFloat.infinity x = false.
Proof.
  rewrite ltb_spec.
  change (Prim2SF PrimFloat.infinity) with (S754_infinity false).
  destruct (Prim2SF x) as [s|s| |s m e]; try destruct s; reflexivity.
Qed.

Lemma distance_two_points (p q : XY) :
  Intersects (GPoint (Some p)) (GPoint (Some q)) = false ->
  distance (GPoint (Some p)) (GPoint (Some q))
  = let minDist := math_Min math_Inf (distBetweenXYs p q) in
    if math_IsInf_pos minDist then Some (0%float, false)
    else Some (minDist, true).
Proof using PrioritySearch_single.
  intros Hint. unfold distance. rewrite Hint.
  cbn [extractXYsAndLines Point_asXYs fold_left].
  unfold loadTree. cbn [imap app].
  rewrite PrioritySearch_single.
  cbn [RecordID visit]. unfold searchBody.
  change (0 <? Z.of_nat 0 + 1) with true.
  change (Z.to_nat (Z.of_nat 0 + 1 - 1)) with 0%nat.
  cbn [lookup list_lookup mbind option_bind].
  unfold math_Inf at 1. rewrite ltb_infinity.
  cbn [mbind option_bind fst]. reflexivity.
Qed.

(** ** The record ids *)

(** The items [loadTree] hands to [BulkLoad]. *)
Definition treeItems (xys : list XY) (lns : list line) : list BulkItem :=
  imap (fun i xy => mkBulkItem (Envelope_box (NewEnvelope xy))
                      (Z.of_nat i + 1)) xys ++
  imap (fun i ln => mkBulkItem (Envelope_box (line_envelope ln))
                      (- (Z.of_nat i + 1))) lns.

Lemma loadTree_items (xys : list XY) (lns : list line) :
  loadTree xys lns = BulkLoad (treeItems xys lns).
Proof. reflexivity. Qed.

(** X17. The record ids of [loadTree] lead [searchBody] back to what they
    were made for: the item at position [i] is made for point [i], the item
    at position [len(xys) + i] for segment [i]; from the id of either,
    [searchBody] takes the envelope and the distance of that very point or
    segment, and no index is out of range. *)
Theorem recordID_round_trip (xys : list XY) (lns : list line) (env : Envelope)
    (xyDist lnDist : nat -> option float64) (minDist : float64) (i : nat) :
  (i < length xys + length lns)%nat ->
  exists item : BulkItem,
    treeItems xys lns !! i = Some item /\
    ((exists xy : XY,
         xys !! i = Some xy /\
         ItemBox item = Envelope_box (NewEnvelope xy) /\
         searchBody xys lns env (RecordID item) xyDist lnDist minDist
         = if PrimFloat.ltb minDist (Envelope_Distance (NewEnvelope xy) env)
           then Some (minDist, true)
           else d ← xyDist i; Some (math_Min minDist d, false)) \/
     (exists ln : line,
         (length xys <= i)%nat /\ lns !! (i - length xys)%nat = Some ln /\
         ItemBox item = Envelope_box (line_envelope ln) /\
         searchBody xys lns env (RecordID item) xyDist lnDist minDist
         = if PrimFloat.ltb minDist (Envelope_Distance (line_envelope ln) env)
           then Some (minDist, true)
           else d ← lnDist (i - length xys)%nat; Some (math_Min minDist d, false))).
Proof.
  intros Hi. unfold treeItems.
  destruct (Nat.lt_ge_cases i (length xys)) as [Hxy|Hln].
  - destruct (lookup_lt_is_Some_2 xys i Hxy) as [xy Hlook].
    eexists. split.
    { rewrite lookup_app_l by (rewrite length_imap; exact Hxy).
      rewrite list_lookup_imap, Hlook. reflexivity. }
    left. exists xy. split; [exact Hlook|]. split; [reflexivity|].
    cbn [RecordID]. unfold searchBody.
    destruct (Z.ltb_spec 0 (Z.of_nat i + 1)) as [_|Hbad]; [|lia].
    replace (Z.to_nat (Z.of_nat i + 1 - 1)) with i by lia.
    rewrite Hlook. reflexivity.
  - destruct (lookup_lt_is_Some_2 lns (i - length xys)%nat ltac:(lia)) as [ln Hlook].
    eexists. split.
    { rewrite lookup_app_r by (rewrite length_imap; exact Hln).
      rewrite length_imap, list_lookup_imap, Hlook. reflexivity. }
    right. exists ln. split; [exact Hln|]. split; [exact Hlook|].
    split; [reflexivity|].
    cbn [RecordID]. unfold searchBody.
    destruct (Z.ltb_spec 0 (- (Z.of_nat (i - length xys)%nat + 1))) as [Hbad|_];
      [lia|].
    destruct (Z.ltb_spec (- - (Z.of_nat (i - length xys)%nat + 1) - 1) 0)
      as [Hbad|_]; [lia|].
    replace (Z.to_nat (- - (Z.of_nat (i - length xys)%nat + 1) - 1))
      with (i - length xys)%nat by lia.
    rewrite Hlook. reflexivity.
Qed.

End Engine.

(** ** The least of two numbers *)

(** The place [math.Min] gives a number: [-Inf] first, then NaN, then the
    numbers in their order, the negative zero before the positive one. *)
Definition grade (f : spec_float) : Z * Z * Z :=
  match f with
  | S754_infinity true => (-4, 0, 0)
  | S754_nan => (-3, 0, 0)
  | S754_finite true m e => (-1, - e, - Z.pos m)
  | S754_zero true => (0, -1, 0)
  | S754_zero false => (0, 0, 0)
  | S754_finite false m e => (1, e, Z.pos m)
  | S754_infinity false => (2, 0, 0)
  end%Z.

Lemma grade_inj (f g : spec_float) : grade f = grade g -> f = g.
Proof.
  destruct f as [[|]|[|]| |[|] m1 e1], g as [[|]|[|]| |[|] m2 e2];
    cbn [grade]; intros E; inversion E; try reflexivity; f_equal; lia.
Qed.

Lemma is_nan_spec (x : float64) :
  PrimFloat.is_nan x
  = match Prim2SF x with S754_nan => true | _ => false end.
Proof.
  unfold PrimFloat.is_nan. rewrite FloatAxioms.eqb_spec.
  destruct (Prim2SF x) as [s|s| |s m e]; try destruct s; try reflexivity;
    unfold SFeqb, SFcompare; rewrite Z.compare_refl;
    change (Pos.compare_cont Eq m m) with (Pos.compare m m);
    rewrite Pos.compare_refl; reflexivity.
Qed.

Lemma float_of_spec (x y : float64) : Prim2SF x = Prim2SF y -> x = y.
Proof. apply Prim2SF_inj. Qed.

(** [math.Min] returns the one of its arguments that comes first. *)
Lemma math_Min_least (x y : float64) :
  (~ RTree.before (grade (Prim2SF y)) (grade (Prim2SF x)) -> math_Min x y = x) /\
  (~ RTree.before (grade (Prim2SF x)) (grade (Prim2SF y)) -> math_Min x y = y).
Proof.
  unfold math_Min, math_Signbit.
  rewrite !is_nan_spec, !FloatAxioms.eqb_spec, FloatAxioms.ltb_spec,
    FloatAxioms.classify_spec.
  change (Prim2SF PrimFloat.neg_infinity) with (S754_infinity true).
  change (Prim2SF PrimFloat.zero) with (S754_zero false).
  assert (Hninf : forall z, Prim2SF z = S754_infinity true ->
                            PrimFloat.neg_infinity = z)
    by (intros z Hz; apply float_of_spec; rewrite Hz; reflexivity).
  assert (Hnan : forall z, Prim2SF z = S754_nan -> PrimFloat.nan = z)
    by (intros z Hz; apply float_of_spec; rewrite Hz; reflexivity).
  assert (Hsame : Prim2SF x = Prim2SF y -> x = y) by apply float_of_spec.
  destruct (Prim2SF x) as [[|]|[|]| |[|] m1 e1] eqn:Hx,
           (Prim2SF y) as [[|]|[|]| |[|] m2 e2] eqn:Hy;
    cbn [grade RTree.before SFeqb SFltb SFcompare SF64classify SFclassify
         orb andb];
    try (split; intros Hb;
         first [ reflexivity
               | exfalso; apply Hb; lia
               | apply Hninf; assumption
               | apply Hnan; assumption
               | apply Hsame; reflexivity
               | symmetry; apply Hsame; reflexivity ]).
  all: try (destruct (Z.pos (digits2_pos m1) =? 53)%Z).
  all: change (Pos.compare_cont Eq m1 m2) with (Pos.compare m1 m2).
  all: destruct (Z.compare_spec e1 e2) as [He|He|He];
    destruct (Pos.compare_spec m1 m2) as [Hm|Hm|Hm];
    cbn [CompOpp];
    split; intros Hb;
    first [ reflexivity
          | exfalso; apply Hb; lia
          | subst; apply Hsame; reflexivity
          | subst; symmetry; apply Hsame; reflexivity ].
Qed.

Lemma math_Min_cases (x y : float64) :
  (math_Min x y = x /\ ~ RTree.before (grade (Prim2SF y)) (grade (Prim2SF x))) \/
  (math_Min x y = y /\ RTree.before (grade (Prim2SF y)) (grade (Prim2SF x))).
Proof.
  destruct (math_Min_least x y) as [Hx Hy].
  destruct (grade (Prim2SF x)) as [[a1 b1] c1],
           (grade (Prim2SF y)) as [[a2 b2] c2].
  cbn [RTree.before] in *.
  assert (Hdec : ((a2 < a1 \/ a2 = a1 /\ (b2 < b1 \/ b2 = b1 /\ c2 < c1)) \/
                  ~ (a2 < a1 \/ a2 = a1 /\ (b2 < b1 \/ b2 = b1 /\ c2 < c1)))%Z)
    by lia.
  destruct Hdec as [Hlt|Hge].
  - right. split; [apply Hy; lia|exact Hlt].
  - left. split; [apply Hx; exact Hge|exact Hge].
Qed.

Lemma math_Min_comm (x y : float64) : math_Min x y = math_Min y x.
Proof.
  destruct (math_Min_least x y) as [Hx Hy].
  destruct (math_Min_least y x) as [Hy' Hx'].
  destruct (grade (Prim2SF x)) as [[a1 b1] c1],
           (grade (Prim2SF y)) as [[a2 b2] c2].
  cbn [RTree.before] in *.
  assert (Hdec : ((a2 < a1 \/ a2 = a1 /\ (b2 < b1 \/ b2 = b1 /\ c2 < c1)) \/
                  ~ (a2 < a1 \/ a2 = a1 /\ (b2 < b1 \/ b2 = b1 /\ c2 < c1)))%Z)
    by lia.
  destruct Hdec as [Hlt|Hge].
  - rewrite Hy by lia. rewrite Hy' by lia. reflexivity.
  - rewrite Hx by exact Hge. rewrite Hx' by exact Hge. reflexivity.
Qed.

Lemma math_Min_assoc (x y z : float64) :
  math_Min (math_Min x y) z = math_Min x (math_Min y z).
Proof.
  destruct (math_Min_cases x y) as [[Exy Hxy]|[Exy Hxy]];
    destruct (math_Min_cases y z) as [[Eyz Hyz]|[Eyz Hyz]];
    rewrite Exy, Eyz; try rewrite Exy; try rewrite Eyz; try reflexivity.
  - destruct (math_Min_least x z) as [Hx _]. rewrite Hx; [reflexivity|].
    destruct (grade (Prim2SF x)) as [[a1 b1] c1],
             (grade (Prim2SF y)) as [[a2 b2] c2],
             (grade (Prim2SF z)) as [[a3 b3] c3].
    cbn [RTree.before] in *. lia.
  - destruct (math_Min_least x z) as [_ Hz]. rewrite Hz; [reflexivity|].
    destruct (grade (Prim2SF x)) as [[a1 b1] c1],
             (grade (Prim2SF y)) as [[a2 b2] c2],
             (grade (Prim2SF z)) as [[a3 b3] c3].
    cbn [RTree.before] in *. lia.
Qed.

Lemma fold_math_Min_Permutation (l l' : list float64) :
  Permutation l l' ->
  forall start : float64, fold_left math_Min l start = fold_left math_Min l' start.
Proof.
  induction 1 as [|d l l' _ IH|d1 d2 l|l1 l2 l3 _ IH1 _ IH2]; intros start.
  - reflexivity.
  - cbn [fold_left]. apply IH.
  - cbn [fold_left]. f_equal.
    rewrite !math_Min_assoc. f_equal. apply math_Min_comm.
  - rewrite IH1. apply IH2.
Qed.

(** X19. The distance between two segments does not depend on the order
    in which they are given: [distBetweenLineAndLine] takes the least of
    the same four distances either way, and [math.Min] gives the same least
    in any order, NaN, the infinities and the two zeros included. *)
Theorem distBetweenLineAndLine_sym (ln1 ln2 : line) :
  distBetweenLineAndLine ln1 ln2 = distBetweenLineAndLine ln2 ln1.
Proof.
  unfold distBetweenLineAndLine. apply fold_math_Min_Permutation.
  apply (Permutation_app_comm
           [distBetweenXYAndLine (a ln1) ln2; distBetweenXYAndLine (b ln1) ln2]
           [distBetweenXYAndLine (a ln2) ln1; distBetweenXYAndLine (b ln2) ln1]).
Qed.

(** X20. [distBetweenLineAndLine] returns [+Inf] or one of the four
    distances it takes, each from an end of one segment to the other
    segment; so it is never [-Inf] or NaN unless one of the four is. *)
Theorem distBetweenLineAndLine_is_one (ln1 ln2 : line) :
  In (distBetweenLineAndLine ln1 ln2)
    [math_Inf;
     distBetweenXYAndLine (a ln1) ln2; distBetweenXYAndLine (b ln1) ln2;
     distBetweenXYAndLine (a ln2) ln1; distBetweenXYAndLine (b ln2) ln1].
Proof.
  unfold distBetweenLineAndLine. cbn [fold_left].
  repeat match goal with
         | |- context [math_Min ?u ?v] =>
             lazymatch u with
             | context [math_Min _ _] => fail
             | _ => destruct (math_Min_cases u v) as [[-> _]|[-> _]]
             end
         end; cbn [In]; auto 10.
Qed.


(** ** Two points far apart *)

Local Open Scope float_scope.

Definition far : float64 := 0x1.8p1023%float.

(** Modelled from the spec: the envelope of a point and of a segment, its
    box, and the least distance between two envelopes and between two boxes
    (none of them in the sources). *)
Definition envelopeOf (p q : XY) : Envelope :=
  mkEnvelope (mkXY (fmin (X p) (X q)) (fmin (Y p) (Y q)))
             (mkXY (fmax (X p) (X q)) (fmax (Y p) (Y q))).

Definition boxOf (e : Envelope) : Box :=
  mkBox (X (min e)) (Y (min e)) (X (max e)) (Y (max e)).

Definition boxDistance (b1 b2 : Box) : float64 :=
  let dx := fmax 0 (fmax (MinX b2 - MaxX b1) (MinX b1 - MaxX b2)) in
  let dy := fmax 0 (fmax (MinY b2 - MaxY b1) (MinY b1 - MaxY b2)) in
  PrimFloat.sqrt (dx * dx + dy * dy).

Definition envelopeDistance (e o : Envelope) : float64 :=
  boxDistance (boxOf e) (boxOf o).

(** Modelled from the spec: the priority search emits the record ids in
    ascending order of the least distance from the query box to the record's
    box, until the visitor says stop. The tree is its list of items. *)
Fixpoint insertByDistance (box : Box) (item : BulkItem) (sorted : list BulkItem)
  : list BulkItem :=
  match sorted with
  | [] => [item]
  | first :: rest =>
      if PrimFloat.ltb (boxDistance box (ItemBox item))
                       (boxDistance box (ItemBox first))
      then item :: sorted
      else first :: insertByDistance box item rest
  end.

Fixpoint visitAll (St : Type) (items : list BulkItem)
    (callback : Z -> St -> St * bool) (s : St) : St :=
  match items with
  | [] => s
  | item :: rest =>
      let '(s', stop) := callback (RecordID item) s in
      if stop then s' else visitAll St rest callback s'
  end.

Definition prioritySearch (St : Type) (items : list BulkItem) (box : Box)
    (callback : Z -> St -> St * bool) (s : St) : St :=
  visitAll St (fold_right (insertByDistance box) [] items) callback s.

Lemma prioritySearch_single (St : Type) (item : BulkItem) (box : Box)
    (callback : Z -> St -> St * bool) (s : St) :
  prioritySearch St [item] box callback s = fst (callback (RecordID item) s).
Proof.
  unfold prioritySearch. simpl.
  destruct (callback (RecordID item) s) as [s' stop].
  destruct stop; reflexivity.
Qed.

(** [Intersects] where the examples need it: two points meet when they are
    the same point, and a point and a segment of the examples do not. *)
Definition samePoint (g1 g2 : Geometry) : bool :=
  match g1, g2 with
  | GPoint (Some p), GPoint (Some q) => XY_eqb p q
  | _, _ => false
  end.

Definition distanceOver (g1 g2 : Geometry) : option (float64 * bool) :=
  distance (fun xy => envelopeOf xy xy) (fun ln => envelopeOf (a ln) (b ln))
    boxOf envelopeDistance samePoint (list BulkItem) (fun items => items)
    prioritySearch g1 g2.

Example distance_point_line :
  distanceOver (GPoint (Some (mkXY 0 0)))
    (GLineString [mkXY 3 0; mkXY 3 4])
  = Some (3%float, true).
Proof. vm_compute. reflexivity. Qed.

Example distance_point_polygon :
  distanceOver (GPoint (Some (mkXY 0 0)))
    (GPolygon [[mkXY 10 10; mkXY 10 11; mkXY 11 11; mkXY 11 10; mkXY 10 10]])
  = Some (PrimFloat.sqrt 200, true).
Proof. vm_compute. reflexivity. Qed.

Example distance_to_empty :
  distanceOver (GPoint (Some (mkXY 0 0))) (GMultiPoint [])
  = Some (0%float, false).
Proof. vm_compute. reflexivity. Qed.

(** C9. Two points, neither empty, that do not meet: the difference of
    their coordinates is beyond the largest [float64], the one distance found
    is [+Inf], the value [minDist] starts from, and [distance] answers
    [(0, false)] as it does when a side is empty. *)
Theorem distance_far_points :
  extractXYsAndLines (GPoint (Some (mkXY far 0))) <> ([], []) /\
  extractXYsAndLines (GPoint (Some (mkXY (- far) 0))) <> ([], []) /\
  samePoint (GPoint (Some (mkXY far 0))) (GPoint (Some (mkXY (- far) 0))) = false /\
  distanceOver (GPoint (Some (mkXY far 0))) (GPoint (Some (mkXY (- far) 0)))
  = Some (0%float, false).
Proof.
  split; [discriminate|]. split; [discriminate|].
  split; [reflexivity|].
  unfold distanceOver.
  rewrite distance_two_points;
    [reflexivity|exact prioritySearch_single|reflexivity].
Qed.

(** ** The record ids and the empty side, on the examples *)

Definition items_example_xys : list XY := [mkXY 0 0; mkXY 5 5].
Definition items_example_lns : list line := [mkLine (mkXY 3 0) (mkXY 3 4)].

Lemma recordID_round_trip_witness :
  exists item : BulkItem,
    treeItems (fun xy => envelopeOf xy xy) (fun ln => envelopeOf (a ln) (b ln))
      boxOf items_example_xys items_example_lns !! 2%nat = Some item /\
    ((exists xy : XY,
         items_example_xys !! 2%nat = Some xy /\
         ItemBox item = boxOf (envelopeOf xy xy) /\
         searchBody (fun xy => envelopeOf xy xy)
           (fun ln => envelopeOf (a ln) (b ln)) envelopeDistance
           items_example_xys items_example_lns
           (envelopeOf (mkXY 0 0) (mkXY 0 0)) (RecordID item)
           (fun _ => Some 1) (fun _ => Some 2) math_Inf
         = if PrimFloat.ltb math_Inf
                (envelopeDistance (envelopeOf xy xy)
                   (envelopeOf (mkXY 0 0) (mkXY 0 0)))
           then Some (math_Inf, true)
           else d ← Some 1; Some (math_Min math_Inf d, false)) \/
     (exists ln : line,
         (length items_example_xys <= 2)%nat /\
         items_example_lns !! (2 - length items_example_xys)%nat = Some ln /\
         ItemBox item = boxOf (envelopeOf (a ln) (b ln)) /\
         searchBody (fun xy => envelopeOf xy xy)
           (fun ln => envelopeOf (a ln) (b ln)) envelopeDistance
           items_example_xys items_example_lns
           (envelopeOf (mkXY 0 0) (mkXY 0 0)) (RecordID item)
           (fun _ => Some 1) (fun _ => Some 2) math_Inf
         = if PrimFloat.ltb math_Inf
                (envelopeDistance (envelopeOf (a ln) (b ln))
                   (envelopeOf (mkXY 0 0) (mkXY 0 0)))
           then Some (math_Inf, true)
           else d ← Some 2; Some (math_Min math_Inf d, false))).
Proof.
  apply (recordID_round_trip (fun xy => envelopeOf xy xy)
           (fun ln => envelopeOf (a ln) (b ln)) boxOf envelopeDistance
           items_example_xys items_example_lns
           (envelopeOf (mkXY 0 0) (mkXY 0 0))
           (fun _ => Some 1) (fun _ => Some 2) math_Inf 2).
  cbn [items_example_xys items_example_lns length]. lia.
Defined.

Lemma distance_empty_side_witness :
  distanceOver (GPoint (Some (mkXY 0 0))) (GMultiPoint [])
  = Some (0%float, false).
Proof.
  apply (distance_empty_side (fun xy => envelopeOf xy xy)
           (fun ln => envelopeOf (a ln) (b ln)) boxOf envelopeDistance
           samePoint (list BulkItem) (fun items => items) prioritySearch
           (fun St box callback s => eq_refl)
           (GPoint (Some (mkXY 0 0))) (GMultiPoint [])).
  - reflexivity.
  - right. reflexivity.
Defined.

End Distance.
